(* ===== verification/_CoqProject ===== *)
-Q . S2P
Prelude.v
RustStd.v
Layout.v
Common.v
Vmlinux.v
Ebpf.v
EbpfSpec.v
KernelMaps.v
EbpfProps.v
Tracepoints.v
Concurrent.v
Overlap.v
Lossy.v
Capacity.v
Consumer.v
Slots.v
Clock.v
Trace.v
Ui.v
Causal.v
CausalProps.v
ExplainRef.v
ReportText.v
Paths.v
Os.v
BuildScripts.v
Child.v
Bpf.v
BpfProps.v
Cli.v
GroundTruth.v
Bystanders.v
Pipeline.v
Simulated.v
WholeRun.v
CliProps.v
Limits.v
Synthetic.v
SyntheticMemory.v
SyntheticMain.v
IntegrationTest.v
