(* ===== verification/Prelude.v ===== *)
(** * whyslow: a verification development

    whyslow answers why a Linux process was slow. Five eBPF programs record
    when the threads of one process were off the CPU, in a futex system call,
    or waiting for block I/O; the command line tool drains those records,
    saves them, and explains the longest stalls by walking from each blocked
    thread to the thread that woke it, and on to what that one had waited for.
    This library models the program in Rocq and proves what makes it correct.

    ** The parts, and where they are

    - whyslow-common/src/lib.rs, the event record and the block keys: [Common],
      with [Layout] for what [repr(C)] means.
    - whyslow-ebpf/src/vmlinux.rs, the tracepoint records: [Vmlinux]; the
      handlers on the bytes of such a record: [Tracepoints].
    - whyslow-ebpf/src/main.rs, the five handlers: [Ebpf]. Its [kernel] is the
      program's maps, with one function per handler. [EbpfSpec] is the
      specification over histories of probes and the simulation, [KernelMaps]
      two implementations of the kernel's maps, [EbpfProps] the properties,
      [Concurrent] the handlers as sequences of single map operations,
      interleaved, with the condition under which that changes nothing;
      [Overlap] what happens without it; [Lossy] what is left with any
      capacities, [Capacity] the runs that fit the declared ones, [Consumer]
      the CLI reading the ring buffer meanwhile, [Slots] the reservation, the
      writing and the submission of an event as steps apart, [Clock] the times
      of such runs.
    - whyslow-cli/src/trace.rs: [Trace]. whyslow-cli/src/ui.rs: [Ui].
    - whyslow-cli/src/causal.rs, the inference and its output: [Causal] and
      [CausalProps]; [ExplainRef] has a reference without cache and state,
      [ReportText] that the report is text.
    - whyslow-cli/src/child.rs: [Child]. whyslow-cli/src/bpf.rs: [Bpf] and
      [BpfProps]. whyslow-cli/src/main.rs: [Cli] and [CliProps]. These three
      are computations of the monad [M] of [Os], over a class [Os] of the
      calls they make to libc, the standard library, serde_json and aya.
    - synthetic/src/main.rs, the reproducer: [Synthetic] has the mutex, the
      holder's reads and the two threads, [SyntheticMemory] its buffer and
      file, [SyntheticMain] the main thread.
    - whyslow-cli/tests/integration.rs, the whole test over a record of the
      calls it makes: [IntegrationTest].
    - whyslow-cli/build.rs and whyslow-ebpf/build.rs: [BuildScripts]. [Paths]
      has what these and the test use of [std::path].
    - across the parts: [GroundTruth] says what the reproducer is built to
      make happen, in a recording of whatever else happens too, [Bystanders]
      follows it from the interleaved handlers to the printed lines,
      [Pipeline] has any interleaving of handlers, the steps of [emit] and
      consumer, [Simulated] is an executable environment in
      which the whole tool runs, [WholeRun] proves what [run] and [attach] do
      there for every script of probes, [Limits] proves what the program does
      not catch.

    [Prelude] (this file) has the machine integers, tactics and shared lemmas;
    [RustStd] what the source uses of Rust's standard library: [max_by_key],
    [min_by_key], the stable sort, integer and float formatting, lossy UTF-8.

    ** How state and operations correspond

    A probe is one handler invocation: the helpers' answers and the record
    read at offset 0 ([None] when the read fails) are its inputs, the [kernel]
    its state. The kernel's hash maps and ring buffer are seen through the
    classes [BpfHashMap] and [BpfRingBuf] and their laws; a refused insertion
    or reservation is ignored, as in the code. The CLI's functions are state
    passing over the environment [W], a log of the calls whose order matters,
    and the [OnceLock] of the colour decision; an error is the [anyhow] chain
    of messages, a panic ends the computation. The mutex of the reproducer is
    a step relation on the word and the threads' program counters, and its
    process one on these, the main thread's place and the output. In
    [Concurrent] a handler is what is left of it ([micro]): each of its map
    operations is a step of its own on the shared [kernel]; in [Consumer] so
    is each item the CLI takes. Which handlers may be in flight together is
    the machine's admission, a parameter: nothing in the program restricts it,
    and with [anything] every interleaving is a run. The theorems that need
    it say [exclusive]: no two in flight are about the same thread, the same
    thread's futex call or the same block request. In [Slots] the ring buffer
    is a queue of numbered entries, and [emit] is three steps: the
    reservation, then the writing and the submission of [emit_ops], with other
    handlers and the CLI in between, which waits at an entry that is not
    submitted, also when later ones are. [view] forgets the difference; by it
    every run with entries is a session of [Consumer]
    ([slots_refine_sessions], for every admission).

    ** What the theorems show

    - The handlers: they record exactly the specified events ([EbpfSpec]), a
      subsequence when something overflows, which no run of up to 4095 probes
      does; only of the target, with exact spans, and nothing before a target
      is set. All of it also holds when handlers in flight on several
      processors interleave with each other and with the consumer, if no two
      of them are about the same thread or request ([exclusive]); spans are
      exact then if the handlers read one clock that does not go back, between
      their beginning and their return ([session_span_exact]). Without
      [exclusive] a request can be recorded twice
      ([overlapping_completions_recorded_twice]). The handlers find every
      field at its place in the kernel's records ([handlers_read_records]),
      and the decoder recovers every event from its bytes.
    - The inference: the two window joins and the classifications against
      declarative meanings; [explain] is total and each of its chains is a
      sound derivation, at most 16 lines long, going back in time; the stalls
      shown are the longest. [explain] equals a reference definition that has
      no state, reads each device link at most once, and prints text whatever
      it read ([explain_text]).
    - The whole: what [explain] prints of any interleaved recording within the
      capacities, with every step of [emit] and every read in between, is the
      reference explanation of the specified events, under [exclusive] and
      once no handler is inside [emit].
    - The tool: [run] lets the child go only with tracing in place; a
      successful run has saved exactly the items it drained; the drain loop
      returns exactly when its session with the environment ends, and it ends
      when polls bring the stop closer; error paths and exit codes. In the
      simulated environment [run] and [attach] refine the specification of
      the handlers end to end, and [explain] reproduces their report, also
      when both commands are given no option.
    - The reproducer: mutual exclusion, no lost wake-up, that the waiter's
      wake is the holder's, that the process can always come to an end without
      the help of a spurious return, and which end, also when a thread cannot
      be spawned or the line not be printed; its buffer is freed once and its
      reads stay within it. Of any recording in which that chain happens
      within the join windows, with nothing recorded closer, the whole
      pipeline reports it ([ground_truth_among_others]), and the integration
      test, from its check for root to the removal of the trace file, passes
      on that report and the line the reproducer prints.
    - The build: the eBPF crate is built from its directory in the workspace,
      and where it is no sibling the script fails and builds nothing.
    - Limits: requests recorded twice by overlapping completions, wakes the
      join wrongly accepts or misses, preempted threads counted as blocked, a deadline that panics, an exit that is never seen.

    ** Fuel and bounds

    The chain walk has fuel [walk_fuel], the depth guard's 8, and [explain]
    never runs out of it ([explain_sound]). The loops of the CLI take their
    fuel as an argument: running out is the outcome [OutOfFuel], and the
    theorems on them hold for every fuel, or say that enough exists
    ([drain_loop_session], [drain_loop_terminates]) or how much
    ([run_reports_specified]). Decimal and hexadecimal
    formatting and lossy UTF-8 have fuel that bounds their recursion by the
    input's size. Integers are [Z] with Rust's casts and saturation written
    out; [clock_ns] wraps as a release build does.

    ** What is not modelled

    JSON (serde_json), the splitting of the argument strings (clap; the
    declared defaults are modelled), aya, aya-build, cargo_metadata, which,
    libc and [std::process] are the environment. In the CLI files are not
    closed, and [println!] does not fail (in the reproducer it may). The error that [expect] adds to the message of the test's panics is
    left out. The panic handler of the eBPF programs only loops, and the
    packaging has no model. *)

From Stdlib Require Export ZArith Lia.
From stdpp Require Export base tactics option list gmap strings sorting numbers.
Export list_basics.list list_relations.list list_monad.list list_misc.list.

Declare Scope whyslow_scope.
Delimit Scope whyslow_scope with whyslow.
#[global] Open Scope whyslow_scope.
#[global] Open Scope Z_scope.

(** ** Machine integers

    A Rust integer of width [w] is a [Z]; the range predicates say which
    values it takes, and the [as_*] functions are Rust's [as] casts. *)

Definition is_uint (w z : Z) : Prop := 0 <= z < 2 ^ w.
Definition as_uint (w z : Z) : Z := z mod 2 ^ w.

Abbreviation is_u8 := (is_uint 8).
Abbreviation is_u32 := (is_uint 32).
Abbreviation is_u64 := (is_uint 64).
Abbreviation as_u32 := (as_uint 32).
Abbreviation as_u64 := (as_uint 64).

Definition as_sint (w z : Z) : Z :=
  let m := z mod 2 ^ w in if m <? 2 ^ (w - 1) then m else m - 2 ^ w.

Abbreviation as_i32 := (as_sint 32).
Abbreviation is_i32 z := (- 2 ^ 31 <= z < 2 ^ 31).
Abbreviation is_i64 z := (- 2 ^ 63 <= z < 2 ^ 63).

(** Rust's [saturating_sub] on an unsigned type, and [!x] on [u32]. *)
Definition saturating_sub (a b : Z) : Z := Z.max 0 (a - b).
Definition u32_not (z : Z) : Z := Z.lxor z (2 ^ 32 - 1).

(** ** Results

    [Result<T, E>] with the error first, so that [result E] is a monad. *)

Inductive result (E A : Type) : Type :=
  | Ok (a : A)
  | Err (e : E).
Arguments Ok {E A} a.
Arguments Err {E A} e.

Definition ok {E A : Type} (r : result E A) : option A :=
  match r with Ok a => Some a | Err _ => None end.

Definition map_err {E F A : Type} (f : E -> F) (r : result E A) : result F A :=
  match r with Ok a => Ok a | Err e => Err (f e) end.

#[global] Instance result_ret E : MRet (result E) := fun _ a => Ok a.
#[global] Instance result_bind E : MBind (result E) := fun _ _ f r =>
  match r with Ok a => f a | Err e => Err e end.

(** ** Tactics *)

(** Split a boolean test in the goal or a hypothesis into its [Prop] form. *)
Ltac zbool :=
  repeat match goal with
  | H : andb _ _ = true |- _ => apply andb_prop in H as [? ?]
  | H : (_ <=? _) = true |- _ => apply Z.leb_le in H
  | H : (_ <=? _) = false |- _ => apply Z.leb_gt in H
  | H : (_ <? _) = true |- _ => apply Z.ltb_lt in H
  | H : (_ <? _) = false |- _ => apply Z.ltb_ge in H
  | H : (_ =? _) = true |- _ => apply Z.eqb_eq in H
  | H : (_ =? _) = false |- _ => apply Z.eqb_neq in H
  end.

(** Case on every [if] over an arithmetic test, in the goal. *)
Ltac zcase :=
  repeat match goal with
  | |- context [if ?a <=? ?b then _ else _] => destruct (Z.leb_spec a b)
  | |- context [if ?a <? ?b then _ else _] => destruct (Z.ltb_spec a b)
  | |- context [if ?a =? ?b then _ else _] => destruct (Z.eqb_spec a b)
  end.

(** Invert a [bind] that returned a value. *)
Ltac inv_bind H :=
  match type of H with
  | mbind _ ?c = Ok _ => destruct c eqn:?; [cbn in H | discriminate H]
  | mbind _ ?c = Some _ => destruct c eqn:?; [cbn in H | discriminate H]
  end.

(** ** Integer lemmas *)

Lemma as_uint_id w z : is_uint w z -> as_uint w z = z.
Proof. unfold is_uint, as_uint. intros. by apply Z.mod_small. Qed.

Lemma as_uint_range w z : 0 <= w -> is_uint w (as_uint w z).
Proof. intros Hw. apply Z.mod_pos_bound. by apply Z.pow_pos_nonneg. Qed.

Lemma as_sint_id_u w z : 1 <= w -> 0 <= z < 2 ^ (w - 1) -> as_sint w z = z.
Proof.
  intros Hw Hz. unfold as_sint.
  assert (2 ^ w = 2 * 2 ^ (w - 1)) as Hp
    by (rewrite <- (Z.pow_succ_r 2 (w - 1)) by lia; f_equal; lia).
  rewrite Z.mod_small by lia.
  destruct (Z.ltb_spec z (2 ^ (w - 1))); lia.
Qed.

Lemma saturating_sub_range w a b :
  is_uint w a -> 0 <= b -> is_uint w (saturating_sub a b).
Proof. unfold is_uint, saturating_sub. lia. Qed.

Lemma saturating_sub_exact a b : b <= a -> saturating_sub a b = a - b.
Proof. unfold saturating_sub. lia. Qed.

Lemma saturating_sub_le a b : 0 <= a -> 0 <= b -> saturating_sub a b <= a.
Proof. unfold saturating_sub. lia. Qed.

Lemma testbit_above z n w : 0 <= z < 2 ^ w -> 0 <= w <= n -> Z.testbit z n = false.
Proof.
  intros Hz Hn. destruct (Z.eq_dec z 0) as [->|]; [apply Z.bits_0|].
  apply Z.bits_above_log2; [lia|].
  apply Z.lt_le_trans with w; [|lia]. apply Z.log2_lt_pow2; lia.
Qed.

(** The low and the high half of a packed word. *)
Lemma pack_lor_add hi lo w :
  0 <= w -> 0 <= lo < 2 ^ w -> Z.lor (Z.shiftl hi w) lo = hi * 2 ^ w + lo.
Proof.
  intros Hw Hlo.
  assert (Z.land (Z.shiftl hi w) lo = 0) as Hd.
  { apply Z.bits_inj'; intros n Hn. rewrite Z.land_spec, Z.bits_0.
    destruct (Z.ltb_spec n w); [by rewrite Z.shiftl_spec_low|].
    rewrite (testbit_above lo n w), andb_false_r by lia. done. }
  rewrite <- Z.lxor_lor, <- Z.add_nocarry_lxor by done.
  by rewrite Z.shiftl_mul_pow2.
Qed.

Lemma land_low z w : 0 <= w -> Z.land z (2 ^ w - 1) = z mod 2 ^ w.
Proof.
  intros Hw. rewrite <- Z.land_ones by done. by rewrite Z.ones_equiv.
Qed.

(** ** List lemmas *)

Lemma sublist_Forall {A} (P : A -> Prop) (l1 l2 : list A) :
  l1 `sublist_of` l2 -> Forall P l2 -> Forall P l1.
Proof.
  rewrite !Forall_forall. intros Hs H x Hx. by eapply H, elem_of_sublist.
Qed.

Lemma filter_split {A} (f : A -> bool) (l m1 m2 : list A) (x : A) :
  List.filter f l = m1 ++ x :: m2 ->
  exists l1 l2, l = l1 ++ x :: l2 /\ List.filter f l1 = m1 /\ List.filter f l2 = m2 /\ f x = true.
Proof.
  revert m1. induction l as [|y l IH]; cbn; intros m1 H; [by destruct m1|].
  destruct (f y) eqn:E.
  - destruct m1 as [|z m1]; injection H as -> H.
    + by exists [], l.
    + destruct (IH _ H) as (l1 & l2 & -> & <- & <- & Hx).
      exists (z :: l1), l2. cbn. by rewrite E.
  - destruct (IH _ H) as (l1 & l2 & -> & <- & <- & Hx).
    exists (y :: l1), l2. cbn. by rewrite E.
Qed.

Lemma elem_of_filter_bool {A} (f : A -> bool) (l : list A) (x : A) :
  x ∈ List.filter f l <-> f x = true /\ x ∈ l.
Proof. rewrite !list_elem_of_In, filter_In. tauto. Qed.

Lemma Forall_filter_bool {A} (f : A -> bool) (P : A -> Prop) (l : list A) :
  Forall P (List.filter f l) <-> forall x, x ∈ l -> f x = true -> P x.
Proof.
  rewrite Forall_forall. setoid_rewrite elem_of_filter_bool. naive_solver.
Qed.

(** ** Hints *)

Create HintDb whyslow.
Create Rewrite HintDb whyslow.
#[export] Hint Resolve as_uint_range saturating_sub_range : whyslow.
#[export] Hint Rewrite saturating_sub_exact as_uint_id using (by auto with lia) : whyslow.
