(* ===== verification/RustStd.v ===== *)
(** * The parts of the Rust standard library the program uses

    Iterator adaptors ([max_by_key], [min_by_key]), the stable slice sort,
    integer and float formatting, [String::from_utf8_lossy] and the
    little-endian memory representation of integers, each as an executable
    function with the lemmas its clients need. *)

From S2P Require Import Prelude.
From Stdlib Require SpecFloat.

(** ** Iterators *)

Section MaxMin.
Context {A : Type} (key : A -> Z).

(** [Iterator::max_by_key]: of several maxima, the last one. *)
Fixpoint max_from (acc : A) (l : list A) : A :=
  match l with
  | [] => acc
  | y :: l => max_from (if key y <? key acc then acc else y) l
  end.

Definition max_by_key (l : list A) : option A :=
  match l with [] => None | x :: l => Some (max_from x l) end.

(** [Iterator::min_by_key]: of several minima, the first one. *)
Fixpoint min_from (acc : A) (l : list A) : A :=
  match l with
  | [] => acc
  | y :: l => min_from (if key y <? key acc then y else acc) l
  end.

Definition min_by_key (l : list A) : option A :=
  match l with [] => None | x :: l => Some (min_from x l) end.

(** The position of the result among the candidates, in full. *)
Definition last_max (l : list A) (x : A) : Prop :=
  exists l1 l2, l = l1 ++ x :: l2 /\
    Forall (fun y => key y <= key x) l1 /\ Forall (fun y => key y < key x) l2.

Definition first_min (l : list A) (x : A) : Prop :=
  exists l1 l2, l = l1 ++ x :: l2 /\
    Forall (fun y => key x < key y) l1 /\ Forall (fun y => key x <= key y) l2.

Lemma max_from_spec l acc : last_max (acc :: l) (max_from acc l).
Proof.
  revert acc. induction l as [|y l IH]; intros acc; cbn.
  - exists [], []. auto.
  - destruct (Z.ltb_spec (key y) (key acc)) as [Hlt|Hge].
    + pose proof (IH acc) as (l1 & l2 & Heq & H1 & H2).
      revert Heq H1 H2. generalize (max_from acc l); intros m Heq H1 H2.
      destruct l1 as [|a l1]; injection Heq as -> ->.
      * exists [], (y :: l2). split; [done|].
        split; [done|]. by constructor.
      * inversion H1; subst. exists (a :: y :: l1), l2.
        split; [done|]. split; [|done]. repeat constructor; auto; lia.
    + destruct (IH y) as (l1 & l2 & Heq & H1 & H2).
      exists (acc :: l1), l2. rewrite Heq. split; [done|]. split; [|done].
      constructor; [|done].
      destruct l1 as [|a l1]; injection Heq as Ha Hl; [by rewrite <- Ha|].
      inversion H1; subst. lia.
Qed.

Lemma min_from_spec l acc : first_min (acc :: l) (min_from acc l).
Proof.
  revert acc. induction l as [|y l IH]; intros acc; cbn.
  - exists [], []. auto.
  - destruct (Z.ltb_spec (key y) (key acc)) as [Hlt|Hge].
    + destruct (IH y) as (l1 & l2 & Heq & H1 & H2).
      exists (acc :: l1), l2. rewrite Heq. split; [done|]. split; [|done].
      constructor; [|done].
      destruct l1 as [|a l1]; injection Heq as Ha Hl; [by rewrite <- Ha|].
      inversion H1; subst. lia.
    + pose proof (IH acc) as (l1 & l2 & Heq & H1 & H2).
      revert Heq H1 H2. generalize (min_from acc l); intros m Heq H1 H2.
      destruct l1 as [|a l1]; injection Heq as -> ->.
      * exists [], (y :: l2). split; [done|].
        split; [done|]. by constructor.
      * inversion H1; subst. exists (a :: y :: l1), l2.
        split; [done|]. split; [|done]. repeat constructor; auto; lia.
Qed.

Lemma last_max_unique l x y : last_max l x -> last_max l y -> x = y.
Proof.
  intros (l1 & l2 & -> & H1 & H2) (m1 & m2 & Heq & K1 & K2).
  apply app_eq_inv in Heq as [(k & Hk & Hk2)|(k & Hk & Hk2)]; destruct k as [|z k];
    cbn in Hk2; simplify_eq; try done.
  - apply Forall_app in H1 as [_ H1]. inversion H1; subst.
    apply Forall_app in K2 as [_ K2]. inversion K2; subst. lia.
  - apply Forall_app in K1 as [_ K1]. inversion K1; subst.
    apply Forall_app in H2 as [_ H2]. inversion H2; subst. lia.
Qed.

Lemma first_min_unique l x y : first_min l x -> first_min l y -> x = y.
Proof.
  intros (l1 & l2 & -> & H1 & H2) (m1 & m2 & Heq & K1 & K2).
  apply app_eq_inv in Heq as [(k & Hk & Hk2)|(k & Hk & Hk2)]; destruct k as [|z k];
    cbn in Hk2; simplify_eq; try done.
  - apply Forall_app in H1 as [_ H1]. inversion H1; subst.
    apply Forall_app in K2 as [_ K2]. inversion K2; subst. lia.
  - apply Forall_app in K1 as [_ K1]. inversion K1; subst.
    apply Forall_app in H2 as [_ H2]. inversion H2; subst. lia.
Qed.

Lemma max_by_key_Some l x : max_by_key l = Some x <-> last_max l x.
Proof.
  destruct l as [|a l]; cbn.
  - split; [done|]. intros (l1 & l2 & Heq & _). by destruct l1.
  - split; [intros [= <-]; apply max_from_spec|].
    intros H. f_equal. eapply last_max_unique; [apply max_from_spec|done].
Qed.

Lemma min_by_key_Some l x : min_by_key l = Some x <-> first_min l x.
Proof.
  destruct l as [|a l]; cbn.
  - split; [done|]. intros (l1 & l2 & Heq & _). by destruct l1.
  - split; [intros [= <-]; apply min_from_spec|].
    intros H. f_equal. eapply first_min_unique; [apply min_from_spec|done].
Qed.

Lemma max_by_key_None l : max_by_key l = None <-> l = [].
Proof. by destruct l. Qed.

Lemma min_by_key_None l : min_by_key l = None <-> l = [].
Proof. by destruct l. Qed.

Lemma last_max_elem l x : last_max l x -> x ∈ l /\ forall y, y ∈ l -> key y <= key x.
Proof.
  intros (l1 & l2 & -> & H1 & H2). split; [set_solver|].
  rewrite Forall_forall in H1. rewrite Forall_forall in H2. intros y Hy.
  apply elem_of_app in Hy as [Hy|Hy]; [by apply H1|].
  apply elem_of_cons in Hy as [->|Hy]; [lia|]. apply H2 in Hy. lia.
Qed.

Lemma first_min_elem l x : first_min l x -> x ∈ l /\ forall y, y ∈ l -> key x <= key y.
Proof.
  intros (l1 & l2 & -> & H1 & H2). split; [set_solver|].
  rewrite Forall_forall in H1. rewrite Forall_forall in H2. intros y Hy.
  apply elem_of_app in Hy as [Hy|Hy]; [apply H1 in Hy; lia|].
  apply elem_of_cons in Hy as [->|Hy]; [lia|]. by apply H2.
Qed.
End MaxMin.

(** ** The stable sort

    [slice::sort_by] is stable, so its result is determined by the
    comparison: the sorted permutation that keeps the order of equal
    elements. [leb x y] is [cmp(x, y) != Greater]. *)

Section StableSort.
Context {A : Type} (leb : A -> A -> bool).

Fixpoint sort_insert (x : A) (l : list A) : list A :=
  match l with
  | [] => [x]
  | y :: l => if leb x y then x :: y :: l else y :: sort_insert x l
  end.

Definition sort_by (l : list A) : list A := foldr sort_insert [] l.

Lemma sort_insert_perm x l : sort_insert x l ≡ₚ x :: l.
Proof.
  induction l as [|y l IH]; cbn; [done|]. case_match; [done|].
  rewrite IH. apply Permutation_swap.
Qed.

Lemma sort_by_perm l : sort_by l ≡ₚ l.
Proof. induction l as [|x l IH]; cbn; [done|]. by rewrite sort_insert_perm, IH. Qed.

Context (Htotal : forall x y, leb x y = true \/ leb y x = true).
Context (Htrans : forall x y z, leb x y = true -> leb y z = true -> leb x z = true).

Lemma sort_insert_sorted x l :
  StronglySorted leb l -> StronglySorted leb (sort_insert x l).
Proof.
  induction 1 as [|y l Hs IH Hall]; cbn; [by repeat constructor|].
  destruct (leb x y) eqn:E.
  - constructor; [by constructor|]. constructor; [by rewrite E|].
    eapply Forall_impl; [exact Hall|]. cbn. intros z Hz.
    apply Is_true_true, (Htrans x y z); [done|by apply Is_true_true].
  - constructor; [done|]. rewrite sort_insert_perm. constructor; [|done].
    destruct (Htotal x y); [congruence|]. by apply Is_true_true.
Qed.

Lemma sort_by_sorted l : StronglySorted leb (sort_by l).
Proof.
  induction l as [|x l IH]; [constructor|]. by apply sort_insert_sorted.
Qed.

(** Stability: the elements of a class of mutually equivalent elements
    keep their order. *)
Lemma sort_insert_filter (P : A -> bool) x l :
  (forall y, P x = true -> P y = true -> leb x y = true) ->
  List.filter P (sort_insert x l) = List.filter P (x :: l).
Proof.
  intros HP. induction l as [|y l IH]; cbn [sort_insert]; [done|].
  destruct (leb x y) eqn:E; [done|]. cbn [List.filter] in *. rewrite IH.
  destruct (P x) eqn:Ex, (P y) eqn:Ey; try done.
  by rewrite HP in E.
Qed.

Lemma sort_by_stable (P : A -> bool) l :
  (forall x y, P x = true -> P y = true -> leb x y = true) ->
  List.filter P (sort_by l) = List.filter P l.
Proof.
  intros HP. induction l as [|x l IH]; [done|]. cbn [sort_by foldr].
  rewrite sort_insert_filter by eauto. cbn. unfold sort_by in IH. by rewrite IH.
Qed.
End StableSort.

(** ** Strings

    A [String] is its UTF-8 bytes; [byte] is [Ascii.ascii], and a string
    literal of this development denotes the bytes of its UTF-8 encoding. *)

Abbreviation byte := Ascii.ascii.

Definition byte_val (b : byte) : Z := Z.of_N (Ascii.N_of_ascii b).
Definition byte_of (z : Z) : byte := Ascii.ascii_of_N (Z.to_N z).

Lemma byte_val_range b : 0 <= byte_val b < 256.
Proof.
  unfold byte_val. pose proof (Ascii.N_ascii_bounded b). lia.
Qed.

Lemma byte_of_val b : byte_of (byte_val b) = b.
Proof. unfold byte_of, byte_val. by rewrite N2Z.id, Ascii.ascii_N_embedding. Qed.

Lemma byte_val_of z : 0 <= z < 256 -> byte_val (byte_of z) = z.
Proof.
  intros Hz. unfold byte_of, byte_val. rewrite Ascii.N_ascii_embedding by lia. lia.
Qed.

(** The separator of paths and the name of the current directory. *)
Definition slash : byte := byte_of 47.
Definition dot : byte := byte_of 46.

Abbreviation string_of_bytes := String.string_of_list_ascii.
Abbreviation bytes_of_string := String.list_ascii_of_string.

Lemma bytes_app a b : bytes_of_string (a +:+ b) = bytes_of_string a ++ bytes_of_string b.
Proof. induction a as [|x a IH]; [done|]. cbn. by rewrite <- IH. Qed.

(** [[T]::join(sep)] and [str::repeat(n)]. *)
Definition join (sep : string) (l : list string) : string := String.concat sep l.
Fixpoint repeat_str (s : string) (n : nat) : string :=
  match n with O => "" | S n => s +:+ repeat_str s n end.

(** ** Integer formatting *)

(** The digits of [n] in base [b], least significant first. *)
Fixpoint radix_digits (fuel : nat) (b n : Z) : list Z :=
  match fuel with
  | O => []
  | S fuel => if n <? b then [n] else n mod b :: radix_digits fuel b (n / b)
  end.

(** Dividing by a base of two or more [log2 n + 1] times reaches zero. *)
Definition radix_fuel (n : Z) : nat := S (Z.to_nat (Z.log2 n)).

Definition of_digits (b : Z) (ds : list Z) : Z := foldr (fun d acc => d + b * acc) 0 ds.

Definition digit_char (d : Z) : byte := byte_of (if d <? 10 then 48 + d else 87 + d).

Definition char_digit (c : byte) : Z :=
  let v := byte_val c in if v <? 58 then v - 48 else v - 87.

Definition fmt_radix (b n : Z) : string :=
  string_of_bytes (digit_char <$> reverse (radix_digits (radix_fuel n) b n)).

Definition parse_radix (b : Z) (s : string) : Z :=
  of_digits b (reverse (char_digit <$> bytes_of_string s)).

(** [{}], [{:0w}] and [{:#x}]. The sign counts in the padded width. *)
Definition fmt_display (n : Z) : string :=
  if n <? 0 then "-" +:+ fmt_radix 10 (- n) else fmt_radix 10 n.

Definition fmt_zero_pad (w : nat) (n : Z) : string :=
  let digits := fmt_radix 10 (Z.abs n) in
  let sign : string := if n <? 0 then "-" else "" in
  sign +:+ repeat_str "0" (w - String.length sign - String.length digits) +:+ digits.

Definition fmt_lower_hex_alt (n : Z) : string := "0x" +:+ fmt_radix 16 n.

Lemma radix_digits_fuel b n fuel :
  2 <= b -> 0 <= n < 2 ^ Z.of_nat fuel -> of_digits b (radix_digits fuel b n) = n.
Proof.
  intros Hb. revert n. induction fuel as [|fuel IH]; intros n Hn.
  - cbn in *. lia.
  - cbn [radix_digits]. destruct (Z.ltb_spec n b); [cbn; lia|].
    change (n mod b + b * of_digits b (radix_digits fuel b (n / b)) = n).
    rewrite IH; [pose proof (Z.div_mod n b); lia|].
    split; [apply Z.div_pos; lia|].
    apply Z.div_lt_upper_bound; [lia|].
    rewrite Nat2Z.inj_succ, Z.pow_succ_r in Hn by lia.
    pose proof (Z.pow_pos_nonneg 2 (Z.of_nat fuel)). nia.
Qed.

Lemma radix_digits_of b n : 2 <= b -> 0 <= n -> of_digits b (radix_digits (radix_fuel n) b n) = n.
Proof.
  intros Hb Hn. apply radix_digits_fuel; [done|]. split; [done|].
  unfold radix_fuel. rewrite Nat2Z.inj_succ, Z2Nat.id by apply Z.log2_nonneg.
  destruct (Z.eq_dec n 0) as [->|]; [done|]. apply Z.log2_spec. lia.
Qed.

Lemma radix_digits_range fuel b n :
  2 <= b -> 0 <= n -> Forall (fun d => 0 <= d < b) (radix_digits fuel b n).
Proof.
  intros Hb. revert n. induction fuel as [|fuel IH]; intros n Hn; cbn; [constructor|].
  destruct (Z.ltb_spec n b); [by repeat constructor|].
  constructor; [by apply Z.mod_pos_bound; lia|]. apply IH, Z.div_pos; lia.
Qed.

Lemma char_digit_char d : 0 <= d < 16 -> char_digit (digit_char d) = d.
Proof.
  intros Hd. unfold char_digit, digit_char.
  destruct (Z.ltb_spec d 10); rewrite byte_val_of by lia; zcase; lia.
Qed.

Lemma parse_fmt_radix b n : 2 <= b <= 16 -> 0 <= n -> parse_radix b (fmt_radix b n) = n.
Proof.
  intros Hb Hn. unfold parse_radix, fmt_radix.
  rewrite String.list_ascii_of_string_of_list_ascii, !fmap_reverse, reverse_involutive.
  rewrite <- list_fmap_compose.
  rewrite (list_fmap_ext _ id), list_fmap_id; [apply radix_digits_of; lia|].
  intros i d Hd. cbn. apply char_digit_char.
  pose proof (radix_digits_range (radix_fuel n) b n) as Hr.
  rewrite Forall_lookup in Hr. assert (0 <= d < b) by (eapply Hr; eauto; lia). lia.
Qed.

Lemma fmt_lower_hex_alt_inj m n :
  0 <= m -> 0 <= n -> fmt_lower_hex_alt m = fmt_lower_hex_alt n -> m = n.
Proof.
  unfold fmt_lower_hex_alt. intros Hm Hn [= H]. change (fmt_radix 16 m = fmt_radix 16 n) in H.
  rewrite <- (parse_fmt_radix 16 m), <- (parse_fmt_radix 16 n) by lia. by rewrite H.
Qed.

(** ** [{:.2}] of an [f64]

    [n as f64] and [/] are IEEE binary64, rounding to nearest even; the
    decimal conversion is exact before it rounds to two digits, ties to
    even. *)

Definition f64_of_int (n : Z) : SpecFloat.spec_float :=
  SpecFloat.binary_normalize 53 1024 n 0 false.

Definition f64_div : SpecFloat.spec_float -> SpecFloat.spec_float -> SpecFloat.spec_float :=
  SpecFloat.SFdiv 53 1024.

Definition round_half_even (num den : Z) : Z :=
  let q := num / den in
  let r := num mod den in
  if 2 * r <? den then q
  else if den <? 2 * r then q + 1
  else if Z.even q then q else q + 1.

(** The value times a hundred, as an integer. *)
Definition f64_cents (m : positive) (e : Z) : Z :=
  round_half_even (Z.pos m * 100 * 2 ^ Z.max e 0) (2 ^ Z.max (- e) 0).

Definition fmt_cents (c : Z) : string :=
  fmt_display (c / 100) +:+ "." +:+ fmt_zero_pad 2 (c mod 100).

Definition fmt_f64_2 (x : SpecFloat.spec_float) : string :=
  match x with
  | SpecFloat.S754_zero s => (if s then "-" else "") +:+ "0.00"
  | SpecFloat.S754_infinity s => (if s then "-" else "") +:+ "inf"
  | SpecFloat.S754_nan => "NaN"
  | SpecFloat.S754_finite s m e => (if s then "-" else "") +:+ fmt_cents (f64_cents m e)
  end.

Example fmt_f64_2_tie : fmt_f64_2 (f64_div (f64_of_int 1125) (f64_of_int 1000)) = "1.12".
Proof. reflexivity. Qed.

Example fmt_f64_2_below : fmt_f64_2 (f64_div (f64_of_int 1005) (f64_of_int 1000)) = "1.00".
Proof. reflexivity. Qed.

(** ** [String::from_utf8_lossy]

    The chunking of [core::str::lossy]: from the head of the input, either
    one well-formed sequence, or the maximal ill-formed prefix, which is
    replaced by U+FFFD. *)

Definition zero_byte : byte := byte_of 0.
Definition safe_get (l : list byte) (i : nat) : Z := byte_val (default zero_byte (l !! i)).

Definition between (lo hi v : Z) : bool := (lo <=? v) && (v <=? hi).
Definition is_cont (v : Z) : bool := between 128 191 v.

(** [utf8_char_width]; 0 for a byte that starts no sequence. *)
Definition utf8_char_width (v : Z) : nat :=
  if v <? 128 then 1
  else if between 194 223 v then 2
  else if between 224 239 v then 3
  else if between 240 244 v then 4
  else 0.

Definition second_of_3 (v0 v1 : Z) : bool :=
  if v0 =? 224 then between 160 191 v1
  else if v0 =? 237 then between 128 159 v1
  else is_cont v1.

Definition second_of_4 (v0 v1 : Z) : bool :=
  if v0 =? 240 then between 144 191 v1
  else if v0 =? 244 then between 128 143 v1
  else is_cont v1.

(** Whether the head of [l] is well-formed, and the bytes it takes. *)
Definition utf8_head (l : list byte) : bool * nat :=
  let v0 := safe_get l 0 in
  match utf8_char_width v0 with
  | 1%nat => (true, 1%nat)
  | 2%nat => if is_cont (safe_get l 1) then (true, 2%nat) else (false, 1%nat)
  | 3%nat =>
      if second_of_3 v0 (safe_get l 1) then
        if is_cont (safe_get l 2) then (true, 3%nat) else (false, 2%nat)
      else (false, 1%nat)
  | 4%nat =>
      if second_of_4 v0 (safe_get l 1) then
        if is_cont (safe_get l 2) then
          if is_cont (safe_get l 3) then (true, 4%nat) else (false, 3%nat)
        else (false, 2%nat)
      else (false, 1%nat)
  | _ => (false, 1%nat)
  end.

Definition replacement : list byte := byte_of <$> [239; 191; 189].

Fixpoint utf8_lossy_fuel (fuel : nat) (l : list byte) : list byte :=
  match fuel, l with
  | S fuel, _ :: _ =>
      let '(valid, n) := utf8_head l in
      (if valid then take n l else replacement) ++ utf8_lossy_fuel fuel (drop n l)
  | _, _ => []
  end.

(** Every step consumes a byte, so the length is fuel enough. *)
Definition from_utf8_lossy (l : list byte) : list byte := utf8_lossy_fuel (length l) l.

(** Well-formed UTF-8. *)
Inductive utf8_valid : list byte -> Prop :=
  | utf8_valid_nil : utf8_valid []
  | utf8_valid_step l n :
      l <> [] -> utf8_head l = (true, n) -> utf8_valid (drop n l) -> utf8_valid l.

Lemma is_cont_safe_get l i : is_cont (safe_get l i) = true -> (i < length l)%nat.
Proof.
  unfold safe_get. destruct (l !! i) eqn:E; [intros _; by eapply lookup_lt_Some|].
  done.
Qed.

Lemma safe_get_app l1 l2 i : (i < length l1)%nat -> safe_get (l1 ++ l2) i = safe_get l1 i.
Proof. intros H. unfold safe_get. by rewrite lookup_app_l. Qed.

Lemma safe_get_take l n i : (i < n)%nat -> safe_get (take n l) i = safe_get l i.
Proof. intros H. unfold safe_get. by rewrite lookup_take_lt. Qed.

Lemma second_is_cont v0 v1 :
  (second_of_3 v0 v1 = true -> is_cont v1 = true) /\
  (second_of_4 v0 v1 = true -> is_cont v1 = true).
Proof.
  unfold second_of_3, second_of_4, is_cont, between.
  split; intros H; repeat case_match; zbool; apply andb_true_intro;
    split; apply Z.leb_le; lia.
Qed.

Lemma utf8_head_progress l : (1 <= (utf8_head l).2)%nat.
Proof. unfold utf8_head. repeat case_match; cbn; lia. Qed.

(** A well-formed head lies within the input, and is read from those bytes
    alone. *)
Lemma utf8_head_local l n :
  l <> [] -> utf8_head l = (true, n) ->
  (n <= length l)%nat /\ forall k, utf8_head (take n l ++ k) = (true, n).
Proof.
  intros Hl H.
  assert ((0 < length l)%nat) as Hpos by (destruct l; [done|cbn; lia]).
  assert (n <= length l)%nat as Hn.
  { unfold utf8_head in H.
    repeat case_match; simplify_eq; try lia;
      repeat match goal with H : is_cont (safe_get _ _) = true |- _ =>
        apply is_cont_safe_get in H end; lia. }
  split; [done|]. intros k.
  pose proof (utf8_head_progress l) as Hp. rewrite H in Hp. cbn in Hp.
  assert (forall i, (i < n)%nat -> safe_get (take n l ++ k) i = safe_get l i) as Hget.
  { intros i Hi. rewrite safe_get_app by (rewrite length_take; lia).
    by apply safe_get_take. }
  revert H. unfold utf8_head. rewrite (Hget 0%nat) by lia.
  repeat case_match; intros; simplify_eq;
    rewrite ?(Hget 1%nat), ?(Hget 2%nat), ?(Hget 3%nat) in * by lia; congruence.
Qed.

Lemma utf8_valid_app l k : utf8_valid l -> utf8_valid k -> utf8_valid (l ++ k).
Proof.
  intros Hl Hk. induction Hl as [|l n Hne Hh _ IH]; [done|].
  pose proof (utf8_head_local l n Hne Hh) as [Hn Hloc].
  apply (utf8_valid_step _ n).
  - by destruct l.
  - rewrite <- (take_drop n l) at 1. rewrite <- app_assoc. apply Hloc.
  - by rewrite drop_app_le.
Qed.

Lemma utf8_head_valid l n :
  l <> [] -> utf8_head l = (true, n) -> utf8_valid (take n l).
Proof.
  intros Hne Hh. pose proof (utf8_head_local l n Hne Hh) as [Hn Hloc].
  pose proof (utf8_head_progress l) as Hp. rewrite Hh in Hp. cbn in Hp.
  apply (utf8_valid_step _ n).
  - destruct l, n; cbn; try done; lia.
  - specialize (Hloc []). by rewrite app_nil_r in Hloc.
  - rewrite drop_ge by (rewrite length_take; lia). constructor.
Qed.

Lemma replacement_valid : utf8_valid replacement.
Proof. apply (utf8_valid_step _ 3); [done|reflexivity|constructor]. Qed.

Lemma utf8_lossy_fuel_valid fuel l : utf8_valid (utf8_lossy_fuel fuel l).
Proof.
  revert l. induction fuel as [|fuel IH]; intros [|b l]; cbn [utf8_lossy_fuel];
    try constructor.
  destruct (utf8_head (b :: l)) as [valid n] eqn:Hh.
  apply utf8_valid_app; [|apply IH]. destruct valid; [|apply replacement_valid].
  by apply utf8_head_valid.
Qed.

Lemma utf8_lossy_fuel_id fuel l :
  utf8_valid l -> (length l <= fuel)%nat -> utf8_lossy_fuel fuel l = l.
Proof.
  revert l. induction fuel as [|fuel IH]; intros [|b l] Hv Hf; cbn in Hf; try done; [lia|].
  inversion Hv as [|? n _ Hh Hd]; subst. cbn [utf8_lossy_fuel]. rewrite Hh.
  pose proof (utf8_head_progress (b :: l)) as Hp. rewrite Hh in Hp. cbn in Hp.
  rewrite IH; [apply take_drop|done|]. rewrite length_drop. cbn. lia.
Qed.

Lemma from_utf8_lossy_valid l : utf8_valid (from_utf8_lossy l).
Proof. apply utf8_lossy_fuel_valid. Qed.

Lemma from_utf8_lossy_id l : utf8_valid l -> from_utf8_lossy l = l.
Proof. intros. by apply utf8_lossy_fuel_id. Qed.

Lemma ascii_utf8_valid l : Forall (fun b => byte_val b < 128) l -> utf8_valid l.
Proof.
  induction 1 as [|b l Hb _ IH]; [constructor|].
  apply (utf8_valid_step _ 1); [done| |done].
  unfold utf8_head, safe_get, utf8_char_width. cbn. zcase; [done|lia].
Qed.

(** ** Integers in memory

    Every target the program builds for (bpfel, x86_64, aarch64) is
    little-endian. *)

Fixpoint le_bytes (n : nat) (z : Z) : list byte :=
  match n with
  | O => []
  | S n => byte_of (z mod 256) :: le_bytes n (z / 256)
  end.

Definition le_val (bs : list byte) : Z :=
  foldr (fun b acc => byte_val b + 256 * acc) 0 bs.

Lemma length_le_bytes n z : length (le_bytes n z) = n.
Proof. revert z. induction n; intros; cbn; auto. Qed.

Lemma le_val_bytes n z : is_uint (8 * Z.of_nat n) z -> le_val (le_bytes n z) = z.
Proof.
  revert z. induction n as [|n IH]; intros z Hz; unfold is_uint in *.
  - cbn in *. lia.
  - change (byte_val (byte_of (z mod 256)) + 256 * le_val (le_bytes n (z / 256)) = z).
    pose proof (Z.mod_pos_bound z 256).
    rewrite byte_val_of by lia.
    replace (8 * Z.of_nat (S n)) with (8 + 8 * Z.of_nat n) in Hz by lia.
    rewrite Z.pow_add_r in Hz by lia. change (2 ^ 8) with 256 in Hz.
    rewrite IH; [pose proof (Z.div_mod z 256); lia|].
    split; [apply Z.div_pos; lia|]. apply Z.div_lt_upper_bound; lia.
Qed.

Lemma le_val_range bs : is_uint (8 * Z.of_nat (length bs)) (le_val bs).
Proof.
  unfold is_uint. induction bs as [|b bs IH]; [cbn; lia|].
  change (le_val (b :: bs)) with (byte_val b + 256 * le_val bs).
  pose proof (byte_val_range b). cbn [length].
  replace (8 * Z.of_nat (S (length bs))) with (8 + 8 * Z.of_nat (length bs)) by lia.
  rewrite Z.pow_add_r by lia. change (2 ^ 8) with 256. lia.
Qed.
