(* ===== verification/Layout.v ===== *)
(** * The [#[repr(C)]] layout algorithm

    Field offsets, padding, size and alignment of a C structure, and the
    memory image of a value: encoding the fields and reading them back at
    the computed offsets are inverse. *)

From S2P Require Import Prelude RustStd.
#[local] Open Scope nat_scope.

Record layout := Layout { l_size : nat; l_align : nat }.

Definition prim (n : nat) : layout := Layout n n.
Definition array (l : layout) (n : nat) : layout := Layout (n * l_size l) (l_align l).

(** The least multiple of [a] that is at least [x]. *)
Definition round_up (x a : nat) : nat := (x + (a - 1)) / a * a.

Fixpoint offsets_from (off : nat) (fs : list layout) : list nat :=
  match fs with
  | [] => []
  | f :: fs => let o := round_up off (l_align f) in o :: offsets_from (o + l_size f) fs
  end.

Fixpoint end_from (off : nat) (fs : list layout) : nat :=
  match fs with
  | [] => off
  | f :: fs => end_from (round_up off (l_align f) + l_size f) fs
  end.

Definition offsets (fs : list layout) : list nat := offsets_from 0 fs.

Definition repr_c (fs : list layout) : layout :=
  let align := foldr (fun f => Nat.max (l_align f)) 1 fs in
  Layout (round_up (end_from 0 fs) align) align.

(** ** Memory images

    [pad] is the contents of the padding, which no field determines. *)

Definition padding (pad : nat -> byte) (from to : nat) : list byte := pad <$> seq from (to - from).

Fixpoint encode_from (pad : nat -> byte) (off : nat) (fs : list layout)
    (vals : list (list byte)) : list byte :=
  match fs, vals with
  | f :: fs, v :: vals =>
      let o := round_up off (l_align f) in
      padding pad off o ++ v ++ encode_from pad (o + l_size f) fs vals
  | _, _ => []
  end.

Definition encode_struct (pad : nat -> byte) (fs : list layout) (vals : list (list byte)) : list byte :=
  encode_from pad 0 fs vals ++ padding pad (end_from 0 fs) (l_size (repr_c fs)).

Fixpoint decode_from (off : nat) (fs : list layout) (bs : list byte) : list (list byte) :=
  match fs with
  | [] => []
  | f :: fs =>
      let o := round_up off (l_align f) in
      take (l_size f) (drop o bs) :: decode_from (o + l_size f) fs bs
  end.

(** Each field's bytes, read at its offset. *)
Definition decode_struct (fs : list layout) (bs : list byte) : list (list byte) := decode_from 0 fs bs.

(** A value has the size of its field, and alignments are positive. *)
Definition field_ok (f : layout) (v : list byte) : Prop := length v = l_size f /\ 0 < l_align f.

Lemma round_up_ge x a : 0 < a -> x <= round_up x a.
Proof.
  intros Ha. unfold round_up.
  pose proof (Nat.div_mod_eq (x + (a - 1)) a).
  pose proof (Nat.mod_upper_bound (x + (a - 1)) a). lia.
Qed.

Lemma length_padding pad a b : length (padding pad a b) = b - a.
Proof. unfold padding. by rewrite length_fmap, length_seq. Qed.

Lemma length_encode_from pad off fs vals :
  Forall2 field_ok fs vals -> off + length (encode_from pad off fs vals) = end_from off fs.
Proof.
  intros H. revert off. induction H as [|f v fs vals [Hv Ha] _ IH]; intros off; cbn; [lia|].
  rewrite !length_app, length_padding, <- IH, Hv.
  pose proof (round_up_ge off (l_align f) Ha). lia.
Qed.

Lemma end_from_le_size fs : end_from 0 fs <= l_size (repr_c fs).
Proof.
  apply round_up_ge. induction fs as [|f fs IH]; cbn; [lia|]. lia.
Qed.

Lemma length_encode_struct pad fs vals :
  Forall2 field_ok fs vals -> length (encode_struct pad fs vals) = l_size (repr_c fs).
Proof.
  intros H. unfold encode_struct. rewrite length_app, length_padding.
  pose proof (length_encode_from pad 0 fs vals H).
  pose proof (end_from_le_size fs). lia.
Qed.

Lemma decode_encode_from pad off fs vals pre tail :
  Forall2 field_ok fs vals -> length pre = off ->
  decode_from off fs (pre ++ encode_from pad off fs vals ++ tail) = vals.
Proof.
  intros H. revert off pre. induction H as [|f v fs vals [Hv Ha] _ IH]; intros off pre Hpre; [done|].
  pose proof (round_up_ge off (l_align f) Ha).
  cbn [decode_from encode_from]. set (o := round_up off (l_align f)) in *.
  assert (length (pre ++ padding pad off o) = o) as Hlen.
  { rewrite length_app, length_padding. lia. }
  f_equal.
  - rewrite <- !app_assoc, (app_assoc pre).
    rewrite drop_app_length' by done. by rewrite take_app_length'.
  - specialize (IH (o + l_size f) (pre ++ padding pad off o ++ v)).
    rewrite <- !app_assoc in *. apply IH.
    rewrite !length_app in *. lia.
Qed.

Lemma decode_encode_struct pad fs vals :
  Forall2 field_ok fs vals -> decode_struct fs (encode_struct pad fs vals) = vals.
Proof. intros H. by apply (decode_encode_from pad 0 fs vals []). Qed.
