(* ===== verification/Common.v ===== *)
(** * whyslow-common: the event schema (whyslow-common/src/lib.rs)

    The event record shared by the eBPF programs and the CLI, its memory
    image, and the packing of a block device and sector into a key. *)

From S2P Require Import Prelude RustStd Layout.

Definition EVENT_SCHED_BLOCK : Z := 0.
Definition EVENT_FUTEX_WAIT : Z := 1.
Definition EVENT_FUTEX_WAKE : Z := 2.
Definition EVENT_BLOCK_IO : Z := 3.

Definition TASK_COMM_LEN : nat := 16.

Record Event := mkEvent {
  ev_timestamp_ns : Z;
  ev_duration_ns : Z;
  ev_key : Z;
  ev_pid : Z;
  ev_tid : Z;
  ev_event_type : Z;
  ev_pad : list byte;
  ev_comm : list byte;
}.

#[export] Instance Event_eq_dec : EqDecision Event.
Proof. solve_decision. Defined.

(** [Event::new]: the explicit padding field is zeroed. *)
Definition Event_new (timestamp_ns duration_ns key pid tid event_type : Z) (comm : list byte) : Event :=
  {| ev_timestamp_ns := timestamp_ns;
     ev_duration_ns := duration_ns;
     ev_key := key;
     ev_pid := pid;
     ev_tid := tid;
     ev_event_type := event_type;
     ev_pad := replicate 3 zero_byte;
     ev_comm := comm |}.

(** The values the field types allow. *)
Record wf_event (ev : Event) : Prop := {
  wf_timestamp : is_u64 (ev_timestamp_ns ev);
  wf_duration : is_u64 (ev_duration_ns ev);
  wf_key : is_u64 (ev_key ev);
  wf_pid : is_u32 (ev_pid ev);
  wf_tid : is_u32 (ev_tid ev);
  wf_type : is_u8 (ev_event_type ev);
  wf_pad : length (ev_pad ev) = 3%nat;
  wf_comm : length (ev_comm ev) = TASK_COMM_LEN;
}.

(** [#[repr(C)] struct Event]. *)
Definition event_layout : list layout :=
  [prim 8; prim 8; prim 8; prim 4; prim 4; prim 1; array (prim 1) 3; array (prim 1) TASK_COMM_LEN].

Definition event_fields (ev : Event) : list (list byte) :=
  [le_bytes 8 (ev_timestamp_ns ev); le_bytes 8 (ev_duration_ns ev); le_bytes 8 (ev_key ev);
   le_bytes 4 (ev_pid ev); le_bytes 4 (ev_tid ev); le_bytes 1 (ev_event_type ev);
   ev_pad ev; ev_comm ev].

(** The bytes of an [Event] in memory; [pad] is the tail padding. *)
Definition event_bytes (pad : nat -> byte) (ev : Event) : list byte :=
  encode_struct pad event_layout (event_fields ev).

(** [((dev as u64) << 32) | (sector & 0xFFFF_FFFF)] *)
Definition pack_block_key (dev sector : Z) : Z :=
  Z.lor (as_u64 (Z.shiftl (as_u64 dev) 32)) (Z.land sector 0xFFFFFFFF).

(** [((key >> 32) as u32, (key & 0xFFFF_FFFF) as u32)] *)
Definition unpack_block_key (key : Z) : Z * Z :=
  (as_u32 (Z.shiftr key 32), as_u32 (Z.land key 0xFFFFFFFF)).

(** ** Helper lemmas *)

Lemma pack_block_key_eq dev sector :
  is_u32 dev -> pack_block_key dev sector = dev * 2 ^ 32 + sector mod 2 ^ 32.
Proof.
  unfold is_uint. intros Hd. unfold pack_block_key.
  rewrite (as_uint_id 64 dev) by (unfold is_uint; lia).
  rewrite as_uint_id by (rewrite Z.shiftl_mul_pow2 by lia; unfold is_uint; lia).
  change 0xFFFFFFFF with (2 ^ 32 - 1). rewrite land_low by lia.
  apply pack_lor_add; [lia|]. apply Z.mod_pos_bound. lia.
Qed.

Lemma unpack_block_key_eq key :
  is_u64 key -> unpack_block_key key = (key / 2 ^ 32, key mod 2 ^ 32).
Proof.
  unfold is_uint. intros Hk. unfold unpack_block_key.
  change 0xFFFFFFFF with (2 ^ 32 - 1). rewrite land_low, Z.shiftr_div_pow2 by lia.
  f_equal; apply as_uint_id; unfold is_uint.
  - split; [apply Z.div_pos; lia|apply Z.div_lt_upper_bound; lia].
  - apply Z.mod_pos_bound. lia.
Qed.

Lemma pack_block_key_range dev sector : is_u32 dev -> is_u64 (pack_block_key dev sector).
Proof.
  intros Hd. rewrite pack_block_key_eq by done. unfold is_uint in *.
  pose proof (Z.mod_pos_bound sector (2 ^ 32)). lia.
Qed.

Lemma unpack_pack dev sector :
  is_u32 dev -> unpack_block_key (pack_block_key dev sector) = (dev, sector mod 2 ^ 32).
Proof.
  intros Hd. rewrite unpack_block_key_eq by by apply pack_block_key_range.
  rewrite pack_block_key_eq by done.
  pose proof (Z.mod_pos_bound sector (2 ^ 32)).
  f_equal; [rewrite Z.div_add_l, Z.div_small; lia|].
  rewrite Z.add_comm, Z.mod_add, Z.mod_small; lia.
Qed.

Lemma event_fields_ok ev : wf_event ev -> Forall2 field_ok event_layout (event_fields ev).
Proof.
  intros [? ? ? ? ? ? Hp Hc]. unfold event_layout, event_fields, field_ok.
  repeat constructor; cbn [l_size l_align prim array]; rewrite ?length_le_bytes; lia.
Qed.

Lemma length_event_bytes pad ev : wf_event ev -> length (event_bytes pad ev) = 56%nat.
Proof. intros Hev. unfold event_bytes. by rewrite length_encode_struct by by apply event_fields_ok. Qed.

Lemma wf_event_new ts d key pid tid ty comm :
  is_u64 ts -> is_u64 d -> is_u64 key -> is_u32 pid -> is_u32 tid -> is_u8 ty ->
  length comm = TASK_COMM_LEN -> wf_event (Event_new ts d key pid tid ty comm).
Proof. by constructor. Qed.

#[export] Hint Resolve pack_block_key_range wf_event_new : whyslow.

(** ** Properties *)

(** The size and the field offsets of [Event] are those DESIGN.md gives
    (a 56-byte record), with the [comm] at offset 36 and four bytes of tail
    padding. *)
Theorem event_layout_offsets :
  repr_c event_layout = Layout 56 8 /\
  offsets event_layout = [0; 8; 16; 24; 28; 32; 33; 36]%nat /\
  end_from 0 event_layout = 52%nat.
Proof. done. Qed.

(** C34: A device and sector come back out of their key, the sector's low 32 bits
    of it, and every 64-bit key is the key of what it unpacks to. *)
Theorem block_key_round_trip (dev sector key : Z) :
  is_u32 dev -> is_u64 key ->
  unpack_block_key (pack_block_key dev sector) = (dev, sector mod 2 ^ 32) /\
  uncurry pack_block_key (unpack_block_key key) = key.
Proof.
  intros Hd Hk. split; [by apply unpack_pack|].
  rewrite unpack_block_key_eq by done. unfold is_uint in Hk. cbn.
  rewrite pack_block_key_eq.
  - rewrite Z.mod_mod by lia. pose proof (Z.div_mod key (2 ^ 32)). lia.
  - split; [apply Z.div_pos; lia|apply Z.div_lt_upper_bound; lia].
Qed.

(** Device 259:1 and a sector just over 2^32. *)
Lemma block_key_round_trip_witness :
  unpack_block_key (pack_block_key 0x10300001 (2 ^ 32 + 5)) = (0x10300001, 5) /\
  uncurry pack_block_key (unpack_block_key (2 ^ 63 + 9)) = 2 ^ 63 + 9.
Proof.
  assert (is_u32 0x10300001) as Hd by (unfold is_uint; lia).
  assert (is_u64 (2 ^ 63 + 9)) as Hk by (unfold is_uint; lia).
  exact (block_key_round_trip 0x10300001 (2 ^ 32 + 5) (2 ^ 63 + 9) Hd Hk).
Defined.

(** Two requests share a key exactly when they are on the same device and
    their sectors agree in the low 32 bits. *)
Theorem pack_block_key_collision dev sector dev' sector' :
  is_u32 dev -> is_u32 dev' ->
  pack_block_key dev sector = pack_block_key dev' sector' <->
  dev = dev' /\ sector mod 2 ^ 32 = sector' mod 2 ^ 32.
Proof.
  intros Hd Hd'. split.
  - intros H. apply (f_equal unpack_block_key) in H.
    rewrite !unpack_pack in H by done. by simplify_eq.
  - intros [-> H]. by rewrite !pack_block_key_eq, H by done.
Qed.

Lemma pack_block_key_collision_witness : pack_block_key 8 5 = pack_block_key 8 (2 ^ 32 + 5).
Proof.
  assert (is_u32 8) as Hd by (unfold is_uint; lia).
  apply (pack_block_key_collision 8 5 8 (2 ^ 32 + 5) Hd Hd). by split.
Defined.
