(* ===== verification/Vmlinux.v ===== *)
(** * Kernel tracepoint records (whyslow-ebpf/src/vmlinux.rs)

    The hand-mirrored [trace_event_raw_*] structures: their [repr(C)]
    layouts, and the value a probe reads from the bytes of a tracepoint
    record. *)

From S2P Require Import Prelude RustStd Layout.

(** Two's complement integers in memory. *)
Definition le_sval (bs : list byte) : Z := as_sint (8 * Z.of_nat (length bs)) (le_val bs).

Record TraceEntry := mkTraceEntry {
  ent_kind : Z;
  ent_flags : Z;
  ent_preempt_count : Z;
  ent_pid : Z;
}.

Definition trace_entry_layout : list layout := [prim 2; prim 1; prim 1; prim 4].

Definition read_trace_entry (bs : list byte) : option TraceEntry :=
  match decode_struct trace_entry_layout bs with
  | [kind; flags; pc; pid] => Some (mkTraceEntry (le_val kind) (le_val flags) (le_val pc) (le_sval pid))
  | _ => None
  end.

Definition ent : layout := repr_c trace_entry_layout.

Record TraceEventRawSchedSwitch := mkSchedSwitch {
  ss_ent : TraceEntry;
  ss_prev_comm : list byte;
  ss_prev_pid : Z;
  ss_prev_prio : Z;
  ss_prev_state : Z;
  ss_next_comm : list byte;
  ss_next_pid : Z;
  ss_next_prio : Z;
}.

Definition sched_switch_layout : list layout :=
  [ent; array (prim 1) 16; prim 4; prim 4; prim 8; array (prim 1) 16; prim 4; prim 4].

Definition read_sched_switch (bs : list byte) : option TraceEventRawSchedSwitch :=
  match decode_struct sched_switch_layout bs with
  | [e; prev_comm; prev_pid; prev_prio; prev_state; next_comm; next_pid; next_prio] =>
      e ← read_trace_entry e;
      Some (mkSchedSwitch e prev_comm (le_sval prev_pid) (le_sval prev_prio) (le_sval prev_state)
              next_comm (le_sval next_pid) (le_sval next_prio))
  | _ => None
  end.

Record TraceEventRawSysEnter := mkSysEnter {
  se_ent : TraceEntry;
  se_id : Z;
  se_args : list Z;
}.

(** [args: [u64; 6]] is laid out as six consecutive [u64] fields. *)
Definition sys_enter_layout : list layout := ent :: prim 8 :: replicate 6 (prim 8).

Definition read_sys_enter (bs : list byte) : option TraceEventRawSysEnter :=
  match decode_struct sys_enter_layout bs with
  | e :: id :: args =>
      e ← read_trace_entry e;
      Some (mkSysEnter e (le_sval id) (le_val <$> args))
  | _ => None
  end.

Record TraceEventRawSysExit := mkSysExit {
  sx_ent : TraceEntry;
  sx_id : Z;
  sx_ret : Z;
}.

Definition sys_exit_layout : list layout := [ent; prim 8; prim 8].

Record TraceEventRawBlockRq := mkBlockRq {
  br_ent : TraceEntry;
  br_dev : Z;
  br_sector : Z;
  br_nr_sector : Z;
  br_bytes : Z;
  br_ioprio : Z;
  br_rwbs : list byte;
  br_comm : list byte;
  br_data_loc_cmd : Z;
}.

Definition block_rq_layout : list layout :=
  [ent; prim 4; prim 8; prim 4; prim 4; prim 2; array (prim 1) 10; array (prim 1) 16; prim 4].

Definition read_block_rq (bs : list byte) : option TraceEventRawBlockRq :=
  match decode_struct block_rq_layout bs with
  | [e; dev; sector; nr; bytes; ioprio; rwbs; comm; cmd] =>
      e ← read_trace_entry e;
      Some (mkBlockRq e (le_val dev) (le_val sector) (le_val nr) (le_val bytes) (le_val ioprio)
              rwbs comm (le_val cmd))
  | _ => None
  end.

Record TraceEventRawBlockRqCompletion := mkBlockRqCompletion {
  bc_ent : TraceEntry;
  bc_dev : Z;
  bc_sector : Z;
  bc_nr_sector : Z;
  bc_error : Z;
  bc_ioprio : Z;
  bc_rwbs : list byte;
  bc_data_loc_cmd : Z;
}.

Definition block_rq_completion_layout : list layout :=
  [ent; prim 4; prim 8; prim 4; prim 4; prim 2; array (prim 1) 10; prim 4].

Definition read_block_rq_completion (bs : list byte) : option TraceEventRawBlockRqCompletion :=
  match decode_struct block_rq_completion_layout bs with
  | [e; dev; sector; nr; error; ioprio; rwbs; cmd] =>
      e ← read_trace_entry e;
      Some (mkBlockRqCompletion e (le_val dev) (le_val sector) (le_val nr) (le_sval error)
              (le_val ioprio) rwbs (le_val cmd))
  | _ => None
  end.

Definition FUTEX_WAIT : Z := 0.
Definition FUTEX_WAKE : Z := 1.
Definition FUTEX_WAIT_BITSET : Z := 9.
Definition FUTEX_WAKE_BITSET : Z := 10.
Definition FUTEX_PRIVATE_FLAG : Z := 128.
Definition FUTEX_CLOCK_REALTIME : Z := 256.
Definition FUTEX_CMD_MASK : Z := u32_not (Z.lor FUTEX_PRIVATE_FLAG FUTEX_CLOCK_REALTIME).

Definition TASK_RUNNING : Z := 0.
