(* ===== verification/Ebpf.v ===== *)
(** * The eBPF programs (whyslow-ebpf/src/main.rs)

    The five tracepoint handlers as functions on the kernel-side state (the
    target filter, the three in-flight maps and the ring buffer). What they
    record is specified in [EbpfSpec].

    The maps and the ring buffer belong to the kernel: the handlers see them
    through the interfaces [BpfHashMap] and [BpfRingBuf], whose laws say what
    the handlers rely on. A handler's helper calls ([bpf_ktime_get_ns] and the
    like) and its [ctx.read_at(0)] are inputs of the invocation. *)

From S2P Require Import Prelude RustStd Layout Common Vmlinux.

(** ** The kernel's interfaces *)

(** A BPF hash map. [bm_insert] and [bm_remove] return whether the kernel
    accepted the operation; the handlers ignore it ([let _ = ...]). *)
Class BpfHashMap (K V M : Type) := {
  bm_get : M -> K -> option V;
  bm_insert : M -> K -> V -> bool * M;
  bm_remove : M -> K -> bool * M;
}.

(** A full map refuses a new key and leaves the map as it was; overwriting a
    present key and deleting one succeed. *)
Class BpfHashMapLaws (K V M : Type) `{EqDecision K} `{BpfHashMap K V M} := {
  bm_insert_ok m k v k' :
    (bm_insert m k v).1 = true ->
    bm_get (bm_insert m k v).2 k' = if decide (k' = k) then Some v else bm_get m k';
  bm_insert_fail m k v k' :
    (bm_insert m k v).1 = false -> bm_get (bm_insert m k v).2 k' = bm_get m k';
  bm_insert_present m k v : is_Some (bm_get m k) -> (bm_insert m k v).1 = true;
  bm_remove_get m k k' :
    bm_get (bm_remove m k).2 k' = if decide (k' = k) then None else bm_get m k';
}.

(** A BPF ring buffer: a successful reservation is an entry to write and
    submit; the contents are what the consumer has not read yet. *)
Class BpfRingBuf (T R : Type) := {
  rb_reserve : R -> option (T -> R);
  rb_contents : R -> list T;
}.

Class BpfRingBufLaws (T R : Type) `{BpfRingBuf T R} := {
  rb_submit r entry ev :
    rb_reserve r = Some entry -> rb_contents (entry ev) = rb_contents r ++ [ev];
}.

(** ** In-flight records *)

Record BlockStart := mkBlockStart { bs_ts : Z; bs_tgid : Z; bs_comm : list byte }.
Record FutexStart := mkFutexStart { fs_ts : Z; fs_uaddr : Z; fs_op : Z; fs_tgid : Z; fs_comm : list byte }.
Record BlockIoStart := mkBlockIoStart { io_ts : Z; io_tgid : Z; io_tid : Z; io_comm : list byte }.

(** The BPF helpers' answers in one invocation. *)
Record helpers := mkHelpers {
  h_pid_tgid : Z;              (* bpf_get_current_pid_tgid *)
  h_comm : option (list byte); (* bpf_get_current_comm *)
  h_ktime : Z;                 (* bpf_ktime_get_ns *)
}.

(** The section by which the kernel lets the programs call its GPL helpers. *)
Definition LICENSE : list byte := bytes_of_string "Dual MIT/GPL" ++ [zero_byte].

Lemma LICENSE_length : length LICENSE = 13%nat.
Proof. reflexivity. Qed.

Definition current_tgid (h : helpers) : Z := as_u32 (Z.shiftr (h_pid_tgid h) 32).
Definition current_tid (h : helpers) : Z := as_u32 (Z.land (h_pid_tgid h) 0xFFFFFFFF).
Definition current_comm (h : helpers) : list byte := default (replicate 16 zero_byte) (h_comm h).

Section Programs.
Context {MB MF MI R : Type}.
Context `{!BpfHashMap Z BlockStart MB} `{!BpfHashMap Z FutexStart MF}
        `{!BpfHashMap Z BlockIoStart MI} `{!BpfRingBuf Event R}.

(** The maps of the program; [TARGET_TGID] is what [get(0)] returns. *)
Record kernel := mkKernel {
  TARGET_TGID : option Z;
  BLOCK_START : MB;
  FUTEX_START : MF;
  BLOCKIO_START : MI;
  EVENTS : R;
}.

Definition target_tgid (k : kernel) : Z := default 0 (TARGET_TGID k).

Definition with_block_start (m : MB) (k : kernel) : kernel :=
  mkKernel (TARGET_TGID k) m (FUTEX_START k) (BLOCKIO_START k) (EVENTS k).
Definition with_futex_start (m : MF) (k : kernel) : kernel :=
  mkKernel (TARGET_TGID k) (BLOCK_START k) m (BLOCKIO_START k) (EVENTS k).
Definition with_blockio_start (m : MI) (k : kernel) : kernel :=
  mkKernel (TARGET_TGID k) (BLOCK_START k) (FUTEX_START k) m (EVENTS k).
Definition with_events (r : R) (k : kernel) : kernel :=
  mkKernel (TARGET_TGID k) (BLOCK_START k) (FUTEX_START k) (BLOCKIO_START k) r.
Definition with_target (t : Z) (k : kernel) : kernel :=
  mkKernel (Some t) (BLOCK_START k) (FUTEX_START k) (BLOCKIO_START k) (EVENTS k).

(** A full ring buffer drops the event. *)
Definition emit (ev : Event) (k : kernel) : kernel :=
  match rb_reserve (EVENTS k) with
  | Some entry => with_events (entry ev) k
  | None => k
  end.

Definition try_sched_switch (h : helpers) (ctx : option TraceEventRawSchedSwitch)
    (k : kernel) : result Z Z * kernel :=
  let target := target_tgid k in
  if target =? 0 then (Ok 0, k) else
  match ctx with
  | None => (Err 1, k)
  | Some evt =>
      let ts := h_ktime h in
      let prev_tid := as_u32 (ss_prev_pid evt) in
      let next_tid := as_u32 (ss_next_pid evt) in
      let k :=
        if negb (ss_prev_state evt =? TASK_RUNNING) then
          let prev_tgid := current_tgid h in
          if prev_tgid =? target then
            let start := mkBlockStart ts prev_tgid (ss_prev_comm evt) in
            with_block_start (bm_insert (BLOCK_START k) prev_tid start).2 k
          else k
        else k in
      match bm_get (BLOCK_START k) next_tid with
      | Some start =>
          let k := with_block_start (bm_remove (BLOCK_START k) next_tid).2 k in
          let duration := saturating_sub ts (bs_ts start) in
          (Ok 0, emit (Event_new ts duration 0 (bs_tgid start) next_tid
                         EVENT_SCHED_BLOCK (bs_comm start)) k)
      | None => (Ok 0, k)
      end
  end.

Definition try_futex_enter (h : helpers) (ctx : option TraceEventRawSysEnter)
    (k : kernel) : result Z Z * kernel :=
  let target := target_tgid k in
  let tgid := current_tgid h in
  if (target =? 0) || negb (tgid =? target) then (Ok 0, k) else
  match ctx with
  | None => (Err 1, k)
  | Some evt =>
      let uaddr := nth 0 (se_args evt) 0 in
      let op := as_u32 (nth 1 (se_args evt) 0) in
      let tid := current_tid h in
      let start := mkFutexStart (h_ktime h) uaddr op tgid (current_comm h) in
      (Ok 0, with_futex_start (bm_insert (FUTEX_START k) tid start).2 k)
  end.

(** The event type of a futex operation, or none for one that v1 does not
    handle. *)
Definition futex_event_type (op : Z) : option Z :=
  let base_op := Z.land op FUTEX_CMD_MASK in
  if (base_op =? FUTEX_WAIT) || (base_op =? FUTEX_WAIT_BITSET) then Some EVENT_FUTEX_WAIT
  else if (base_op =? FUTEX_WAKE) || (base_op =? FUTEX_WAKE_BITSET) then Some EVENT_FUTEX_WAKE
  else None.

Definition try_futex_exit (h : helpers) (k : kernel) : result Z Z * kernel :=
  let tid := current_tid h in
  match bm_get (FUTEX_START k) tid with
  | None => (Ok 0, k)
  | Some start =>
      let k := with_futex_start (bm_remove (FUTEX_START k) tid).2 k in
      let ts := h_ktime h in
      let duration := saturating_sub ts (fs_ts start) in
      match futex_event_type (fs_op start) with
      | None => (Ok 0, k)
      | Some event_type =>
          (Ok 0, emit (Event_new ts duration (fs_uaddr start) (fs_tgid start) tid
                         event_type (fs_comm start)) k)
      end
  end.

Definition try_block_rq_issue (h : helpers) (ctx : option TraceEventRawBlockRq)
    (k : kernel) : result Z Z * kernel :=
  let target := target_tgid k in
  let tgid := current_tgid h in
  if (target =? 0) || negb (tgid =? target) then (Ok 0, k) else
  match ctx with
  | None => (Err 1, k)
  | Some evt =>
      let tid := current_tid h in
      let key := pack_block_key (br_dev evt) (br_sector evt) in
      let start := mkBlockIoStart (h_ktime h) tgid tid (current_comm h) in
      (Ok 0, with_blockio_start (bm_insert (BLOCKIO_START k) key start).2 k)
  end.

Definition try_block_rq_complete (h : helpers) (ctx : option TraceEventRawBlockRqCompletion)
    (k : kernel) : result Z Z * kernel :=
  match ctx with
  | None => (Err 1, k)
  | Some evt =>
      let key := pack_block_key (bc_dev evt) (bc_sector evt) in
      match bm_get (BLOCKIO_START k) key with
      | None => (Ok 0, k)
      | Some start =>
          let k := with_blockio_start (bm_remove (BLOCKIO_START k) key).2 k in
          let ts := h_ktime h in
          let duration := saturating_sub ts (io_ts start) in
          (Ok 0, emit (Event_new ts duration key (io_tgid start) (io_tid start)
                         EVENT_BLOCK_IO (io_comm start)) k)
      end
  end.

(** The tracepoint entry points: [Ok(ret) | Err(ret) => ret]. *)
Definition ret_code (r : result Z Z) : Z := match r with Ok ret | Err ret => ret end.

Definition sched_switch h ctx (k : kernel) : Z * kernel :=
  let '(r, k) := try_sched_switch h ctx k in (ret_code r, k).
Definition futex_enter h ctx (k : kernel) : Z * kernel :=
  let '(r, k) := try_futex_enter h ctx k in (ret_code r, k).
Definition futex_exit h (k : kernel) : Z * kernel :=
  let '(r, k) := try_futex_exit h k in (ret_code r, k).
Definition block_rq_issue h ctx (k : kernel) : Z * kernel :=
  let '(r, k) := try_block_rq_issue h ctx k in (ret_code r, k).
Definition block_rq_complete h ctx (k : kernel) : Z * kernel :=
  let '(r, k) := try_block_rq_complete h ctx k in (ret_code r, k).
End Programs.
Arguments kernel : clear implicits.
