(* ===== verification/EbpfSpec.v ===== *)
(** * What the eBPF programs record

    The specification of the five handlers over the history of what
    happened, with no map and no ring buffer: a span is closed by the most
    recent opening of its key that nothing closed in between. The handlers
    refine it: with no capacity limit they record exactly the specified
    events, and with limits a subsequence of them. *)

From S2P Require Import Prelude RustStd Layout Common Vmlinux Ebpf.

(** One handler invocation, or the CLI's [set_target_tgid]. *)
Inductive probe :=
  | SchedSwitch (h : helpers) (ctx : option TraceEventRawSchedSwitch)
  | FutexEnter (h : helpers) (ctx : option TraceEventRawSysEnter)
  | FutexExit (h : helpers)
  | BlockRqIssue (h : helpers) (ctx : option TraceEventRawBlockRq)
  | BlockRqComplete (h : helpers) (ctx : option TraceEventRawBlockRqCompletion)
  | SetTarget (tgid : Z).

(** ** The specification

    A history lists the probes newest first. *)

Fixpoint target_of (hist : list probe) : Z :=
  match hist with
  | [] => 0
  | SetTarget t :: _ => t
  | _ :: older => target_of older
  end.

(** A family of spans: what opens the span of a key, and what closes it. A
    probe that does both (a switch away from and back to the same thread)
    opens first. *)
Section Spans.
Context {V : Type} (opens : probe -> Z -> Z -> option V) (closes : probe -> Z -> Z -> bool).

Fixpoint pending (hist : list probe) (key : Z) : option V :=
  match hist with
  | [] => None
  | p :: older =>
      if closes p (target_of older) key then None
      else match opens p (target_of older) key with
           | Some v => Some v
           | None => pending older key
           end
  end.

(** The span that [p] closes, if it closes [key]. *)
Definition closing (p : probe) (older : list probe) (key : Z) : option V :=
  match opens p (target_of older) key with
  | Some v => Some v
  | None => pending older key
  end.
End Spans.

Definition block_opens (p : probe) (target key : Z) : option BlockStart :=
  match p with
  | SchedSwitch h (Some evt) =>
      if negb (target =? 0) && negb (ss_prev_state evt =? TASK_RUNNING) &&
         (current_tgid h =? target) && (key =? as_u32 (ss_prev_pid evt))
      then Some (mkBlockStart (h_ktime h) (current_tgid h) (ss_prev_comm evt)) else None
  | _ => None
  end.

Definition block_closes (p : probe) (target key : Z) : bool :=
  match p with
  | SchedSwitch h (Some evt) => negb (target =? 0) && (key =? as_u32 (ss_next_pid evt))
  | _ => false
  end.

Definition futex_opens (p : probe) (target key : Z) : option FutexStart :=
  match p with
  | FutexEnter h (Some evt) =>
      if negb (target =? 0) && (current_tgid h =? target) && (key =? current_tid h)
      then Some (mkFutexStart (h_ktime h) (nth 0 (se_args evt) 0) (as_u32 (nth 1 (se_args evt) 0))
                   (current_tgid h) (current_comm h)) else None
  | _ => None
  end.

Definition futex_closes (p : probe) (target key : Z) : bool :=
  match p with
  | FutexExit h => key =? current_tid h
  | _ => false
  end.

Definition io_opens (p : probe) (target key : Z) : option BlockIoStart :=
  match p with
  | BlockRqIssue h (Some evt) =>
      if negb (target =? 0) && (current_tgid h =? target) &&
         (key =? pack_block_key (br_dev evt) (br_sector evt))
      then Some (mkBlockIoStart (h_ktime h) (current_tgid h) (current_tid h) (current_comm h))
      else None
  | _ => None
  end.

Definition io_closes (p : probe) (target key : Z) : bool :=
  match p with
  | BlockRqComplete h (Some evt) => key =? pack_block_key (bc_dev evt) (bc_sector evt)
  | _ => false
  end.

(** The event of a closed span. *)
Definition block_event (now tid : Z) (s : BlockStart) : Event :=
  Event_new now (saturating_sub now (bs_ts s)) 0 (bs_tgid s) tid EVENT_SCHED_BLOCK (bs_comm s).

Definition futex_event (now tid : Z) (s : FutexStart) : option Event :=
  ty ← futex_event_type (fs_op s);
  Some (Event_new now (saturating_sub now (fs_ts s)) (fs_uaddr s) (fs_tgid s) tid ty (fs_comm s)).

Definition io_event (now key : Z) (s : BlockIoStart) : Event :=
  Event_new now (saturating_sub now (io_ts s)) key (io_tgid s) (io_tid s) EVENT_BLOCK_IO (io_comm s).

(** The event one probe records after a history. *)
Definition spec_emit (p : probe) (older : list probe) : option Event :=
  match p with
  | SchedSwitch h (Some evt) =>
      let tid := as_u32 (ss_next_pid evt) in
      if target_of older =? 0 then None
      else block_event (h_ktime h) tid <$> closing block_opens block_closes p older tid
  | FutexExit h =>
      closing futex_opens futex_closes p older (current_tid h) ≫=
        futex_event (h_ktime h) (current_tid h)
  | BlockRqComplete h (Some evt) =>
      let key := pack_block_key (bc_dev evt) (bc_sector evt) in
      io_event (h_ktime h) key <$> closing io_opens io_closes p older key
  | _ => None
  end.

Fixpoint spec_events (hist : list probe) : list Event :=
  match hist with
  | [] => []
  | p :: older => spec_events older ++ option_list (spec_emit p older)
  end.

Lemma option_fmap_as_bind {A B} (f : A -> B) (o : option A) : f <$> o = o ≫= (fun a => Some (f a)).
Proof. by destruct o. Qed.

(** ** The handlers as a step function *)

Section Refinement.
Context {MB MF MI R : Type}.
Context `{!BpfHashMap Z BlockStart MB} `{!BpfHashMap Z FutexStart MF}
        `{!BpfHashMap Z BlockIoStart MI} `{!BpfRingBuf Event R}.

Definition step (k : kernel MB MF MI R) (p : probe) : kernel MB MF MI R :=
  match p with
  | SchedSwitch h ctx => (sched_switch h ctx k).2
  | FutexEnter h ctx => (futex_enter h ctx k).2
  | FutexExit h => (futex_exit h k).2
  | BlockRqIssue h ctx => (block_rq_issue h ctx k).2
  | BlockRqComplete h ctx => (block_rq_complete h ctx k).2
  | SetTarget t => with_target t k
  end.

Definition run (k : kernel MB MF MI R) (ps : list probe) : kernel MB MF MI R := foldl step k ps.

(** The state right after load: no target, nothing in flight, nothing
    recorded. *)
Record initial (k : kernel MB MF MI R) : Prop := {
  initial_target : target_tgid k = 0;
  initial_block key : bm_get (BLOCK_START k) key = None;
  initial_futex key : bm_get (FUTEX_START k) key = None;
  initial_io key : bm_get (BLOCKIO_START k) key = None;
  initial_events : rb_contents (EVENTS k) = [];
}.

(** Nothing is ever refused: no in-flight map fills up, and the ring buffer
    is read often enough. *)
Record lossless : Prop := {
  lossless_block m key v : (bm_insert (M := MB) m key v).1 = true;
  lossless_futex m key v : (bm_insert (M := MF) m key v).1 = true;
  lossless_io m key v : (bm_insert (M := MI) m key v).1 = true;
  lossless_ring (r : R) : rb_reserve r <> None;
}.

Context `{!BpfHashMapLaws Z BlockStart MB} `{!BpfHashMapLaws Z FutexStart MF}
        `{!BpfHashMapLaws Z BlockIoStart MI} `{!BpfRingBufLaws Event R}.

(** *** The simulation

    An in-flight map holds the pending span of a key or, when an insertion
    was refused, nothing. *)

Definition sim_map {V M : Type} `{!BpfHashMap Z V M} (m : M) (spec : Z -> option V) : Prop :=
  forall key, bm_get m key = spec key \/ (bm_get m key = None /\ ~ lossless).

Definition sim_events (l spec : list Event) : Prop :=
  l = spec \/ (l `sublist_of` spec /\ ~ lossless).

Record sim (k : kernel MB MF MI R) (hist : list probe) : Prop := {
  sim_target : target_tgid k = target_of hist;
  sim_block : sim_map (BLOCK_START k) (pending block_opens block_closes hist);
  sim_futex : sim_map (FUTEX_START k) (pending futex_opens futex_closes hist);
  sim_io : sim_map (BLOCKIO_START k) (pending io_opens io_closes hist);
  sim_ring : sim_events (rb_contents (EVENTS k)) (spec_events hist);
}.

Lemma sim_map_ext {V M} `{!BpfHashMap Z V M} (m : M) f g :
  (forall key, f key = g key) -> sim_map m f -> sim_map m g.
Proof. intros Hfg H key. rewrite <- Hfg. apply H. Qed.

Lemma sim_map_insert {V M} `{!BpfHashMap Z V M, !BpfHashMapLaws Z V M} (m : M) f key v :
  (lossless -> forall m k v, (bm_insert (M := M) m k v).1 = true) ->
  sim_map m f ->
  sim_map (bm_insert m key v).2 (fun key' => if decide (key' = key) then Some v else f key').
Proof.
  intros Hl H key'. destruct (bm_insert m key v).1 eqn:E.
  - rewrite bm_insert_ok by done. case_decide; [by left|apply H].
  - rewrite bm_insert_fail by done. case_decide; [subst key'|apply H].
    right. split; [|intros Hll; by rewrite Hl in E].
    destruct (bm_get m key) eqn:Eg; [|done].
    by rewrite bm_insert_present in E.
Qed.

Lemma sim_map_remove {V M} `{!BpfHashMap Z V M, !BpfHashMapLaws Z V M} (m : M) f key :
  sim_map m f ->
  sim_map (bm_remove m key).2 (fun key' => if decide (key' = key) then None else f key').
Proof. intros H key'. rewrite bm_remove_get. case_decide; [by left|apply H]. Qed.

(** A key that is absent from the map may be taken to have been removed. *)
Lemma sim_map_absent {V M} `{!BpfHashMap Z V M} (m : M) f key :
  bm_get m key = None ->
  sim_map m f -> sim_map m (fun key' => if decide (key' = key) then None else f key').
Proof. intros Hn H key'. case_decide; [subst; by left|apply H]. Qed.

Lemma sim_events_emit (k : kernel MB MF MI R) ev spec :
  sim_events (rb_contents (EVENTS k)) spec ->
  sim_events (rb_contents (EVENTS (emit ev k))) (spec ++ [ev]).
Proof.
  intros H. unfold emit. destruct (rb_reserve (EVENTS k)) as [entry|] eqn:E; cbn.
  - rewrite (rb_submit _ _ _ E).
    destruct H as [->|[H Hl]]; [by left|right].
    split; [by apply sublist_app|done].
  - right. split; [|intros Hl; by apply (lossless_ring Hl) in E].
    destruct H as [->|[H Hl]]; [by apply sublist_inserts_r|by apply sublist_inserts_r].
Qed.

(** An event that is specified but not recorded: its start was lost. *)
Lemma sim_events_skip l spec o :
  sim_events l spec -> ~ lossless -> sim_events l (spec ++ option_list o).
Proof.
  intros H Hl. right. split; [|done]. apply sublist_inserts_r.
  by destruct H as [->|[H _]].
Qed.

Lemma sim_events_none l spec : sim_events l spec -> sim_events l (spec ++ []).
Proof. by rewrite app_nil_r. Qed.

(** *** One probe at a time *)

Ltac quiet_probe H :=
  destruct H as [Ht Hb Hf Hi Hr]; constructor; cbn [spec_events spec_emit option_list pending
    target_of block_opens block_closes futex_opens futex_closes io_opens io_closes];
  try done; try (by apply sim_events_none).

Lemma sim_set_target k hist t : sim k hist -> sim (step k (SetTarget t)) (SetTarget t :: hist).
Proof. intros H. by quiet_probe H. Qed.

(** A closing handler, in normal form: look the start up, remove it if it
    is there, and emit what it says. *)
Definition emit_opt (o : option Event) (k : kernel MB MF MI R) : kernel MB MF MI R :=
  match o with Some ev => emit ev k | None => k end.

Definition bm_close {V M : Type} `{!BpfHashMap Z V M} (m : M) (key : Z) : M :=
  match bm_get m key with Some _ => (bm_remove m key).2 | None => m end.

Lemma emit_opt_fields o (k : kernel MB MF MI R) :
  target_tgid (emit_opt o k) = target_tgid k /\
  BLOCK_START (emit_opt o k) = BLOCK_START k /\
  FUTEX_START (emit_opt o k) = FUTEX_START k /\
  BLOCKIO_START (emit_opt o k) = BLOCKIO_START k.
Proof. destruct o; cbn; unfold emit; by repeat case_match. Qed.

Lemma sim_emit_opt {V M} `{!BpfHashMap Z V M} (m : M) f key k spec (event : V -> option Event) :
  sim_map m f -> sim_events (rb_contents (EVENTS k)) spec ->
  sim_events (rb_contents (EVENTS (emit_opt (bm_get m key ≫= event) k)))
    (spec ++ option_list (f key ≫= event)).
Proof.
  intros Hm Hr. destruct (Hm key) as [<-|[-> Hl]].
  - destruct (bm_get m key ≫= event); [by apply sim_events_emit|by apply sim_events_none].
  - by apply sim_events_skip.
Qed.

Lemma sim_map_close {V M} `{!BpfHashMap Z V M, !BpfHashMapLaws Z V M} (m : M) f key :
  sim_map m f -> sim_map (bm_close m key) (fun key' => if key' =? key then None else f key').
Proof.
  intros H. eapply (sim_map_ext _ (fun key' => if decide (key' = key) then None else f key')).
  { intros key'. case_decide; zcase; congruence. }
  unfold bm_close.
  destruct (bm_get m key) eqn:E; [by apply sim_map_remove|by apply sim_map_absent].
Qed.

Lemma sim_map_open {V M} `{!BpfHashMap Z V M, !BpfHashMapLaws Z V M} (m : M) f key v :
  (lossless -> forall m k v, (bm_insert (M := M) m k v).1 = true) ->
  sim_map m f ->
  sim_map (bm_insert m key v).2 (fun key' => if key' =? key then Some v else f key').
Proof.
  intros Hl H.
  eapply (sim_map_ext _ (fun key' => if decide (key' = key) then Some v else f key'));
    [|by apply sim_map_insert].
  intros key'. case_decide; zcase; congruence.
Qed.

(** The kernel after the opening half of [sched_switch]. *)
Definition switch_out (h : helpers) (evt : TraceEventRawSchedSwitch) (k : kernel MB MF MI R) :
    kernel MB MF MI R :=
  if negb (ss_prev_state evt =? TASK_RUNNING) && (current_tgid h =? target_tgid k)
  then with_block_start (bm_insert (BLOCK_START k) (as_u32 (ss_prev_pid evt))
         (mkBlockStart (h_ktime h) (current_tgid h) (ss_prev_comm evt))).2 k
  else k.

Lemma sched_switch_normal k h evt :
  (target_tgid k =? 0) = false ->
  step k (SchedSwitch h (Some evt)) =
    let k1 := switch_out h evt k in
    let next := as_u32 (ss_next_pid evt) in
    emit_opt (bm_get (BLOCK_START k1) next ≫= fun s => Some (block_event (h_ktime h) next s))
      (with_block_start (bm_close (BLOCK_START k1) next) k1).
Proof.
  intros E0. cbn -[emit bm_get]. unfold sched_switch, try_sched_switch, switch_out. rewrite E0.
  unfold bm_close. destruct (negb _), (current_tgid h =? _); cbn -[emit];
    destruct (bm_get _ _); cbn; destruct k; done.
Qed.

Lemma futex_exit_normal k h :
  step k (FutexExit h) =
    emit_opt (bm_get (FUTEX_START k) (current_tid h) ≫= futex_event (h_ktime h) (current_tid h))
      (with_futex_start (bm_close (FUTEX_START k) (current_tid h)) k).
Proof.
  cbn -[emit bm_get]. unfold futex_exit, try_futex_exit, bm_close, futex_event.
  destruct (bm_get _ _) as [s|]; cbn; [|by destruct k].
  by destruct (futex_event_type _).
Qed.

Lemma block_rq_complete_normal k h evt :
  step k (BlockRqComplete h (Some evt)) =
    let key := pack_block_key (bc_dev evt) (bc_sector evt) in
    emit_opt (bm_get (BLOCKIO_START k) key ≫= fun s => Some (io_event (h_ktime h) key s))
      (with_blockio_start (bm_close (BLOCKIO_START k) key) k).
Proof.
  cbn -[emit bm_get pack_block_key]. unfold block_rq_complete, try_block_rq_complete, bm_close.
  destruct (bm_get _ _) as [s|]; cbn; [done|by destruct k].
Qed.

Lemma sim_switch_out k hist h evt :
  (target_of hist =? 0) = false -> sim k hist ->
  sim_map (BLOCK_START (switch_out h evt k))
    (closing block_opens block_closes (SchedSwitch h (Some evt)) hist) /\
  EVENTS (switch_out h evt k) = EVENTS k /\ FUTEX_START (switch_out h evt k) = FUTEX_START k /\
  BLOCKIO_START (switch_out h evt k) = BLOCKIO_START k /\
  target_tgid (switch_out h evt k) = target_tgid k.
Proof.
  intros E0 [Ht Hb _ _ _]. unfold switch_out, closing. cbn [block_opens]. rewrite E0, Ht. cbn.
  destruct (negb _ && _) eqn:E; cbn; split_and!; try done.
  eapply sim_map_ext; [|apply (sim_map_open _ _ _ _ lossless_block Hb)].
  intros key. cbn. by destruct (key =? _).
Qed.

Lemma sim_sched_switch k hist h ctx :
  sim k hist -> sim (step k (SchedSwitch h ctx)) (SchedSwitch h ctx :: hist).
Proof.
  intros H. destruct ctx as [evt|].
  2: { unfold step, sched_switch, try_sched_switch. destruct (_ =? 0); by quiet_probe H. }
  destruct (target_tgid k =? 0) eqn:E0.
  { unfold step, sched_switch, try_sched_switch. rewrite E0.
    quiet_probe H; rewrite <- Ht, E0; cbn; [done|by apply sim_events_none]. }
  rewrite sched_switch_normal by done. cbn [Datatypes.snd]. cbv zeta.
  rewrite (sim_target _ _ H) in E0.
  destruct (sim_switch_out k hist h evt E0 H) as (Hb & He & Hf & Hi & Ht).
  destruct H as [Ht' _ Hf' Hi' Hr].
  edestruct emit_opt_fields as (F1 & F2 & F3 & F4).
  constructor; rewrite ?F1, ?F2, ?F3, ?F4; cbn -[emit_opt]; rewrite ?Hf, ?Hi; try done.
  - by rewrite <- Ht', <- Ht.
  - eapply sim_map_ext; [|by apply sim_map_close]. intros key. unfold closing. cbn. by rewrite E0.
  - rewrite E0, option_fmap_as_bind. apply sim_emit_opt; [done|]. cbn. by rewrite He.
Qed.

Lemma sim_futex_enter k hist h ctx :
  sim k hist -> sim (step k (FutexEnter h ctx)) (FutexEnter h ctx :: hist).
Proof.
  intros H. unfold step, futex_enter, try_futex_enter. rewrite (sim_target _ _ H).
  destruct ctx as [evt|]; [|destruct (_ || _); by quiet_probe H].
  destruct (target_of hist =? 0) eqn:E0; [by quiet_probe H; rewrite E0|].
  destruct (current_tgid h =? target_of hist) eqn:E1; cbn; [|by quiet_probe H; rewrite E1, andb_false_r].
  quiet_probe H. rewrite E0, E1. cbn.
  eapply sim_map_ext; [|apply (sim_map_open _ _ _ _ lossless_futex Hf)].
  intros key. cbn. by destruct (key =? _).
Qed.

Lemma sim_block_rq_issue k hist h ctx :
  sim k hist -> sim (step k (BlockRqIssue h ctx)) (BlockRqIssue h ctx :: hist).
Proof.
  intros H. unfold step, block_rq_issue, try_block_rq_issue. rewrite (sim_target _ _ H).
  destruct ctx as [evt|]; [|destruct (_ || _); by quiet_probe H].
  destruct (target_of hist =? 0) eqn:E0; [by quiet_probe H; rewrite E0|].
  destruct (current_tgid h =? target_of hist) eqn:E1; cbn; [|by quiet_probe H; rewrite E1, andb_false_r].
  quiet_probe H. rewrite E0, E1. cbn.
  eapply sim_map_ext; [|apply (sim_map_open _ _ _ _ lossless_io Hi)].
  intros key. cbn. by destruct (key =? _).
Qed.

Lemma sim_futex_exit k hist h : sim k hist -> sim (step k (FutexExit h)) (FutexExit h :: hist).
Proof.
  intros [Ht Hb Hf Hi Hr]. rewrite futex_exit_normal.
  edestruct emit_opt_fields as (F1 & F2 & F3 & F4).
  constructor; rewrite ?F1, ?F2, ?F3, ?F4; cbn -[emit_opt]; try done.
  - by apply sim_map_close.
  - by apply sim_emit_opt.
Qed.

Lemma sim_block_rq_complete k hist h ctx :
  sim k hist -> sim (step k (BlockRqComplete h ctx)) (BlockRqComplete h ctx :: hist).
Proof.
  intros H. destruct ctx as [evt|]; [|by quiet_probe H].
  destruct H as [Ht Hb Hf Hi Hr]. rewrite block_rq_complete_normal. cbv zeta.
  edestruct emit_opt_fields as (F1 & F2 & F3 & F4).
  constructor; rewrite ?F1, ?F2, ?F3, ?F4; cbn -[emit_opt pack_block_key]; try done.
  - by apply sim_map_close.
  - rewrite option_fmap_as_bind. by apply sim_emit_opt.
Qed.

Lemma sim_step k hist p : sim k hist -> sim (step k p) (p :: hist).
Proof.
  destruct p; auto using sim_sched_switch, sim_futex_enter, sim_futex_exit,
    sim_block_rq_issue, sim_block_rq_complete, sim_set_target.
Qed.

Lemma sim_initial k : initial k -> sim k [].
Proof.
  intros [Ht Hb Hf Hi Hr]. constructor; try done; try (intros key; left; auto).
  rewrite Hr. by left.
Qed.

Lemma sim_run k hist ps : sim k hist -> sim (run k ps) (reverse ps ++ hist).
Proof.
  revert k hist. induction ps as [|p ps IH]; intros k hist H; [done|].
  rewrite reverse_cons, <- app_assoc. by apply IH, sim_step.
Qed.

Lemma sim_run_initial k ps : initial k -> sim (run k ps) (reverse ps).
Proof.
  intros H. rewrite <- (app_nil_r (reverse ps)). by apply sim_run, sim_initial.
Qed.
End Refinement.
