(* ===== verification/KernelMaps.v ===== *)
(** * Instances of the kernel's map and ring buffer interfaces

    Two implementations of [BpfHashMap] and [BpfRingBuf] with their laws: one
    with the capacities the program declares, which refuses what does not
    fit, and one without limits. *)

From S2P Require Import Prelude RustStd Common Vmlinux Ebpf EbpfSpec.

(** ** Bounded *)

Record capmap (V : Type) := mkCapmap { cm_max_entries : nat; cm_table : gmap Z V }.
Arguments mkCapmap {V} _ _.
Arguments cm_max_entries {V} _.
Arguments cm_table {V} _.

#[export] Instance capmap_ops V : BpfHashMap Z V (capmap V) := {
  bm_get m k := cm_table m !! k;
  bm_insert m k v :=
    if decide (is_Some (cm_table m !! k) \/ (size (cm_table m) < cm_max_entries m)%nat)
    then (true, mkCapmap (cm_max_entries m) (<[k := v]> (cm_table m)))
    else (false, m);
  bm_remove m k := (bool_decide (is_Some (cm_table m !! k)),
                    mkCapmap (cm_max_entries m) (delete k (cm_table m)));
}.

#[export] Instance capmap_laws V : BpfHashMapLaws Z V (capmap V).
Proof.
  split; cbn; intros *.
  - case_decide; cbn; [|done]. intros _. rewrite lookup_insert. by repeat case_decide.
  - by case_decide.
  - intros. case_decide; [done|naive_solver].
  - rewrite lookup_delete. by repeat case_decide.
Qed.

Record ring := mkRing { ring_capacity : nat; ring_items : list Event }.

#[export] Instance ring_ops : BpfRingBuf Event ring := {
  rb_reserve r :=
    if decide (length (ring_items r) < ring_capacity r)%nat
    then Some (fun ev => mkRing (ring_capacity r) (ring_items r ++ [ev]))
    else None;
  rb_contents := ring_items;
}.

#[export] Instance ring_laws : BpfRingBufLaws Event ring.
Proof. split. cbn. intros *. case_decide; [by intros [= <-]|done]. Qed.

(** ** Unbounded *)

#[export] Instance gmap_ops V : BpfHashMap Z V (gmap Z V) := {
  bm_get m k := m !! k;
  bm_insert m k v := (true, <[k := v]> m);
  bm_remove m k := (true, delete k m);
}.

#[export] Instance gmap_laws V : BpfHashMapLaws Z V (gmap Z V).
Proof.
  split; cbn; intros *; try done.
  - intros _. rewrite lookup_insert. by repeat case_decide.
  - rewrite lookup_delete. by repeat case_decide.
Qed.

#[export] Instance list_ring_ops : BpfRingBuf Event (list Event) := {
  rb_reserve r := Some (fun ev => r ++ [ev]);
  rb_contents r := r;
}.

#[export] Instance list_ring_laws : BpfRingBufLaws Event (list Event).
Proof. split. cbn. intros *. by intros [= <-]. Qed.

(** ** The loaded program

    The capacities of the [#[map]] declarations. A record takes 56 bytes and
    an 8 byte header of the ring buffer, of whose 256 KiB the kernel lets all
    but one byte be in use. *)

Definition bounded_kernel : Type :=
  kernel (capmap BlockStart) (capmap FutexStart) (capmap BlockIoStart) ring.

Definition loaded_bounded : bounded_kernel :=
  mkKernel (Some 0) (mkCapmap 10240 ∅) (mkCapmap 10240 ∅) (mkCapmap 4096 ∅)
    (mkRing ((256 * 1024 - 1) / (56 + 8)) []).

Definition unbounded_kernel : Type :=
  kernel (gmap Z BlockStart) (gmap Z FutexStart) (gmap Z BlockIoStart) (list Event).

Definition loaded : unbounded_kernel := mkKernel (Some 0) ∅ ∅ ∅ [].

Lemma loaded_bounded_initial : initial loaded_bounded.
Proof. by split. Qed.

Lemma loaded_initial : initial loaded.
Proof. by split. Qed.

Lemma loaded_lossless :
  lossless (MB := gmap Z BlockStart) (MF := gmap Z FutexStart) (MI := gmap Z BlockIoStart)
    (R := list Event).
Proof. by split. Qed.

#[export] Hint Resolve loaded_bounded_initial loaded_initial loaded_lossless : whyslow.
