(* ===== verification/EbpfProps.v ===== *)
(** * Properties of the eBPF programs

    Stated on runs of the handlers from the state right after load; each is
    proved on the specification and carried over by the refinement. *)

From S2P Require Import Prelude RustStd Layout Common Vmlinux Ebpf EbpfSpec KernelMaps.

(** ** The specification, analysed *)

Lemma target_of_elem hist : target_of hist <> 0 -> SetTarget (target_of hist) ∈ hist.
Proof.
  induction hist as [|p older IH]; cbn; [done|].
  destruct p; try (intros H; apply elem_of_cons; right; by apply IH).
  intros _. apply elem_of_cons. by left.
Qed.

Section Pending.
Context {V : Type} (opens : probe -> Z -> Z -> option V) (closes : probe -> Z -> Z -> bool).

(** A pending span has its opening in the history, and nothing after the
    opening closed or reopened it. *)
Lemma pending_Some hist key v :
  pending opens closes hist key = Some v ->
  exists newer q older, hist = newer ++ q :: older /\
    opens q (target_of older) key = Some v.
Proof.
  induction hist as [|p older IH]; cbn; [done|].
  destruct (closes p (target_of older) key); [done|].
  destruct (opens p (target_of older) key) eqn:E.
  - intros [= ->]. by exists [], p, older.
  - intros H. destruct (IH H) as (newer & q & older' & -> & Hq).
    by exists (p :: newer), q, older'.
Qed.

Lemma closing_Some p older key v :
  closing opens closes p older key = Some v ->
  exists newer q older', p :: older = newer ++ q :: older' /\
    opens q (target_of older') key = Some v.
Proof.
  unfold closing. destruct (opens p (target_of older) key) eqn:E.
  - intros [= ->]. by exists [], p, older.
  - intros H. destruct (pending_Some _ _ _ H) as (newer & q & older' & -> & Hq).
    by exists (p :: newer), q, older'.
Qed.
End Pending.

Definition probe_helpers (p : probe) : option helpers :=
  match p with
  | SchedSwitch h _ | FutexEnter h _ | FutexExit h | BlockRqIssue h _ | BlockRqComplete h _ => Some h
  | SetTarget _ => None
  end.

Definition probe_time (p : probe) : option Z := h_ktime <$> probe_helpers p.

Lemma spec_events_elem hist ev :
  ev ∈ spec_events hist ->
  exists newer p older, hist = newer ++ p :: older /\ spec_emit p older = Some ev.
Proof.
  induction hist as [|p older IH]; cbn; [by intros ?%elem_of_nil|].
  intros [H|H]%elem_of_app.
  - destruct (IH H) as (newer & p' & older' & -> & He). by exists (p :: newer), p', older'.
  - exists [], p, older. destruct (spec_emit p older); [|by apply elem_of_nil in H].
    by apply list_elem_of_singleton in H as ->.
Qed.

(** What opening a span says about the probe that did it. *)
Definition opened_by (q : probe) (target : Z) (ts tgid : Z) (comm : list byte) : Prop :=
  target <> 0 /\ tgid = target /\ probe_time q = Some ts /\
  match q with
  | SchedSwitch h (Some evt) => current_tgid h = tgid /\ comm = ss_prev_comm evt
  | FutexEnter h (Some _) | BlockRqIssue h (Some _) => current_tgid h = tgid /\ comm = current_comm h
  | _ => False
  end.

Ltac case_opens H :=
  repeat match type of H with context [match ?x with _ => _ end] =>
    destruct x eqn:?; try discriminate H end;
  injection H as <-; cbn; rewrite ?andb_true_iff, ?negb_true_iff, ?Z.eqb_eq, ?Z.eqb_neq in *;
  destruct_and?; subst.

Lemma block_opens_by q target key s :
  block_opens q target key = Some s -> opened_by q target (bs_ts s) (bs_tgid s) (bs_comm s).
Proof. unfold block_opens, opened_by. intros H. by case_opens H. Qed.

Lemma futex_opens_by q target key s :
  futex_opens q target key = Some s -> opened_by q target (fs_ts s) (fs_tgid s) (fs_comm s).
Proof. unfold futex_opens, opened_by. intros H. by case_opens H. Qed.

Lemma io_opens_by q target key s :
  io_opens q target key = Some s -> opened_by q target (io_ts s) (io_tgid s) (io_comm s).
Proof. unfold io_opens, opened_by. intros H. by case_opens H. Qed.

(** Where a specified event comes from: the probe that closed the span, and
    the one that opened it. *)
Definition event_origin (hist : list probe) (ev : Event) (t0 : Z) : Prop :=
  exists newer p newer' q older,
    hist = newer ++ newer' ++ q :: older /\
    head (newer' ++ q :: older) = Some p /\
    probe_time p = Some (ev_timestamp_ns ev) /\
    opened_by q (target_of older) t0 (ev_pid ev) (ev_comm ev) /\
    ev_duration_ns ev = saturating_sub (ev_timestamp_ns ev) t0.

Lemma origin_intro {V} opens closes p older key (v : V) newer now ts tgid comm ev :
  closing opens closes p older key = Some v ->
  (forall q target, opens q target key = Some v -> opened_by q target ts tgid comm) ->
  probe_time p = Some now ->
  ev_timestamp_ns ev = now -> ev_pid ev = tgid -> ev_comm ev = comm ->
  ev_duration_ns ev = saturating_sub now ts ->
  event_origin (newer ++ p :: older) ev ts.
Proof.
  intros Hc Ho Hp <- <- <- Hd.
  destruct (closing_Some _ _ _ _ _ _ Hc) as (newer' & q & older' & Heq & Hq).
  exists newer, p, newer', q, older'. rewrite <- Heq. eauto 6.
Qed.

Lemma spec_event_origin hist ev : ev ∈ spec_events hist -> exists t0, event_origin hist ev t0.
Proof.
  intros (newer & p & older & -> & H)%spec_events_elem.
  destruct p as [h [evt|]| |h| |h [evt|]|]; cbn in H; try done.
  - destruct (target_of older =? 0); [done|].
    apply fmap_Some in H as (s & Hs & ->). exists (bs_ts s).
    eapply (origin_intro block_opens block_closes); [exact Hs|intros ??; apply block_opens_by|done..].
  - apply bind_Some in H as (s & Hs & H). unfold futex_event in H.
    apply bind_Some in H as (ty & _ & [= <-]). exists (fs_ts s).
    eapply (origin_intro futex_opens futex_closes); [exact Hs|intros ??; apply futex_opens_by|done..].
  - apply fmap_Some in H as (s & Hs & ->). exists (io_ts s).
    eapply (origin_intro io_opens io_closes); [exact Hs|intros ??; apply io_opens_by|done..].
Qed.

(** ** Ranges *)

Definition wf_helpers (h : helpers) : Prop :=
  is_u64 (h_ktime h) /\ forall c, h_comm h = Some c -> length c = TASK_COMM_LEN.

(** A probe whose record and helper results have the values of their types. *)
Definition wf_probe (p : probe) : Prop :=
  match p with
  | SchedSwitch h ctx => wf_helpers h /\ forall e, ctx = Some e -> length (ss_prev_comm e) = TASK_COMM_LEN
  | FutexEnter h ctx => wf_helpers h /\ forall e, ctx = Some e -> Forall is_u64 (se_args e)
  | FutexExit h => wf_helpers h
  | BlockRqIssue h ctx => wf_helpers h
  | BlockRqComplete h ctx => wf_helpers h /\ forall e, ctx = Some e -> is_u32 (bc_dev e)
  | SetTarget t => is_u32 t
  end.

Lemma wf_current_comm h : wf_helpers h -> length (current_comm h) = TASK_COMM_LEN.
Proof. intros [_ Hc]. unfold current_comm. destruct (h_comm h); [by apply Hc|done]. Qed.

Lemma closing_wf {V} opens closes (P : V -> Prop) p older key v :
  (forall q target, wf_probe q -> opens q target key = Some v -> P v) ->
  Forall wf_probe (p :: older) -> closing opens closes p older key = Some v -> P v.
Proof.
  intros HP Hwf (newer & q & older' & Heq & Hq)%closing_Some.
  rewrite Heq, Forall_app, Forall_cons in Hwf. destruct_and?. eauto.
Qed.

Definition wf_block_start (s : BlockStart) : Prop :=
  is_u64 (bs_ts s) /\ is_u32 (bs_tgid s) /\ length (bs_comm s) = TASK_COMM_LEN.

Definition wf_futex_start (s : FutexStart) : Prop :=
  is_u64 (fs_uaddr s) /\ is_u64 (fs_ts s) /\ is_u32 (fs_tgid s) /\ length (fs_comm s) = TASK_COMM_LEN.

Definition wf_io_start (s : BlockIoStart) : Prop :=
  is_u64 (io_ts s) /\ is_u32 (io_tgid s) /\ is_u32 (io_tid s) /\ length (io_comm s) = TASK_COMM_LEN.

Lemma block_opens_wf q target key s :
  wf_probe q -> block_opens q target key = Some s -> wf_block_start s.
Proof.
  intros Hwf H. unfold block_opens in H. case_opens H. destruct Hwf as [[? _] ?].
  split_and!; [done| |by eauto]. apply as_uint_range. lia.
Qed.

Lemma futex_opens_wf q target key s :
  wf_probe q -> futex_opens q target key = Some s -> wf_futex_start s.
Proof.
  intros Hwf H. unfold futex_opens in H. case_opens H. destruct Hwf as [Hh He].
  split_and!; [|apply Hh|apply as_uint_range; lia|by apply wf_current_comm].
  specialize (He _ eq_refl). destruct (se_args _); [cbn; unfold is_uint; lia|by inversion He].
Qed.

Lemma io_opens_wf q target key s :
  wf_probe q -> io_opens q target key = Some s -> wf_io_start s.
Proof.
  intros Hwf H. unfold io_opens in H. case_opens H.
  split_and!; [apply Hwf|apply as_uint_range; lia|apply as_uint_range; lia|by apply wf_current_comm].
Qed.

Lemma futex_event_type_range op ty : futex_event_type op = Some ty -> is_u8 ty.
Proof. unfold futex_event_type. repeat case_match; intros; simplify_eq; done. Qed.

Lemma saturating_sub_u64 a b : is_u64 a -> is_u64 b -> is_u64 (saturating_sub a b).
Proof. unfold is_uint, saturating_sub. lia. Qed.

Lemma spec_emit_wf p older ev :
  Forall wf_probe (p :: older) -> spec_emit p older = Some ev -> wf_event ev.
Proof.
  intros Hwf H. pose proof (proj1 (proj1 (Forall_cons _ _ _) Hwf)) as Hp.
  destruct p as [h [evt|]| |h| |h [evt|]|]; cbn in H; try done.
  - destruct (target_of older =? 0); [done|].
    apply fmap_Some in H as (s & Hs & ->).
    apply (closing_wf block_opens block_closes wf_block_start) in Hs as (? & ? & ?);
      [|intros ??; apply block_opens_wf|done].
    apply wf_event_new; try done; try apply Hp; try (apply as_uint_range; lia).
    apply saturating_sub_u64; [apply Hp|done].
  - apply bind_Some in H as (s & Hs & H). unfold futex_event in H.
    apply bind_Some in H as (ty & Hty & [= <-]).
    apply (closing_wf futex_opens futex_closes wf_futex_start (FutexExit h) older) in Hs
      as (? & ? & ? & ?); [|intros ??; apply futex_opens_wf|done].
    apply wf_event_new; try done; try apply Hp; [|apply as_uint_range; lia|].
    + apply saturating_sub_u64; [apply Hp|done].
    + by eapply futex_event_type_range.
  - apply fmap_Some in H as (s & Hs & ->).
    apply (closing_wf io_opens io_closes wf_io_start (BlockRqComplete h (Some evt)) older) in Hs as (? & ? & ? & ?);
      [|intros ??; apply io_opens_wf|done].
    destruct Hp as [Hp Hd].
    apply wf_event_new; try done; try apply Hp.
    + apply saturating_sub_u64; [apply Hp|done].
    + apply pack_block_key_range. by apply Hd.
Qed.

Lemma spec_events_wf hist : Forall wf_probe hist -> Forall wf_event (spec_events hist).
Proof.
  induction hist as [|p older IH]; intros Hwf; cbn; [constructor|].
  apply Forall_app. split; [apply IH; by apply Forall_cons in Hwf as [_ ?]|].
  destruct (spec_emit p older) eqn:E; constructor; [by eapply spec_emit_wf|constructor].
Qed.

(** ** Runs of the handlers *)

Section Runs.
Context {MB MF MI R : Type}.
Context `{!BpfHashMap Z BlockStart MB} `{!BpfHashMap Z FutexStart MF}
        `{!BpfHashMap Z BlockIoStart MI} `{!BpfRingBuf Event R}.
Context `{!BpfHashMapLaws Z BlockStart MB} `{!BpfHashMapLaws Z FutexStart MF}
        `{!BpfHashMapLaws Z BlockIoStart MI} `{!BpfRingBufLaws Event R}.
Implicit Types k : kernel MB MF MI R.

Definition recorded k (ps : list probe) : list Event := rb_contents (EVENTS (run k ps)).

Lemma recorded_sublist k ps : initial k -> recorded k ps `sublist_of` spec_events (reverse ps).
Proof.
  intros H. destruct (sim_ring _ _ (sim_run_initial k ps H)) as [Heq|[Hsub _]]; [|done].
  unfold recorded. by rewrite Heq.
Qed.

Lemma recorded_lossless k ps :
  initial k -> lossless (MB := MB) (MF := MF) (MI := MI) (R := R) ->
  rb_contents (EVENTS (run k ps)) = spec_events (reverse ps).
Proof.
  intros Hk Hl. by destruct (sim_ring _ _ (sim_run_initial k ps Hk)) as [H|[_ H]].
Qed.

Lemma recorded_origin k ps ev :
  initial k -> ev ∈ recorded k ps -> exists t0, event_origin (reverse ps) ev t0.
Proof.
  intros Hk Hev. apply spec_event_origin.
  by eapply elem_of_sublist, recorded_sublist.
Qed.

Lemma origin_target ps ev t0 :
  event_origin (reverse ps) ev t0 -> ev_pid ev <> 0 /\ SetTarget (ev_pid ev) ∈ ps.
Proof.
  intros (newer & p & newer' & q & older & Heq & _ & _ & (Hne & -> & _) & _).
  split; [done|]. apply elem_of_reverse. rewrite Heq, app_assoc, elem_of_app.
  right. apply elem_of_cons. right. by apply target_of_elem.
Qed.

(** The same in the order of the probes: the target had been set when the span
    began. *)
Lemma origin_begun ps ev t0 :
  event_origin (reverse ps) ev t0 ->
  exists before q after p, ps = before ++ q :: after /\ p ∈ q :: after /\
    opened_by q (ev_pid ev) t0 (ev_pid ev) (ev_comm ev) /\ probe_time p = Some (ev_timestamp_ns ev) /\
    target_of (reverse before) = ev_pid ev /\ SetTarget (ev_pid ev) ∈ before.
Proof.
  intros (newer & p & newer' & q & older & Heq & Hp & Htp & Ho & _).
  destruct (Ho) as (Hne & Hpid & _). rewrite <- Hpid in Ho.
  apply (f_equal reverse) in Heq. rewrite reverse_involutive, app_assoc, reverse_app, reverse_cons in Heq.
  exists (reverse older), q, (reverse (newer ++ newer')), p.
  rewrite <- app_assoc in Heq. split_and!; [done| |done..| |].
  - destruct newer' as [|p' newer']; cbn in Hp; simplify_eq; [apply list_elem_of_here|].
    apply list_elem_of_further. rewrite elem_of_reverse. apply elem_of_app. right. apply list_elem_of_here.
  - by rewrite reverse_involutive.
  - apply elem_of_reverse. rewrite Hpid. by apply target_of_elem.
Qed.

(** Consecutive probes see a clock that does not go back. *)
Definition clock_monotone (ps : list probe) : Prop :=
  StronglySorted (fun p q =>
    forall t u, probe_time p = Some t -> probe_time q = Some u -> t <= u) ps.

Lemma origin_times ps ev t0 :
  clock_monotone ps -> event_origin (reverse ps) ev t0 ->
  t0 <= ev_timestamp_ns ev /\
  exists q p, q ∈ ps /\ p ∈ ps /\ probe_time q = Some t0 /\ probe_time p = Some (ev_timestamp_ns ev).
Proof.
  intros Hmono (newer & p & newer' & q & older & Heq & Hp & Htp & (_ & _ & Htq & _) & _).
  apply (f_equal reverse) in Heq. rewrite reverse_involutive in Heq. subst ps.
  split.
  - destruct newer' as [|p' newer']; cbn in Hp; simplify_eq; [lia|].
    unfold clock_monotone in Hmono. rewrite reverse_app in Hmono.
    apply StronglySorted_app_1_l in Hmono.
    rewrite <- app_comm_cons, reverse_cons in Hmono.
    eapply StronglySorted_app_1_elem_of in Hmono; [by eapply Hmono| |set_solver].
    apply elem_of_reverse. set_solver.
  - exists q, p. rewrite !elem_of_reverse. split_and!; [set_solver| |done|done].
    apply elem_of_app. right. by apply head_Some_elem_of.
Qed.
End Runs.

Lemma run_wf {MB MF MI R : Type}
    `{!BpfHashMap Z BlockStart MB} `{!BpfHashMap Z FutexStart MF}
    `{!BpfHashMap Z BlockIoStart MI} `{!BpfRingBuf Event R}
    `{!BpfHashMapLaws Z BlockStart MB} `{!BpfHashMapLaws Z FutexStart MF}
    `{!BpfHashMapLaws Z BlockIoStart MI} `{!BpfRingBufLaws Event R}
    (k : kernel MB MF MI R) (ps : list probe) :
  initial k -> Forall wf_probe ps -> Forall wf_event (rb_contents (EVENTS (run k ps))).
Proof.
  intros Hk Hwf. eapply sublist_Forall; [by apply recorded_sublist|].
  apply spec_events_wf. by rewrite reverse_Permutation.
Qed.

(** ** A concrete run

    Thread 8 of process 7 is switched out at 10, in a given state, and back
    in at 25. *)

Definition blink_comm : list byte := bytes_of_string "blink" ++ replicate 11 zero_byte.
Definition blink_switch (prev state next : Z) : TraceEventRawSchedSwitch :=
  mkSchedSwitch (mkTraceEntry 0 0 0 0) blink_comm prev 120 state blink_comm next 120.
Definition blink_out : helpers := mkHelpers (Z.lor (Z.shiftl 7 32) 8) (Some blink_comm) 10.
Definition blink_in : helpers := mkHelpers 0 None 25.
Definition blink (state : Z) : list probe :=
  [SetTarget 7; SchedSwitch blink_out (Some (blink_switch 8 state 0));
   SchedSwitch blink_in (Some (blink_switch 0 0 8))].
Definition blink_event : Event := Event_new 25 15 0 7 8 EVENT_SCHED_BLOCK blink_comm.

Lemma blink_recorded : blink_event ∈ rb_contents (EVENTS (run loaded (blink 1))).
Proof. vm_compute. by apply list_elem_of_singleton. Qed.

(** ** Properties *)

(** C4: Without capacity limits the handlers record exactly the specified
    events, in order. *)
Theorem recorded_exactly {MB MF MI R : Type}
    `{!BpfHashMap Z BlockStart MB} `{!BpfHashMap Z FutexStart MF}
    `{!BpfHashMap Z BlockIoStart MI} `{!BpfRingBuf Event R}
    `{!BpfHashMapLaws Z BlockStart MB} `{!BpfHashMapLaws Z FutexStart MF}
    `{!BpfHashMapLaws Z BlockIoStart MI} `{!BpfRingBufLaws Event R}
    (k : kernel MB MF MI R) (ps : list probe) :
  initial k -> lossless (MB := MB) (MF := MF) (MI := MI) (R := R) ->
  rb_contents (EVENTS (run k ps)) = spec_events (reverse ps).
Proof. apply recorded_lossless. Qed.

Lemma recorded_exactly_witness :
  rb_contents (EVENTS (run loaded (blink 1))) = spec_events (reverse (blink 1)).
Proof. exact (recorded_exactly loaded (blink 1) loaded_initial loaded_lossless). Defined.

(** With any capacities the handlers record a subsequence of the specified
    events: what does not fit is lost, nothing is invented. *)
Theorem recorded_no_invention {MB MF MI R : Type}
    `{!BpfHashMap Z BlockStart MB} `{!BpfHashMap Z FutexStart MF}
    `{!BpfHashMap Z BlockIoStart MI} `{!BpfRingBuf Event R}
    `{!BpfHashMapLaws Z BlockStart MB} `{!BpfHashMapLaws Z FutexStart MF}
    `{!BpfHashMapLaws Z BlockIoStart MI} `{!BpfRingBufLaws Event R}
    (k : kernel MB MF MI R) (ps : list probe) :
  initial k -> rb_contents (EVENTS (run k ps)) `sublist_of` spec_events (reverse ps).
Proof. apply recorded_sublist. Qed.

Lemma recorded_no_invention_witness :
  rb_contents (EVENTS (run loaded_bounded (blink 1))) `sublist_of` spec_events (reverse (blink 1)).
Proof. exact (recorded_no_invention loaded_bounded (blink 1) loaded_bounded_initial). Defined.

(** Every recorded event belongs to a process the CLI had set as its target
    at the time the span began. *)
Theorem recorded_only_target {MB MF MI R : Type}
    `{!BpfHashMap Z BlockStart MB} `{!BpfHashMap Z FutexStart MF}
    `{!BpfHashMap Z BlockIoStart MI} `{!BpfRingBuf Event R}
    `{!BpfHashMapLaws Z BlockStart MB} `{!BpfHashMapLaws Z FutexStart MF}
    `{!BpfHashMapLaws Z BlockIoStart MI} `{!BpfRingBufLaws Event R}
    (k : kernel MB MF MI R) (ps : list probe) (ev : Event) :
  initial k -> ev ∈ rb_contents (EVENTS (run k ps)) ->
  ev_pid ev <> 0 /\ SetTarget (ev_pid ev) ∈ ps.
Proof.
  intros Hk Hev. destruct (recorded_origin k ps ev Hk Hev) as (t0 & Ho). by eapply origin_target.
Qed.

Lemma recorded_only_target_witness : 7 <> 0 /\ SetTarget 7 ∈ blink 1.
Proof. exact (recorded_only_target loaded (blink 1) blink_event loaded_initial blink_recorded). Defined.

(** Under a monotone clock an event's [timestamp - duration .. timestamp] is
    exactly the span between the two probes that opened and closed it. *)
Theorem recorded_span_exact {MB MF MI R : Type}
    `{!BpfHashMap Z BlockStart MB} `{!BpfHashMap Z FutexStart MF}
    `{!BpfHashMap Z BlockIoStart MI} `{!BpfRingBuf Event R}
    `{!BpfHashMapLaws Z BlockStart MB} `{!BpfHashMapLaws Z FutexStart MF}
    `{!BpfHashMapLaws Z BlockIoStart MI} `{!BpfRingBufLaws Event R}
    (k : kernel MB MF MI R) (ps : list probe) (ev : Event) :
  initial k -> clock_monotone ps -> ev ∈ rb_contents (EVENTS (run k ps)) ->
  exists q p, q ∈ ps /\ p ∈ ps /\
    probe_time q = Some (ev_timestamp_ns ev - ev_duration_ns ev) /\
    probe_time p = Some (ev_timestamp_ns ev) /\ 0 <= ev_duration_ns ev.
Proof.
  intros Hk Hmono Hev. destruct (recorded_origin k ps ev Hk Hev) as (t0 & Ho).
  destruct (origin_times ps ev t0 Hmono Ho) as (Hle & q & p & Hq & Hp & Htq & Htp).
  destruct Ho as (? & ? & ? & ? & ? & _ & _ & _ & _ & Hd).
  rewrite Hd, saturating_sub_exact by done.
  exists q, p. split_and!; try done; [|lia]. rewrite Htq. f_equal. lia.
Qed.

Lemma recorded_span_exact_witness :
  exists q p, q ∈ blink 1 /\ p ∈ blink 1 /\ probe_time q = Some (25 - 15) /\
    probe_time p = Some 25 /\ 0 <= 15.
Proof.
  assert (clock_monotone (blink 1)) as Hm.
  { unfold clock_monotone, blink. repeat constructor; cbn; intros; simplify_eq; lia. }
  exact (recorded_span_exact loaded (blink 1) blink_event loaded_initial Hm blink_recorded).
Defined.

(** Every recorded event has the values of its field types, so it survives
    the ring buffer's memory image. *)
Theorem recorded_wf {MB MF MI R : Type}
    `{!BpfHashMap Z BlockStart MB} `{!BpfHashMap Z FutexStart MF}
    `{!BpfHashMap Z BlockIoStart MI} `{!BpfRingBuf Event R}
    `{!BpfHashMapLaws Z BlockStart MB} `{!BpfHashMapLaws Z FutexStart MF}
    `{!BpfHashMapLaws Z BlockIoStart MI} `{!BpfRingBufLaws Event R}
    (k : kernel MB MF MI R) (ps : list probe) :
  initial k -> Forall wf_probe ps -> Forall wf_event (rb_contents (EVENTS (run k ps))).
Proof. apply run_wf. Qed.

Lemma blink_wf : Forall wf_probe (blink 1).
Proof.
  assert (wf_helpers blink_out /\ wf_helpers blink_in) as [H1 H2].
  { split; (split; [unfold is_uint; cbn; lia|]); cbn; intros; by simplify_eq. }
  unfold blink. repeat apply Forall_cons_2; try apply Forall_nil_2; cbn.
  - unfold is_uint. lia.
  - split; [done|]. intros; by simplify_eq.
  - split; [done|]. intros; by simplify_eq.
Qed.

Lemma recorded_wf_witness : Forall wf_event (rb_contents (EVENTS (run loaded (blink 1)))).
Proof. exact (recorded_wf loaded (blink 1) loaded_initial blink_wf). Defined.

(** Until the CLI sets a target, nothing is recorded. *)
Theorem silent_before_target {MB MF MI R : Type}
    `{!BpfHashMap Z BlockStart MB} `{!BpfHashMap Z FutexStart MF}
    `{!BpfHashMap Z BlockIoStart MI} `{!BpfRingBuf Event R}
    `{!BpfHashMapLaws Z BlockStart MB} `{!BpfHashMapLaws Z FutexStart MF}
    `{!BpfHashMapLaws Z BlockIoStart MI} `{!BpfRingBufLaws Event R}
    (k : kernel MB MF MI R) (ps : list probe) :
  initial k -> (forall t, SetTarget t ∈ ps -> t = 0) ->
  rb_contents (EVENTS (run k ps)) = [].
Proof.
  intros Hk Hps. apply elem_of_nil_inv. intros ev Hev.
  destruct (recorded_origin k ps ev Hk Hev) as (t0 & Ho).
  destruct Ho as (newer & p & newer' & q & older & Heq & _ & _ & (Hne & _) & _).
  apply Hne, Hps, elem_of_reverse. rewrite Heq, app_assoc, elem_of_app.
  right. apply elem_of_cons. right. by apply target_of_elem.
Qed.

(** [attach 0]: the target 0 traces nothing. *)
Lemma silent_before_target_witness :
  rb_contents (EVENTS (run loaded (SetTarget 0 :: tail (blink 1)))) = [].
Proof.
  apply (silent_before_target loaded _ loaded_initial). intros t Ht.
  unfold blink in Ht. cbn [tail] in Ht.
  repeat (apply elem_of_cons in Ht as [Ht|Ht]; [by simplify_eq|]). by apply elem_of_nil in Ht.
Defined.

Lemma pending_frame {V} (opens : probe -> Z -> Z -> option V) closes newer q older key v :
  closes q (target_of older) key = false -> opens q (target_of older) key = Some v ->
  Forall (fun p => forall target, closes p target key = false /\ opens p target key = None) newer ->
  pending opens closes (newer ++ q :: older) key = Some v.
Proof.
  intros Hc Ho Hn. induction Hn as [|p newer Hp _ IH]; cbn.
  - by rewrite Hc, Ho.
  - destruct (Hp (target_of (newer ++ q :: older))) as [-> ->]. exact IH.
Qed.

Lemma target_of_frame newer older :
  Forall (fun p => forall t, p <> SetTarget t) newer -> target_of (newer ++ older) = target_of older.
Proof.
  induction 1 as [|p newer Hp _ IH]; [done|]. destruct p; cbn; try done. by destruct (Hp tgid).
Qed.

(** A thread's switch away and its next switch back leave the thread alone in
    between. *)
Definition leaves_thread_alone (tid : Z) (p : probe) : Prop :=
  match p with
  | SchedSwitch _ (Some evt) => tid <> as_u32 (ss_prev_pid evt) /\ tid <> as_u32 (ss_next_pid evt)
  | SetTarget _ => False
  | _ => True
  end.

Lemma leaves_thread_alone_pending tid p :
  leaves_thread_alone tid p ->
  (forall target, block_closes p target tid = false /\ block_opens p target tid = None) /\
  forall t, p <> SetTarget t.
Proof.
  destruct p as [h [evt|]| | | | |]; cbn; try done.
  intros [Hp Hn]. split; [|done]. intros target.
  apply Z.eqb_neq in Hp, Hn. by rewrite Hp, Hn, !andb_false_r.
Qed.

(** C23: A target thread that is switched out in a non-running state and later
    switched in, left alone in between ([leaves_thread_alone]: no other switch
    of it and no change of target), yields exactly one event, with the thread's
    name as it left and the time in between, provided that no map and no ring
    buffer refuses anything ([lossless]). *)
Theorem blocked_span_recorded {MB MF MI R : Type}
    `{!BpfHashMap Z BlockStart MB} `{!BpfHashMap Z FutexStart MF}
    `{!BpfHashMap Z BlockIoStart MI} `{!BpfRingBuf Event R}
    `{!BpfHashMapLaws Z BlockStart MB} `{!BpfHashMapLaws Z FutexStart MF}
    `{!BpfHashMapLaws Z BlockIoStart MI} `{!BpfRingBufLaws Event R}
    (k : kernel MB MF MI R) (before between : list probe) (h1 h2 : helpers)
    (out inn : TraceEventRawSchedSwitch) (tid : Z) :
  initial k -> lossless (MB := MB) (MF := MF) (MI := MI) (R := R) ->
  current_tgid h1 = target_of (reverse before) -> current_tgid h1 <> 0 ->
  ss_prev_state out <> TASK_RUNNING ->
  tid = as_u32 (ss_prev_pid out) -> tid <> as_u32 (ss_next_pid out) ->
  Forall (leaves_thread_alone tid) between ->
  tid = as_u32 (ss_next_pid inn) -> tid <> as_u32 (ss_prev_pid inn) ->
  rb_contents (EVENTS (run k (before ++ SchedSwitch h1 (Some out) :: between ++
                              [SchedSwitch h2 (Some inn)]))) =
  rb_contents (EVENTS (run k (before ++ SchedSwitch h1 (Some out) :: between))) ++
    [Event_new (h_ktime h2) (saturating_sub (h_ktime h2) (h_ktime h1)) 0
       (current_tgid h1) tid EVENT_SCHED_BLOCK (ss_prev_comm out)].
Proof.
  intros Hk Hl Htgt Hne Hst Hprev Hnext Halone Hin Hinp.
  rewrite !recorded_lossless by done.
  rewrite app_comm_cons, app_assoc, (reverse_app _ [_]). cbn [reverse rev_append app spec_events].
  f_equal. set (hist := reverse (before ++ _ :: between)).
  assert (hist = reverse between ++ SchedSwitch h1 (Some out) :: reverse before) as Hh.
  { unfold hist. by rewrite reverse_app, reverse_cons, <- app_assoc. }
  assert (Forall (leaves_thread_alone tid) (reverse between)) as Ha by by rewrite reverse_Permutation.
  assert (target_of hist = current_tgid h1) as Ht.
  { rewrite Hh, target_of_frame; [done|].
    eapply Forall_impl; [exact Ha|]. by intros p [_ ?]%leaves_thread_alone_pending. }
  assert (pending block_opens block_closes hist tid = Some (mkBlockStart (h_ktime h1) (current_tgid h1) (ss_prev_comm out))) as Hp.
  { rewrite Hh. apply pending_frame; cbn [block_closes block_opens]; rewrite <- ?Htgt.
    - apply Z.eqb_neq in Hnext. by rewrite Hnext, andb_false_r.
    - apply Z.eqb_neq in Hne, Hst. by rewrite Hne, Hst, Z.eqb_refl, Hprev, Z.eqb_refl.
    - eapply Forall_impl; [exact Ha|]. by intros p [? _]%leaves_thread_alone_pending. }
  cbn [spec_emit]. rewrite Ht, <- Hin. apply Z.eqb_neq in Hne, Hinp. rewrite Hne. unfold closing. cbn.
  by rewrite Hinp, !andb_false_r, Hp.
Qed.

(** The state is that of a preempted thread, [TASK_REPORT_MAX]: it is still
    runnable, and recorded as blocked. *)
Lemma blocked_span_recorded_witness :
  rb_contents (EVENTS (run loaded (blink 256))) =
  rb_contents (EVENTS (run loaded (take 2 (blink 256)))) ++ [blink_event].
Proof.
  exact (blocked_span_recorded loaded [SetTarget 7] [] blink_out blink_in (blink_switch 8 256 0)
    (blink_switch 0 0 8) 8 loaded_initial loaded_lossless eq_refl ltac:(done) ltac:(done) eq_refl
    ltac:(done) (Forall_nil_2 _) eq_refl ltac:(done)).
Defined.

(** [PRIVATE] and [CLOCK_REALTIME] variants of a futex operation are recorded
    like the plain operation, and only waits and wakes are recorded. *)
Theorem futex_event_type_flags (op : Z) :
  futex_event_type (Z.lor op FUTEX_PRIVATE_FLAG) = futex_event_type op /\
  futex_event_type (Z.lor op FUTEX_CLOCK_REALTIME) = futex_event_type op /\
  (forall ty, futex_event_type op = Some ty <->
    (ty = EVENT_FUTEX_WAIT /\ Z.land op FUTEX_CMD_MASK ∈ [FUTEX_WAIT; FUTEX_WAIT_BITSET]) \/
    (ty = EVENT_FUTEX_WAKE /\ Z.land op FUTEX_CMD_MASK ∈ [FUTEX_WAKE; FUTEX_WAKE_BITSET])).
Proof.
  split_and!.
  - unfold futex_event_type. by rewrite Z.land_lor_distr_l, Z.lor_0_r.
  - unfold futex_event_type. by rewrite Z.land_lor_distr_l, Z.lor_0_r.
  - intros ty. unfold futex_event_type. set (b := Z.land op FUTEX_CMD_MASK).
    rewrite !elem_of_cons, !elem_of_nil.
    unfold FUTEX_WAIT, FUTEX_WAKE, FUTEX_WAIT_BITSET, FUTEX_WAKE_BITSET.
    repeat (case_match; rewrite ?orb_true_iff, ?orb_false_iff, ?Z.eqb_eq, ?Z.eqb_neq in * );
      split; intros; simplify_eq; intuition (simplify_eq; auto; try lia).
Qed.

(** A failed [ctx.read_at(0)] changes nothing. *)
Theorem read_failure_harmless {MB MF MI R : Type}
    `{!BpfHashMap Z BlockStart MB} `{!BpfHashMap Z FutexStart MF}
    `{!BpfHashMap Z BlockIoStart MI} `{!BpfRingBuf Event R}
    (k : kernel MB MF MI R) (h : helpers) :
  (sched_switch h None k).2 = k /\ (futex_enter h None k).2 = k /\
  (block_rq_issue h None k).2 = k /\ block_rq_complete h None k = (1, k).
Proof.
  unfold sched_switch, try_sched_switch, futex_enter, try_futex_enter, block_rq_issue,
    try_block_rq_issue.
  split_and!; [by destruct (_ =? _)|by destruct (_ || _)..|done].
Qed.
