(* ===== verification/Tracepoints.v ===== *)
(** * The handlers on the bytes of a tracepoint record

    What [ctx.read_at(0)] gives a handler: the record the kernel wrote, taken
    apart by the layouts that [repr(C)] gives the structures of vmlinux.rs.
    The records are written here as the kernel's [format] files lay them out,
    field by field and with their gaps, not by the layout algorithm. *)

From S2P Require Import Prelude RustStd Layout Common Vmlinux Ebpf EbpfSpec KernelMaps EbpfProps.

(** ** The contexts *)

(** What a read at an offset, of a size, returns. *)
Definition TracePointContext : Type := nat -> nat -> option (list byte).

(** [ctx.read_at::<T>(0)]. *)
Definition read_at {T} (l : layout) (parse : list byte -> option T) (ctx : TracePointContext) : option T :=
  ctx 0%nat (l_size l) ≫= parse.

Section Handlers.
Context {MB MF MI R : Type}.
Context `{!BpfHashMap Z BlockStart MB} `{!BpfHashMap Z FutexStart MF}
        `{!BpfHashMap Z BlockIoStart MI} `{!BpfRingBuf Event R}.
Implicit Types (h : helpers) (ctx : TracePointContext) (k : kernel MB MF MI R).

Definition sched_switch_at h ctx k : Z * kernel MB MF MI R :=
  sched_switch h (read_at (repr_c sched_switch_layout) read_sched_switch ctx) k.

Definition futex_enter_at h ctx k : Z * kernel MB MF MI R :=
  futex_enter h (read_at (repr_c sys_enter_layout) read_sys_enter ctx) k.

Definition block_rq_issue_at h ctx k : Z * kernel MB MF MI R :=
  block_rq_issue h (read_at (repr_c block_rq_layout) read_block_rq ctx) k.

Definition block_rq_complete_at h ctx k : Z * kernel MB MF MI R :=
  block_rq_complete h (read_at (repr_c block_rq_completion_layout) read_block_rq_completion ctx) k.
End Handlers.

(** ** The records *)

(** A signed integer in memory. *)
Definition le_sbytes (n : nat) (z : Z) : list byte := le_bytes n (as_uint (8 * Z.of_nat n) z).

Definition is_sint (w z : Z) : Prop := - 2 ^ (w - 1) <= z < 2 ^ (w - 1).

(** common_type, common_flags, common_preempt_count, common_pid: 8 bytes. *)
Definition common_record (e : TraceEntry) : list byte :=
  le_bytes 2 (ent_kind e) ++ le_bytes 1 (ent_flags e) ++ le_bytes 1 (ent_preempt_count e) ++
  le_sbytes 4 (ent_pid e).

(** sched_switch: prev_comm at 8, prev_pid at 24, prev_prio at 28, prev_state
    at 32, next_comm at 40, next_pid at 56, next_prio at 60. *)
Definition sched_switch_record (evt : TraceEventRawSchedSwitch) : list byte :=
  common_record (ss_ent evt) ++ ss_prev_comm evt ++ le_sbytes 4 (ss_prev_pid evt) ++
  le_sbytes 4 (ss_prev_prio evt) ++ le_sbytes 8 (ss_prev_state evt) ++ ss_next_comm evt ++
  le_sbytes 4 (ss_next_pid evt) ++ le_sbytes 4 (ss_next_prio evt).

(** sys_enter_futex: the system call's number, with its padding, at 8, and the
    six arguments from 16. *)
Definition sys_enter_record (evt : TraceEventRawSysEnter) : list byte :=
  common_record (se_ent evt) ++ le_sbytes 8 (se_id evt) ++ concat (le_bytes 8 <$> se_args evt).

(** block_rq_issue: dev at 8, a gap of 4, sector at 16, nr_sector at 24, bytes
    at 28, ioprio at 32, rwbs at 34, comm at 44, cmd at 60. *)
Definition block_rq_record (gap : list byte) (evt : TraceEventRawBlockRq) : list byte :=
  common_record (br_ent evt) ++ le_bytes 4 (br_dev evt) ++ gap ++ le_bytes 8 (br_sector evt) ++
  le_bytes 4 (br_nr_sector evt) ++ le_bytes 4 (br_bytes evt) ++ le_bytes 2 (br_ioprio evt) ++
  br_rwbs evt ++ br_comm evt ++ le_bytes 4 (br_data_loc_cmd evt).

(** block_rq_complete: the same up to nr_sector at 24, then error at 28,
    ioprio at 32, rwbs at 34, cmd at 44. *)
Definition block_rq_completion_record (gap : list byte) (evt : TraceEventRawBlockRqCompletion) : list byte :=
  common_record (bc_ent evt) ++ le_bytes 4 (bc_dev evt) ++ gap ++ le_bytes 8 (bc_sector evt) ++
  le_bytes 4 (bc_nr_sector evt) ++ le_sbytes 4 (bc_error evt) ++ le_bytes 2 (bc_ioprio evt) ++
  bc_rwbs evt ++ le_bytes 4 (bc_data_loc_cmd evt).

(** The record is in memory from the context on. *)
Definition holds (ctx : TracePointContext) (rec : list byte) : Prop :=
  forall o n, (o + n <= length rec)%nat -> ctx o n = Some (take n (drop o rec)).

(** The values of a record's fields are of their types. *)
Record wf_entry (e : TraceEntry) : Prop := {
  we_kind : is_uint 16 (ent_kind e);
  we_flags : is_u8 (ent_flags e);
  we_preempt_count : is_u8 (ent_preempt_count e);
  we_pid : is_sint 32 (ent_pid e);
}.

Record wf_switch (evt : TraceEventRawSchedSwitch) : Prop := {
  ws_ent : wf_entry (ss_ent evt);
  ws_prev_comm : length (ss_prev_comm evt) = 16%nat;
  ws_prev_pid : is_sint 32 (ss_prev_pid evt);
  ws_prev_prio : is_sint 32 (ss_prev_prio evt);
  ws_prev_state : is_sint 64 (ss_prev_state evt);
  ws_next_comm : length (ss_next_comm evt) = 16%nat;
  ws_next_pid : is_sint 32 (ss_next_pid evt);
  ws_next_prio : is_sint 32 (ss_next_prio evt);
}.

Record wf_enter (evt : TraceEventRawSysEnter) : Prop := {
  wn_ent : wf_entry (se_ent evt);
  wn_id : is_sint 64 (se_id evt);
  wn_args : length (se_args evt) = 6%nat /\ Forall is_u64 (se_args evt);
}.

Record wf_rq (evt : TraceEventRawBlockRq) : Prop := {
  wr_ent : wf_entry (br_ent evt);
  wr_dev : is_u32 (br_dev evt);
  wr_sector : is_u64 (br_sector evt);
  wr_nr_sector : is_u32 (br_nr_sector evt);
  wr_bytes : is_u32 (br_bytes evt);
  wr_ioprio : is_uint 16 (br_ioprio evt);
  wr_rwbs : length (br_rwbs evt) = 10%nat;
  wr_comm : length (br_comm evt) = 16%nat;
  wr_cmd : is_u32 (br_data_loc_cmd evt);
}.

Record wf_completion (evt : TraceEventRawBlockRqCompletion) : Prop := {
  wc_ent : wf_entry (bc_ent evt);
  wc_dev : is_u32 (bc_dev evt);
  wc_sector : is_u64 (bc_sector evt);
  wc_nr_sector : is_u32 (bc_nr_sector evt);
  wc_error : is_sint 32 (bc_error evt);
  wc_ioprio : is_uint 16 (bc_ioprio evt);
  wc_rwbs : length (bc_rwbs evt) = 10%nat;
  wc_cmd : is_u32 (bc_data_loc_cmd evt);
}.

(** ** Reading them back *)

Lemma length_le_sbytes n z : length (le_sbytes n z) = n.
Proof. apply length_le_bytes. Qed.

Lemma le_sval_bytes n z : (0 < n)%nat -> is_sint (8 * Z.of_nat n) z -> le_sval (le_sbytes n z) = z.
Proof.
  intros Hn Hz. unfold le_sval, le_sbytes. rewrite length_le_bytes, le_val_bytes by (apply as_uint_range; lia).
  unfold is_sint in Hz. set (w := 8 * Z.of_nat n) in *. assert (2 ^ w = 2 * 2 ^ (w - 1)) as Hw
    by (rewrite <- Z.pow_succ_r by lia; f_equal; lia).
  unfold as_sint, as_uint. rewrite Z.mod_mod by lia.
  destruct (Z.leb_spec 0 z).
  - rewrite Z.mod_small by lia. destruct (Z.ltb_spec z (2 ^ (w - 1))); lia.
  - assert (z mod 2 ^ w = z + 2 ^ w) as ->
      by (rewrite <- (Z.mod_add z 1) by lia; rewrite Z.mod_small; lia).
    destruct (Z.ltb_spec (z + 2 ^ w) (2 ^ (w - 1))); lia.
Qed.

(** The fields of a structure laid out by [repr(C)], padding by [pad]. *)
Lemma decode_record pad fs vals rec :
  encode_struct pad fs vals = rec -> Forall2 field_ok fs vals -> decode_struct fs rec = vals.
Proof. intros <-. apply decode_encode_struct. Qed.

Lemma field_of {l : layout} (v : list byte) : length v = l_size l -> (0 < l_align l)%nat -> field_ok l v.
Proof. done. Qed.

Ltac fields := repeat apply Forall2_cons_2; try apply Forall2_nil_2; apply field_of;
  rewrite ?length_le_sbytes, ?length_le_bytes; try done; try (cbn; lia).

(** The layouts put the fields where the record has them. *)
Ltac laid_out := unfold encode_struct; cbn -[app]; rewrite ?app_nil_r, ?app_nil_l; try reflexivity.

Lemma length_common e : length (common_record e) = 8%nat.
Proof. unfold common_record. by rewrite !length_app, !length_le_bytes, length_le_sbytes. Qed.

Lemma read_common e : wf_entry e -> read_trace_entry (common_record e) = Some e.
Proof.
  intros [Hk Hf Hp Hpid]. unfold read_trace_entry.
  rewrite (decode_record (fun _ => zero_byte) _
    [le_bytes 2 (ent_kind e); le_bytes 1 (ent_flags e); le_bytes 1 (ent_preempt_count e); le_sbytes 4 (ent_pid e)]);
    [|laid_out|fields].
  by rewrite !le_val_bytes, le_sval_bytes by (done || lia); destruct e.
Qed.

Lemma read_switch evt : wf_switch evt -> read_sched_switch (sched_switch_record evt) = Some evt.
Proof.
  intros [He Hpc Hpp Hpr Hps Hnc Hnp Hnr]. unfold read_sched_switch.
  rewrite (decode_record (fun _ => zero_byte) _
    [common_record (ss_ent evt); ss_prev_comm evt; le_sbytes 4 (ss_prev_pid evt); le_sbytes 4 (ss_prev_prio evt);
     le_sbytes 8 (ss_prev_state evt); ss_next_comm evt; le_sbytes 4 (ss_next_pid evt);
     le_sbytes 4 (ss_next_prio evt)]); [|laid_out|fields; by rewrite ?length_common].
  rewrite read_common by done. cbn [mbind option_bind fmap list_fmap]. by rewrite !le_sval_bytes by (done || lia); destruct evt.
Qed.

Lemma read_enter evt : wf_enter evt -> read_sys_enter (sys_enter_record evt) = Some evt.
Proof.
  intros [He Hid [Hn Ha]]. destruct evt as [e id args]. cbn [se_ent se_id se_args] in *.
  destruct args as [|a1 [|a2 [|a3 [|a4 [|a5 [|a6 [|]]]]]]]; try discriminate Hn.
  unfold read_sys_enter.
  rewrite (decode_record (fun _ => zero_byte) _
    [common_record e; le_sbytes 8 id; le_bytes 8 a1; le_bytes 8 a2; le_bytes 8 a3; le_bytes 8 a4; le_bytes 8 a5;
     le_bytes 8 a6]); [|laid_out|
    fields; by rewrite ?length_common].
  rewrite read_common by done. cbn [mbind option_bind fmap list_fmap]. repeat (apply Forall_cons in Ha as [? Ha]).
  by rewrite le_sval_bytes, !le_val_bytes by (done || lia).
Qed.

(** The contents of the gap. *)
Definition gap_pad (from : nat) (gap : list byte) (i : nat) : byte := nth (i - from) gap zero_byte.

Lemma read_rq gap evt : length gap = 4%nat -> wf_rq evt -> read_block_rq (block_rq_record gap evt) = Some evt.
Proof.
  intros Hg [He Hd Hs Hn Hb Hi Hr Hc Hcmd]. unfold read_block_rq.
  rewrite (decode_record (gap_pad 12 gap) _
    [common_record (br_ent evt); le_bytes 4 (br_dev evt); le_bytes 8 (br_sector evt); le_bytes 4 (br_nr_sector evt);
     le_bytes 4 (br_bytes evt); le_bytes 2 (br_ioprio evt); br_rwbs evt; br_comm evt;
     le_bytes 4 (br_data_loc_cmd evt)]).
  - rewrite read_common by done. cbn [mbind option_bind fmap list_fmap]. by rewrite !le_val_bytes by (done || lia); destruct evt.
  - destruct gap as [|g1 [|g2 [|g3 [|g4 [|]]]]]; try discriminate Hg. laid_out.
  - fields; by rewrite ?length_common.
Qed.

Lemma read_completion gap evt :
  length gap = 4%nat -> wf_completion evt ->
  read_block_rq_completion (block_rq_completion_record gap evt) = Some evt.
Proof.
  intros Hg [He Hd Hs Hn Her Hi Hr Hcmd]. unfold read_block_rq_completion.
  rewrite (decode_record (gap_pad 12 gap) _
    [common_record (bc_ent evt); le_bytes 4 (bc_dev evt); le_bytes 8 (bc_sector evt); le_bytes 4 (bc_nr_sector evt);
     le_sbytes 4 (bc_error evt); le_bytes 2 (bc_ioprio evt); bc_rwbs evt; le_bytes 4 (bc_data_loc_cmd evt)]).
  - rewrite read_common by done. cbn [mbind option_bind fmap list_fmap].
    by rewrite !le_val_bytes, le_sval_bytes by (done || lia); destruct evt.
  - destruct gap as [|g1 [|g2 [|g3 [|g4 [|]]]]]; try discriminate Hg. laid_out.
  - fields; by rewrite ?length_common.
Qed.

Lemma read_at_record {T} (l : layout) (parse : list byte -> option T) ctx rec evt :
  holds ctx rec -> length rec = l_size l -> parse rec = Some evt -> read_at l parse ctx = Some evt.
Proof.
  intros Hc Hl Hp. unfold read_at. rewrite (Hc 0%nat (l_size l)) by lia.
  cbn [mbind option_bind]. by rewrite drop_0, take_ge by lia.
Qed.

Ltac record_length := unfold sched_switch_record, sys_enter_record, block_rq_record, block_rq_completion_record;
  rewrite !length_app, length_common, ?length_le_bytes, ?length_le_sbytes.

(** ** The property *)

(** C35: Given the record the kernel writes, laid out as its [format] files
    say, whatever the values of its fields and of its gaps, each handler does
    what it does given those values: every field is read at its place, with
    its width and sign. *)
Theorem handlers_read_records {MB MF MI R : Type}
    `{!BpfHashMap Z BlockStart MB} `{!BpfHashMap Z FutexStart MF}
    `{!BpfHashMap Z BlockIoStart MI} `{!BpfRingBuf Event R}
    (h : helpers) (ctx : TracePointContext) (k : kernel MB MF MI R) :
  (forall evt, wf_switch evt -> holds ctx (sched_switch_record evt) ->
     sched_switch_at h ctx k = sched_switch h (Some evt) k) /\
  (forall evt, wf_enter evt -> holds ctx (sys_enter_record evt) ->
     futex_enter_at h ctx k = futex_enter h (Some evt) k) /\
  (forall gap evt, length gap = 4%nat -> wf_rq evt -> holds ctx (block_rq_record gap evt) ->
     block_rq_issue_at h ctx k = block_rq_issue h (Some evt) k) /\
  (forall gap evt, length gap = 4%nat -> wf_completion evt -> holds ctx (block_rq_completion_record gap evt) ->
     block_rq_complete_at h ctx k = block_rq_complete h (Some evt) k).
Proof.
  split_and!.
  - intros evt Hwf Hc. unfold sched_switch_at.
    rewrite (read_at_record _ _ _ _ evt Hc); [done| |by apply read_switch].
    record_length. by rewrite (ws_prev_comm _ Hwf), (ws_next_comm _ Hwf).
  - intros evt Hwf Hc. unfold futex_enter_at.
    rewrite (read_at_record _ _ _ _ evt Hc); [done| |by apply read_enter].
    record_length. destruct (wn_args _ Hwf) as [Hn _].
    destruct (se_args evt) as [|? [|? [|? [|? [|? [|? [|]]]]]]]; try discriminate Hn. reflexivity.
  - intros gap evt Hg Hwf Hc. unfold block_rq_issue_at.
    rewrite (read_at_record _ _ _ _ evt Hc); [done| |by apply read_rq].
    record_length. by rewrite Hg, (wr_rwbs _ Hwf), (wr_comm _ Hwf).
  - intros gap evt Hg Hwf Hc. unfold block_rq_complete_at.
    rewrite (read_at_record _ _ _ _ evt Hc); [done| |by apply read_completion].
    record_length. by rewrite Hg, (wc_rwbs _ Hwf).
Qed.

(** A context on some memory. *)
Definition context_on (mem : list byte) : TracePointContext :=
  fun o n => if decide (o + n <= length mem)%nat then Some (take n (drop o mem)) else None.

Lemma context_holds mem : holds (context_on mem) mem.
Proof. intros o n Hn. unfold context_on. by rewrite decide_True. Qed.

Definition named (c : list byte) : list byte := c ++ replicate (16 - length c) zero_byte.

(** Thread 8 of process 7 blocks, with a prio that could be mistaken for a
    thread id. *)
Definition switch_evt : TraceEventRawSchedSwitch :=
  mkSchedSwitch (mkTraceEntry 316 1 0 8) (named (bytes_of_string "reader")) 8 120 2
    (named (bytes_of_string "swapper")) 0 120.

Lemma switch_evt_wf : wf_switch switch_evt.
Proof. by repeat constructor; cbn. Qed.

Lemma handlers_read_records_witness :
  let k := (sched_switch_at blink_out (context_on (sched_switch_record switch_evt)) (with_target 7 loaded)).2 in
  k = (sched_switch blink_out (Some switch_evt) (with_target 7 loaded)).2 /\
  bs_comm <$> bm_get (BLOCK_START k) 8 = Some (named (bytes_of_string "reader")).
Proof.
  intros k. assert (k = (sched_switch blink_out (Some switch_evt) (with_target 7 loaded)).2) as ->.
  { unfold k. by rewrite (proj1 (handlers_read_records blink_out (context_on (sched_switch_record switch_evt))
      (with_target 7 loaded)) switch_evt switch_evt_wf (context_holds _)). }
  split; [done|vm_compute; reflexivity].
Defined.
