(* ===== verification/Concurrent.v ===== *)
(** * The handlers, interleaved

    On a machine with several processors the handlers run at the same time,
    and only each single operation on a shared map or on the ring buffer is
    atomic. Here a handler is the sequence of those operations, and the
    handlers in flight are interleaved one operation at a time. Which handlers
    may be in flight together is a parameter of the machine, its admission:
    nothing in the program restricts it. As long as no two handlers in flight
    are about the same thread or request ([exclusive]), what is recorded is
    what the handlers would record one after the other; with [anything]
    admitted it need not be (see [Overlap]). *)

From S2P Require Import Prelude RustStd Layout Common Vmlinux Ebpf EbpfSpec KernelMaps EbpfProps.

(** ** Handlers as sequences of atomic operations *)

(** The operations on the three in-flight maps. *)
Inductive act : Type -> Type :=
  | BlockInsert (key : Z) (v : BlockStart) : act unit
  | BlockGet (key : Z) : act (option BlockStart)
  | BlockRemove (key : Z) : act unit
  | FutexInsert (key : Z) (v : FutexStart) : act unit
  | FutexGet (key : Z) : act (option FutexStart)
  | FutexRemove (key : Z) : act unit
  | IoInsert (key : Z) (v : BlockIoStart) : act unit
  | IoGet (key : Z) : act (option BlockIoStart)
  | IoRemove (key : Z) : act unit.

(** What is left of a handler: read the target and return at once unless it
    passes; an operation on a map; or return, after submitting an event. *)
Inductive micro : Type :=
  | Guard (pass : Z -> bool) (rest : Z -> micro)
  | Do (A : Type) (a : act A) (rest : A -> micro)
  | Finish (ev : option Event).
Arguments Do {A} a rest.

Definition sched_switch_micro (h : helpers) (ctx : option TraceEventRawSchedSwitch) : micro :=
  Guard (fun target => negb (target =? 0)) (fun target =>
    match ctx with
    | None => Finish None
    | Some evt =>
        let ts := h_ktime h in
        let prev_tid := as_u32 (ss_prev_pid evt) in
        let next_tid := as_u32 (ss_next_pid evt) in
        let close :=
          Do (BlockGet next_tid) (fun start =>
            match start with
            | Some start =>
                Do (BlockRemove next_tid) (fun _ =>
                  Finish (Some (block_event ts next_tid start)))
            | None => Finish None
            end) in
        if negb (ss_prev_state evt =? TASK_RUNNING) && (current_tgid h =? target)
        then Do (BlockInsert prev_tid (mkBlockStart ts (current_tgid h) (ss_prev_comm evt)))
               (fun _ => close)
        else close
    end).

Definition target_is (h : helpers) (target : Z) : bool :=
  negb ((target =? 0) || negb (current_tgid h =? target)).

Definition futex_enter_micro (h : helpers) (ctx : option TraceEventRawSysEnter) : micro :=
  Guard (target_is h) (fun _ =>
    match ctx with
    | None => Finish None
    | Some evt =>
        Do (FutexInsert (current_tid h)
              (mkFutexStart (h_ktime h) (nth 0 (se_args evt) 0) (as_u32 (nth 1 (se_args evt) 0))
                 (current_tgid h) (current_comm h)))
          (fun _ => Finish None)
    end).

Definition futex_exit_micro (h : helpers) : micro :=
  Do (FutexGet (current_tid h)) (fun start =>
    match start with
    | None => Finish None
    | Some start =>
        Do (FutexRemove (current_tid h)) (fun _ =>
          Finish (futex_event (h_ktime h) (current_tid h) start))
    end).

Definition block_rq_issue_micro (h : helpers) (ctx : option TraceEventRawBlockRq) : micro :=
  Guard (target_is h) (fun _ =>
    match ctx with
    | None => Finish None
    | Some evt =>
        Do (IoInsert (pack_block_key (br_dev evt) (br_sector evt))
              (mkBlockIoStart (h_ktime h) (current_tgid h) (current_tid h) (current_comm h)))
          (fun _ => Finish None)
    end).

Definition block_rq_complete_micro (h : helpers) (ctx : option TraceEventRawBlockRqCompletion) : micro :=
  match ctx with
  | None => Finish None
  | Some evt =>
      let key := pack_block_key (bc_dev evt) (bc_sector evt) in
      Do (IoGet key) (fun start =>
        match start with
        | None => Finish None
        | Some start => Do (IoRemove key) (fun _ => Finish (Some (io_event (h_ktime h) key start)))
        end)
  end.

(** The handler of a probe; [SetTarget] is the CLI's, and has none. *)
Definition handler (p : probe) : option micro :=
  match p with
  | SchedSwitch h ctx => Some (sched_switch_micro h ctx)
  | FutexEnter h ctx => Some (futex_enter_micro h ctx)
  | FutexExit h => Some (futex_exit_micro h)
  | BlockRqIssue h ctx => Some (block_rq_issue_micro h ctx)
  | BlockRqComplete h ctx => Some (block_rq_complete_micro h ctx)
  | SetTarget _ => None
  end.

(** ** What a handler is about *)

(** A place in the in-flight maps. *)
Inductive loc := LBlock (key : Z) | LFutex (key : Z) | LIo (key : Z).

#[export] Instance loc_eq_dec : EqDecision loc.
Proof. solve_decision. Defined.

Definition act_loc {A} (a : act A) : loc :=
  match a with
  | BlockInsert key _ | BlockGet key | BlockRemove key => LBlock key
  | FutexInsert key _ | FutexGet key | FutexRemove key => LFutex key
  | IoInsert key _ | IoGet key | IoRemove key => LIo key
  end.

(** The places a handler is the only one to use while it runs. The idle
    threads all have tid 0; nothing is stored there. *)
Definition footprint (p : probe) : list loc :=
  match p with
  | SchedSwitch _ (Some evt) =>
      (if ss_prev_state evt =? TASK_RUNNING then [] else [LBlock (as_u32 (ss_prev_pid evt))]) ++
      (if as_u32 (ss_next_pid evt) =? 0 then [] else [LBlock (as_u32 (ss_next_pid evt))])
  | FutexEnter h _ | FutexExit h => [LFutex (current_tid h)]
  | BlockRqIssue _ (Some evt) => [LIo (pack_block_key (br_dev evt) (br_sector evt))]
  | BlockRqComplete _ (Some evt) => [LIo (pack_block_key (bc_dev evt) (bc_sector evt))]
  | _ => []
  end.

(** An idle thread is always runnable. *)
Definition idle_runnable (p : probe) : Prop :=
  match p with
  | SchedSwitch _ (Some evt) => as_u32 (ss_prev_pid evt) = 0 -> ss_prev_state evt = TASK_RUNNING
  | _ => True
  end.

Definition disjoint (p q : probe) : Prop := forall l, l ∈ footprint p -> l ∈ footprint q -> False.

(** When a handler may begin, by the probes whose handlers are in flight. *)
Definition admission : Type := list probe -> probe -> Prop.

Definition anything : admission := fun _ _ => True.

(** Idle threads are runnable, and no two handlers in flight are about the
    same thread (blocked or in a futex call) or the same request. *)
Definition exclusive : admission := fun fl p => idle_runnable p /\ Forall (disjoint p) fl.

(** What may begin may begin with fewer in flight. *)
Definition narrowing (adm : admission) : Prop :=
  forall fl fl' p, fl' `sublist_of` fl -> adm fl p -> adm fl' p.

Lemma exclusive_narrowing : narrowing exclusive.
Proof. intros fl fl' p Hs [Hi Hd]. split; [done|by eapply sublist_Forall]. Qed.

Lemma anything_narrowing : narrowing anything.
Proof. done. Qed.

Lemma exclusive_flight {X} (fl : list (probe * X)) p :
  exclusive fl.*1 p <-> idle_runnable p /\ Forall (fun q => disjoint p q.1) fl.
Proof. unfold exclusive. by rewrite Forall_fmap. Qed.

Section Interleaving.
Context {MB MF MI R : Type}.
Context `{!BpfHashMap Z BlockStart MB} `{!BpfHashMap Z FutexStart MF}
        `{!BpfHashMap Z BlockIoStart MI} `{!BpfRingBuf Event R}.
#[local] Abbreviation kernel := (kernel MB MF MI R).

(** The effect of an operation. *)
Definition do_act {A} (a : act A) (k : kernel) : A * kernel :=
  match a with
  | BlockInsert key v => (tt, with_block_start (bm_insert (BLOCK_START k) key v).2 k)
  | BlockGet key => (bm_get (BLOCK_START k) key, k)
  | BlockRemove key => (tt, with_block_start (bm_remove (BLOCK_START k) key).2 k)
  | FutexInsert key v => (tt, with_futex_start (bm_insert (FUTEX_START k) key v).2 k)
  | FutexGet key => (bm_get (FUTEX_START k) key, k)
  | FutexRemove key => (tt, with_futex_start (bm_remove (FUTEX_START k) key).2 k)
  | IoInsert key v => (tt, with_blockio_start (bm_insert (BLOCKIO_START k) key v).2 k)
  | IoGet key => (bm_get (BLOCKIO_START k) key, k)
  | IoRemove key => (tt, with_blockio_start (bm_remove (BLOCKIO_START k) key).2 k)
  end.

(** One operation of a handler that does not return with it. *)
Inductive mstep : micro * kernel -> micro * kernel -> Prop :=
  | mstep_guard pass rest k :
      pass (target_tgid k) = true -> mstep (Guard pass rest, k) (rest (target_tgid k), k)
  | mstep_do A (a : act A) rest k :
      mstep (Do a rest, k) (rest (do_act a k).1, (do_act a k).2).

(** A handler run on its own. *)
Fixpoint alone (m : micro) (k : kernel) : kernel :=
  match m with
  | Guard pass rest => if pass (target_tgid k) then alone (rest (target_tgid k)) k else k
  | Do a rest => let '(x, k) := do_act a k in alone (rest x) k
  | Finish o => emit_opt o k
  end.

(** The shared state and the handlers in flight, in no order. *)
Record machine := mkMachine { shared : kernel; in_flight : list (probe * micro) }.

(** A step, with the probe that takes effect in it, if one does. *)
Inductive machine_step (adm : admission) : machine -> list probe -> machine -> Prop :=
  | ms_begin k fl p m :
      handler p = Some m -> adm fl.*1 p ->
      machine_step adm (mkMachine k fl) [] (mkMachine k ((p, m) :: fl))
  | ms_operation k fl p m rest m' k' :
      fl ≡ₚ (p, m) :: rest -> mstep (m, k) (m', k') ->
      machine_step adm (mkMachine k fl) [] (mkMachine k' ((p, m') :: rest))
  | ms_early_return k fl p pass rest_m rest :
      fl ≡ₚ (p, Guard pass rest_m) :: rest -> pass (target_tgid k) = false ->
      machine_step adm (mkMachine k fl) [p] (mkMachine k rest)
  | ms_return k fl p o rest :
      fl ≡ₚ (p, Finish o) :: rest ->
      machine_step adm (mkMachine k fl) [p] (mkMachine (emit_opt o k) rest)
  | ms_set_target k fl t :
      target_tgid k = 0 ->
      machine_step adm (mkMachine k fl) [SetTarget t] (mkMachine (with_target t k) fl).

Inductive machine_run (adm : admission) : machine -> list probe -> machine -> Prop :=
  | machine_run_refl c : machine_run adm c [] c
  | machine_run_step c l c' l' c'' :
      machine_step adm c l c' -> machine_run adm c' l' c'' -> machine_run adm c (l ++ l') c''.

(** ** A handler alone is the handler of [Ebpf] *)

Lemma alone_guard pass rest (k : kernel) :
  pass (target_tgid k) = true -> alone (Guard pass rest) k = alone (rest (target_tgid k)) k.
Proof. intros Hp. cbn. by rewrite Hp. Qed.

Lemma alone_do {A} (a : act A) rest (k : kernel) :
  alone (Do a rest) k = alone (rest (do_act a k).1) (do_act a k).2.
Proof. cbn. by destruct (do_act a k). Qed.

Lemma alone_close ts next (k : kernel) :
  alone (Do (BlockGet next) (fun start =>
    match start with
    | Some start => Do (BlockRemove next) (fun _ => Finish (Some (block_event ts next start)))
    | None => Finish None
    end)) k =
  emit_opt (bm_get (BLOCK_START k) next ≫= fun s => Some (block_event ts next s))
    (with_block_start (bm_close (BLOCK_START k) next) k).
Proof.
  cbn -[emit]. unfold bm_close. destruct (bm_get (BLOCK_START k) next); cbn; [done|by destruct k].
Qed.

Lemma alone_handler p m (k : kernel) : handler p = Some m -> alone m k = step k p.
Proof.
  destruct p as [h ctx|h ctx|h|h ctx|h ctx|]; intros [= <-].
  - destruct (target_tgid k =? 0) eqn:E0.
    { cbn. unfold sched_switch, try_sched_switch. by rewrite E0. }
    destruct ctx as [evt|]; [|cbn; unfold sched_switch, try_sched_switch; by rewrite E0].
    rewrite sched_switch_normal by done. unfold sched_switch_micro, switch_out. cbv zeta.
    rewrite alone_guard by (cbn; by rewrite E0).
    destruct (negb _ && _); [rewrite alone_do|]; by rewrite alone_close.
  - cbn. unfold futex_enter, try_futex_enter, target_is. destruct (_ || _); [done|]. by destruct ctx.
  - rewrite futex_exit_normal. cbn -[emit]. unfold bm_close.
    destruct (bm_get (FUTEX_START k) (current_tid h)); cbn; [done|by destruct k].
  - cbn. unfold block_rq_issue, try_block_rq_issue, target_is. destruct (_ || _); [done|]. by destruct ctx.
  - destruct ctx as [evt|]; [|done]. rewrite block_rq_complete_normal. cbn -[emit pack_block_key].
    unfold bm_close. destruct (bm_get _ _); cbn; [done|by destruct k].
Qed.

Lemma mstep_alone m k m' k' : mstep (m, k) (m', k') -> alone m k = alone m' k'.
Proof.
  inversion 1 as [pass rest ? Hp|A a rest ?]; subst; [by rewrite alone_guard|by rewrite alone_do].
Qed.

(** ** The view of a place *)

Definition content (k : kernel) (l : loc) : option BlockStart * option FutexStart * option BlockIoStart :=
  match l with
  | LBlock key => (bm_get (BLOCK_START k) key, None, None)
  | LFutex key => (None, bm_get (FUTEX_START k) key, None)
  | LIo key => (None, None, bm_get (BLOCKIO_START k) key)
  end.

(** [k] and [k'] agree on the places in [P]. *)
Definition agree (P : loc -> Prop) (k k' : kernel) : Prop :=
  target_tgid k = target_tgid k' /\ forall l, P l -> content k l = content k' l.

Context `{!BpfHashMapLaws Z BlockStart MB} `{!BpfHashMapLaws Z FutexStart MF}
        `{!BpfHashMapLaws Z BlockIoStart MI} `{!BpfRingBufLaws Event R}.
Hypothesis Hlossless : lossless (MB := MB) (MF := MF) (MI := MI) (R := R).

(** An operation changes its own place only, and neither the target nor the
    ring buffer. *)
Lemma do_act_frame {A} (a : act A) k :
  target_tgid (do_act a k).2 = target_tgid k /\ EVENTS (do_act a k).2 = EVENTS k /\
  forall l, l <> act_loc a -> content (do_act a k).2 l = content k l.
Proof.
  destruct Hlossless. split_and!; [by destruct a..|]. intros l Hl.
  destruct a; cbn in Hl; destruct l; cbn; try done; rewrite ?bm_insert_ok by auto;
    rewrite ?bm_remove_get; try case_decide; congruence.
Qed.

(** What it does there depends on that place only. *)
Lemma do_act_agree {A} (a : act A) k k' :
  content k (act_loc a) = content k' (act_loc a) ->
  (do_act a k).1 = (do_act a k').1 /\
  content (do_act a k).2 (act_loc a) = content (do_act a k').2 (act_loc a).
Proof.
  destruct Hlossless. intros Hc.
  destruct a; cbn in *; (split; [congruence|]); rewrite ?bm_insert_ok by auto; rewrite ?bm_remove_get;
    try case_decide; congruence.
Qed.
(** ** Where a handler operates *)

(** A look-up of the idle thread, and what it finds. *)
Definition idle_look_up {A} (a : act A) : Prop :=
  match a with BlockGet key => key = 0 | _ => False end.

Definition nothing {A} (a : act A) : A -> Prop :=
  match a with BlockGet _ => fun start => start = None | _ => fun _ => False end.

(** Everything [m] still does is in [P] or such a look-up, and it does
    nothing before there is a target. *)
Fixpoint inside (P : loc -> Prop) (m : micro) : Prop :=
  match m with
  | Guard pass rest => pass 0 = false /\ forall target, inside P (rest target)
  | Do a rest =>
      P (act_loc a) /\ (forall x, inside P (rest x)) \/
      idle_look_up a /\ (forall x, nothing a x -> inside P (rest x))
  | Finish _ => True
  end.

Lemma inside_close P ts next :
  next = 0 \/ P (LBlock next) ->
  inside P (Do (BlockGet next) (fun start =>
    match start with
    | Some start => Do (BlockRemove next) (fun _ => Finish (Some (block_event ts next start)))
    | None => Finish None
    end)).
Proof.
  intros [->|HP]; cbn; [right|left]; (split; [done|]).
  - by intros ? ->.
  - intros [start|]; [by left|done].
Qed.

Lemma inside_handler p m :
  handler p = Some m -> idle_runnable p -> inside (fun l => l ∈ footprint p) m.
Proof.
  destruct p as [h ctx|h ctx|h|h ctx|h ctx|]; intros [= <-] Hidle.
  - split; [done|]. intros target. destruct ctx as [evt|]; [|done]. cbv zeta.
    assert (Hnext : as_u32 (ss_next_pid evt) = 0 \/
      LBlock (as_u32 (ss_next_pid evt)) ∈ footprint (SchedSwitch h (Some evt))).
    { cbn. destruct (as_u32 (ss_next_pid evt) =? 0) eqn:E; [left; lia|right; set_solver]. }
    destruct (negb _ && _) eqn:E; [|by apply inside_close].
    left. split; [|intros _; by apply inside_close].
    apply andb_true_iff in E as [E%negb_true_iff _]. cbn. rewrite E. apply list_elem_of_here.
  - split; [done|]. intros target. destruct ctx as [evt|]; [|done]. left. split; [apply list_elem_of_here|done].
  - left. split; [apply list_elem_of_here|]. intros [start|]; [|done]. left. split; [apply list_elem_of_here|done].
  - split; [done|]. intros target. destruct ctx as [evt|]; [|done]. left. split; [apply list_elem_of_here|done].
  - destruct ctx as [evt|]; [|done]. left. split; [apply list_elem_of_here|]. intros [start|]; [|done].
    left. split; [apply list_elem_of_here|done].
Qed.

(** No handler owns the idle thread's place. *)
Lemma footprint_idle p : idle_runnable p -> LBlock 0 ∉ footprint p.
Proof.
  intros Hidle. destruct p as [h [evt|]|h ctx|h|h [evt|]|h [evt|]|]; cbn in *;
    rewrite ?list_elem_of_singleton; try done; try apply not_elem_of_nil.
  intros Hin. destruct (ss_prev_state evt =? TASK_RUNNING) eqn:Es, (as_u32 (ss_next_pid evt) =? 0) eqn:En;
    set_unfold; destruct_or?; try done; simplify_eq; try lia.
  all: assert (ss_prev_state evt = TASK_RUNNING) by auto; lia.
Qed.

Definition vacant (k : kernel) : Prop := bm_get (BLOCK_START k) 0 = None.

Definition or_idle (P : loc -> Prop) (l : loc) : Prop := P l \/ l = LBlock 0.

Lemma mstep_inside P m k m' k' :
  mstep (m, k) (m', k') -> vacant k -> inside P m -> inside P m'.
Proof.
  inversion 1 as [pass rest ? Hp|A a rest ?]; subst; intros Hv; [by intros [_ Hr]|].
  intros [[_ Hr]|[Hi Hr]]; [done|]. apply Hr. destruct a; cbn in Hi; try done. cbn. by subst.
Qed.

Lemma mstep_frame P m k m' k' :
  mstep (m, k) (m', k') -> inside P m ->
  target_tgid k' = target_tgid k /\ EVENTS k' = EVENTS k /\
  forall l, ~ P l -> content k' l = content k l.
Proof.
  inversion 1 as [pass rest ? Hp|A a rest ?]; subst; [done|]. intros [[HP _]|[Hi _]].
  - destruct (do_act_frame a k) as (Ht & He & Hc). split_and!; [done..|].
    intros l Hl. apply Hc. by intros ->.
  - by destruct a.
Qed.

Lemma mstep_agree P m k m' k' a :
  mstep (m, k) (m', k') -> inside P m -> agree (or_idle P) k a ->
  exists a', mstep (m, a) (m', a') /\ agree (or_idle P) k' a'.
Proof.
  inversion 1 as [pass rest ? Hp|A o rest ?]; subst; intros Ho [Ht Hc].
  - exists a. split; [|by split]. rewrite Ht in *. by constructor.
  - exists (do_act o a).2.
    assert (Hl : or_idle P (act_loc o)).
    { destruct Ho as [[Ho _]|[Ho _]]; [by left|right]. destruct o; cbn in *; try done. by subst. }
    destruct (do_act_frame o k) as (Ht1 & _ & Hc1), (do_act_frame o a) as (Ht2 & _ & Hc2).
    destruct (do_act_agree o k a (Hc _ Hl)) as [-> Hc3]. split; [constructor|].
    split; [congruence|]. intros l Hl'.
    destruct (decide (l = act_loc o)) as [->|Hne]; [done|]. rewrite Hc1, Hc2 by done. auto.
Qed.

(** *** Several operations of one handler *)

Section Own.
Context (P : loc -> Prop) (HP : ~ P (LBlock 0)).

Lemma mstep_vacant m k m' k' : mstep (m, k) (m', k') -> inside P m -> vacant k -> vacant k'.
Proof.
  intros Hs Hi Hv. destruct (mstep_frame P m k m' k' Hs Hi) as (_ & _ & Hc).
  specialize (Hc _ HP). unfold vacant. cbn in Hc. congruence.
Qed.

Lemma msteps_inv m k m' k' :
  rtc mstep (m, k) (m', k') -> vacant k -> inside P m ->
  vacant k' /\ inside P m' /\ target_tgid k' = target_tgid k /\ EVENTS k' = EVENTS k /\
  (forall l, ~ P l -> content k' l = content k l) /\ alone m k = alone m' k'.
Proof.
  remember (m, k) as c eqn:Hc. remember (m', k') as c' eqn:Hc'. intros Hr. revert m k Hc Hc'.
  induction Hr as [|? [m1 k1] ? Hs Hr IH]; intros m k -> Hc' Hv Hi; [by simplify_eq|].
  pose proof (mstep_frame P _ _ _ _ Hs Hi) as (Ht & He & Hc).
  destruct (IH _ _ eq_refl Hc') as (Hv' & Hi' & Ht' & He' & Hcs & Ha);
    [by eapply mstep_vacant|by eapply mstep_inside|].
  split_and!; [done..|congruence|congruence| |by rewrite (mstep_alone _ _ _ _ Hs)].
  intros l Hl. by rewrite Hcs, Hc.
Qed.

Lemma msteps_agree m k m' k' a :
  rtc mstep (m, k) (m', k') -> vacant k -> inside P m -> agree (or_idle P) k a ->
  exists a', rtc mstep (m, a) (m', a') /\ agree (or_idle P) k' a'.
Proof.
  remember (m, k) as c eqn:Hc. remember (m', k') as c' eqn:Hc'. intros Hr. revert m k a Hc Hc'.
  induction Hr as [|? [m1 k1] ? Hs Hr IH]; intros m k a -> Hc' Hv Hi Ha.
  - simplify_eq. exists a. by split; [apply rtc_refl|].
  - destruct (mstep_agree P _ _ _ _ a Hs Hi Ha) as (a1 & Hs1 & Ha1).
    destruct (IH m1 k1 a1 eq_refl Hc') as (a' & Hr' & Ha');
      [by eapply mstep_vacant|by apply (mstep_inside P _ _ _ _ Hs)|done|].
    exists a'. split; [by eapply rtc_l|done].
Qed.

(** A handler that got somewhere without a target does not need one. *)
Lemma msteps_set_target t m k m' k' :
  rtc mstep (m, k) (m', k') -> vacant k -> inside P m -> target_tgid k = 0 ->
  rtc mstep (m, with_target t k) (m', with_target t k').
Proof.
  remember (m, k) as c eqn:Hc. remember (m', k') as c' eqn:Hc'. intros Hr. revert m k Hc Hc'.
  induction Hr as [|? [m1 k1] ? Hs Hr IH]; intros m k -> Hc' Hv Hi Ht.
  - simplify_eq. by apply rtc_refl.
  - pose proof (mstep_frame P _ _ _ _ Hs Hi) as (Ht1 & _ & _).
    eapply (rtc_l _ _ (m1, with_target t k1)).
    2: { apply (IH m1 k1 eq_refl Hc'); [by eapply mstep_vacant|by eapply mstep_inside|congruence]. }
    inversion Hs as [pass rest ? Hp|A o rest ?]; subst.
    + destruct Hi as [Hi _]. congruence.
    + replace (with_target t (do_act o k).2) with (do_act o (with_target t k)).2 by by destruct o.
      replace (do_act o k).1 with (do_act o (with_target t k)).1 by by destruct o. constructor.
Qed.
End Own.

(** ** What the interleaving records *)

Definition separate : list (probe * micro) -> Prop :=
  ForallOrdPairs (fun x y => disjoint x.1 y.1).

Lemma separate_perm fl fl' : fl ≡ₚ fl' -> separate fl -> separate fl'.
Proof.
  induction 1 as [|x l l' Hp IH|x y l|]; intros Hs; [done|..|by auto].
  - inversion Hs as [|? ? H1 H2]; subst. constructor; [by rewrite <- Hp|by apply IH].
  - inversion Hs as [|? ? Hy Hs1]; subst. inversion Hs1 as [|? ? Hx Hs2]; subst.
    inversion Hy as [|? ? Hyx Hy']; subst.
    constructor; [constructor; [|done]|by constructor]. intros l' Hl Hl'. by apply (Hyx l').
Qed.

(** A handler in flight: where it is when run on [a], the state in which it
    has not begun, and what it has done so far is all that differs between
    [a] and the shared state [k] in its places. *)
Definition progress (k a : kernel) (x : probe * micro) : Prop :=
  idle_runnable x.1 /\ exists m0 a',
    handler x.1 = Some m0 /\ rtc mstep (m0, a) (x.2, a') /\
    forall l, l ∈ footprint x.1 -> content k l = content a' l.

(** The machine, and the state [a] of the handlers that took effect, each
    run when it did. *)
Record linearized (c : machine) (a : kernel) : Prop := {
  lz_target : target_tgid (shared c) = target_tgid a;
  lz_events : EVENTS (shared c) = EVENTS a;
  lz_vacant : vacant a;
  lz_content l : Forall (fun x => l ∉ footprint x.1) (in_flight c) ->
    content (shared c) l = content a l;
  lz_progress : Forall (progress (shared c) a) (in_flight c);
  lz_separate : separate (in_flight c);
}.

Lemma linearized_perm k fl fl' a :
  fl ≡ₚ fl' -> linearized (mkMachine k fl) a -> linearized (mkMachine k fl') a.
Proof.
  intros Hp [Ht He Hv Hc Hpr Hs]. split; cbn in *; try done.
  - intros l. rewrite <- Hp. apply Hc.
  - by rewrite <- Hp.
  - by apply (separate_perm fl).
Qed.

Lemma progress_idle k a fl :
  Forall (progress k a) fl -> Forall (fun x => LBlock 0 ∉ footprint x.1) fl.
Proof. intros H. apply (Forall_impl _ _ _ H). intros x [Hidle _]. by apply footprint_idle. Qed.

Lemma linearized_vacant c a : linearized c a -> content (shared c) (LBlock 0) = content a (LBlock 0).
Proof. intros [_ _ _ Hc Hpr _]. by eapply Hc, progress_idle. Qed.

(** The handler at the head, seen from [a]. *)
Lemma linearized_head k p m rest a :
  linearized (mkMachine k ((p, m) :: rest)) a ->
  idle_runnable p /\ exists m0 a', handler p = Some m0 /\ rtc mstep (m0, a) (m, a') /\
    inside (fun l => l ∈ footprint p) m /\ agree (or_idle (fun l => l ∈ footprint p)) k a' /\
    EVENTS k = EVENTS a' /\ target_tgid a' = target_tgid a /\ vacant a' /\
    (forall l, l ∉ footprint p -> content a' l = content a l) /\ step a p = alone m a'.
Proof.
  intros Hl. pose proof (linearized_vacant _ _ Hl) as Hvk. destruct Hl as [Ht He Hv Hc Hpr Hs].
  cbn [shared in_flight] in *. apply Forall_cons in Hpr as [(Hidle & m0 & a' & Hm & Hr & Hk) _].
  cbn [Datatypes.fst Datatypes.snd] in *. split; [done|]. exists m0, a'.
  pose proof (footprint_idle p Hidle) as H0.
  destruct (msteps_inv _ H0 _ _ _ _ Hr Hv (inside_handler _ _ Hm Hidle))
    as (Hv' & Hi & Ht' & He' & Hc' & Ha).
  split_and!; try done; try congruence; [|by rewrite <- (alone_handler _ _ _ Hm)].
  split; [congruence|]. intros l [Hl| ->]; [by apply Hk|]. by rewrite Hvk, Hc'.
Qed.

(** Handlers in other places do not notice an effect on [a] or on [k] that
    leaves their places and the target as they were. *)
Lemma progress_frame k k' a a1 x :
  progress k a x -> vacant a -> target_tgid a1 = target_tgid a ->
  (forall l, or_idle (fun l => l ∈ footprint x.1) l -> content a1 l = content a l) ->
  (forall l, l ∈ footprint x.1 -> content k' l = content k l) ->
  progress k' a1 x.
Proof.
  intros (Hidle & m0 & a' & Hm & Hr & Hk) Hv Ht Ha1 Hk'. split; [done|].
  destruct (msteps_agree _ (footprint_idle _ Hidle) _ _ _ _ a1 Hr Hv (inside_handler _ _ Hm Hidle))
    as (a1' & Hr1 & _ & Hc1).
  { split; [done|]. intros l Hl. by rewrite Ha1. }
  exists m0, a1'. split_and!; [done..|]. intros l Hl. rewrite Hk', Hk by done. apply Hc1. by left.
Qed.

Lemma separate_head x rest :
  separate (x :: rest) -> separate rest /\
  Forall (fun y => forall l, l ∈ footprint y.1 -> l ∉ footprint x.1) rest.
Proof.
  inversion 1 as [|? ? Hx Hr]; subst. split; [done|].
  eapply Forall_impl; [exact Hx|]. intros y Hd l Hy Hl. by apply (Hd l).
Qed.

(** Submitting an event changes the ring buffer only. *)
Lemma emit_opt_target o (k : kernel) : target_tgid (emit_opt o k) = target_tgid k.
Proof. apply emit_opt_fields. Qed.

Lemma emit_opt_content o (k : kernel) l : content (emit_opt o k) l = content k l.
Proof. destruct (emit_opt_fields o k) as (_ & Hb & Hf & Hi). destruct l; cbn; congruence. Qed.

Lemma emit_opt_events o (k k' : kernel) :
  EVENTS k = EVENTS k' -> EVENTS (emit_opt o k) = EVENTS (emit_opt o k').
Proof. intros He. destruct o; [|done]. cbn. unfold emit. rewrite He. by destruct (rb_reserve _). Qed.

(** A handler begins. *)
Lemma linearized_begin k fl p m a :
  linearized (mkMachine k fl) a ->
  handler p = Some m -> idle_runnable p -> Forall (fun q => disjoint p q.1) fl ->
  linearized (mkMachine k ((p, m) :: fl)) a.
Proof.
  intros [Ht He Hv Hc Hpr Hs] Hm Hidle Hd. split; cbn in *; try done.
  - intros l [_ Hl]%Forall_cons. by apply Hc.
  - constructor; [|done]. split; [done|]. exists m, a. split_and!; [done|apply rtc_refl|].
    intros l Hl. apply Hc. eapply Forall_impl; [exact Hd|]. intros q Hq Hl'. by apply (Hq l).
  - by constructor.
Qed.

(** An operation of the handler at the head. *)
Lemma linearized_operation k p m rest m' k' a :
  linearized (mkMachine k ((p, m) :: rest)) a -> mstep (m, k) (m', k') ->
  linearized (mkMachine k' ((p, m') :: rest)) a.
Proof.
  intros Hl Hs. pose proof (linearized_head _ _ _ _ _ Hl) as
    (Hidle & m0 & a' & Hm & Hr & Hi & Hag & _ & Hta & Hva & _ & _).
  destruct Hl as [Ht He Hv Hc Hpr Hsep]. cbn in *.
  destruct (separate_head _ _ Hsep) as [Hsep' Hoth]. apply Forall_cons in Hpr as [_ Hpr].
  destruct (mstep_frame _ _ _ _ _ Hs Hi) as (Ht' & He' & Hc').
  destruct (mstep_agree _ _ _ _ _ a' Hs Hi Hag) as (a1 & Hs1 & _ & Hag1).
  split; cbn; [congruence|congruence|done| | |].
  - intros l [Hl Hls]%Forall_cons. rewrite Hc' by done. apply Hc. by constructor.
  - constructor.
    + split; [done|]. exists m0, a1. split_and!; [done|by eapply rtc_r|].
      intros l Hl. apply Hag1. by left.
    + apply Forall_forall. intros x Hx. rewrite Forall_forall in Hpr, Hoth.
      apply (progress_frame k _ a); [by apply Hpr|done..|].
      intros l Hlx. apply Hc'. by apply (Hoth x).
  - inversion Hsep; subst. by constructor.
Qed.

(** The handler at the head returns, and takes effect. *)
Lemma linearized_return k p m rest o a :
  linearized (mkMachine k ((p, m) :: rest)) a ->
  (forall a, target_tgid a = target_tgid k -> alone m a = emit_opt o a) ->
  linearized (mkMachine (emit_opt o k) rest) (step a p).
Proof.
  intros Hl Ho. pose proof (linearized_head _ _ _ _ _ Hl) as
    (Hidle & m0 & a' & Hm & Hr & Hi & Hag & Hev & Hta & Hva & Hca & ->).
  destruct Hl as [Ht He Hv Hc Hpr Hsep]. cbn in *.
  destruct (separate_head _ _ Hsep) as [Hsep' Hoth]. apply Forall_cons in Hpr as [_ Hpr].
  rewrite Ho by congruence.
  split; rewrite ?emit_opt_target; cbn [shared in_flight]; [..|done].
  - by rewrite !emit_opt_target, Hta.
  - by apply emit_opt_events.
  - destruct (emit_opt_fields o a') as (_ & Hb & _). unfold vacant. by rewrite Hb.
  - intros l Hls. rewrite !emit_opt_content.
    destruct (decide (l ∈ footprint p)) as [Hl|Hl]; [apply Hag; by left|].
    rewrite Hca by done. apply Hc. by constructor.
  - apply Forall_forall. intros x Hx. rewrite Forall_forall in Hpr, Hoth.
    apply (progress_frame k _ a); [by apply Hpr|done|by rewrite emit_opt_target| |].
    + intros l Hlx. rewrite emit_opt_content. apply Hca. destruct Hlx as [Hlx| ->];
        [by apply (Hoth x)|by apply footprint_idle].
    + intros l _. apply emit_opt_content.
Qed.

(** The CLI sets the target. *)
Lemma linearized_set_target k fl t a :
  linearized (mkMachine k fl) a -> target_tgid k = 0 ->
  linearized (mkMachine (with_target t k) fl) (with_target t a).
Proof.
  intros [Ht He Hv Hc Hpr Hsep] H0. cbn in *. split; cbn; try done.
  apply (Forall_impl _ _ _ Hpr). intros [p m] (Hidle & m0 & a' & Hm & Hr & Hk).
  split; [done|]. exists m0, (with_target t a'). split_and!; [done| |done].
  apply (msteps_set_target (fun l => l ∈ footprint p) (footprint_idle _ Hidle)); [done..| |congruence].
  by apply inside_handler.
Qed.

Lemma linearized_step c ls c' a :
  linearized c a -> machine_step exclusive c ls c' -> linearized c' (run a ls).
Proof.
  intros Hl Hs. destruct Hs as [k fl p m Hm [Hidle Hd]%exclusive_flight|k fl p m rest m' k' Hp Hs
    |k fl p pass rest_m rest Hp Hpass|k fl p o rest Hp|k fl t Ht]; cbn.
  - by apply linearized_begin.
  - eapply linearized_operation; [by eapply linearized_perm|done].
  - apply (linearized_return k p (Guard pass rest_m) rest None); [by eapply linearized_perm|].
    intros a0 Ha0. cbn. by rewrite Ha0, Hpass.
  - apply (linearized_return k p (Finish o) rest o); [by eapply linearized_perm|done].
  - by apply linearized_set_target.
Qed.

Lemma linearized_run c ls c' a :
  linearized c a -> machine_run exclusive c ls c' -> linearized c' (run a ls).
Proof.
  intros Hl Hr. revert a Hl. induction Hr as [c|c l c' l' c'' Hs _ IH]; intros a Hl; [done|].
  unfold EbpfSpec.run. rewrite foldl_app. by eapply IH, linearized_step.
Qed.

Lemma linearized_initial k : initial k -> linearized (mkMachine k []) k.
Proof. intros [_ Hb _ _ _]. split; cbn; try done; [apply Hb|constructor]. Qed.
End Interleaving.

(** ** Schedules

    An executable scheduler, for concrete interleavings. *)

Inductive directive := Begin (p : probe) | Advance (i : nat) | Target (t : Z).

#[export] Instance disjoint_dec p q : Decision (disjoint p q).
Proof.
  destruct (decide (Forall (fun l => l ∉ footprint q) (footprint p))) as [H|H].
  - left. rewrite Forall_forall in H. intros l Hp Hq. by apply (H l).
  - right. contradict H. apply Forall_forall. intros l Hp Hq. by apply (H l).
Defined.

#[export] Instance idle_runnable_dec p : Decision (idle_runnable p).
Proof. destruct p as [h [evt|]| | | | |]; apply _. Defined.

#[export] Instance exclusive_dec fl p : Decision (exclusive fl p) := and_dec _ _.

#[export] Instance anything_dec fl p : Decision (anything fl p) := left I.

Section Schedules.
Context {MB MF MI R : Type}.
Context `{!BpfHashMap Z BlockStart MB} `{!BpfHashMap Z FutexStart MF}
        `{!BpfHashMap Z BlockIoStart MI} `{!BpfRingBuf Event R}.
Context (adm : admission) {adm_dec : forall fl p, Decision (adm fl p)}.

Definition advance (x : probe * micro) (rest : list (probe * micro)) (k : kernel MB MF MI R) :
    list probe * machine :=
  match x.2 with
  | Guard pass next =>
      if pass (target_tgid k) then ([], mkMachine k ((x.1, next (target_tgid k)) :: rest))
      else ([x.1], mkMachine k rest)
  | Do a next => ([], mkMachine (do_act a k).2 ((x.1, next (do_act a k).1) :: rest))
  | Finish o => ([x.1], mkMachine (emit_opt o k) rest)
  end.

Definition direct (d : directive) (c : machine (MB := MB) (MF := MF) (MI := MI) (R := R)) :
    option (list probe * machine) :=
  match d with
  | Begin p =>
      if bool_decide (adm (in_flight c).*1 p) then
        m ← handler p; Some ([], mkMachine (shared c) ((p, m) :: in_flight c))
      else None
  | Advance i => x ← in_flight c !! i; Some (advance x (delete i (in_flight c)) (shared c))
  | Target t =>
      if target_tgid (shared c) =? 0
      then Some ([SetTarget t], mkMachine (with_target t (shared c)) (in_flight c)) else None
  end.

Fixpoint schedule (ds : list directive) (c : machine) : option (list probe * machine) :=
  match ds with
  | [] => Some ([], c)
  | d :: ds => '(ls, c) ← direct d c; '(ls', c) ← schedule ds c; Some (ls ++ ls', c)
  end.

Lemma direct_sound d c ls c' : direct d c = Some (ls, c') -> machine_step adm c ls c'.
Proof.
  destruct c as [k fl], d as [p|i|t]; cbn; intros H.
  - case_bool_decide as Hd; [|done]. destruct (handler p) eqn:Hm; [|done]. cbn in H. simplify_eq.
    by constructor.
  - destruct (fl !! i) as [[p m]|] eqn:Hi; [|done]. cbn in H. apply delete_Permutation in Hi.
    destruct m as [pass next|A a next|o]; cbn in H.
    + destruct (pass _) eqn:Hp; simplify_eq.
      * by eapply ms_operation; [|constructor].
      * by eapply ms_early_return.
    + simplify_eq. by eapply ms_operation; [|constructor].
    + simplify_eq. by eapply ms_return.
  - destruct (_ =? 0) eqn:Ht; [|done]. simplify_eq. constructor. lia.
Qed.

Lemma schedule_sound ds c ls c' : schedule ds c = Some (ls, c') -> machine_run adm c ls c'.
Proof.
  revert c ls. induction ds as [|d ds IH]; intros c ls H; cbn in H; simplify_eq; [constructor|].
  destruct (direct d c) as [[l1 c1]|] eqn:Hd; [|done]. cbn in H.
  destruct (schedule ds c1) as [[l2 c2]|] eqn:Hs; [|done]. cbn in H. simplify_eq.
  eapply machine_run_step; [by eapply direct_sound|auto].
Qed.
End Schedules.

(** ** The property *)

Lemma interleaved_lossless {MB MF MI R}
    `{!BpfHashMap Z BlockStart MB, !BpfHashMap Z FutexStart MF, !BpfHashMap Z BlockIoStart MI,
      !BpfRingBuf Event R, !BpfHashMapLaws Z BlockStart MB, !BpfHashMapLaws Z FutexStart MF,
      !BpfHashMapLaws Z BlockIoStart MI, !BpfRingBufLaws Event R}
    (k : kernel MB MF MI R) ls c :
  lossless (MB := MB) (MF := MF) (MI := MI) (R := R) -> initial k ->
  machine_run exclusive (mkMachine k []) ls c ->
  rb_contents (EVENTS (shared c)) = spec_events (reverse ls).
Proof.
  intros Hl Hk Hr. rewrite (lz_events _ _ (linearized_run Hl _ _ _ _ (linearized_initial k Hk) Hr)).
  by apply recorded_lossless.
Qed.

(** C6: However the operations of the handlers interleave on a multiprocessor,
    the ring buffer holds what the specification says of the handlers in the
    order they returned, provided that no two in flight are about the same
    thread or request ([exclusive]) and that no map and no ring buffer refuses
    anything ([lossless]): the maps need no lock. *)
Theorem interleaved_recorded_exactly {MB MF MI R}
    `{!BpfHashMap Z BlockStart MB, !BpfHashMap Z FutexStart MF, !BpfHashMap Z BlockIoStart MI,
      !BpfRingBuf Event R, !BpfHashMapLaws Z BlockStart MB, !BpfHashMapLaws Z FutexStart MF,
      !BpfHashMapLaws Z BlockIoStart MI, !BpfRingBufLaws Event R}
    (k : kernel MB MF MI R) ls c :
  lossless (MB := MB) (MF := MF) (MI := MI) (R := R) -> initial k ->
  machine_run exclusive (mkMachine k []) ls c ->
  rb_contents (EVENTS (shared c)) = spec_events (reverse ls).
Proof.
  exact (interleaved_lossless k ls c).
Qed.

(** Thread 8 blocks on one processor while thread 9 enters a futex wait on
    another, operation by operation in turn; then one is resumed while the
    other leaves its wait. *)
Definition waiter_enter : probe :=
  FutexEnter (mkHelpers (Z.lor (Z.shiftl 7 32) 9) None 12)
    (Some (mkSysEnter (mkTraceEntry 0 0 0 0) 202 [4096; 0; 0; 0; 0; 0])).
Definition waiter_exit : probe := FutexExit (mkHelpers (Z.lor (Z.shiftl 7 32) 9) None 24).

Definition two_processors : list directive :=
  [Target 7; Begin (SchedSwitch blink_out (Some (blink_switch 8 1 0))); Begin waiter_enter;
   Advance 1; Advance 1; Advance 1; Advance 1; Advance 0; Advance 0; Advance 0;
   Begin (SchedSwitch blink_in (Some (blink_switch 0 0 8))); Begin waiter_exit;
   Advance 1; Advance 1; Advance 1; Advance 1; Advance 1; Advance 1; Advance 0].

Lemma interleaved_recorded_exactly_witness :
  match schedule exclusive two_processors (mkMachine loaded []) with
  | Some (ls, c) =>
      rb_contents (EVENTS (shared c)) = spec_events (reverse ls) /\
      map ev_event_type (spec_events (reverse ls)) = [EVENT_FUTEX_WAIT; EVENT_SCHED_BLOCK]
  | None => False
  end.
Proof.
  destruct (schedule _ _) as [[ls c]|] eqn:E; [|vm_compute in E; discriminate]. split.
  - eapply (interleaved_recorded_exactly loaded); [exact loaded_lossless|exact loaded_initial|].
    by apply (schedule_sound exclusive two_processors).
  - apply (f_equal (fmap (M := option) Datatypes.fst)) in E. vm_compute in E.
    injection E as <-. vm_compute. reflexivity.
Defined.
