(* ===== verification/Overlap.v ===== *)
(** * Handlers that overlap

    What the condition [exclusive] of [Concurrent] is for. Nothing in the
    program keeps two handlers about the same request apart: a look-up and the
    removal after it are two operations, and no lock is held over both. *)

From S2P Require Import Prelude RustStd Layout Common Vmlinux Ebpf EbpfSpec KernelMaps EbpfProps.
From S2P Require Import Concurrent.

Section Overlap.
Context {MB MF MI R : Type}.
Context `{!BpfHashMap Z BlockStart MB, !BpfHashMap Z FutexStart MF, !BpfHashMap Z BlockIoStart MI,
          !BpfRingBuf Event R, !BpfHashMapLaws Z BlockStart MB, !BpfHashMapLaws Z FutexStart MF,
          !BpfHashMapLaws Z BlockIoStart MI, !BpfRingBufLaws Event R}.
Implicit Types k : kernel MB MF MI R.

Lemma run_quiet adm (c d e : @machine MB MF MI R) ls :
  machine_step adm c [] d -> machine_run adm d ls e -> machine_run adm c ls e.
Proof. intros Hs Hr. exact (machine_run_step adm c [] d ls e Hs Hr). Qed.

(** The two look-ups, then the two removals, then the two events. *)
Definition after_overlap (key : Z) (s : BlockIoStart) (now1 now2 : Z) k : kernel MB MF MI R :=
  emit (io_event now2 key s) (emit (io_event now1 key s)
    (do_act (IoRemove key) (do_act (IoRemove key) k).2).2).

Lemma overlapping_completions k h1 h2 e key s :
  pack_block_key (bc_dev e) (bc_sector e) = key -> bm_get (BLOCKIO_START k) key = Some s ->
  machine_run anything (mkMachine k []) [BlockRqComplete h1 (Some e); BlockRqComplete h2 (Some e)]
    (mkMachine (after_overlap key s (h_ktime h1) (h_ktime h2) k) []).
Proof.
  intros Hk Hs. unfold after_overlap.
  set (p1 := BlockRqComplete h1 (Some e)). set (p2 := BlockRqComplete h2 (Some e)).
  set (rest now := fun start => match start with
    | None => Finish None
    | Some start => Do (IoRemove key) (fun _ => Finish (Some (io_event now key start))) end).
  assert (H1 : handler p1 = Some (Do (IoGet key) (rest (h_ktime h1)))) by (cbn -[pack_block_key]; by rewrite Hk).
  assert (H2 : handler p2 = Some (Do (IoGet key) (rest (h_ktime h2)))) by (cbn -[pack_block_key]; by rewrite Hk).
  eapply run_quiet; [by apply (ms_begin anything k [] p1)|].
  eapply run_quiet; [by apply (ms_begin anything k _ p2)|].
  eapply run_quiet; [eapply ms_operation; [done|constructor]|].
  eapply run_quiet; [eapply ms_operation; [apply Permutation_swap|constructor]|].
  cbn [do_act Datatypes.fst Datatypes.snd]. rewrite Hs. cbn [rest].
  eapply run_quiet; [eapply ms_operation; [done|constructor]|].
  eapply run_quiet; [eapply ms_operation; [apply Permutation_swap|constructor]|].
  eapply (machine_run_step _ _ [p1]); [eapply ms_return; apply Permutation_swap|].
  eapply (machine_run_step _ _ [p2]); [by eapply ms_return|]. constructor.
Qed.

Hypothesis Hlossless : lossless (MB := MB) (MF := MF) (MI := MI) (R := R).

Lemma emit_contents ev k : rb_contents (EVENTS (emit ev k)) = rb_contents (EVENTS k) ++ [ev].
Proof.
  unfold emit. destruct (rb_reserve (EVENTS k)) as [entry|] eqn:E; [by apply (rb_submit _ _ _ E)|].
  by destruct (lossless_ring Hlossless (EVENTS k)).
Qed.
End Overlap.

(** ** The property *)

(** C32: The maps do not make handlers about one request safe to run together:
    without [exclusive], whatever the maps, a request issued once can be
    recorded twice. When two completions of its key overlap, each may look the
    start up before either removes it, and both submit an event, while the
    specification has the first only. *)
Theorem overlapping_completions_recorded_twice {MB MF MI R}
    `{!BpfHashMap Z BlockStart MB, !BpfHashMap Z FutexStart MF, !BpfHashMap Z BlockIoStart MI,
      !BpfRingBuf Event R, !BpfHashMapLaws Z BlockStart MB, !BpfHashMapLaws Z FutexStart MF,
      !BpfHashMapLaws Z BlockIoStart MI, !BpfRingBufLaws Event R}
    (k : kernel MB MF MI R) (h h1 h2 : helpers) (q : TraceEventRawBlockRq) (e : TraceEventRawBlockRqCompletion) :
  lossless (MB := MB) (MF := MF) (MI := MI) (R := R) -> initial k -> current_tgid h <> 0 ->
  pack_block_key (bc_dev e) (bc_sector e) = pack_block_key (br_dev q) (br_sector q) ->
  let ls := [SetTarget (current_tgid h); BlockRqIssue h (Some q);
             BlockRqComplete h1 (Some e); BlockRqComplete h2 (Some e)] in
  let event now := Event_new now (saturating_sub now (h_ktime h)) (pack_block_key (br_dev q) (br_sector q))
    (current_tgid h) (current_tid h) EVENT_BLOCK_IO (current_comm h) in
  (exists c, machine_run anything (mkMachine k []) ls c /\ in_flight c = [] /\
     rb_contents (EVENTS (shared c)) = [event (h_ktime h1); event (h_ktime h2)]) /\
  spec_events (reverse ls) = [event (h_ktime h1)].
Proof.
  intros Hl Hk Hg Hkey ls event. set (key := pack_block_key (br_dev q) (br_sector q)) in *.
  set (s := mkBlockIoStart (h_ktime h) (current_tgid h) (current_tid h) (current_comm h)). split.
  - set (k1 := with_target (current_tgid h) k). set (k2 := (do_act (IoInsert key s) k1).2).
    exists (mkMachine (after_overlap key s (h_ktime h1) (h_ktime h2) k2) []). split_and!; [|done|].
    + eapply (machine_run_step _ _ [_]); [apply ms_set_target, Hk|].
      eapply run_quiet; [by apply (ms_begin anything _ [] (BlockRqIssue h (Some q)))|].
      eapply run_quiet; [eapply ms_operation; [done|constructor]|].
      { unfold target_is. cbn. by rewrite Z.eqb_refl, (proj2 (Z.eqb_neq _ _) Hg). }
      eapply run_quiet; [eapply ms_operation; [done|constructor]|].
      eapply (machine_run_step _ _ [_]); [by eapply ms_return|].
      apply overlapping_completions; [done|]. cbn. rewrite bm_insert_ok by apply Hl. by rewrite decide_True.
    + unfold after_overlap. cbn [shared]. rewrite !emit_contents by done. cbn. by rewrite (initial_events _ Hk).
  - apply Z.eqb_neq in Hg. unfold ls. change (reverse ?l) with (rev_append l []). cbn [rev_append].
    cbn [spec_events spec_emit]. unfold closing. cbn [io_opens pending io_closes target_of].
    rewrite Hkey. fold key. rewrite !Z.eqb_refl, Hg. reflexivity.
Qed.

Lemma overlapping_completions_recorded_twice_witness :
  let h := mkHelpers (Z.lor (Z.shiftl 7 32) 8) None 100 in
  let q := mkBlockRq (mkTraceEntry 0 0 0 0) 259 4096 8 4096 0 [] [] 0 in
  let e := mkBlockRqCompletion (mkTraceEntry 0 0 0 0) 259 4096 8 0 0 [] 0 in
  exists c, machine_run anything (mkMachine loaded [])
      [SetTarget 7; BlockRqIssue h (Some q); BlockRqComplete (mkHelpers 0 None 150) (Some e);
       BlockRqComplete (mkHelpers 0 None 160) (Some e)] c /\
    ev_duration_ns <$> rb_contents (EVENTS (shared c)) = [50; 60].
Proof.
  intros h q e.
  destruct (overlapping_completions_recorded_twice loaded h (mkHelpers 0 None 150) (mkHelpers 0 None 160) q e
    loaded_lossless loaded_initial ltac:(vm_compute; discriminate) eq_refl) as [(c & Hr & _ & He) _].
  exists c. split; [exact Hr|]. rewrite He. vm_compute. reflexivity.
Defined.
