(* ===== verification/Lossy.v ===== *)
(** * Interleaved handlers on maps that fill up

    With any capacities, a machine whose handlers interleave is followed by
    one without limits that is never behind: the maps of the first hold at
    most what those of the second hold, and where a start was refused its
    handler returns with nothing while the other submits an event. So what is
    recorded is still a part of what the specification says. *)

From S2P Require Import Prelude RustStd Layout Common Vmlinux Ebpf EbpfSpec KernelMaps EbpfProps Concurrent.

(** ** The shape of the handlers *)

(** A look-up that finds nothing is followed by a return, and one that finds
    a start by its removal and the return. *)
Fixpoint tidy (m : micro) : Prop :=
  match m with
  | Guard _ rest => forall target, tidy (rest target)
  | Do a rest =>
      (forall x, tidy (rest x)) /\
      match a in act A return (A -> micro) -> Prop with
      | BlockGet key => fun rest => rest None = Finish None /\
          forall s, exists o, rest (Some s) = Do (BlockRemove key) (fun _ => Finish o)
      | FutexGet key => fun rest => rest None = Finish None /\
          forall s, exists o, rest (Some s) = Do (FutexRemove key) (fun _ => Finish o)
      | IoGet key => fun rest => rest None = Finish None /\
          forall s, exists o, rest (Some s) = Do (IoRemove key) (fun _ => Finish o)
      | _ => fun _ => True
      end rest
  | Finish _ => True
  end.

Lemma tidy_close ts next :
  tidy (Do (BlockGet next) (fun start =>
    match start with
    | Some start => Do (BlockRemove next) (fun _ => Finish (Some (block_event ts next start)))
    | None => Finish None
    end)).
Proof. split; [by intros [start|]|]. split; [done|]. intros s. by eexists. Qed.

Lemma tidy_handler p m : handler p = Some m -> tidy m.
Proof.
  destruct p as [h ctx|h ctx|h|h ctx|h ctx|]; intros [= <-].
  - intros target. destruct ctx as [evt|]; [|done]. cbv zeta.
    destruct (_ && _); [|apply tidy_close]. split; [|done]. intros _. apply tidy_close.
  - intros target. by destruct ctx.
  - split; [by intros [start|]|]. split; [done|]. intros s. by eexists.
  - intros target. by destruct ctx.
  - destruct ctx; [|done]. split; [by intros [start|]|]. split; [done|]. intros s. by eexists.
Qed.

Section Following.
Context {MB MF MI R : Type}.
Context `{!BpfHashMap Z BlockStart MB} `{!BpfHashMap Z FutexStart MF}
        `{!BpfHashMap Z BlockIoStart MI} `{!BpfRingBuf Event R}.
Context `{!BpfHashMapLaws Z BlockStart MB} `{!BpfHashMapLaws Z FutexStart MF}
        `{!BpfHashMapLaws Z BlockIoStart MI} `{!BpfRingBufLaws Event R}.
#[local] Abbreviation kernel := (kernel MB MF MI R).
#[local] Abbreviation cmachine := (@machine MB MF MI R).
#[local] Abbreviation umachine :=
  (@machine (gmap Z BlockStart) (gmap Z FutexStart) (gmap Z BlockIoStart) (list Event)).
Implicit Types (k : kernel) (u : unbounded_kernel).

(** The events already read from the ring buffer of [k]; nobody reads the
    other one. *)
Context (read : list Event).

(** What [k] holds, [u] holds. *)
Record covered k u : Prop := {
  cv_target : target_tgid k = target_tgid u;
  cv_content l : content k l = content u l \/ content k l = (None, None, None);
  cv_events : read ++ rb_contents (EVENTS k) `sublist_of` EVENTS u;
}.

(** A handler of [k] and the one that follows it: they have the same left to
    do, or the first missed its start. *)
Definition follows (x y : probe * micro) : Prop :=
  x.1 = y.1 /\ (x.2 = y.2 /\ tidy x.2 \/ x.2 = Finish None /\ exists o, y.2 = Finish o).

Record followed (c : cmachine) (c' : umachine) : Prop := {
  fw_shared : covered (shared c) (shared c');
  fw_flight : Forall2 follows (in_flight c) (in_flight c');
}.

(** ** The shared state *)

Lemma covered_emit_opt o k u : covered k u -> covered (emit_opt o k) (emit_opt o u).
Proof.
  intros [Ht Hc He]. constructor.
  - by rewrite !emit_opt_target.
  - intros l. rewrite !emit_opt_content. apply Hc.
  - destruct o as [ev|]; [|done]. cbn. unfold emit. cbn [rb_reserve list_ring_ops].
    destruct (rb_reserve (EVENTS k)) as [entry|] eqn:E; cbn; [|by apply sublist_inserts_r].
    rewrite (rb_submit _ _ _ E), app_assoc. by apply sublist_app.
Qed.

(** [u] submits an event that [k] misses. *)
Lemma covered_missed o k u : covered k u -> covered k (emit_opt o u).
Proof.
  intros [Ht Hc He]. constructor.
  - by rewrite emit_opt_target.
  - intros l. rewrite emit_opt_content. apply Hc.
  - destruct o as [ev|]; [|done]. cbn. by apply sublist_inserts_r.
Qed.

Lemma map_insert_covered {V M} `{!BpfHashMap Z V M, !BpfHashMapLaws Z V M} (m : M) (mu : gmap Z V) key v :
  (forall key, bm_get m key = bm_get mu key \/ bm_get m key = None) ->
  forall key', bm_get (bm_insert m key v).2 key' = bm_get (bm_insert mu key v).2 key' \/
               bm_get (bm_insert m key v).2 key' = None.
Proof.
  intros Hm key'. rewrite (bm_insert_ok mu) by done. destruct (bm_insert m key v).1 eqn:E.
  - rewrite bm_insert_ok by done. case_decide; [by left|apply Hm].
  - rewrite bm_insert_fail by done. case_decide; [subst key'|apply Hm]. right.
    destruct (bm_get m key) eqn:Eg; [|done]. by rewrite bm_insert_present in E.
Qed.

Lemma map_remove_covered {V M} `{!BpfHashMap Z V M, !BpfHashMapLaws Z V M} (m : M) (mu : gmap Z V) key :
  (forall key, bm_get m key = bm_get mu key \/ bm_get m key = None) ->
  forall key', bm_get (bm_remove m key).2 key' = bm_get (bm_remove mu key).2 key' \/
               bm_get (bm_remove m key).2 key' = None.
Proof. intros Hm key'. rewrite !bm_remove_get. case_decide; [by left|apply Hm]. Qed.

(** The contents, map by map. *)
Lemma covered_maps k u :
  (forall l, content k l = content u l \/ content k l = (None, None, None)) <->
  (forall key, bm_get (BLOCK_START k) key = bm_get (BLOCK_START u) key \/ bm_get (BLOCK_START k) key = None) /\
  (forall key, bm_get (FUTEX_START k) key = bm_get (FUTEX_START u) key \/ bm_get (FUTEX_START k) key = None) /\
  (forall key, bm_get (BLOCKIO_START k) key = bm_get (BLOCKIO_START u) key \/ bm_get (BLOCKIO_START k) key = None).
Proof.
  split.
  - intros H. split_and!; intros key; [destruct (H (LBlock key)) as [E|E]|destruct (H (LFutex key)) as [E|E]
      |destruct (H (LIo key)) as [E|E]]; cbn in E; injection E; auto.
  - intros (Hb & Hf & Hi) [key|key|key]; cbn; [destruct (Hb key) as [E|E]|destruct (Hf key) as [E|E]
      |destruct (Hi key) as [E|E]]; cbn in E; rewrite E; auto.
Qed.

Lemma covered_do_act {A} (a : act A) k u :
  covered k u -> covered (do_act a k).2 (do_act a u).2.
Proof.
  intros [Ht Hc He]. apply covered_maps in Hc as (Hb & Hf & Hi).
  split; [by destruct a| |by destruct a]. apply covered_maps.
  destruct a; cbn [do_act Datatypes.snd]; split_and!;
    by (apply map_insert_covered || apply map_remove_covered || idtac).
Qed.

(** Where [k] holds nothing, [u] may do anything. *)
Lemma covered_vacant {A} (a : act A) k u :
  covered k u -> content k (act_loc a) = (None, None, None) -> covered k (do_act a u).2.
Proof.
  intros [Ht Hc He] Hn. destruct (do_act_frame loaded_lossless a u) as (Ht' & He' & Hc').
  constructor; [congruence| |by rewrite He'].
  intros l. destruct (decide (l = act_loc a)) as [->|Hl]; [by right|]. rewrite Hc' by done. apply Hc.
Qed.

(** What [k]'s operation returns, [u]'s returns, unless it is a look-up that
    misses its start. *)
Lemma covered_result {A} (a : act A) rest k u :
  covered k u -> tidy (Do a rest) ->
  (do_act a k).1 = (do_act a u).1 \/
  rest (do_act a k).1 = Finish None /\
  exists a' o, rest (do_act a u).1 = @Do unit a' (fun _ => Finish o) /\
    covered (do_act a k).2 (do_act a' (do_act a u).2).2.
Proof.
  intros Hk [_ Hrest].
  pose proof (proj1 (covered_maps k u) (cv_content _ _ Hk)) as (Hb & Hf & Hi).
  destruct a as [key v|key|key|key v|key|key|key v|key|key]; cbn [do_act Datatypes.fst Datatypes.snd];
    try by left.
  - destruct (Hb key) as [->|E]; [by left|]. rewrite E.
    destruct (bm_get (BLOCK_START u) key) as [s|]; [right|by left].
    destruct Hrest as [-> Hs], (Hs s) as [o Ho]. split; [done|]. exists (BlockRemove key), o.
    split; [done|]. apply covered_vacant; [done|cbn; by rewrite E].
  - destruct (Hf key) as [->|E]; [by left|]. rewrite E.
    destruct (bm_get (FUTEX_START u) key) as [s|]; [right|by left].
    destruct Hrest as [-> Hs], (Hs s) as [o Ho]. split; [done|]. exists (FutexRemove key), o.
    split; [done|]. apply covered_vacant; [done|cbn; by rewrite E].
  - destruct (Hi key) as [->|E]; [by left|]. rewrite E.
    destruct (bm_get (BLOCKIO_START u) key) as [s|]; [right|by left].
    destruct Hrest as [-> Hs], (Hs s) as [o Ho]. split; [done|]. exists (IoRemove key), o.
    split; [done|]. apply covered_vacant; [done|cbn; by rewrite E].
Qed.

(** ** Following a step

    Whatever is admitted. *)
Context (adm : admission).

(** The handlers in flight, in any order. *)
Lemma follows_perm fl fl' x rest :
  Forall2 follows fl fl' -> fl ≡ₚ x :: rest ->
  exists x' rest', fl' ≡ₚ x' :: rest' /\ follows x x' /\ Forall2 follows rest rest'.
Proof.
  intros Hf Hp. destruct (Permutation_Forall2 Hp Hf) as (l & Hl & Hf').
  inversion Hf' as [|? x' ? rest']; subst. eauto.
Qed.

Lemma follows_probes fl fl' : Forall2 follows fl fl' -> fl'.*1 = fl.*1.
Proof. induction 1 as [|x y fl fl' [Hxy _] _ IH]; cbn; congruence. Qed.

Lemma machine_run_one (c' d' : umachine) ls : machine_step adm c' ls d' -> machine_run adm c' ls d'.
Proof. intros Hs. rewrite <- (app_nil_r ls). by eapply machine_run_step; [|constructor]. Qed.

Lemma machine_run_two (c' d' e' : umachine) :
  machine_step adm c' [] d' -> machine_step adm d' [] e' -> machine_run adm c' [] e'.
Proof. intros H1 H2. apply (machine_run_step _ _ [] d' [] _ H1), machine_run_one, H2. Qed.

Lemma machine_run_app (c' d' e' : umachine) ls ls' :
  machine_run adm c' ls d' -> machine_run adm d' ls' e' -> machine_run adm c' (ls ++ ls') e'.
Proof.
  induction 1 as [|c l d l' e Hs Hr IH]; intros He; [done|]. rewrite <- app_assoc.
  eapply machine_run_step; [exact Hs|auto].
Qed.

(** An operation of the handler at the head: its follower does the same, and
    its removal too when the start was missed. *)
Lemma followed_operation k p m rest m' k' u fl fl' :
  covered k u -> mstep (m, k) (m', k') -> tidy m ->
  fl ≡ₚ (p, m) :: fl' -> Forall2 follows rest fl' ->
  exists d', machine_run adm (mkMachine u fl) [] d' /\ followed (mkMachine k' ((p, m') :: rest)) d'.
Proof.
  intros Hk Hst Hm Hp Hrest. inversion Hst as [pass next ? Hpass|A a next ?]; subst.
  - rewrite (cv_target _ _ Hk) in Hpass |- *. eexists. split.
    + eapply machine_run_one, ms_operation; [done|by constructor].
    + split; [done|]. constructor; [|done]. split; [done|]. left. split; [done|apply Hm].
  - destruct (covered_result a next k u Hk Hm) as [E|(E & a' & o & Ea & Hk')]; rewrite E; eexists.
    + split; [eapply machine_run_one, ms_operation; [done|constructor]|].
      split; [by apply covered_do_act|]. constructor; [|done]. split; [done|]. left. split; [done|apply Hm].
    + split; [eapply machine_run_two; [eapply ms_operation; [done|constructor]|]|].
      * rewrite Ea. eapply ms_operation; [done|constructor].
      * split; [done|]. constructor; [|done]. split; [done|]. right. split; [done|by exists o].
Qed.

(** What [c'] does while [c] takes one step. *)
Lemma followed_step c c' ls d :
  followed c c' -> machine_step adm c ls d -> exists d', machine_run adm c' ls d' /\ followed d d'.
Proof.
  intros [Hk Hfl] Hs. destruct c' as [u fl']. cbn in Hk, Hfl.
  destruct Hs as [k fl p m Hm Hadm|k fl p m rest m' k' Hp Hst|k fl p pass rest_m rest Hp Hpass
    |k fl p o rest Hp|k fl t Ht]; cbn in Hk, Hfl.
  - exists (mkMachine u ((p, m) :: fl')). split.
    + apply machine_run_one. constructor; [done|]. by rewrite (follows_probes _ _ Hfl).
    + split; [done|]. constructor; [|done]. split; [done|]. left. split; [done|by eapply tidy_handler].
  - destruct (follows_perm _ _ _ _ Hfl Hp) as ([q m0] & rest' & Hp' & [Hq Hm] & Hrest). cbn in Hq, Hm. subst q.
    destruct Hm as [[<- Hm]|[-> _]]; [|inversion Hst].
    by eapply followed_operation.
  - destruct (follows_perm _ _ _ _ Hfl Hp) as ([q m0] & rest' & Hp' & [Hq Hm] & Hrest). cbn in Hq, Hm. subst q.
    destruct Hm as [[<- _]|[E _]]; [|done]. rewrite (cv_target _ _ Hk) in Hpass.
    exists (mkMachine u rest'). split; [by eapply machine_run_one, ms_early_return|done].
  - destruct (follows_perm _ _ _ _ Hfl Hp) as ([q m0] & rest' & Hp' & [Hq Hm] & Hrest). cbn in Hq, Hm. subst q.
    destruct Hm as [[<- _]|([= ->] & o' & ->)].
    + exists (mkMachine (emit_opt o u) rest'). split; [by eapply machine_run_one, ms_return|].
      split; [by apply covered_emit_opt|done].
    + exists (mkMachine (emit_opt o' u) rest'). split; [by eapply machine_run_one, ms_return|].
      split; [by apply covered_missed|done].
  - exists (mkMachine (with_target t u) fl'). split.
    + apply machine_run_one. constructor. by rewrite <- (cv_target _ _ Hk).
    + split; [|done]. destruct Hk as [_ Hc He]. by split.
Qed.

Lemma followed_run c c' ls d :
  followed c c' -> machine_run adm c ls d -> exists d', machine_run adm c' ls d' /\ followed d d'.
Proof.
  intros Hf Hr. revert c' Hf. induction Hr as [c|c l d l' e Hs _ IH]; intros c' Hf.
  - exists c'. split; [constructor|done].
  - destruct (followed_step _ _ _ _ Hf Hs) as (d' & Hd & Hf').
    destruct (IH d' Hf') as (e' & He & Hfe). exists e'. split; [by eapply machine_run_app|done].
Qed.

End Following.

Section Recording.
Context {MB MF MI R : Type}.
Context `{!BpfHashMap Z BlockStart MB, !BpfHashMap Z FutexStart MF, !BpfHashMap Z BlockIoStart MI,
          !BpfRingBuf Event R, !BpfHashMapLaws Z BlockStart MB, !BpfHashMapLaws Z FutexStart MF,
          !BpfHashMapLaws Z BlockIoStart MI, !BpfRingBufLaws Event R}.

Lemma followed_initial (k : kernel MB MF MI R) :
  initial k -> followed [] (mkMachine k []) (mkMachine loaded []).
Proof.
  intros [Ht Hb Hf Hi He]. split; [|constructor]. split; cbn; [done| |by rewrite He].
  intros [key|key|key]; cbn; rewrite ?Hb, ?Hf, ?Hi; by right.
Qed.
End Recording.

(** ** The property *)

(** Whatever the capacities. *)
Lemma interleaved_sublist {MB MF MI R}
    `{!BpfHashMap Z BlockStart MB, !BpfHashMap Z FutexStart MF, !BpfHashMap Z BlockIoStart MI,
      !BpfRingBuf Event R, !BpfHashMapLaws Z BlockStart MB, !BpfHashMapLaws Z FutexStart MF,
      !BpfHashMapLaws Z BlockIoStart MI, !BpfRingBufLaws Event R}
    (k : kernel MB MF MI R) ls c :
  initial k -> machine_run exclusive (mkMachine k []) ls c ->
  rb_contents (EVENTS (shared c)) `sublist_of` spec_events (reverse ls).
Proof.
  intros Hk Hr. destruct (followed_run [] exclusive _ _ _ _ (followed_initial k Hk) Hr) as (d & Hd & [[_ _ He] _]).
  by rewrite <- (interleaved_lossless loaded ls d loaded_lossless loaded_initial Hd).
Qed.

(** However the handlers interleave and however small the maps and the ring
    buffer are, what is recorded is a subsequence of what the specification
    says of the handlers in the order they returned: a refused insertion or
    submission loses events and makes none up. *)
Theorem interleaved_no_invention {MB MF MI R}
    `{!BpfHashMap Z BlockStart MB, !BpfHashMap Z FutexStart MF, !BpfHashMap Z BlockIoStart MI,
      !BpfRingBuf Event R, !BpfHashMapLaws Z BlockStart MB, !BpfHashMapLaws Z FutexStart MF,
      !BpfHashMapLaws Z BlockIoStart MI, !BpfRingBufLaws Event R}
    (k : kernel MB MF MI R) ls c :
  initial k -> machine_run exclusive (mkMachine k []) ls c ->
  rb_contents (EVENTS (shared c)) `sublist_of` spec_events (reverse ls).
Proof. exact (interleaved_sublist k ls c). Qed.

(** The two processors, with room for one blocked thread and none for a
    futex wait: the wait is lost, the blocked span is not. *)
Definition small_kernel : bounded_kernel :=
  mkKernel (Some 0) (mkCapmap 1 ∅) (mkCapmap 0 ∅) (mkCapmap 0 ∅) (mkRing 1 []).

Definition lossy_processors : list directive :=
  [Target 7; Begin (SchedSwitch blink_out (Some (blink_switch 8 1 0))); Begin waiter_enter;
   Advance 1; Advance 1; Advance 1; Advance 1; Advance 0; Advance 0; Advance 0;
   Begin (SchedSwitch blink_in (Some (blink_switch 0 0 8))); Begin waiter_exit;
   Advance 1; Advance 1; Advance 1; Advance 1; Advance 0; Advance 0].

Lemma interleaved_no_invention_witness :
  match schedule exclusive lossy_processors (mkMachine small_kernel []) with
  | Some (ls, c) =>
      rb_contents (EVENTS (shared c)) `sublist_of` spec_events (reverse ls) /\
      map ev_event_type (rb_contents (EVENTS (shared c))) = [EVENT_SCHED_BLOCK] /\
      map ev_event_type (spec_events (reverse ls)) = [EVENT_FUTEX_WAIT; EVENT_SCHED_BLOCK]
  | None => False
  end.
Proof.
  destruct (schedule _ _) as [[ls c]|] eqn:E; [|vm_compute in E; discriminate]. split.
  - apply (interleaved_no_invention small_kernel); [by split|].
    by apply (schedule_sound exclusive lossy_processors).
  - apply (f_equal (fmap (M := option) (fun r => (r.1, map ev_event_type (EVENTS (shared r.2)).(ring_items))))) in E.
    vm_compute in E. injection E as <- E. split; [symmetry; exact E|]. vm_compute. reflexivity.
Defined.
