(* ===== verification/Capacity.v ===== *)
(** * Runs that fit the declared capacities

    The maps and the ring buffer of the loaded program are bounded. A handler
    inserts at most once and submits at most one event, so a run of no more
    handlers than the smallest capacity cannot fill anything, one after the
    other or interleaved: it goes in lockstep with the unbounded one, and
    nothing is lost. *)

From S2P Require Import Prelude RustStd Layout Common Vmlinux Ebpf EbpfSpec KernelMaps EbpfProps Concurrent.

(** The bounded kernel with the contents of an unbounded one. *)
Definition bounded (u : unbounded_kernel) : bounded_kernel :=
  mkKernel (TARGET_TGID u)
    (mkCapmap (cm_max_entries (BLOCK_START loaded_bounded)) (BLOCK_START u))
    (mkCapmap (cm_max_entries (FUTEX_START loaded_bounded)) (FUTEX_START u))
    (mkCapmap (cm_max_entries (BLOCKIO_START loaded_bounded)) (BLOCKIO_START u))
    (mkRing (ring_capacity (EVENTS loaded_bounded)) (EVENTS u)).

(** The smallest of the capacities. *)
Definition min_capacity : nat :=
  Nat.min (Nat.min (cm_max_entries (BLOCK_START loaded_bounded)) (cm_max_entries (FUTEX_START loaded_bounded)))
    (Nat.min (cm_max_entries (BLOCKIO_START loaded_bounded)) (ring_capacity (EVENTS loaded_bounded))).

(** At most [n] entries in each map and [e] unread events. *)
Record fits (n e : nat) (u : unbounded_kernel) : Prop := {
  fits_block : (size (BLOCK_START u) <= n)%nat;
  fits_futex : (size (FUTEX_START u) <= n)%nat;
  fits_io : (size (BLOCKIO_START u) <= n)%nat;
  fits_ring : (length (EVENTS u) <= e)%nat;
}.

Lemma min_capacity_le :
  (min_capacity <= cm_max_entries (BLOCK_START loaded_bounded))%nat /\
  (min_capacity <= cm_max_entries (FUTEX_START loaded_bounded))%nat /\
  (min_capacity <= cm_max_entries (BLOCKIO_START loaded_bounded))%nat /\
  (min_capacity <= ring_capacity (EVENTS loaded_bounded))%nat.
Proof. unfold min_capacity. lia. Qed.

Example min_capacity_value : Z.of_nat min_capacity = 4095.
Proof. vm_compute. reflexivity. Qed.

(** ** One operation at a time *)

Lemma capmap_insert_fits {V} c (m : gmap Z V) k v :
  (size m < c)%nat -> (bm_insert (mkCapmap c m) k v).2 = mkCapmap c (bm_insert m k v).2.
Proof. intros Hs. cbn. rewrite decide_True by (cbn; auto). done. Qed.

Lemma size_insert_le {V} (m : gmap Z V) k v : (size (bm_insert m k v).2 <= S (size m))%nat.
Proof. cbn. rewrite map_size_insert. destruct (m !! k); cbn; lia. Qed.

Lemma size_remove_le {V} (m : gmap Z V) k : (size (bm_remove m k).2 <= size m)%nat.
Proof. cbn. rewrite map_size_delete. destruct (m !! k); cbn; lia. Qed.

Lemma emit_bounded ev u :
  (length (EVENTS u) < ring_capacity (EVENTS loaded_bounded))%nat ->
  emit ev (bounded u) = bounded (emit ev u).
Proof. intros Hl. unfold emit. cbn [rb_reserve ring_ops EVENTS bounded ring_items]. by rewrite decide_True. Qed.

Lemma emit_opt_bounded o u :
  (length (EVENTS u) < ring_capacity (EVENTS loaded_bounded))%nat ->
  emit_opt o (bounded u) = bounded (emit_opt o u).
Proof. destruct o; [apply emit_bounded|done]. Qed.

Lemma emit_opt_length o (u : unbounded_kernel) :
  (length (EVENTS (emit_opt o u)) <= S (length (EVENTS u)))%nat.
Proof. destruct o; cbn; rewrite ?length_app; cbn; lia. Qed.

#[local] Opaque loaded_bounded.

Lemma emit_opt_fits o n e u : fits n e u -> fits n (S e) (emit_opt o u).
Proof.
  intros []. destruct (emit_opt_fields o u) as (_ & F1 & F2 & F3). pose proof (emit_opt_length o u).
  constructor; rewrite ?F1, ?F2, ?F3; lia.
Qed.

Definition inserts {A} (a : act A) : nat :=
  match a with BlockInsert _ _ | FutexInsert _ _ | IoInsert _ _ => 1 | _ => 0 end.

(** With room for what it inserts, an operation does the same on both. *)
Lemma do_act_bounded {A} (a : act A) n e u :
  fits n e u -> (n + inserts a <= min_capacity)%nat ->
  do_act a (bounded u) = ((do_act a u).1, bounded (do_act a u).2) /\
  fits (n + inserts a) e (do_act a u).2.
Proof.
  intros [Hb Hf Hi Hr] Hn. pose proof min_capacity_le as Hc.
  destruct a as [key v|key|key|key v|key|key|key v|key|key]; cbn [inserts do_act Datatypes.fst Datatypes.snd] in *;
    (split; [try done|constructor; cbn -[size bm_insert bm_remove]; try lia]).
  all: try (etrans; [apply size_insert_le || apply size_remove_le|lia]).
  all: unfold bounded at 1; cbn [BLOCK_START FUTEX_START BLOCKIO_START].
  all: by rewrite capmap_insert_fits by lia.
Qed.

(** ** Handlers *)

(** [m] inserts at most [b] times. *)
Fixpoint at_most (b : nat) (m : micro) : Prop :=
  match m with
  | Guard _ rest => forall target, at_most b (rest target)
  | Do a rest => (inserts a <= b)%nat /\ forall x, at_most (b - inserts a) (rest x)
  | Finish _ => True
  end.

Lemma at_most_handler p m : handler p = Some m -> at_most 1 m.
Proof.
  destruct p as [h ctx|h ctx|h|h ctx|h ctx|]; intros [= <-]; cbn -[pack_block_key].
  - intros target. destruct ctx as [evt|]; [|done]. cbv zeta.
    destruct (_ && _); cbn; repeat (split || intros ? || case_match); cbn; by try lia.
  - intros target. destruct ctx; [|done]. cbn. auto.
  - split; [lia|]. intros [start|]; cbn; auto.
  - intros target. destruct ctx; [|done]. cbn -[pack_block_key]. auto.
  - destruct ctx; [|done]. cbn -[pack_block_key]. split; [lia|]. intros [start|]; cbn; auto.
Qed.

Lemma alone_bounded m b n e u :
  at_most b m -> fits n e u -> (n + b <= min_capacity)%nat -> (e < min_capacity)%nat ->
  alone m (bounded u) = bounded (alone m u) /\ fits (n + b) (S e) (alone m u).
Proof.
  revert b n u. induction m as [pass rest IH|A a rest IH|o]; intros b n u Hm Hu Hn He; cbn [alone].
  - change (target_tgid (bounded u)) with (target_tgid u). destruct (pass _); [by apply IH|].
    split; [done|]. destruct Hu. constructor; lia.
  - destruct Hm as [Ha Hm]. destruct (do_act_bounded a n e u Hu) as [-> Hu']; [lia|].
    destruct (do_act a u) as [x u']. cbn [Datatypes.fst Datatypes.snd] in *.
    destruct (IH x (b - inserts a)%nat (n + inserts a)%nat u') as [E Hf]; [done|done|lia|done|].
    split; [done|]. by replace (n + b)%nat with (n + inserts a + (b - inserts a))%nat by lia.
  - pose proof min_capacity_le. destruct Hu as [???? ]. split; [apply emit_opt_bounded; lia|].
    apply emit_opt_fits. constructor; lia.
Qed.

(** ** One handler after the other *)

Lemma step_bounded p n e u :
  fits n e u -> (n < min_capacity)%nat -> (e < min_capacity)%nat ->
  step (bounded u) p = bounded (step u p) /\ fits (S n) (S e) (step u p).
Proof.
  intros Hu Hn He. destruct (handler p) as [m|] eqn:Hp.
  - rewrite <- !(alone_handler p m _ Hp), <- (Nat.add_1_r n).
    apply alone_bounded; [by eapply at_most_handler|done|lia|done].
  - destruct p; try done. split; [done|]. destruct Hu. constructor; cbn; lia.
Qed.

Lemma run_bounded ps n u :
  fits n n u -> (n + length ps <= min_capacity)%nat ->
  EbpfSpec.run (bounded u) ps = bounded (EbpfSpec.run u ps).
Proof.
  revert n u. induction ps as [|p ps IH]; intros n u Hf Hl; [done|]. cbn [length] in Hl.
  unfold EbpfSpec.run. cbn [foldl]. destruct (step_bounded p n n u Hf) as [-> Hf']; [lia..|].
  apply (IH (S n)); [done|lia].
Qed.

Lemma loaded_fits : fits 0 0 loaded.
Proof. by split; vm_compute. Qed.

(** ** Interleaved handlers *)

#[local] Abbreviation umachine := (@machine (gmap Z BlockStart) (gmap Z FutexStart) (gmap Z BlockIoStart) (list Event)).

Definition bounded_machine (c : umachine) : machine := mkMachine (bounded (shared c)) (in_flight c).

(** Nothing inserted or submitted beyond what the handlers begun account for:
    [r] have returned, and those in flight have each a budget left. *)
Definition on_budget (r : nat) (c : umachine) : Prop :=
  exists n budgets, fits n r (shared c) /\
    Forall2 (fun x b => at_most b x.2) (in_flight c) budgets /\
    (n + sum_list budgets <= r + length (in_flight c))%nat.

Lemma on_budget_perm r k fl fl' :
  on_budget r (mkMachine k fl) -> fl ≡ₚ fl' -> on_budget r (mkMachine k fl').
Proof.
  intros (n & bs & Hf & Hb & Hs) Hp. cbn in *.
  destruct (Permutation_Forall2 Hp Hb) as (bs' & Hpb & Hb').
  exists n, bs'. split_and!; [done..|]. cbn. by rewrite <- Hp, <- Hpb.
Qed.

Lemma on_budget_cons r k x rest :
  on_budget r (mkMachine k (x :: rest)) ->
  exists n b budgets, fits n r k /\ at_most b x.2 /\
    Forall2 (fun x b => at_most b x.2) rest budgets /\
    (n + b + sum_list budgets <= r + S (length rest))%nat.
Proof.
  intros (n & bs & Hf & Hb & Hs). inversion Hb as [|? b ? bs']; subst. cbn in *.
  exists n, b, bs'. split_and!; try done. lia.
Qed.

(** The handler at the head returns; it is not charged any more. *)
Lemma on_budget_return r k x rest o :
  on_budget r (mkMachine k (x :: rest)) -> (r < min_capacity)%nat ->
  emit_opt o (bounded k) = bounded (emit_opt o k) /\ on_budget (S r) (mkMachine (emit_opt o k) rest).
Proof.
  intros (n & b & bs & Hf & _ & Hb & Hs)%on_budget_cons Hr. pose proof min_capacity_le. split.
  - apply emit_opt_bounded. destruct Hf. lia.
  - exists n, bs. split_and!; [by apply emit_opt_fits|done|cbn; lia].
Qed.

(** A step of the bounded machine is one of the unbounded machine. *)
Lemma bounded_machine_step adm r c ls c' :
  on_budget r c -> machine_step adm (bounded_machine c) ls c' ->
  (r + length ls + length (in_flight c') <= min_capacity)%nat ->
  exists u, c' = bounded_machine u /\ machine_step adm c ls u /\ on_budget (r + length ls) u.
Proof.
  destruct c as [u fl]. intros Hb Hs. unfold bounded_machine in *. cbn [shared in_flight] in *.
  inversion Hs as [k ? p m Hm Hadm|k ? p m rest m' k' Hp Hst|k ? p pass rest_m rest Hp Hpass
    |k ? p o rest Hp|k ? t Ht]; subst; cbn [in_flight length]; intros Hroom.
  - exists (mkMachine u ((p, m) :: fl)). split_and!; [done|by constructor|].
    destruct Hb as (n & bs & Hf & Hb & Hsum). exists n, (1%nat :: bs). cbn in *.
    split_and!; [by rewrite Nat.add_0_r|constructor; [by eapply at_most_handler|done]|cbn; lia].
  - pose proof (on_budget_perm _ _ _ _ Hb Hp) as (n & b & bs & Hf & Hm & Hbs & Hsum)%on_budget_cons.
    cbn [length] in *. rewrite Nat.add_0_r in *.
    inversion Hst as [pass rest_m ? Hpass|A a rest_m ?]; subst.
    + exists (mkMachine u ((p, rest_m (target_tgid u)) :: rest)). split_and!; [done| |].
      * eapply ms_operation; [done|]. by constructor.
      * exists n, (b :: bs). cbn in *. split_and!; [done|constructor; [apply Hm|done]|lia].
    + destruct Hm as [Ha Hm]. destruct (do_act_bounded a n r u Hf) as [E Hf']; [lia|].
      exists (mkMachine (do_act a u).2 ((p, rest_m (do_act a u).1) :: rest)). rewrite E. split_and!; [done| |].
      * eapply ms_operation; [done|constructor].
      * exists (n + inserts a)%nat, (b - inserts a :: bs)%nat. cbn in *.
        split_and!; [done|constructor; [apply Hm|done]|lia].
  - destruct (on_budget_return r u (p, Guard pass rest_m) rest None) as [_ Hb'];
      [by eapply on_budget_perm|cbn in *; lia|].
    exists (mkMachine u rest). rewrite Nat.add_1_r. split_and!; [done| |done]. by eapply ms_early_return.
  - destruct (on_budget_return r u (p, Finish o) rest o) as [E Hb'];
      [by eapply on_budget_perm|cbn in *; lia|].
    exists (mkMachine (emit_opt o u) rest). rewrite E, Nat.add_1_r. split_and!; [done| |done].
    by eapply ms_return.
  - exists (mkMachine (with_target t u) fl). rewrite Nat.add_1_r. split_and!; [done|by constructor|].
    destruct Hb as (n & bs & [] & Hb & Hsum). exists n, bs. cbn in *.
    split_and!; [constructor; cbn; lia|done|lia].
Qed.

(** As many handlers return or are in flight later as are in flight now. *)
Lemma machine_step_count {MB MF MI R} `{!BpfHashMap Z BlockStart MB, !BpfHashMap Z FutexStart MF,
      !BpfHashMap Z BlockIoStart MI, !BpfRingBuf Event R} adm (c c' : machine (MB := MB) (R := R)) ls :
  machine_step adm c ls c' -> (length (in_flight c) <= length ls + length (in_flight c'))%nat.
Proof. destruct 1 as [|? ? ? ? ? ? ? H|? ? ? ? ? ? H|? ? ? ? ? H|]; cbn; try rewrite H; cbn; lia. Qed.

Lemma machine_run_count {MB MF MI R} `{!BpfHashMap Z BlockStart MB, !BpfHashMap Z FutexStart MF,
      !BpfHashMap Z BlockIoStart MI, !BpfRingBuf Event R} adm (c c' : machine (MB := MB) (R := R)) ls :
  machine_run adm c ls c' -> (length (in_flight c) <= length ls + length (in_flight c'))%nat.
Proof.
  induction 1 as [|c l c' l' c'' Hs Hr IH]; [lia|]. apply machine_step_count in Hs.
  rewrite length_app. lia.
Qed.

Lemma bounded_machine_run adm r c ls c' :
  on_budget r c -> machine_run adm (bounded_machine c) ls c' ->
  (r + length ls + length (in_flight c') <= min_capacity)%nat ->
  exists u, c' = bounded_machine u /\ machine_run adm c ls u.
Proof.
  intros Hb Hr. remember (bounded_machine c) as b eqn:Hc. revert r c Hc Hb.
  induction Hr as [b|b l b' l' b'' Hs Hr IH]; intros r c -> Hb Hroom; [by exists c; split; [|constructor]|].
  rewrite length_app in Hroom. pose proof (machine_run_count _ _ _ _ Hr).
  destruct (bounded_machine_step _ _ _ _ _ Hb Hs) as (u & -> & Hu & Hb'); [lia|].
  destruct (IH (r + length l)%nat u) as (u' & -> & Hu'); [done..|lia|].
  exists u'. split; [done|]. by eapply machine_run_step.
Qed.

Lemma bounded_loaded : bounded loaded = loaded_bounded.
Proof. reflexivity. Qed.

Lemma loaded_on_budget : on_budget 0 (mkMachine loaded []).
Proof. exists 0%nat, []. split_and!; [exact loaded_fits|constructor|cbn; lia]. Qed.

(** ** The property *)

(** Within the capacities. *)
Lemma interleaved_short_run ls c :
  machine_run exclusive (mkMachine loaded_bounded []) ls c ->
  (length ls + length (in_flight c) <= min_capacity)%nat ->
  rb_contents (EVENTS (shared c)) = spec_events (reverse ls).
Proof.
  intros Hr Hl. rewrite <- bounded_loaded in Hr.
  destruct (bounded_machine_run exclusive 0 (mkMachine loaded []) ls c loaded_on_budget Hr Hl) as (u & -> & Hu).
  change (rb_contents (EVENTS (shared u)) = spec_events (reverse ls)).
  by apply (interleaved_lossless loaded ls u loaded_lossless loaded_initial).
Qed.

(** However the handlers interleave, a run of no more of them than the
    smallest of the declared capacities loses nothing. *)
Theorem interleaved_short_run_lossless ls c :
  machine_run exclusive (mkMachine loaded_bounded []) ls c ->
  (length ls + length (in_flight c) <= min_capacity)%nat ->
  rb_contents (EVENTS (shared c)) = spec_events (reverse ls).
Proof. exact (interleaved_short_run ls c). Qed.

(** The two processors of [two_processors], with the declared capacities. *)
Lemma interleaved_short_run_lossless_witness :
  match schedule exclusive two_processors (mkMachine loaded_bounded []) with
  | Some (ls, c) =>
      rb_contents (EVENTS (shared c)) = spec_events (reverse ls) /\
      map ev_event_type (rb_contents (EVENTS (shared c))) = [EVENT_FUTEX_WAIT; EVENT_SCHED_BLOCK]
  | None => False
  end.
Proof.
  destruct (schedule _ _) as [[ls c]|] eqn:E; [|vm_compute in E; discriminate].
  pose proof (schedule_sound exclusive two_processors _ _ _ E) as Hr.
  apply (f_equal (fmap (M := option) (fun r => (r.1, length (in_flight r.2))))) in E.
  vm_compute in E. injection E as <- El. assert (El' : length (in_flight c) = 0%nat) by (symmetry; exact El).
  rewrite (interleaved_short_run_lossless _ _ Hr);
    [by split; [|vm_compute]|rewrite El'; apply (bool_decide_unpack _); vm_compute; exact I].
Defined.

(** ** One handler after the other *)

(** A recording of no more handlers than the smallest of the declared
    capacities loses nothing. *)
Theorem short_run_lossless ps :
  (length ps <= min_capacity)%nat ->
  rb_contents (EVENTS (EbpfSpec.run loaded_bounded ps)) = spec_events (reverse ps).
Proof.
  intros Hl. transitivity (rb_contents (EVENTS (EbpfSpec.run (bounded loaded) ps))); [done|].
  rewrite (run_bounded ps 0 loaded loaded_fits) by done.
  exact (recorded_lossless loaded ps loaded_initial loaded_lossless).
Qed.
