(* ===== verification/Consumer.v ===== *)
(** * Handlers and consumer at the same time

    While handlers run on all processors the CLI takes items off the ring
    buffer. A session interleaves both: the events read so far, followed by
    those still in the buffer, are what a run without a reader would have in
    it. *)

From S2P Require Import Prelude RustStd Layout Common Vmlinux Ebpf EbpfSpec KernelMaps EbpfProps.
From S2P Require Import Concurrent Lossy Capacity.

(** ** The consumer's side of the ring buffer *)

Class BpfRingConsumer (T R : Type) := { rb_next : R -> option (T * R) }.

(** An item read is the oldest one, and nothing is read only when the buffer
    is empty. *)
Class BpfRingConsumerLaws (T R : Type) `{BpfRingBuf T R, BpfRingConsumer T R} := {
  rb_next_Some (r : R) ev r' : rb_next r = Some (ev, r') -> rb_contents r = ev :: rb_contents r';
  rb_next_None (r : R) : rb_next r = None -> rb_contents r = [];
}.

#[export] Instance ring_consumer : BpfRingConsumer Event ring := {
  rb_next r := match ring_items r with
    | ev :: evs => Some (ev, mkRing (ring_capacity r) evs)
    | [] => None
    end;
}.

#[export] Instance ring_consumer_laws : BpfRingConsumerLaws Event ring.
Proof. split; intros [n [|ev evs]]; cbn; try done. by intros * [= <- <-]. Qed.

#[export] Instance list_ring_consumer : BpfRingConsumer Event (list Event) := {
  rb_next r := match r with ev :: evs => Some (ev, evs) | [] => None end;
}.

#[export] Instance list_ring_consumer_laws : BpfRingConsumerLaws Event (list Event).
Proof. split; intros [|ev evs]; cbn; try done. by intros * [= <- <-]. Qed.

(** ** Sessions *)

Section Sessions.
Context {MB MF MI R : Type}.
Context `{!BpfHashMap Z BlockStart MB, !BpfHashMap Z FutexStart MF, !BpfHashMap Z BlockIoStart MI,
          !BpfRingBuf Event R, !BpfRingConsumer Event R}.
#[local] Abbreviation cmachine := (@machine MB MF MI R).

Definition after_read (r : R) (c : cmachine) : cmachine := mkMachine (with_events r (shared c)) (in_flight c).

(** The machine takes a step, or the consumer an item: the probes that took
    effect and the events that were read. *)
Inductive tracing (adm : admission) : cmachine -> list probe -> list Event -> cmachine -> Prop :=
  | tracing_end c : tracing adm c [] [] c
  | tracing_step c l d ls evs e :
      machine_step adm c l d -> tracing adm d ls evs e -> tracing adm c (l ++ ls) evs e
  | tracing_read c ev r ls evs e :
      rb_next (EVENTS (shared c)) = Some (ev, r) -> tracing adm (after_read r c) ls evs e ->
      tracing adm c ls (ev :: evs) e.

Lemma session_count adm c ls evs d :
  tracing adm c ls evs d -> (length (in_flight c) <= length ls + length (in_flight d))%nat.
Proof.
  induction 1 as [|c l d ls evs e Hs _ IH|c ev r ls evs e _ _ IH]; [lia| |done].
  apply machine_step_count in Hs. rewrite length_app. lia.
Qed.
End Sessions.

#[local] Abbreviation umachine :=
  (@machine (gmap Z BlockStart) (gmap Z FutexStart) (gmap Z BlockIoStart) (list Event)).

(** ** Without limits

    What is already in the buffer does not change what the handlers do. *)

Definition with_prefix (l : list Event) (u : unbounded_kernel) : unbounded_kernel := with_events (l ++ EVENTS u) u.

Definition prefixed (l : list Event) (c : umachine) : umachine := mkMachine (with_prefix l (shared c)) (in_flight c).

Lemma do_act_prefix {A} (a : act A) l u :
  do_act a (with_prefix l u) = ((do_act a u).1, with_prefix l (do_act a u).2).
Proof. by destruct a. Qed.

Lemma emit_opt_prefix o l u : emit_opt o (with_prefix l u) = with_prefix l (emit_opt o u).
Proof. destruct o as [ev|]; [|done]. cbn. unfold with_prefix. cbn. by rewrite app_assoc. Qed.

Lemma prefixed_step adm l c ls d : machine_step adm c ls d -> machine_step adm (prefixed l c) ls (prefixed l d).
Proof.
  unfold prefixed. destruct 1 as [u fl p m Hm Hadm|u fl p m rest m' u' Hp Hst|u fl p pass rest_m rest Hp Hpass
    |u fl p o rest Hp|u fl t Ht]; cbn [shared in_flight].
  - by constructor.
  - eapply ms_operation; [done|]. inversion Hst as [pass next ? Hpass|A a next ?]; subst.
    + change (target_tgid u') with (target_tgid (with_prefix l u')). by constructor.
    + pose proof (mstep_do A a next (with_prefix l u)) as Ha. by rewrite do_act_prefix in Ha.
  - by eapply ms_early_return.
  - rewrite <- emit_opt_prefix. by eapply ms_return.
  - by constructor.
Qed.

Lemma prefixed_run adm l c ls d : machine_run adm c ls d -> machine_run adm (prefixed l c) ls (prefixed l d).
Proof.
  induction 1 as [|c l' d ls e Hs _ IH]; [constructor|]. by eapply machine_run_step; [apply prefixed_step|].
Qed.

Lemma prefixed_app l l' c : prefixed l (prefixed l' c) = prefixed (l ++ l') c.
Proof. unfold prefixed, with_prefix. cbn. by rewrite app_assoc. Qed.

Lemma prefixed_nil c : prefixed [] c = c.
Proof. by destruct c as [[] ?]. Qed.

Lemma prefixed_read ev r (c : umachine) :
  rb_next (EVENTS (shared c)) = Some (ev, r) -> prefixed [ev] (after_read r c) = c.
Proof.
  destruct c as [[t b f i [|ev' evs]] fl]; cbn; [done|]. by intros [= -> ->].
Qed.

(** A session is a run without a reader, whose buffer still holds what was
    read. *)
Lemma session_unread adm (c : umachine) ls evs d : tracing adm c ls evs d -> machine_run adm c ls (prefixed evs d).
Proof.
  induction 1 as [c|c l d ls evs e Hs _ IH|c ev r ls evs e Hn _ IH].
  - rewrite prefixed_nil. constructor.
  - by eapply machine_run_step.
  - apply (prefixed_run _ [ev]) in IH. by rewrite (prefixed_read _ _ _ Hn), prefixed_app in IH.
Qed.

(** ** Within the capacities *)

Lemma on_budget_read r c ev evs :
  on_budget r c -> EVENTS (shared c) = ev :: evs -> on_budget r (after_read evs c).
Proof.
  intros (n & bs & [Hb Hf Hi Hr] & Hbs & Hsum) He. exists n, bs. split_and!; [|done..].
  rewrite He in Hr. cbn in Hr. constructor; cbn; try done. lia.
Qed.

Lemma bounded_session adm r c ls evs d :
  on_budget r c -> tracing adm (bounded_machine c) ls evs d ->
  (r + length ls + length (in_flight d) <= min_capacity)%nat ->
  exists u, d = bounded_machine u /\ tracing adm c ls evs u.
Proof.
  intros Hb Hs. remember (bounded_machine c) as b eqn:Hc. revert r c Hc Hb.
  induction Hs as [b|b l d ls evs e Hst Hs IH|b ev r' ls evs e Hn Hs IH]; intros r c -> Hb Hroom.
  - exists c. split; [done|constructor].
  - rewrite length_app in Hroom. pose proof (session_count _ _ _ _ _ Hs).
    destruct (bounded_machine_step _ _ _ _ _ Hb Hst) as (u & -> & Hu & Hb'); [lia|].
    destruct (IH (r + length l)%nat u) as (u' & -> & Hu'); [done..|lia|].
    exists u'. split; [done|]. by eapply tracing_step.
  - cbn in Hn. destruct (EVENTS (shared c)) as [|ev' evs'] eqn:E; [done|]. injection Hn as -> <-.
    destruct (IH r (after_read evs' c)) as (u & -> & Hu); [done|by eapply on_budget_read|done|].
    exists u. split; [done|]. eapply tracing_read; [|exact Hu]. by rewrite E.
Qed.

(** ** Whatever the capacities *)

Section Lossy.
Context {MB MF MI R : Type}.
Context `{!BpfHashMap Z BlockStart MB, !BpfHashMap Z FutexStart MF, !BpfHashMap Z BlockIoStart MI,
          !BpfRingBuf Event R, !BpfHashMapLaws Z BlockStart MB, !BpfHashMapLaws Z FutexStart MF,
          !BpfHashMapLaws Z BlockIoStart MI, !BpfRingBufLaws Event R,
          !BpfRingConsumer Event R, !BpfRingConsumerLaws Event R}.

Lemma followed_session adm read (c : @machine MB MF MI R) c' ls evs d :
  followed read c c' -> tracing adm c ls evs d ->
  exists d', machine_run adm c' ls d' /\ followed (read ++ evs) d d'.
Proof.
  intros Hf Hs. revert read c' Hf.
  induction Hs as [c|c l d ls evs e Hst _ IH|c ev r ls evs e Hn _ IH]; intros read c' Hf.
  - exists c'. rewrite app_nil_r. split; [constructor|done].
  - destruct (followed_step read _ _ _ _ _ Hf Hst) as (d' & Hd & Hf').
    destruct (IH read d' Hf') as (e' & He & Hfe). exists e'. split; [by eapply machine_run_app|done].
  - destruct (IH (read ++ [ev]) c') as (e' & He & Hfe); [|exists e'; by rewrite <- app_assoc in Hfe].
    destruct Hf as [[Ht Hc He] Hfl]. split; [|done]. split; [done|done|].
    rewrite (rb_next_Some _ _ _ Hn) in He. by rewrite <- app_assoc.
Qed.
End Lossy.

(** ** Schedules with reads

    [None] is a read by the consumer. *)

Section Schedules.
Context {MB MF MI R : Type}.
Context `{!BpfHashMap Z BlockStart MB, !BpfHashMap Z FutexStart MF, !BpfHashMap Z BlockIoStart MI,
          !BpfRingBuf Event R, !BpfRingConsumer Event R}.
Context (adm : admission) {adm_dec : forall fl p, Decision (adm fl p)}.

Fixpoint session_schedule (ds : list (option directive)) (c : @machine MB MF MI R) :
    option (list probe * list Event * machine) :=
  match ds with
  | [] => Some ([], [], c)
  | Some d :: ds =>
      '(l, c) ← direct adm d c; '(ls, evs, c) ← session_schedule ds c; Some (l ++ ls, evs, c)
  | None :: ds =>
      '(ev, r) ← rb_next (EVENTS (shared c));
      '(ls, evs, c) ← session_schedule ds (after_read r c); Some (ls, ev :: evs, c)
  end.

Lemma session_schedule_sound ds c ls evs c' :
  session_schedule ds c = Some (ls, evs, c') -> tracing adm c ls evs c'.
Proof.
  revert c ls evs. induction ds as [|[d|] ds IH]; intros c ls evs H; cbn in H.
  - simplify_eq. constructor.
  - apply bind_Some in H as ([l1 c1] & Hd & H). apply bind_Some in H as ([[l2 e2] c2] & Hs & H). simplify_eq.
    eapply tracing_step; [by eapply direct_sound|by apply IH].
  - apply bind_Some in H as ([ev r] & Hn & H). apply bind_Some in H as ([[l2 e2] c2] & Hs & H). simplify_eq.
    eapply tracing_read; [done|by apply IH].
Qed.
End Schedules.

(** The two processors; the consumer takes the first event before the second
    is submitted. *)
Definition reading_along : list (option directive) :=
  (Some <$> take 18 two_processors) ++ [None] ++ (Some <$> drop 18 two_processors).

Definition two_processors_probes : list probe :=
  [SetTarget 7; waiter_enter; SchedSwitch blink_out (Some (blink_switch 8 1 0));
   waiter_exit; SchedSwitch blink_in (Some (blink_switch 0 0 8))].

(** What the run of a schedule comes to: the probes, what was read, how much is
    still in the buffer, and how many handlers are in flight. *)
Definition outcome_of (r : list probe * list Event * @machine (capmap BlockStart) (capmap FutexStart)
    (capmap BlockIoStart) ring) : list probe * list Z * nat * nat :=
  (r.1.1, ev_event_type <$> r.1.2, length (rb_contents (EVENTS (shared r.2))), length (in_flight r.2)).

Lemma reading_along_session :
  exists evs c, tracing exclusive (mkMachine loaded_bounded []) two_processors_probes evs c /\
    ev_event_type <$> evs = [EVENT_FUTEX_WAIT] /\ length (rb_contents (EVENTS (shared c))) = 1%nat /\
    length (in_flight c) = 0%nat.
Proof.
  destruct (session_schedule exclusive reading_along (mkMachine loaded_bounded [])) as [[[ls evs] c]|] eqn:E;
    [|vm_compute in E; discriminate].
  pose proof (session_schedule_sound _ _ _ _ _ _ E) as Hs. apply (f_equal (fmap (M := option) outcome_of)) in E.
  assert (Ho : Some (outcome_of (ls, evs, c)) = Some (two_processors_probes, [EVENT_FUTEX_WAIT], 1%nat, 0%nat))
    by (etrans; [symmetry; exact E|vm_compute; reflexivity]).
  apply (inj Some) in Ho. clear E. exists evs, c.
  assert (ls = two_processors_probes) as -> by exact (f_equal (fun o => o.1.1.1) Ho). split; [done|].
  split_and!; [exact (f_equal (fun o => o.1.1.2) Ho)|exact (f_equal (fun o => o.1.2) Ho)|exact (f_equal snd Ho)].
Qed.

(** ** The properties *)

(** With any capacities. *)
Lemma session_sublist {MB MF MI R}
    `{!BpfHashMap Z BlockStart MB, !BpfHashMap Z FutexStart MF, !BpfHashMap Z BlockIoStart MI,
      !BpfRingBuf Event R, !BpfHashMapLaws Z BlockStart MB, !BpfHashMapLaws Z FutexStart MF,
      !BpfHashMapLaws Z BlockIoStart MI, !BpfRingBufLaws Event R,
      !BpfRingConsumer Event R, !BpfRingConsumerLaws Event R}
    (k : kernel MB MF MI R) ls evs c :
  initial k -> tracing exclusive (mkMachine k []) ls evs c ->
  evs ++ rb_contents (EVENTS (shared c)) `sublist_of` spec_events (reverse ls).
Proof.
  intros Hk Hs. destruct (followed_session exclusive [] _ _ _ _ _ (followed_initial k Hk) Hs) as (d & Hd & [[_ _ He] _]).
  by rewrite <- (interleaved_lossless loaded ls d loaded_lossless loaded_initial Hd).
Qed.

(** C18: Whatever the CLI reads while the handlers run, however they and the
    reader interleave and whatever is refused, provided that no two handlers in
    flight are about the same thread or request: what was read, followed by
    what is still there, is a subsequence of the specified events. *)
Theorem session_no_invention {MB MF MI R}
    `{!BpfHashMap Z BlockStart MB, !BpfHashMap Z FutexStart MF, !BpfHashMap Z BlockIoStart MI,
      !BpfRingBuf Event R, !BpfHashMapLaws Z BlockStart MB, !BpfHashMapLaws Z FutexStart MF,
      !BpfHashMapLaws Z BlockIoStart MI, !BpfRingBufLaws Event R,
      !BpfRingConsumer Event R, !BpfRingConsumerLaws Event R}
    (k : kernel MB MF MI R) ls evs c :
  initial k -> tracing exclusive (mkMachine k []) ls evs c ->
  evs ++ rb_contents (EVENTS (shared c)) `sublist_of` spec_events (reverse ls).
Proof. exact (session_sublist k ls evs c). Qed.

Lemma session_no_invention_witness :
  exists evs c, tracing exclusive (mkMachine loaded_bounded []) two_processors_probes evs c /\
    evs ++ rb_contents (EVENTS (shared c)) `sublist_of` spec_events (reverse two_processors_probes).
Proof.
  destruct reading_along_session as (evs & c & Hs & _). exists evs, c. split; [done|].
  exact (session_no_invention loaded_bounded two_processors_probes evs c loaded_bounded_initial Hs).
Defined.

(** With the declared capacities. *)
Lemma session_short_run ls evs c :
  tracing exclusive (mkMachine loaded_bounded []) ls evs c ->
  (length ls + length (in_flight c) <= min_capacity)%nat ->
  evs ++ rb_contents (EVENTS (shared c)) = spec_events (reverse ls).
Proof.
  intros Hs Hl. rewrite <- bounded_loaded in Hs.
  destruct (bounded_session exclusive 0 (mkMachine loaded []) ls evs c loaded_on_budget Hs Hl) as (u & -> & Hu).
  exact (interleaved_lossless loaded ls _ loaded_lossless loaded_initial (session_unread _ _ _ _ _ Hu)).
Qed.

(** With the capacities the program declares, no more handlers than the
    smallest of them lose nothing, however they and the consumer interleave:
    what was read, followed by what is still there, is exactly what the
    specification says. *)
Theorem session_short_run_lossless ls evs c :
  tracing exclusive (mkMachine loaded_bounded []) ls evs c ->
  (length ls + length (in_flight c) <= min_capacity)%nat ->
  evs ++ rb_contents (EVENTS (shared c)) = spec_events (reverse ls).
Proof. exact (session_short_run ls evs c). Qed.

Lemma session_short_run_lossless_witness :
  exists evs c, tracing exclusive (mkMachine loaded_bounded []) two_processors_probes evs c /\
    ev_event_type <$> evs = [EVENT_FUTEX_WAIT] /\ length (rb_contents (EVENTS (shared c))) = 1%nat /\
    evs ++ rb_contents (EVENTS (shared c)) = spec_events (reverse two_processors_probes).
Proof.
  destruct reading_along_session as (evs & c & Hs & He & Hr & Hn). exists evs, c. split_and!; [done..|].
  apply (session_short_run_lossless _ _ _ Hs). rewrite Hn. apply (bool_decide_unpack _). vm_compute. exact I.
Defined.

(** C22: Every event that is recorded, with any capacities and however the
    handlers interleave with each other and with the consumer, provided that no
    two in flight are about the same thread or request, belongs to the process
    the CLI had set as its target before the span began: the handler that
    opened the span ran in that process, after [SetTarget] of it, and the
    event has its name. *)
Theorem session_only_target {MB MF MI R}
    `{!BpfHashMap Z BlockStart MB, !BpfHashMap Z FutexStart MF, !BpfHashMap Z BlockIoStart MI,
      !BpfRingBuf Event R, !BpfHashMapLaws Z BlockStart MB, !BpfHashMapLaws Z FutexStart MF,
      !BpfHashMapLaws Z BlockIoStart MI, !BpfRingBufLaws Event R,
      !BpfRingConsumer Event R, !BpfRingConsumerLaws Event R}
    (k : kernel MB MF MI R) ls evs c ev :
  initial k -> tracing exclusive (mkMachine k []) ls evs c -> ev ∈ evs ++ rb_contents (EVENTS (shared c)) ->
  exists before q after p t0, ls = before ++ q :: after /\ p ∈ q :: after /\
    opened_by q (ev_pid ev) t0 (ev_pid ev) (ev_comm ev) /\ probe_time p = Some (ev_timestamp_ns ev) /\
    target_of (reverse before) = ev_pid ev /\ SetTarget (ev_pid ev) ∈ before.
Proof.
  intros Hk Hs Hev. destruct (spec_event_origin (reverse ls) ev) as [t0 Ho];
    [by eapply elem_of_sublist, session_sublist|].
  destruct (origin_begun ls ev t0 Ho) as (before & q & after & p & H). by exists before, q, after, p, t0.
Qed.

Lemma session_only_target_witness :
  exists evs c ev before q after t0, tracing exclusive (mkMachine loaded_bounded []) two_processors_probes evs c /\
    ev ∈ evs ++ rb_contents (EVENTS (shared c)) /\ two_processors_probes = before ++ q :: after /\
    opened_by q (ev_pid ev) t0 (ev_pid ev) (ev_comm ev) /\ SetTarget (ev_pid ev) ∈ before.
Proof.
  destruct reading_along_session as (evs & c & Hs & He & _). destruct evs as [|ev evs]; [discriminate He|].
  destruct (session_only_target loaded_bounded two_processors_probes (ev :: evs) c ev loaded_bounded_initial Hs)
    as (before & q & after & p & t0 & Hls & _ & Ho & _ & _ & Ht); [apply list_elem_of_here|].
  exists (ev :: evs), c, ev, before, q, after, t0.
  split_and!; [exact Hs|apply list_elem_of_here|exact Hls|exact Ho|exact Ht].
Defined.
