(* ===== verification/Slots.v ===== *)
(** * Reservation, write and submission apart

    [EVENTS.reserve] takes an entry of the ring buffer, [entry.write] fills it
    and [entry.submit] gives it to the consumer, which waits at an entry that
    is reserved but not submitted even when later ones are. Here the three
    calls of [emit] are steps of their own: other handlers and the consumer
    run between them. Every run is a session of [Consumer] in which the event
    appears at its reservation, so all that holds of sessions holds with
    entries, and once no handler is inside [emit] everything recorded can be
    read. The entries themselves are the kernel's; [emit_ops] is what the
    program does with them. *)

From S2P Require Import Prelude RustStd Layout Common Vmlinux Ebpf EbpfSpec KernelMaps EbpfProps.
From S2P Require Import Concurrent Lossy Capacity Consumer.

(** ** The ring buffer's entries *)

(** An entry has the number of its reservation, its bytes, and whether it was
    submitted. *)
Record slot := mkSlot { sl_number : nat; sl_event : Event; sl_submitted : bool }.

Record slots := mkSlots {
  sl_capacity : nat;
  sl_next : nat;
  sl_items : list slot;
}.

(** A reserved entry holds whatever its memory held. *)
Definition sl_reserve (garbage : Event) (r : slots) : option (nat * slots) :=
  if decide (length (sl_items r) < sl_capacity r)%nat
  then Some (sl_next r,
    mkSlots (sl_capacity r) (S (sl_next r)) (sl_items r ++ [mkSlot (sl_next r) garbage false]))
  else None.

(** What can be done with a reserved entry. *)
Inductive entry_op := EntryWrite (i : nat) (ev : Event) | EntrySubmit (i : nat).

Definition on_entry (op : entry_op) (x : slot) : slot :=
  match op with
  | EntryWrite i ev => if decide (sl_number x = i) then mkSlot i ev (sl_submitted x) else x
  | EntrySubmit i => if decide (sl_number x = i) then mkSlot i (sl_event x) true else x
  end.

Definition do_entry (op : entry_op) (r : slots) : slots :=
  mkSlots (sl_capacity r) (sl_next r) (on_entry op <$> sl_items r).

(** The consumer's next item, if the oldest entry has been submitted. *)
Definition sl_take (r : slots) : option (Event * slots) :=
  match sl_items r with
  | mkSlot _ ev true :: items => Some (ev, mkSlots (sl_capacity r) (sl_next r) items)
  | _ => None
  end.

(** What the consumer can take, with nobody else running. *)
Fixpoint readable (items : list slot) : list Event :=
  match items with
  | mkSlot _ ev true :: items => ev :: readable items
  | _ => []
  end.

(** ** What [emit] does with the entry it has reserved *)

Definition emit_ops (i : nat) (ev : Event) : list entry_op := [EntryWrite i ev; EntrySubmit i].

(** A handler in flight: before [emit], or in it, after the reservation. *)
Inductive stage := Running (m : micro) | Emitting (ops : list entry_op).

Definition running (x : probe * stage) : option (probe * micro) :=
  match x.2 with Running m => Some (x.1, m) | Emitting _ => None end.

(** ** The machine *)

Section Machine.
Context {MB MF MI : Type}.
Context `{!BpfHashMap Z BlockStart MB, !BpfHashMap Z FutexStart MF, !BpfHashMap Z BlockIoStart MI}.

Record smachine := mkSmachine {
  s_kernel : kernel MB MF MI slots;
  s_flight : list (probe * stage);
}.

(** No handler is inside [emit]. *)
Definition settled (c : smachine) : Prop := Forall (fun x => is_Some (running x)) (s_flight c).

(** One step: the probe that took effect, and the item that was read. *)
Inductive sstep (adm : admission) : smachine -> list probe -> list Event -> smachine -> Prop :=
  | ss_begin k fl p m :
      handler p = Some m -> adm fl.*1 p ->
      sstep adm (mkSmachine k fl) [] [] (mkSmachine k ((p, Running m) :: fl))
  | ss_operation k fl p m rest m' k' :
      fl ≡ₚ (p, Running m) :: rest -> mstep (m, k) (m', k') ->
      sstep adm (mkSmachine k fl) [] [] (mkSmachine k' ((p, Running m') :: rest))
  | ss_early_return k fl p pass rest_m rest :
      fl ≡ₚ (p, Running (Guard pass rest_m)) :: rest -> pass (target_tgid k) = false ->
      sstep adm (mkSmachine k fl) [p] [] (mkSmachine k rest)
  | ss_return k fl p rest :
      fl ≡ₚ (p, Running (Finish None)) :: rest ->
      sstep adm (mkSmachine k fl) [p] [] (mkSmachine k rest)
  | ss_reserve k fl p ev rest garbage i r :
      fl ≡ₚ (p, Running (Finish (Some ev))) :: rest -> sl_reserve garbage (EVENTS k) = Some (i, r) ->
      sstep adm (mkSmachine k fl) [p] []
        (mkSmachine (with_events r k) ((p, Emitting (emit_ops i ev)) :: rest))
  | ss_full k fl p ev rest garbage :
      fl ≡ₚ (p, Running (Finish (Some ev))) :: rest -> sl_reserve garbage (EVENTS k) = None ->
      sstep adm (mkSmachine k fl) [p] [] (mkSmachine k rest)
  | ss_entry k fl p op ops fl' :
      sstep adm (mkSmachine k (fl ++ (p, Emitting (op :: ops)) :: fl')) [] []
        (mkSmachine (with_events (do_entry op (EVENTS k)) k) (fl ++ (p, Emitting ops) :: fl'))
  | ss_emitted k fl p fl' :
      sstep adm (mkSmachine k (fl ++ (p, Emitting []) :: fl')) [] [] (mkSmachine k (fl ++ fl'))
  | ss_take k fl ev r :
      sl_take (EVENTS k) = Some (ev, r) ->
      sstep adm (mkSmachine k fl) [] [ev] (mkSmachine (with_events r k) fl)
  | ss_set_target k fl t :
      target_tgid k = 0 ->
      sstep adm (mkSmachine k fl) [SetTarget t] [] (mkSmachine (with_target t k) fl).

Inductive srun (adm : admission) : smachine -> list probe -> list Event -> smachine -> Prop :=
  | srun_refl c : srun adm c [] [] c
  | srun_step c l es d ls evs e :
      sstep adm c l es d -> srun adm d ls evs e -> srun adm c (l ++ ls) (es ++ evs) e.

(** ** The events of the entries

    The handlers inside [emit] still have to write some entries and to submit
    some. *)

Definition write_of (x : probe * stage) : option (nat * Event) :=
  match x.2 with Emitting (EntryWrite i ev :: _) => Some (i, ev) | _ => None end.

Definition submit_of (x : probe * stage) : option nat :=
  match x.2 with
  | Emitting (EntryWrite i _ :: _) | Emitting (EntrySubmit i :: _) => Some i
  | _ => None
  end.

Definition open_of (x : slot) : option nat := if sl_submitted x then None else Some (sl_number x).

Definition pending (fl : list (probe * stage)) : gmap nat Event := list_to_map (omap write_of fl).

Definition resolve (w : gmap nat Event) (x : slot) : Event :=
  if sl_submitted x then sl_event x else default (sl_event x) (w !! sl_number x).

Definition slot_ring (r : slots) (w : gmap nat Event) : ring :=
  mkRing (sl_capacity r) (resolve w <$> sl_items r).

(** The kernel and the machine of [Concurrent] that [c] implements. *)
Definition view_kernel (k : kernel MB MF MI slots) (w : gmap nat Event) : kernel MB MF MI ring :=
  mkKernel (TARGET_TGID k) (BLOCK_START k) (FUTEX_START k) (BLOCKIO_START k) (slot_ring (EVENTS k) w).

Definition view (c : smachine) : @machine MB MF MI ring :=
  mkMachine (view_kernel (s_kernel c) (pending (s_flight c))) (omap running (s_flight c)).

(** What is left of [emit]. *)
Definition stage_ok (s : stage) : Prop :=
  match s with
  | Running _ => True
  | Emitting ops => exists i ev n, ops = drop n (emit_ops i ev)
  end.

(** The entries not submitted are those that handlers in [emit] are about to
    submit. *)
Record slots_ok (r : slots) (fl : list (probe * stage)) : Prop := {
  so_nodup : NoDup (sl_number <$> sl_items r);
  so_next x : x ∈ sl_items r -> (sl_number x < sl_next r)%nat;
  so_stage : Forall (fun x => stage_ok x.2) fl;
  so_open : omap open_of (sl_items r) ≡ₚ omap submit_of fl;
}.

Lemma open_sublist items : omap open_of items `sublist_of` sl_number <$> items.
Proof. induction items as [|[i ev []] items IH]; cbn; by constructor. Qed.

Lemma stage_cases s :
  stage_ok s -> (exists m, s = Running m) \/ s = Emitting [] \/
    (exists i, s = Emitting [EntrySubmit i]) \/ exists i ev, s = Emitting (emit_ops i ev).
Proof.
  destruct s as [m|ops]; [eauto|]. intros (i & ev & n & ->).
  destruct n as [|[|n]]; [eauto 6|eauto 6|]. right. left. cbn. by rewrite drop_nil.
Qed.

Lemma stage_op op ops :
  stage_ok (Emitting (op :: ops)) ->
  (exists i ev, op = EntryWrite i ev /\ ops = [EntrySubmit i]) \/ (exists i, op = EntrySubmit i /\ ops = []).
Proof.
  intros [(m & E)|[E|[(i & E)|(i & ev & E)]]]%stage_cases; try discriminate E; injection E as -> ->; eauto.
Qed.

Lemma write_sublist fl :
  Forall (fun x => stage_ok x.2) fl -> (omap write_of fl).*1 `sublist_of` omap submit_of fl.
Proof.
  induction 1 as [|[p s] fl Hs _ IH]; [done|].
  destruct (stage_cases s Hs) as [(m & E)|[E|[(i & E)|(i & ev & E)]]]; cbn in E; subst s; cbn;
    try done; by constructor.
Qed.

Lemma so_submits r fl : slots_ok r fl -> NoDup (omap submit_of fl).
Proof. intros [Hn _ _ Ho]. rewrite <- Ho. eapply sublist_NoDup; [exact Hn|apply open_sublist]. Qed.

Lemma so_perm r fl fl' : fl ≡ₚ fl' -> slots_ok r fl -> slots_ok r fl' /\ pending fl = pending fl'.
Proof.
  intros Hp Hok. pose proof (so_submits _ _ Hok) as Hw. destruct Hok as [Hn Hx Hs Ho]. split.
  - split; [done..|by rewrite <- Hp|]. by rewrite Ho, Hp.
  - apply list_to_map_proper; [|by rewrite Hp]. eapply sublist_NoDup; [exact Hw|by apply write_sublist].
Qed.

Lemma so_cons r p s fl :
  slots_ok r ((p, s) :: fl) -> stage_ok s /\ Forall (fun x => stage_ok x.2) fl.
Proof. intros [_ _ Hs _]. by apply Forall_cons in Hs. Qed.

(** What is about to be submitted is not yet. *)
Lemma so_unsubmitted r fl x :
  slots_ok r fl -> x ∈ sl_items r -> sl_number x ∈ omap submit_of fl -> sl_submitted x = false.
Proof.
  intros [Hn _ _ Ho] Hx. rewrite <- Ho, list_elem_of_omap. intros ([j ev b] & Hy & E).
  destruct b; [done|]. injection E as E.
  apply list_elem_of_lookup in Hx as [a Ha], Hy as [c Hc].
  assert (a = c) as ->; [|rewrite Ha in Hc; by injection Hc as ->].
  eapply NoDup_lookup; [exact Hn| |]; rewrite list_lookup_fmap; [by rewrite Ha|by rewrite Hc, <- E].
Qed.

(** Nobody else writes what a handler submits. *)
Lemma so_unwritten r fl i :
  slots_ok r fl -> forall p s rest, fl = (p, s) :: rest -> submit_of (p, s) = Some i -> pending rest !! i = None.
Proof.
  intros Hok p s rest -> Hi. pose proof (so_submits _ _ Hok) as Hn. cbn in Hn. rewrite Hi in Hn.
  apply NoDup_cons in Hn as [Hn _]. destruct (so_cons _ _ _ _ Hok) as [_ Hs].
  destruct (pending rest !! i) as [ev|] eqn:E; [|done].
  apply elem_of_list_to_map_2, (list_elem_of_fmap_2 fst) in E.
  by destruct Hn; eapply elem_of_sublist, write_sublist.
Qed.

(** *** Reservation *)

Lemma reserve_ring r fl p ev rest garbage i r' :
  fl = (p, Running (Finish (Some ev))) :: rest ->
  slots_ok r fl -> sl_reserve garbage r = Some (i, r') ->
  let fl' := (p, Emitting (emit_ops i ev)) :: rest in
  slots_ok r' fl' /\
  rb_reserve (slot_ring r (pending fl)) = Some (fun ev => mkRing (sl_capacity r)
    ((resolve (pending fl) <$> sl_items r) ++ [ev])) /\
  slot_ring r' (pending fl') = mkRing (sl_capacity r) ((resolve (pending fl) <$> sl_items r) ++ [ev]).
Proof.
  intros -> [Hn Hx Hs Ho] Hr fl'. unfold sl_reserve in Hr. case_decide as Hl; [|done]. simplify_eq.
  apply Forall_cons in Hs as [_ Hs]. split_and!.
  - constructor; cbn.
    + rewrite fmap_app. apply NoDup_app. split_and!; [done| |apply NoDup_singleton].
      intros i ([j e b] & E & Hi)%list_elem_of_fmap Hj%list_elem_of_singleton. apply Hx in Hi. cbn in *. lia.
    + intros x [Hi|Hi%list_elem_of_singleton]%elem_of_app; [apply Hx in Hi; lia|]. subst x. cbn. lia.
    + constructor; [|done]. by exists (sl_next r), ev, 0%nat.
    + rewrite omap_app. cbn. rewrite Ho. cbn. by rewrite Permutation_app_comm.
  - cbn. by rewrite length_fmap, decide_True.
  - unfold slot_ring. cbn [sl_capacity sl_items]. rewrite fmap_app. f_equal. f_equal.
    + apply list_fmap_ext. intros a x Ha. apply list_elem_of_lookup_2 in Ha. apply Hx in Ha.
      unfold resolve, pending. cbn. destruct (sl_submitted x); [done|]. by rewrite lookup_insert_ne by lia.
    + unfold fl', pending, resolve. cbn. by rewrite lookup_insert_eq.
Qed.

Lemma reserve_full r w garbage : sl_reserve garbage r = None -> rb_reserve (slot_ring r w) = None.
Proof. intros Hr. unfold sl_reserve in Hr. case_decide; [done|]. cbn. by rewrite length_fmap, decide_False. Qed.

(** *** Writing and submitting *)

Lemma filter_absent (i : nat) (l : list nat) : i ∉ l -> filter (fun j => j <> i) l = l.
Proof.
  induction l as [|j l IH]; [done|]. intros [Hj Hl]%not_elem_of_cons.
  rewrite filter_cons, decide_True, IH by auto. done.
Qed.

Lemma on_entry_number op x : sl_number (on_entry op x) = sl_number x.
Proof. destruct op; cbn; by case_decide. Qed.

Lemma numbers_kept op (items : list slot) : sl_number <$> (on_entry op <$> items) = sl_number <$> items.
Proof. rewrite <- list_fmap_compose. apply list_fmap_ext. intros ???. apply on_entry_number. Qed.

Lemma open_write i ev (items : list slot) : omap open_of (on_entry (EntryWrite i ev) <$> items) = omap open_of items.
Proof.
  induction items as [|[j e b] items IH]; [done|]. cbn. case_decide; cbn in *; subst; by rewrite IH.
Qed.

Lemma open_submit i (items : list slot) :
  omap open_of (on_entry (EntrySubmit i) <$> items) = filter (fun j => j <> i) (omap open_of items).
Proof.
  induction items as [|[j e b] items IH]; [done|]. rewrite fmap_cons. cbn [on_entry sl_number].
  destruct (decide (j = i)) as [->|Hj], b; cbn -[filter]; rewrite ?filter_cons, IH; try done.
  - by rewrite decide_False by tauto.
  - by rewrite decide_True.
Qed.

(** The consumer's view of the ring buffer does not change. *)
Lemma entry_ok r fl p op ops rest :
  fl = (p, Emitting (op :: ops)) :: rest -> slots_ok r fl ->
  let fl' := (p, Emitting ops) :: rest in
  slots_ok (do_entry op r) fl' /\ slot_ring (do_entry op r) (pending fl') = slot_ring r (pending fl).
Proof.
  intros Hfl Hok fl'. pose proof Hok as Hok0. rewrite Hfl in Hok0.
  pose proof (so_submits _ _ Hok0) as Hsub. destruct (so_cons _ _ _ _ Hok0) as [Hst Hs].
  pose proof (fun x => so_unsubmitted _ _ x Hok) as Hun.
  pose proof (fun i => so_unwritten _ _ i Hok _ _ _ Hfl) as Hw. destruct Hok0 as [Hn Hx _ Ho].
  assert (Hnext : forall x, x ∈ on_entry op <$> sl_items r -> (sl_number x < sl_next r)%nat)
    by (intros x (y & -> & Hy)%list_elem_of_fmap; rewrite on_entry_number; by apply Hx).
  destruct (stage_op _ _ Hst) as [(i & ev & -> & ->)|(i & -> & ->)]; specialize (Hw i eq_refl); split.
  - constructor; cbn [do_entry sl_items sl_next]; [by rewrite numbers_kept|done| |by rewrite open_write, Ho].
    constructor; [|done]. by exists i, ev, 1%nat.
  - unfold slot_ring. cbn [do_entry sl_items sl_capacity]. f_equal. rewrite <- list_fmap_compose.
    apply list_fmap_ext. intros a x Ha. apply list_elem_of_lookup_2 in Ha. specialize (Hun x Ha).
    subst fl fl'. unfold pending in *. cbn in *. unfold resolve. case_decide as E; cbn.
    + rewrite Hun by (rewrite E; apply list_elem_of_here). by rewrite Hw, E, lookup_insert_eq.
    + destruct (sl_submitted x); [done|]. by rewrite lookup_insert_ne by done.
  - cbn in Hsub, Ho. apply NoDup_cons in Hsub as [Hi _].
    constructor; cbn [do_entry sl_items sl_next]; [by rewrite numbers_kept|done| |].
    + constructor; [|done]. destruct Hst as (j & ev & _). by exists j, ev, 2%nat.
    + rewrite open_submit, Ho. cbn [omap list_omap submit_of Datatypes.snd]. rewrite filter_cons, decide_False by tauto.
      by rewrite filter_absent.
  - unfold slot_ring. cbn [do_entry sl_items sl_capacity]. f_equal. rewrite <- list_fmap_compose.
    apply list_fmap_ext. intros a x Ha. apply list_elem_of_lookup_2 in Ha. specialize (Hun x Ha).
    subst fl fl'. unfold pending in *. cbn in *. unfold resolve. case_decide as E; cbn; [|done].
    rewrite Hun by (rewrite E; apply list_elem_of_here). by rewrite E, Hw.
Qed.

(** *** Consumption *)

Lemma take_ring r w ev r' :
  sl_take r = Some (ev, r') -> rb_next (slot_ring r w) = Some (ev, slot_ring r' w).
Proof. unfold sl_take. destruct r as [n s [|[i e []] items]]; cbn; [done| |done]. by intros [= -> <-]. Qed.

Lemma take_ok r fl ev r' : slots_ok r fl -> sl_take r = Some (ev, r') -> slots_ok r' fl.
Proof.
  intros [Hn Hx Hs Ho]. unfold sl_take. destruct (sl_items r) as [|[i e []] items]; [done| |done].
  intros [= -> <-]. cbn in Hn. apply NoDup_cons in Hn as [Hi Hn]. constructor; cbn; [done| |done|done].
  intros x Hin. by apply Hx, list_elem_of_further.
Qed.

(** ** A run with entries is a session *)

Lemma view_do_act {A} (a : act A) k w :
  do_act a (view_kernel k w) = ((do_act a k).1, view_kernel (do_act a k).2 w) /\
  EVENTS (do_act a k).2 = EVENTS k.
Proof. by destruct a. Qed.

Lemma view_mstep m k m' k' w :
  mstep (m, k) (m', k') -> mstep (m, view_kernel k w) (m', view_kernel k' w) /\ EVENTS k' = EVENTS k.
Proof.
  inversion 1 as [pass rest ? Hp|A a rest ?]; subst.
  - split; [|done]. change (target_tgid k') with (target_tgid (view_kernel k' w)). by constructor.
  - destruct (view_do_act a k w) as [E He]. split; [|done].
    pose proof (mstep_do A a rest (view_kernel k w)) as Hm. by rewrite E in Hm.
Qed.

(** Handlers that are not in [emit] can be reordered, continued and dropped. *)
Lemma so_drop r p m rest : slots_ok r ((p, Running m) :: rest) -> slots_ok r rest.
Proof. intros [Hn Hx Hs Ho]. apply Forall_cons in Hs as [_ Hs]. by constructor. Qed.

Lemma so_run r p m rest : slots_ok r rest -> slots_ok r ((p, Running m) :: rest).
Proof. intros [Hn Hx Hs Ho]. constructor; [done..|by constructor|done]. Qed.

Lemma so_emitted r p rest : slots_ok r ((p, Emitting []) :: rest) -> slots_ok r rest.
Proof. intros [Hn Hx Hs Ho]. apply Forall_cons in Hs as [_ Hs]. by constructor. Qed.

Lemma running_sublist fl : (omap running fl).*1 `sublist_of` fl.*1.
Proof. induction fl as [|[p [m|ops]] fl IH]; cbn; by constructor. Qed.

Context (adm : admission) (Hadm : narrowing adm).

Lemma view_step c l es d :
  slots_ok (EVENTS (s_kernel c)) (s_flight c) -> sstep adm c l es d ->
  slots_ok (EVENTS (s_kernel d)) (s_flight d) /\
  forall ls evs e, tracing adm (view d) ls evs e -> tracing adm (view c) (l ++ ls) (es ++ evs) e.
Proof.
  intros Hok Hs. destruct Hs as [k fl p m Hm Ha|k fl p m rest m' k' Hp Hst|k fl p pass rest_m rest Hp Hpass
    |k fl p rest Hp|k fl p ev rest garbage i r Hp Hr|k fl p ev rest garbage Hp Hr|k fl p op ops fl'
    |k fl p fl'|k fl ev r Ht|k fl t Ht]; unfold view in *; cbn [s_kernel s_flight] in *;
    try (destruct (so_perm _ _ _ Hp Hok) as [Hok' Hw]; rewrite Hw; apply (omap_Permutation running) in Hp;
         cbn [omap list_omap running Datatypes.fst Datatypes.snd] in Hp).
  - split; [by apply so_run|]. intros ls evs e. apply tracing_step, ms_begin; [done|].
    eapply Hadm, Ha. apply running_sublist.
  - destruct (view_mstep _ _ _ _ (pending rest) Hst) as [Hst' He]. rewrite He.
    split; [by eapply so_run, so_drop|]. intros ls evs e. eapply tracing_step, ms_operation; done.
  - split; [by eapply so_drop|]. intros ls evs e. by eapply tracing_step, ms_early_return.
  - split; [by eapply so_drop|]. intros ls evs e. apply tracing_step.
    exact (ms_return _ (view_kernel k (pending rest)) _ p None _ Hp).
  - destruct (reserve_ring _ _ p ev rest _ _ _ eq_refl Hok' Hr) as (Hok'' & E1 & E2).
    split; [done|]. intros ls evs e. apply tracing_step.
    pose proof (ms_return adm (view_kernel k (pending rest)) _ p (Some ev) _ Hp) as Hret. cbn [emit_opt] in Hret.
    unfold emit in Hret. cbn [EVENTS view_kernel] in Hret.
    change (pending ((p, Running (Finish (Some ev))) :: rest)) with (pending rest) in E1, E2.
    rewrite E1 in Hret.
    unfold view_kernel. cbn [TARGET_TGID BLOCK_START FUTEX_START BLOCKIO_START EVENTS with_events].
    by rewrite E2.
  - split; [by eapply so_drop|]. intros ls evs e. apply tracing_step.
    pose proof (ms_return adm (view_kernel k (pending rest)) _ p (Some ev) _ Hp) as Hret. cbn [emit_opt] in Hret.
    unfold emit in Hret. cbn [EVENTS view_kernel] in Hret. by rewrite (reserve_full _ _ _ Hr) in Hret.
  - destruct (so_perm _ _ _ (symmetry (Permutation_middle _ _ _)) Hok) as [Hok' Hw].
    destruct (entry_ok _ _ p op ops _ eq_refl Hok') as [Hok'' E].
    destruct (so_perm _ _ _ (Permutation_middle _ _ _) Hok'') as [Hd Hw']. split; [done|].
    intros ls evs e. unfold view_kernel.
    cbn [TARGET_TGID BLOCK_START FUTEX_START BLOCKIO_START EVENTS with_events].
    by rewrite Hw, <- Hw', E, !omap_app.
  - destruct (so_perm _ _ _ (symmetry (Permutation_middle _ _ _)) Hok) as [Hok' Hw].
    split; [by eapply so_emitted|]. intros ls evs e. by rewrite Hw, !omap_app.
  - split; [by eapply take_ok|]. intros ls evs e Hd.
    exact (tracing_read _ (mkMachine (view_kernel k (pending fl)) _) ev _ ls evs e (take_ring _ _ _ _ Ht) Hd).
  - split; [done|]. intros ls evs e. apply tracing_step.
    exact (ms_set_target _ (view_kernel k (pending fl)) _ t Ht).
Qed.

Lemma slots_run c ls evs d :
  slots_ok (EVENTS (s_kernel c)) (s_flight c) -> srun adm c ls evs d ->
  tracing adm (view c) ls evs (view d) /\ slots_ok (EVENTS (s_kernel d)) (s_flight d).
Proof.
  intros Hok Hr. induction Hr as [c|c l es d ls evs e Hs _ IH]; [split; [constructor|done]|].
  destruct (view_step _ _ _ _ Hok Hs) as [Hok' Ht]. destruct (IH Hok') as [IHt IHok]. auto.
Qed.

Lemma srun_flight c ls evs d (P : probe -> Prop) :
  (forall fl p, adm fl p -> P p) -> (forall t, P (SetTarget t)) ->
  Forall (fun x => P x.1) (s_flight c) -> srun adm c ls evs d -> Forall P ls.
Proof.
  intros HP Ht0 Hc Hr. induction Hr as [|c l es d ls evs e Hs _ IH]; [done|].
  enough (Forall P l /\ Forall (fun x => P x.1) (s_flight d)) as [Hl Hd]
    by (apply Forall_app; auto).
  destruct Hs as [k fl p m Hm Ha|k fl p m rest m' k' Hp Hst|k fl p pass rest_m rest Hp Hpass
    |k fl p rest Hp|k fl p ev rest garbage i r Hp Hr|k fl p ev rest garbage Hp Hr|k fl p op ops fl'
    |k fl p fl'|k fl ev r Ht|k fl t Ht]; cbn [s_flight] in *;
    try (rewrite Hp in Hc; apply Forall_cons in Hc as [Hp1 Hc]); auto.
  - split; [done|]. constructor; [by eapply HP|done].
  - apply Forall_app in Hc as [H1 [H2 H3]%Forall_cons]. split; [done|]. apply Forall_app. auto using Forall_cons_2.
  - apply Forall_app in Hc as [H1 [H2 H3]%Forall_cons]. split; [done|]. apply Forall_app. auto.
Qed.

Lemma readable_all r fl :
  slots_ok r fl -> Forall (fun x => is_Some (running x)) fl ->
  rb_contents (slot_ring r (pending fl)) = readable (sl_items r).
Proof.
  intros [_ _ _ Ho] Hf. assert (Hn : omap submit_of fl = []).
  { clear Ho. induction Hf as [|[p [m|ops]] fl [? Hx] _ IH]; [done|exact IH|discriminate Hx]. }
  rewrite Hn in Ho. symmetry in Ho. apply Permutation_nil_l in Ho. cbn. revert Ho. generalize (pending fl) (sl_items r).
  clear. intros w l. induction l as [|[i e []] l IH]; intros Ho; [done| |discriminate Ho].
  cbn. f_equal. by apply IH.
Qed.
End Machine.
Arguments smachine : clear implicits.

(** The handlers that run leave an idle thread runnable. *)
Lemma srun_idle_runnable {MB MF MI} `{!BpfHashMap Z BlockStart MB, !BpfHashMap Z FutexStart MF,
      !BpfHashMap Z BlockIoStart MI} (c d : smachine MB MF MI) ls evs :
  Forall (fun x => idle_runnable x.1) (s_flight c) -> srun exclusive c ls evs d -> Forall idle_runnable ls.
Proof. apply srun_flight; [|done]. by intros fl p []. Qed.

(** ** Schedules with entries *)

Inductive sdirective := Run (d : directive) | Take.

(** What an entry holds before it is written. *)
Definition stale_event : Event := Event_new 0 0 0 0 0 EVENT_SCHED_BLOCK [].

Section Schedules.
Context {MB MF MI : Type}.
Context `{!BpfHashMap Z BlockStart MB, !BpfHashMap Z FutexStart MF, !BpfHashMap Z BlockIoStart MI}.
Context (adm : admission) {adm_dec : forall fl p, Decision (adm fl p)}.
#[local] Abbreviation smachine := (smachine MB MF MI).

Definition sadvance (i : nat) (x : probe * stage) (c : smachine) : list probe * smachine :=
  let k := s_kernel c in
  let before := take i (s_flight c) in
  let after := drop (S i) (s_flight c) in
  let rest := before ++ after in
  match x.2 with
  | Running (Guard pass next) =>
      if pass (target_tgid k) then ([], mkSmachine k ((x.1, Running (next (target_tgid k))) :: rest))
      else ([x.1], mkSmachine k rest)
  | Running (Do a next) => ([], mkSmachine (do_act a k).2 ((x.1, Running (next (do_act a k).1)) :: rest))
  | Running (Finish None) => ([x.1], mkSmachine k rest)
  | Running (Finish (Some ev)) =>
      match sl_reserve stale_event (EVENTS k) with
      | Some (j, r) => ([x.1], mkSmachine (with_events r k) ((x.1, Emitting (emit_ops j ev)) :: rest))
      | None => ([x.1], mkSmachine k rest)
      end
  | Emitting (op :: ops) =>
      ([], mkSmachine (with_events (do_entry op (EVENTS k)) k) (before ++ (x.1, Emitting ops) :: after))
  | Emitting [] => ([], mkSmachine k rest)
  end.

Definition sdirect (d : sdirective) (c : smachine) : option (list probe * list Event * smachine) :=
  let k := s_kernel c in
  match d with
  | Run (Begin p) =>
      if bool_decide (adm (s_flight c).*1 p) then
        m ← handler p; Some ([], [], mkSmachine k ((p, Running m) :: s_flight c))
      else None
  | Run (Advance i) => x ← s_flight c !! i; let r := sadvance i x c in Some (r.1, [], r.2)
  | Run (Target t) =>
      if target_tgid k =? 0
      then Some ([SetTarget t], [], mkSmachine (with_target t k) (s_flight c)) else None
  | Take => '(ev, r) ← sl_take (EVENTS k); Some ([], [ev], mkSmachine (with_events r k) (s_flight c))
  end.

Fixpoint slots_schedule (ds : list sdirective) (c : smachine) : option (list probe * list Event * smachine) :=
  match ds with
  | [] => Some ([], [], c)
  | d :: ds =>
      '(l, es, c) ← sdirect d c; '(ls, evs, c) ← slots_schedule ds c; Some (l ++ ls, es ++ evs, c)
  end.

Lemma sadvance_sound k fl i x :
  fl !! i = Some x ->
  sstep adm (mkSmachine k fl) (sadvance i x (mkSmachine k fl)).1 [] (sadvance i x (mkSmachine k fl)).2.
Proof.
  intros Hi. apply take_drop_middle in Hi. unfold sadvance. cbn [s_kernel s_flight].
  revert Hi. generalize (take i fl) (drop (S i) fl). intros l1 l2 <-.
  destruct x as [p [[pass next|A a next|[ev|]]|[|op ops]]]; cbn [Datatypes.fst Datatypes.snd].
  - destruct (pass _) eqn:Hp; [eapply ss_operation; [by rewrite <- Permutation_middle|by constructor]|].
    by eapply ss_early_return; [rewrite <- Permutation_middle|].
  - eapply ss_operation; [by rewrite <- Permutation_middle|constructor].
  - destruct (sl_reserve _ _) as [[j r]|] eqn:Hr; [eapply ss_reserve|eapply ss_full];
      try exact Hr; by rewrite <- Permutation_middle.
  - eapply ss_return. by rewrite <- Permutation_middle.
  - apply ss_emitted.
  - apply ss_entry.
Qed.

Lemma sdirect_sound d c l es c' : sdirect d c = Some (l, es, c') -> sstep adm c l es c'.
Proof.
  destruct c as [k fl], d as [[p|i|t]|]; cbn -[sadvance]; intros H.
  - case_bool_decide as Hd; [|done]. destruct (handler p) eqn:Hm; [|done]. cbn in H. simplify_eq.
    by constructor.
  - destruct (fl !! i) as [x|] eqn:Hi; [|done]. injection H as <- <- <-. by apply sadvance_sound.
  - destruct (_ =? 0) eqn:Ht; [|done]. simplify_eq. constructor. lia.
  - destruct (sl_take _) as [[ev r]|] eqn:Ht; [|done]. cbn in H. simplify_eq. by constructor.
Qed.

Lemma slots_schedule_sound ds c ls evs c' : slots_schedule ds c = Some (ls, evs, c') -> srun adm c ls evs c'.
Proof.
  revert c ls evs. induction ds as [|d ds IH]; intros c ls evs H; cbn in H; [simplify_eq; constructor|].
  apply bind_Some in H as ([[l es] c1] & Hd & H). apply bind_Some in H as ([[l2 e2] c2] & Hs & H). simplify_eq.
  eapply srun_step; [by eapply sdirect_sound|by apply IH].
Qed.
End Schedules.

(** ** One handler after the other

    Any sequence of probes is a run, in which each handler returns before the
    next one begins. *)
Section Serial.
Context {MB MF MI : Type}.
Context `{!BpfHashMap Z BlockStart MB, !BpfHashMap Z FutexStart MF, !BpfHashMap Z BlockIoStart MI}.
Implicit Types k : kernel MB MF MI slots.

Lemma srun_one adm (c d : smachine MB MF MI) l es : sstep adm c l es d -> srun adm c l es d.
Proof. intros Hs. rewrite <- (app_nil_r l), <- (app_nil_r es). eapply srun_step; [exact Hs|constructor]. Qed.

Lemma srun_app adm (c d e : smachine MB MF MI) ls ls' evs evs' :
  srun adm c ls evs d -> srun adm d ls' evs' e -> srun adm c (ls ++ ls') (evs ++ evs') e.
Proof.
  induction 1 as [|c l es d ls evs e' Hs _ IH]; intros He; [done|].
  rewrite <- !app_assoc. by eapply srun_step; [|apply IH].
Qed.

(** The rest of [emit]. *)
Lemma serial_emit adm p ops k :
  exists r, srun adm (mkSmachine k [(p, Emitting ops)]) [] [] (mkSmachine (with_events r k) []).
Proof.
  revert k. induction ops as [|op ops IH]; intros k.
  - exists (EVENTS k). replace (with_events (EVENTS k) k) with k by by destruct k.
    apply srun_one, (ss_emitted _ k [] p []).
  - destruct (IH (with_events (do_entry op (EVENTS k)) k)) as [r Hr]. exists r.
    eapply (srun_step _ _ [] []); [apply (ss_entry _ k [] p op ops [])|exact Hr].
Qed.

Lemma serial_micro adm p m k :
  exists k', srun adm (mkSmachine k [(p, Running m)]) [p] [] (mkSmachine k' []) /\ target_tgid k' = target_tgid k.
Proof.
  revert k. induction m as [pass rest IH|A a rest IH|[ev|]]; intros k.
  - destruct (pass (target_tgid k)) eqn:Hp.
    + destruct (IH (target_tgid k) k) as (k' & Hr & Ht). exists k'. split; [|done].
      eapply (srun_step _ _ [] []); [|exact Hr]. eapply ss_operation; [done|by constructor].
    + exists k. split; [|done]. by eapply srun_one, ss_early_return.
  - destruct (IH (do_act a k).1 (do_act a k).2) as (k' & Hr & Ht). exists k'. split; [|rewrite Ht; by destruct a].
    eapply (srun_step _ _ [] []); [|exact Hr]. eapply ss_operation; [done|constructor].
  - destruct (sl_reserve stale_event (EVENTS k)) as [[i r]|] eqn:Hr.
    + destruct (serial_emit adm p (emit_ops i ev) (with_events r k)) as [r' Hr'].
      exists (with_events r' (with_events r k)). split; [|done].
      eapply (srun_step _ _ [p] []); [by eapply ss_reserve|exact Hr'].
    + exists k. split; [|done]. by eapply srun_one, ss_full.
  - exists k. split; [|done]. by eapply srun_one, ss_return.
Qed.

Lemma serial_handlers ps k :
  Forall (fun p => is_Some (handler p) /\ idle_runnable p) ps ->
  exists k', srun exclusive (mkSmachine k []) ps [] (mkSmachine k' []).
Proof.
  intros Hps. revert k. induction Hps as [|p ps [[m Hm] Hi] _ IH]; intros k; [exists k; constructor|].
  destruct (serial_micro exclusive p m k) as (k1 & Hr & _). destruct (IH k1) as (k' & Hrs). exists k'.
  eapply (srun_step _ _ [] []); [by apply ss_begin|].
  by apply (srun_app _ _ _ _ [p] _ [] [] Hr).
Qed.

Lemma serial_run t ps k :
  target_tgid k = 0 -> Forall (fun p => is_Some (handler p) /\ idle_runnable p) ps ->
  exists k', srun exclusive (mkSmachine k []) (SetTarget t :: ps) [] (mkSmachine k' []).
Proof.
  intros Ht Hps. destruct (serial_handlers ps (with_target t k) Hps) as (k' & Hr). exists k'.
  by eapply (srun_step _ _ [SetTarget t] []); [apply ss_set_target|].
Qed.
End Serial.

(** ** The program's ring buffer *)

Definition loaded_slots : kernel (capmap BlockStart) (capmap FutexStart) (capmap BlockIoStart) slots :=
  mkKernel (TARGET_TGID loaded_bounded) (BLOCK_START loaded_bounded) (FUTEX_START loaded_bounded)
    (BLOCKIO_START loaded_bounded) (mkSlots (ring_capacity (EVENTS loaded_bounded)) 0 []).

Lemma slots_ok_empty n : slots_ok (mkSlots n 0 []) [].
Proof. constructor; cbn; [constructor|by intros ? ?%not_elem_of_nil|constructor|done]. Qed.

(** A run from there is a session, in which the consumer reads the same. *)
Lemma loaded_slots_session ls evs c :
  srun exclusive (mkSmachine loaded_slots []) ls evs c ->
  tracing exclusive (mkMachine loaded_bounded []) ls evs (view c) /\
  (settled c -> rb_contents (EVENTS (shared (view c))) = readable (sl_items (EVENTS (s_kernel c)))) /\
  (length (in_flight (view c)) <= length (s_flight c))%nat.
Proof.
  intros Hr. destruct (slots_run _ exclusive_narrowing (mkSmachine loaded_slots []) ls evs c (slots_ok_empty _) Hr)
    as [Ht Hok].
  split_and!; [exact Ht|intros He; exact (readable_all _ _ Hok He)|].
  cbn. rewrite <- (length_fmap fst (s_flight c)), <- (length_fmap fst (omap running (s_flight c))).
  apply sublist_length, running_sublist.
Qed.

(** The two processors: the waiter's handler has written its event but not
    submitted it while the other is submitted, and until it is the consumer
    gets nothing. *)
Definition submitted_late : list sdirective :=
  (Run <$> take 18 two_processors) ++ ((fun i => Run (Advance i)) <$> [0; 1; 0; 0; 0; 0; 0]%nat) ++ [Take].

Definition slots_outcome (r : list probe * list Event * smachine (capmap BlockStart) (capmap FutexStart)
    (capmap BlockIoStart)) : list probe * list Z * list Z * nat :=
  (r.1.1, ev_event_type <$> r.1.2, ev_event_type <$> readable (sl_items (EVENTS (s_kernel r.2))),
   length (s_flight r.2)).

Example submitted_late_blocked :
  slots_outcome <$> slots_schedule exclusive (take 23 submitted_late) (mkSmachine loaded_slots []) =
  Some (two_processors_probes, [], [], 1%nat).
Proof. vm_compute. reflexivity. Qed.

Lemma submitted_late_run :
  exists evs c, srun exclusive (mkSmachine loaded_slots []) two_processors_probes evs c /\
    ev_event_type <$> evs = [EVENT_FUTEX_WAIT] /\
    ev_event_type <$> readable (sl_items (EVENTS (s_kernel c))) = [EVENT_SCHED_BLOCK] /\
    s_flight c = [].
Proof.
  destruct (slots_schedule exclusive submitted_late (mkSmachine loaded_slots [])) as [[[ls evs] c]|] eqn:E;
    [|vm_compute in E; discriminate].
  pose proof (slots_schedule_sound _ _ _ _ _ _ E) as Hs. apply (f_equal (fmap (M := option) slots_outcome)) in E.
  assert (Ho : Some (slots_outcome (ls, evs, c)) =
    Some (two_processors_probes, [EVENT_FUTEX_WAIT], [EVENT_SCHED_BLOCK], 0%nat))
    by (etrans; [symmetry; exact E|vm_compute; reflexivity]).
  apply (inj Some) in Ho. clear E. exists evs, c.
  assert (ls = two_processors_probes) as -> by exact (f_equal (fun o => o.1.1.1) Ho). split; [done|].
  split_and!; [exact (f_equal (fun o => o.1.1.2) Ho)|exact (f_equal (fun o => o.1.2) Ho)|].
  apply length_zero_iff_nil. exact (f_equal snd Ho).
Qed.

(** ** The properties *)

(** C19: The three steps of [emit] amount to one: whatever the maps, whatever
    is in the entries' memory before it is written, whichever handlers are let
    run together (they may all be: [anything] is [narrowing]), and however they
    and the consumer run between the reservation, the writing and the
    submission, the consumer only ever reads events written in full, and reads
    what it would if [emit] were atomic at its reservation; and once no
    handler is inside [emit] nothing is left unsubmitted: all that an atomic
    [emit] would have left in the ring buffer can be read. *)
Theorem slots_refine_sessions {MB MF MI}
    `{!BpfHashMap Z BlockStart MB, !BpfHashMap Z FutexStart MF, !BpfHashMap Z BlockIoStart MI}
    (adm : admission) (k : kernel MB MF MI slots) n ls evs c :
  narrowing adm -> EVENTS k = mkSlots n 0 [] -> srun adm (mkSmachine k []) ls evs c ->
  tracing adm (view (mkSmachine k [])) ls evs (view c) /\
  (settled c -> rb_contents (EVENTS (shared (view c))) = readable (sl_items (EVENTS (s_kernel c)))).
Proof.
  intros Ha Hk Hr. destruct (slots_run _ Ha (mkSmachine k []) ls evs c) as [Ht Hok]; [|done|].
  - cbn. rewrite Hk. apply slots_ok_empty.
  - split; [done|]. intros He. by eapply readable_all.
Qed.

Lemma slots_refine_sessions_witness :
  exists evs c, srun exclusive (mkSmachine loaded_slots []) two_processors_probes evs c /\
    tracing exclusive (mkMachine loaded_bounded []) two_processors_probes evs (view c) /\
    rb_contents (EVENTS (shared (view c))) = readable (sl_items (EVENTS (s_kernel c))) /\
    ev_event_type <$> readable (sl_items (EVENTS (s_kernel c))) = [EVENT_SCHED_BLOCK].
Proof.
  destruct submitted_late_run as (evs & c & Hr & _ & He & Hn). exists evs, c.
  destruct (slots_refine_sessions exclusive loaded_slots (ring_capacity (EVENTS loaded_bounded)) _ evs c
    exclusive_narrowing eq_refl Hr)
    as [Ht Hv].
  split_and!; [exact Hr|exact Ht|apply Hv; unfold settled; rewrite Hn; constructor|exact He].
Defined.
