(* ===== verification/Clock.v ===== *)
(** * Time in an interleaved session

    The handlers in flight read one clock, that of the machine, which does
    not go back; what each reads lies between its beginning and its return,
    but handlers return in another order than they read it. Still every
    recorded event has exactly the times of the two probes of its span, since
    probes about the same thread or request do not overlap. *)

From S2P Require Import Prelude RustStd Layout Common Vmlinux Ebpf EbpfSpec KernelMaps EbpfProps.
From S2P Require Import Concurrent Lossy Capacity Consumer Slots.

Definition no_later (now : Z) (p : probe) : Prop := forall t, probe_time p = Some t -> t <= now.
Definition no_earlier (now : Z) (p : probe) : Prop := forall t, probe_time p = Some t -> now <= t.

#[export] Instance no_later_dec now p : Decision (no_later now p).
Proof.
  unfold no_later. destruct (probe_time p) as [t|]; [|by left].
  destruct (decide (t <= now)); [left|right]; [by intros ? [= <-]|]. intros H. by specialize (H t eq_refl).
Defined.

#[export] Instance no_earlier_dec now p : Decision (no_earlier now p).
Proof.
  unfold no_earlier. destruct (probe_time p) as [t|]; [|by left].
  destruct (decide (now <= t)); [left|right]; [by intros ? [= <-]|]. intros H. by specialize (H t eq_refl).
Defined.

(** ** Runs with a clock *)

Section Clock.
Context {MB MF MI : Type}.
Context `{!BpfHashMap Z BlockStart MB, !BpfHashMap Z FutexStart MF, !BpfHashMap Z BlockIoStart MI}.
#[local] Abbreviation smachine := (smachine MB MF MI).

(** The handlers that a step begins. *)
Definition begun (c d : smachine) : list probe :=
  (take (length (s_flight d) - length (s_flight c)) (s_flight d)).*1.

(** A run from one time to another. *)
Inductive clocked (adm : admission) : Z -> smachine -> list probe -> list Event -> smachine -> Z -> Prop :=
  | clocked_end now c : clocked adm now c [] [] c now
  | clocked_tick now later c ls evs e fin :
      now <= later -> clocked adm later c ls evs e fin -> clocked adm now c ls evs e fin
  | clocked_step now c l es d ls evs e fin :
      sstep adm c l es d -> Forall (no_earlier now) (begun c d) -> Forall (no_later now) l ->
      clocked adm now d ls evs e fin -> clocked adm now c (l ++ ls) (es ++ evs) e fin.

Lemma clocked_run adm now c ls evs d fin : clocked adm now c ls evs d fin -> srun adm c ls evs d.
Proof. induction 1; [constructor|done|by eapply srun_step]. Qed.

(** ** The order of the times

    What holds of the probes that took effect since [start], newest first,
    and of those in flight. *)

Definition overlap (p q : probe) : Prop := exists l, l ∈ footprint p /\ l ∈ footprint q.

Definition no_later_than (p q : probe) : Prop :=
  forall t u, probe_time p = Some t -> probe_time q = Some u -> t <= u.

Record ordered (start now : Z) (hist : list probe) (fl : list (probe * micro)) : Prop := {
  od_sorted : StronglySorted (fun p q => overlap q p -> no_later_than q p) hist;
  od_flight x q : x ∈ fl -> q ∈ hist -> overlap q x.1 -> no_later_than q x.1;
  od_past q : q ∈ hist -> no_earlier start q /\ no_later now q /\ idle_runnable q;
  od_begun x : x ∈ fl -> no_earlier start x.1 /\ idle_runnable x.1;
  od_separate : separate fl;
  od_now : start <= now;
}.

Lemma ordered_perm start now hist fl fl' :
  fl ≡ₚ fl' -> ordered start now hist fl -> ordered start now hist fl'.
Proof.
  intros Hp [Hs Hf Hpa Hb Hse Hn]. split; try done; [..|by eapply separate_perm].
  - intros x q. rewrite <- Hp. apply Hf.
  - intros x. rewrite <- Hp. apply Hb.
Qed.

Lemma ordered_tick start now later hist fl :
  now <= later -> ordered start now hist fl -> ordered start later hist fl.
Proof.
  intros Hle [Hs Hf Hpa Hb Hse Hn]. split; try done; [|lia].
  intros q Hq. destruct (Hpa q Hq) as (? & Ht & ?). split_and!; try done. intros t E. specialize (Ht t E). lia.
Qed.

Lemma ordered_begin start now hist fl p m :
  ordered start now hist fl -> idle_runnable p -> Forall (fun q => disjoint p q.1) fl ->
  no_earlier now p -> ordered start now hist ((p, m) :: fl).
Proof.
  intros [Hs Hf Hpa Hb Hse Hn] Hidle Hd Ht. split; try done.
  - intros x q [->|Hx]%elem_of_cons Hq; [|by apply Hf]. intros _ t u Et Eu.
    destruct (Hpa q Hq) as (_ & Hq' & _). specialize (Hq' t Et). specialize (Ht u Eu). lia.
  - intros x [->|Hx]%elem_of_cons; [|by apply Hb]. split; [|done]. intros t E. specialize (Ht t E). lia.
  - by constructor.
Qed.

Lemma ordered_same start now hist fl p m m' :
  ordered start now hist ((p, m) :: fl) -> ordered start now hist ((p, m') :: fl).
Proof.
  intros [Hs Hf Hpa Hb Hse Hn]. split; try done.
  - intros x q [->|Hx]%elem_of_cons; [apply (Hf (p, m)), list_elem_of_here|by apply Hf, list_elem_of_further].
  - intros x [->|Hx]%elem_of_cons; [apply (Hb (p, m)), list_elem_of_here|by apply Hb, list_elem_of_further].
  - inversion Hse; subst. by constructor.
Qed.

Lemma ordered_return start now hist fl p m :
  ordered start now hist ((p, m) :: fl) -> no_later now p -> ordered start now (p :: hist) fl.
Proof.
  intros [Hs Hf Hpa Hb Hse Hn] Ht. destruct (separate_head _ _ Hse) as [Hse' Hoth].
  rewrite Forall_forall in Hoth. split; try done.
  - constructor; [done|]. apply Forall_forall. intros q Hq. apply (Hf (p, m)); [apply list_elem_of_here|done].
  - intros x q Hx [->|Hq]%elem_of_cons; [|by apply Hf; [apply list_elem_of_further|]].
    intros (l & Hl & Hlx). by destruct (Hoth x Hx l Hlx).
  - intros q [->|Hq]%elem_of_cons; [|by apply Hpa].
    destruct (Hb (p, m) (list_elem_of_here _ _)) as [H1 H2]. done.
  - intros x Hx. by apply Hb, list_elem_of_further.
Qed.

Lemma ordered_set_target start now hist fl t :
  ordered start now hist fl -> ordered start now (SetTarget t :: hist) fl.
Proof.
  intros [Hs Hf Hpa Hb Hse Hn]. split; try done.
  - constructor; [done|]. apply Forall_forall. intros q _ _ u v _ E. discriminate E.
  - intros x q Hx [->|Hq]%elem_of_cons; [|by apply Hf]. by intros _ u v E.
  - intros q [->|Hq]%elem_of_cons; [|by apply Hpa]. by split_and!; [intros ??|intros ??|].
Qed.

Lemma ordered_step start now hist c l es d :
  ordered start now hist (omap running (s_flight c)) -> sstep exclusive c l es d ->
  Forall (no_earlier now) (begun c d) -> Forall (no_later now) l ->
  ordered start now (reverse l ++ hist) (omap running (s_flight d)).
Proof.
  intros Ho Hs. unfold begun.
  destruct Hs as [k fl p m Hm Ha|k fl p m rest m' k' Hp Hst|k fl p pass rest_m rest Hp Hpass
    |k fl p rest Hp|k fl p ev rest garbage i r Hp Hr|k fl p ev rest garbage Hp Hr|k fl p op ops fl'
    |k fl p fl'|k fl ev r Ht|k fl t Ht]; cbn [s_flight] in *; intros Hb Hl; try done;
    try (apply (omap_Permutation running) in Hp; pose proof (ordered_perm _ _ _ _ _ Hp Ho) as Ho';
         cbn [omap list_omap running Datatypes.fst Datatypes.snd] in Ho').
  - rewrite length_cons, Nat.sub_succ_l, Nat.sub_diag in Hb by done. apply Forall_inv in Hb.
    apply (exclusive_narrowing _ _ _ (running_sublist fl)), exclusive_flight in Ha as [Hidle Hd].
    by apply ordered_begin.
  - by eapply ordered_same.
  - apply Forall_inv in Hl. by eapply ordered_return.
  - apply Forall_inv in Hl. by eapply ordered_return.
  - apply Forall_inv in Hl. by eapply ordered_return.
  - apply Forall_inv in Hl. by eapply ordered_return.
  - by rewrite !omap_app in *.
  - by rewrite !omap_app in *.
  - by apply ordered_set_target.
Qed.

Lemma ordered_run start now hist c ls evs d fin :
  ordered start now hist (omap running (s_flight c)) -> clocked exclusive now c ls evs d fin ->
  ordered start fin (reverse ls ++ hist) (omap running (s_flight d)).
Proof.
  intros Ho Hr. revert hist Ho.
  induction Hr as [|now later c ls evs e fin Hle _ IH|now c l es d ls evs e fin Hs Hb Hl _ IH]; intros hist Ho; [done| |].
  - by eapply IH, ordered_tick.
  - rewrite reverse_app, <- app_assoc. by eapply IH, ordered_step.
Qed.

Lemma ordered_initial now : ordered now now [] [].
Proof.
  split; try done; try (by intros ? ?%not_elem_of_nil); [constructor|by intros ?? ?%not_elem_of_nil|constructor].
Qed.
End Clock.

(** ** The two probes of a span *)

(** The place that both ends of a span are about. *)
Definition span_at (hist : list probe) (ev : Event) (t0 : Z) : Prop :=
  exists newer p newer' q older l,
    hist = newer ++ newer' ++ q :: older /\ head (newer' ++ q :: older) = Some p /\
    probe_time p = Some (ev_timestamp_ns ev) /\ probe_time q = Some t0 /\
    ev_duration_ns ev = saturating_sub (ev_timestamp_ns ev) t0 /\
    l ∈ footprint q /\ l ∈ footprint p.

Lemma span_intro {V} opens closes p older key (v : V) newer now ts ev l :
  closing opens closes p older key = Some v -> Forall idle_runnable (p :: older) ->
  (forall q target, idle_runnable q -> opens q target key = Some v ->
     probe_time q = Some ts /\ l ∈ footprint q /\ l ∈ footprint p) ->
  probe_time p = Some now -> ev_timestamp_ns ev = now -> ev_duration_ns ev = saturating_sub now ts ->
  span_at (newer ++ p :: older) ev ts.
Proof.
  intros Hc Hidle Ho Hp <- Hd.
  destruct (closing_Some _ _ _ _ _ _ Hc) as (newer' & q & older' & Heq & Hq).
  rewrite Heq, Forall_app, Forall_cons in Hidle. destruct Hidle as (_ & Hi & _).
  destruct (Ho q _ Hi Hq) as (Ht & Hl & Hl').
  exists newer, p, newer', q, older', l. rewrite <- Heq. done.
Qed.

Lemma block_opens_at q target key s :
  idle_runnable q -> block_opens q target key = Some s ->
  key <> 0 /\ probe_time q = Some (bs_ts s) /\ LBlock key ∈ footprint q.
Proof.
  unfold block_opens. intros Hi H. case_opens H. cbn in Hi. split_and!; [|done|].
  - intros E. by apply Hi in E.
  - rewrite (proj2 (Z.eqb_neq _ _)) by done. apply list_elem_of_here.
Qed.

Lemma futex_opens_at q target key s :
  futex_opens q target key = Some s -> probe_time q = Some (fs_ts s) /\ LFutex key ∈ footprint q.
Proof. unfold futex_opens. intros H. case_opens H. split; [done|]. apply list_elem_of_here. Qed.

Lemma io_opens_at q target key s :
  io_opens q target key = Some s -> probe_time q = Some (io_ts s) /\ LIo key ∈ footprint q.
Proof. unfold io_opens. intros H. case_opens H. split; [done|]. apply list_elem_of_here. Qed.

Lemma spec_event_span hist ev :
  Forall idle_runnable hist -> ev ∈ spec_events hist -> exists t0, span_at hist ev t0.
Proof.
  intros Hidle (newer & p & older & -> & H)%spec_events_elem. apply Forall_app in Hidle as [_ Hidle].
  destruct p as [h [evt|]| |h| |h [evt|]|]; cbn in H; try done.
  - destruct (target_of older =? 0); [done|].
    apply fmap_Some in H as (s & Hs & ->). exists (bs_ts s).
    eapply (span_intro block_opens block_closes _ _ _ _ _ _ _ _ (LBlock _)); [exact Hs|done| |done..].
    intros q target Hi (Hk & Ht & Hl)%block_opens_at; [|done]. split_and!; [done..|]. cbn.
    rewrite (proj2 (Z.eqb_neq _ _) Hk). apply elem_of_app. right. apply list_elem_of_here.
  - apply bind_Some in H as (s & Hs & H). unfold futex_event in H.
    apply bind_Some in H as (ty & _ & [= <-]). exists (fs_ts s).
    eapply (span_intro futex_opens futex_closes _ _ _ _ _ _ _ _ (LFutex _)); [exact Hs|done| |done..].
    intros q target _ [Ht Hl]%futex_opens_at. split_and!; [done..|apply list_elem_of_here].
  - apply fmap_Some in H as (s & Hs & ->). exists (io_ts s).
    eapply (span_intro io_opens io_closes _ _ _ _ _ _ _ _ (LIo _)); [exact Hs|done| |done..].
    intros q target _ [Ht Hl]%io_opens_at. split_and!; [done..|apply list_elem_of_here].
Qed.

Lemma span_times start now hist fl ev t0 :
  ordered start now hist fl -> span_at hist ev t0 ->
  exists q p l, q ∈ hist /\ p ∈ hist /\ l ∈ footprint q /\ l ∈ footprint p /\
    probe_time q = Some t0 /\ probe_time p = Some (ev_timestamp_ns ev) /\
    start <= t0 <= ev_timestamp_ns ev /\ ev_timestamp_ns ev <= now.
Proof.
  intros [Hs _ Hpa _ _ _] (newer & p & newer' & q & older & l & -> & Hp & Htp & Htq & _ & Hlq & Hlp).
  assert (Hqin : q ∈ newer ++ newer' ++ q :: older).
  { apply elem_of_app. right. apply elem_of_app. right. apply list_elem_of_here. }
  assert (Hpin : p ∈ newer ++ newer' ++ q :: older).
  { apply elem_of_app. right. by apply head_Some_elem_of. }
  exists q, p, l. split_and!; try done.
  - destruct (Hpa q Hqin) as (Hq & _ & _). by apply Hq.
  - apply StronglySorted_app_1_r in Hs.
    destruct newer' as [|p' newer']; cbn in Hp; simplify_eq; [lia|].
    inversion Hs as [|? ? _ Hall]; subst. rewrite Forall_forall in Hall.
    eapply (Hall q); [|by exists l|done..]. apply elem_of_app. right. apply list_elem_of_here.
  - destruct (Hpa p Hpin) as (_ & Hq & _). by apply Hq.
Qed.

(** ** A run with a clock

    The two processors, whose events are submitted in the other order, at 10
    to 25. *)
Inductive cdirective := Tick (later : Z) | At (d : sdirective).

Section Schedules.
Context {MB MF MI : Type}.
Context `{!BpfHashMap Z BlockStart MB, !BpfHashMap Z FutexStart MF, !BpfHashMap Z BlockIoStart MI}.
Context (adm : admission) {adm_dec : forall fl p, Decision (adm fl p)}.

Fixpoint clocked_schedule (ds : list cdirective) (now : Z) (c : smachine MB MF MI) :
    option (list probe * list Event * smachine MB MF MI * Z) :=
  match ds with
  | [] => Some ([], [], c, now)
  | Tick later :: ds => if decide (now <= later) then clocked_schedule ds later c else None
  | At d :: ds =>
      '(l, es, c') ← sdirect adm d c;
      if decide (Forall (no_earlier now) (begun c c') /\ Forall (no_later now) l) then
        '(ls, evs, e, fin) ← clocked_schedule ds now c'; Some (l ++ ls, es ++ evs, e, fin)
      else None
  end.

Lemma clocked_schedule_sound ds now c ls evs c' fin :
  clocked_schedule ds now c = Some (ls, evs, c', fin) -> clocked adm now c ls evs c' fin.
Proof.
  revert now c ls evs. induction ds as [|[later|d] ds IH]; intros now c ls evs H; cbn in H.
  - simplify_eq. constructor.
  - case_decide; [|done]. eapply clocked_tick; [done|by apply IH].
  - apply bind_Some in H as ([[l es] c1] & Hd & H). case_decide as Hc; [|done].
    apply bind_Some in H as ([[[l2 e2] c2] fin2] & Hs & H). simplify_eq. destruct Hc.
    eapply clocked_step; [by eapply sdirect_sound|done..|by apply IH].
Qed.
End Schedules.

Definition timed_directives : list cdirective :=
  (At <$> take 3 submitted_late) ++ [Tick 12] ++ (At <$> take 9 (drop 3 submitted_late)) ++ [Tick 25] ++
  (At <$> drop 12 submitted_late).

Lemma timed_run :
  exists ev c, clocked exclusive 10 (mkSmachine loaded_slots []) two_processors_probes [ev] c 25 /\
    ev_timestamp_ns ev = 24 /\ ev_duration_ns ev = 12.
Proof.
  destruct (clocked_schedule exclusive timed_directives 10 (mkSmachine loaded_slots [])) as [[[[ls evs] c] fin]|] eqn:E;
    [|vm_compute in E; discriminate].
  pose proof (clocked_schedule_sound _ _ _ _ _ _ _ _ E) as Hs.
  apply (f_equal (fmap (M := option)
    (fun r => (r.1.1.1, (fun ev => (ev_timestamp_ns ev, ev_duration_ns ev)) <$> r.1.1.2, r.2)))) in E.
  assert (Ho : Some (ls, (fun ev => (ev_timestamp_ns ev, ev_duration_ns ev)) <$> evs, fin) =
    Some (two_processors_probes, [(24, 12)], 25))
    by (etrans; [symmetry; exact E|vm_compute; reflexivity]).
  apply (inj Some) in Ho. clear E.
  assert (ls = two_processors_probes) as -> by exact (f_equal (fun o => o.1.1) Ho).
  assert (fin = 25) as -> by exact (f_equal snd Ho).
  pose proof (f_equal (fun o => o.1.2) Ho) as He. cbn [fst snd] in He.
  destruct evs as [|ev [|]]; [discriminate He| |discriminate He]. exists ev, c. split; [done|].
  injection He as Ht Hd. by split.
Qed.

(** ** The property *)

(** C21: However the handlers interleave on the processors, with the steps of
    [emit] and with the consumer, with any capacities, under a clock that does
    not go back, provided that no two handlers in flight are about the same
    thread or request: a recorded event's [timestamp - duration, timestamp] is
    exactly the time between two probes of the session about the same thread
    or request, and lies within the session. *)
Theorem session_span_exact {MB MF MI}
    `{!BpfHashMap Z BlockStart MB, !BpfHashMap Z FutexStart MF, !BpfHashMap Z BlockIoStart MI,
      !BpfHashMapLaws Z BlockStart MB, !BpfHashMapLaws Z FutexStart MF, !BpfHashMapLaws Z BlockIoStart MI}
    (k : kernel MB MF MI slots) n start ls evs c fin ev :
  EVENTS k = mkSlots n 0 [] -> initial (view_kernel k ∅) ->
  clocked exclusive start (mkSmachine k []) ls evs c fin ->
  ev ∈ evs ++ rb_contents (EVENTS (shared (view c))) ->
  exists q p l, q ∈ ls /\ p ∈ ls /\ l ∈ footprint q /\ l ∈ footprint p /\
    probe_time q = Some (ev_timestamp_ns ev - ev_duration_ns ev) /\
    probe_time p = Some (ev_timestamp_ns ev) /\
    0 <= ev_duration_ns ev /\ start <= ev_timestamp_ns ev - ev_duration_ns ev /\ ev_timestamp_ns ev <= fin.
Proof.
  intros Hk Hi Hr Hev.
  pose proof (ordered_run start start [] (mkSmachine k []) _ _ _ _ (ordered_initial start) Hr) as Ho. rewrite app_nil_r in Ho.
  destruct (slots_run _ exclusive_narrowing (mkSmachine k []) ls evs c) as [Ht _];
    [cbn; rewrite Hk; apply slots_ok_empty|by eapply clocked_run|].
  destruct (spec_event_span (reverse ls) ev) as [t0 Hsp].
  { apply Forall_forall. intros q Hq. by apply (od_past _ _ _ _ Ho q). }
  { eapply elem_of_sublist; [exact Hev|]. by eapply (session_sublist (view_kernel k ∅)). }
  destruct (span_times _ _ _ _ _ _ Ho Hsp) as (q & p & l & Hq & Hp & Hlq & Hlp & Htq & Htp & Hle & Hfin).
  destruct Hsp as (? & ? & ? & ? & ? & ? & _ & _ & _ & _ & Hd & _).
  rewrite saturating_sub_exact in Hd by lia. exists q, p, l. rewrite elem_of_reverse in Hq, Hp.
  split_and!; try done; try lia. rewrite Htq. f_equal. lia.
Qed.

Lemma session_span_exact_witness :
  exists ev c q p l, clocked exclusive 10 (mkSmachine loaded_slots []) two_processors_probes [ev] c 25 /\
    q ∈ two_processors_probes /\ p ∈ two_processors_probes /\ l ∈ footprint q /\ l ∈ footprint p /\
    probe_time q = Some (24 - 12) /\ probe_time p = Some 24.
Proof.
  destruct timed_run as (ev & c & Hr & Ht & Hd).
  destruct (session_span_exact loaded_slots (ring_capacity (EVENTS loaded_bounded)) 10 _ [ev] c 25 ev eq_refl
    loaded_bounded_initial Hr) as (q & p & l & Hq & Hp & Hlq & Hlp & Htq & Htp & _);
    [apply elem_of_app; left; apply list_elem_of_here|].
  rewrite Ht, Hd in Htq. rewrite Ht in Htp.
  exists ev, c, q, p, l. split_and!; [exact Hr|exact Hq|exact Hp|exact Hlq|exact Hlp|exact Htq|exact Htp].
Defined.
