(* ===== verification/Trace.v ===== *)
(** * The trace file (whyslow-cli/src/trace.rs)

    The owned event of the CLI, its conversion from the BPF record, the
    trace file and its recovery of wall-clock time. [write_to] and
    [read_from] are computations of the environment's monad, in [Cli]; the
    JSON form of the file is serde's. *)

From S2P Require Import Prelude RustStd Layout Common.

Record TraceEvent := mkTraceEvent {
  te_timestamp_ns : Z;
  te_duration_ns : Z;
  te_key : Z;
  te_pid : Z;
  te_tid : Z;
  te_event_type : Z;
  te_comm : string;
}.

#[export] Instance TraceEvent_eq_dec : EqDecision TraceEvent.
Proof. solve_decision. Defined.

(** [comm.iter().position(|&b| b == 0).unwrap_or(comm.len())] *)
Fixpoint comm_end (comm : list byte) : nat :=
  match comm with
  | [] => 0
  | b :: comm => if decide (b = zero_byte) then 0 else S (comm_end comm)
  end.

(** [impl From<whyslow_common::Event> for TraceEvent] *)
Definition trace_event_from (ev : Event) : TraceEvent :=
  {| te_timestamp_ns := ev_timestamp_ns ev;
     te_duration_ns := ev_duration_ns ev;
     te_key := ev_key ev;
     te_pid := ev_pid ev;
     te_tid := ev_tid ev;
     te_event_type := ev_event_type ev;
     te_comm := string_of_bytes (from_utf8_lossy (take (comm_end (ev_comm ev)) (ev_comm ev))) |}.

Record TraceFile := mkTraceFile {
  realtime_anchor_ns : Z;
  monotonic_anchor_ns : Z;
  events : list TraceEvent;
}.

(** [delta] and the sum are [i128], where no two [u64] values overflow; the
    final cast keeps the low 64 bits. *)
Definition wall_ns_for (f : TraceFile) (event_ts_ns : Z) : Z :=
  let delta := event_ts_ns - monotonic_anchor_ns f in
  as_u64 (Z.max (realtime_anchor_ns f + delta) 0).

(** [struct timespec], and the value [clock_gettime] leaves in a zeroed one:
    the time of the clock, or the zeros when the call fails. *)
Record timespec := mkTimespec { tv_sec : Z; tv_nsec : Z }.

(** The arithmetic of a release build, which wraps. *)
Definition clock_ns (clock_gettime : option timespec) : Z :=
  let ts := default (mkTimespec 0 0) clock_gettime in
  as_u64 (as_u64 (as_u64 (tv_sec ts) * 1000000000) + as_u64 (tv_nsec ts)).

(** The two clocks, [CLOCK_REALTIME] first. *)
Definition capture_anchor (realtime monotonic : option timespec) : Z * Z :=
  (clock_ns realtime, clock_ns monotonic).

(** ** Helper lemmas *)

Lemma comm_end_le comm : (comm_end comm <= length comm)%nat.
Proof. induction comm as [|b comm IH]; cbn; [lia|]. case_decide; lia. Qed.

Lemma comm_end_no_nul comm : zero_byte ∉ take (comm_end comm) comm.
Proof.
  induction comm as [|b comm IH]; cbn; [apply not_elem_of_nil|].
  case_decide; cbn; [apply not_elem_of_nil|]. by apply not_elem_of_cons.
Qed.

Lemma comm_end_app name rest :
  zero_byte ∉ name -> comm_end (name ++ zero_byte :: rest) = length name.
Proof.
  induction name as [|b name IH]; cbn; intros H.
  - by rewrite decide_True.
  - apply not_elem_of_cons in H as [Hb H]. rewrite decide_False by congruence. f_equal. by apply IH.
Qed.

(** ** Properties *)

(** A NUL-terminated well-formed name comes through unchanged, whatever
    follows the terminator. *)
Theorem trace_event_comm (ev : Event) (name rest : list byte) :
  ev_comm ev = name ++ zero_byte :: rest -> zero_byte ∉ name -> utf8_valid name ->
  te_comm (trace_event_from ev) = string_of_bytes name.
Proof.
  intros Hc Hn Hv. cbn. rewrite Hc, comm_end_app, take_app_length by done.
  by rewrite from_utf8_lossy_id.
Qed.

Lemma trace_event_comm_witness :
  te_comm (trace_event_from (Event_new 9 3 0 7 8 EVENT_SCHED_BLOCK
    (bytes_of_string "cat" ++ zero_byte :: bytes_of_string "stale bytes!"))) = "cat".
Proof.
  apply (trace_event_comm _ (bytes_of_string "cat") (bytes_of_string "stale bytes!")).
  - reflexivity.
  - by apply (bool_decide_unpack _).
  - repeat (eapply utf8_valid_step; [done|reflexivity|]). constructor.
Defined.

(** Whatever the kernel put in [comm], the string is well-formed UTF-8. *)
Theorem trace_event_comm_valid (ev : Event) :
  utf8_valid (bytes_of_string (te_comm (trace_event_from ev))).
Proof.
  cbn. rewrite String.list_ascii_of_string_of_list_ascii. apply from_utf8_lossy_valid.
Qed.

(** The wall clock of the trace runs parallel to the event clock: the anchor
    maps to the anchor, differences are kept, and an event from before the
    epoch is clamped to it. *)
Theorem wall_ns_for_parallel (f : TraceFile) (ts : Z) :
  let wall := realtime_anchor_ns f + (ts - monotonic_anchor_ns f) in
  wall < 2 ^ 64 ->
  wall_ns_for f ts = Z.max wall 0 /\ is_u64 (wall_ns_for f ts).
Proof.
  cbn zeta. intros H. unfold wall_ns_for. rewrite as_uint_id; unfold is_uint; lia.
Qed.

Lemma wall_ns_for_parallel_witness :
  wall_ns_for (mkTraceFile 1000 50 []) 70 = 1020 /\ is_u64 1020.
Proof. apply (wall_ns_for_parallel (mkTraceFile 1000 50 []) 70). cbn. lia. Defined.

(** A sane clock reading does not overflow. *)
Theorem clock_ns_exact (sec nsec : Z) :
  0 <= sec -> 0 <= nsec < 1000000000 -> sec * 1000000000 + nsec < 2 ^ 64 ->
  clock_ns (Some (mkTimespec sec nsec)) = sec * 1000000000 + nsec.
Proof.
  intros Hs Hn H. unfold clock_ns. cbn -[as_uint Z.mul].
  rewrite (as_uint_id 64 sec), (as_uint_id 64 nsec) by (unfold is_uint; lia).
  rewrite (as_uint_id 64 (sec * _)) by (unfold is_uint; lia).
  apply as_uint_id. unfold is_uint. lia.
Qed.

Lemma clock_ns_exact_witness : clock_ns (Some (mkTimespec 1700000000 999999999)) = 1700000000999999999.
Proof. apply (clock_ns_exact 1700000000 999999999); lia. Defined.
