(* ===== verification/Ui.v ===== *)
(** * Terminal cosmetics (whyslow-cli/src/ui.rs)

    The colour decision, made once, and the ANSI painting of strings. Every
    painter takes the decision as an argument; output is the list of printed
    lines. *)

From S2P Require Import Prelude RustStd.

(** [ENABLED.get_or_init(...)]: the cell keeps the first answer. *)
Definition color_enabled (no_color_set stdout_is_terminal : bool) (cell : option bool) :
    bool * option bool :=
  match cell with
  | Some b => (b, cell)
  | None =>
      let b := negb no_color_set && stdout_is_terminal in (b, Some b)
  end.

Definition ESC : string := String (byte_of 27) "".

Definition paint (enabled : bool) (code s : string) : string :=
  if enabled then ESC +:+ "[" +:+ code +:+ "m" +:+ s +:+ ESC +:+ "[0m" else s.

Definition bold (c : bool) (s : string) : string := paint c "1" s.
Definition dim (c : bool) (s : string) : string := paint c "2" s.
Definition bold_yellow (c : bool) (s : string) : string := paint c "1;93" s.
Definition bold_red (c : bool) (s : string) : string := paint c "1;91" s.
Definition magenta (c : bool) (s : string) : string := paint c "1;95" s.
Definition cyan (c : bool) (s : string) : string := paint c "1;96" s.
Definition green (c : bool) (s : string) : string := paint c "1;92" s.
Definition bold_cyan (c : bool) (s : string) : string := paint c "1;96" s.
Definition blue (c : bool) (s : string) : string := paint c "1;94" s.

Definition BANNER_COLORS : list string := ["1;91"; "1;93"; "1;92"; "1;96"; "1;94"; "1;95"].

Definition BANNER_LINES : list string :=
  ["           __               __";
   " _      __/ /_  __  _______/ /___ _      __";
   "| | /| / / __ \/ / / / ___/ / __ \ | /| / /";
   "| |/ |/ / / / / /_/ (__  ) / /_/ / |/ |/ /";
   "|__/|__/_/ /_/\__, /____/_/\____/|__/|__/";
   "             /____/                        "].

(** [lines.zip(colors.cycle())] *)
Definition zip_cycle {A B : Type} (l : list A) (cycle : list B) : list (A * B) :=
  imap (fun i a => (a, cycle !! (i mod length cycle)%nat)) l ≫=
    (fun p => match p.2 with Some b => [(p.1, b)] | None => [] end).

Definition print_banner (c : bool) : list string :=
  [""] ++
  ((fun p => paint c p.2 p.1) <$> zip_cycle BANNER_LINES BANNER_COLORS) ++
  ["  " +:+ bold c "debug why a Linux process was slow — eBPF causal-chain tracing"; ""].

(** ** Properties *)

(** The decision is made once: later calls repeat it whatever the
    environment says by then. *)
Theorem color_enabled_once (no_color tty no_color' tty' : bool) (cell : option bool) :
  let '(b, cell') := color_enabled no_color tty cell in
  color_enabled no_color' tty' cell' = (b, cell').
Proof. by destruct cell. Qed.

(** Without colours nothing of the text changes, so piped output is plain. *)
Theorem print_banner_plain : print_banner false =
  [""] ++ BANNER_LINES ++
  ["  debug why a Linux process was slow — eBPF causal-chain tracing"; ""].
Proof. reflexivity. Qed.
