(* ===== verification/Causal.v ===== *)
(** * Happens-before inference and chain walking (whyslow-cli/src/causal.rs)

    The joins, the classification of a stall, the device-name cache, the
    chain walk and the top-level [explain] and [print_chains].

    Parameters: [localtime], libc's [localtime_r] (hour, minute, second), and
    [read_link], [std::fs::read_link] on a file system whose state [W] may
    change between calls. [color] is the colour decision of [Ui]. *)

From S2P Require Import Prelude RustStd Common Trace Ui.
From Stdlib Require SpecFloat.

(** 5ms *)
Definition MATCH_WINDOW_NS : Z := 5000000.
Definition MAX_CHAIN_DEPTH : Z := 8.

Record Typed := mkTyped {
  block : list TraceEvent;
  futex_wait : list TraceEvent;
  futex_wake : list TraceEvent;
  block_io : list TraceEvent;
}.

Definition partition_push (t : Typed) (e : TraceEvent) : Typed :=
  let ty := te_event_type e in
  if ty =? EVENT_SCHED_BLOCK then mkTyped (block t ++ [e]) (futex_wait t) (futex_wake t) (block_io t)
  else if ty =? EVENT_FUTEX_WAIT then mkTyped (block t) (futex_wait t ++ [e]) (futex_wake t) (block_io t)
  else if ty =? EVENT_FUTEX_WAKE then mkTyped (block t) (futex_wait t) (futex_wake t ++ [e]) (block_io t)
  else if ty =? EVENT_BLOCK_IO then mkTyped (block t) (futex_wait t) (futex_wake t) (block_io t ++ [e])
  else t.

Definition partition (events : list TraceEvent) : Typed :=
  foldl partition_push (mkTyped [] [] [] []) events.

(** The subtraction is guarded by the comparison before it, so it does not
    underflow. *)
Definition nearest_preceding (candidates : list TraceEvent) (anchor_ts : Z)
    (pred : TraceEvent -> bool) : option TraceEvent :=
  max_by_key te_timestamp_ns
    (List.filter (fun e => pred e && (te_timestamp_ns e <=? anchor_ts) &&
                           (anchor_ts - te_timestamp_ns e <=? MATCH_WINDOW_NS)) candidates).

Definition nearest_following (candidates : list TraceEvent) (anchor_ts : Z)
    (pred : TraceEvent -> bool) : option TraceEvent :=
  min_by_key te_timestamp_ns
    (List.filter (fun e => pred e && (anchor_ts <=? te_timestamp_ns e) &&
                           (te_timestamp_ns e - anchor_ts <=? MATCH_WINDOW_NS)) candidates).

Inductive Cause :=
  | CauseFutex (wait : TraceEvent)
  | CauseBlockIo (io : TraceEvent)
  | CauseUnknown.

Definition classify_resume_cause (tid resume_ts : Z) (typed : Typed) : Cause :=
  let fw := nearest_following (futex_wait typed) resume_ts (fun e => te_tid e =? tid) in
  let io := nearest_preceding (block_io typed) resume_ts (fun e => te_tid e =? tid) in
  match fw, io with
  | Some f, Some i =>
      let f_dist := saturating_sub (te_timestamp_ns f) resume_ts in
      let io_dist := saturating_sub resume_ts (te_timestamp_ns i) in
      if f_dist <=? io_dist then CauseFutex f else CauseBlockIo i
  | Some f, None => CauseFutex f
  | None, Some i => CauseBlockIo i
  | None, None => CauseUnknown
  end.

Definition classify_prior_cause (tid anchor_ts : Z) (typed : Typed) : Cause :=
  let fw := nearest_preceding (futex_wait typed) anchor_ts (fun e => te_tid e =? tid) in
  let io := nearest_preceding (block_io typed) anchor_ts (fun e => te_tid e =? tid) in
  match fw, io with
  | Some f, Some i =>
      if te_timestamp_ns i <=? te_timestamp_ns f then CauseFutex f else CauseBlockIo i
  | Some f, None => CauseFutex f
  | None, Some i => CauseBlockIo i
  | None, None => CauseUnknown
  end.

(** [Path::file_name] on Unix bytes: the last component unless it is [..];
    empty and [.] components do not count. *)
Fixpoint split_path (path : list byte) : list (list byte) :=
  match path with
  | [] => [[]]
  | b :: path =>
      let rest := split_path path in
      if decide (b = slash) then [] :: rest
      else match rest with c :: cs => (b :: c) :: cs | [] => [[b]] end
  end.

Definition file_name (path : list byte) : option (list byte) :=
  let normal c := negb (bool_decide (c = [])) && negb (bool_decide (c = [dot])) in
  match last (List.filter normal (split_path path)) with
  | Some c => if decide (c = [dot; dot]) then None else Some c
  | None => None
  end.

(** [format_duration]; ["µ"] is U+00B5. *)
Definition format_duration (ns : Z) : string :=
  if 1000000000 <=? ns then
    fmt_f64_2 (f64_div (f64_of_int ns) (f64_of_int 1000000000)) +:+ "s"
  else if 1000000 <=? ns then fmt_display (ns / 1000000) +:+ "ms"
  else if 1000 <=? ns then fmt_display (ns / 1000) +:+ "µs"
  else fmt_display ns +:+ "ns".

Record Chain := mkChain { lines : list string }.

Section Explain.
Context {W : Type} (read_link : string -> W -> option (list byte) * W).
Context (localtime : Z -> Z * Z * Z).
Context (color : bool).

(** The device-name cache, with the file system it reads through. *)
Record DevNames := mkDevNames { cache : gmap Z string; fs : W }.

Definition DevNames_new (w : W) : DevNames := mkDevNames ∅ w.

Definition dev_path (dev : Z) : string :=
  "/sys/dev/block/" +:+ fmt_display (Z.shiftr dev 20) +:+ ":" +:+ fmt_display (Z.land dev 0xFFFFF).

Definition dev_fallback (dev : Z) : string :=
  "dev" +:+ fmt_display (Z.shiftr dev 20) +:+ ":" +:+ fmt_display (Z.land dev 0xFFFFF).

Definition name (dev : Z) (d : DevNames) : string * DevNames :=
  match cache d !! dev with
  | Some n => (n, d)
  | None =>
      let '(target, w) := read_link (dev_path dev) (fs d) in
      let n := default (dev_fallback dev)
                 (p ← target; f ← file_name p; Some (string_of_bytes (from_utf8_lossy f))) in
      (n, mkDevNames (<[dev := n]> (cache d)) w)
  end.

Definition format_wall_time (unix_ns : Z) : string :=
  let secs := unix_ns / 1000000000 in
  let millis := unix_ns mod 1000000000 / 1000000 in
  let '(tm_hour, tm_min, tm_sec) := localtime secs in
  fmt_zero_pad 2 tm_hour +:+ ":" +:+ fmt_zero_pad 2 tm_min +:+ ":" +:+
    fmt_zero_pad 2 tm_sec +:+ "." +:+ fmt_zero_pad 3 millis.

(** *** The lines of a chain *)

Definition tid_text (tid : Z) : string := bold_yellow color ("tid " +:+ fmt_display tid).
Definition futex_text (key : Z) : string := magenta color ("futex " +:+ fmt_lower_hex_alt key).
Definition block_io_text (dev_name : string) (sector : Z) : string :=
  cyan color ("block I/O (dev " +:+ dev_name +:+ ", sector " +:+ fmt_display sector +:+ ")").
Definition arrow : string := dim color "←".

Definition headline (wall : string) (tid duration : Z) (what : string) : string :=
  blue color wall +:+ " " +:+ dim color "—" +:+ " " +:+ tid_text tid +:+ " blocked " +:+
    bold_red color (format_duration duration) +:+ " " +:+ what.

Definition woken_line (tid : Z) : string :=
  " " +:+ arrow +:+ " " +:+ green color "woken by" +:+ " " +:+ tid_text tid.

Definition blocked_line (tid duration : Z) (what : string) : string :=
  " " +:+ arrow +:+ " " +:+ tid_text tid +:+ " blocked " +:+
    bold_red color (format_duration duration) +:+ " on " +:+ what.

(** The recursion of the source is bounded by the depth guard; [fuel] is
    the recursion depth left, and running out is [None]. *)
Fixpoint walk_from_futex_wait (fuel : nat) (wait : TraceEvent) (typed : Typed) (d : DevNames)
    (depth : Z) (acc : list string) : option (list string * DevNames) :=
  match fuel with
  | O => None
  | S fuel =>
      match nearest_preceding (futex_wake typed) (te_timestamp_ns wait)
              (fun e => te_key e =? te_key wait) with
      | None => Some (acc, d)
      | Some wake =>
          let acc := acc ++ [woken_line (te_tid wake)] in
          if MAX_CHAIN_DEPTH <=? depth then Some (acc, d) else
          let wake_start_ts := saturating_sub (te_timestamp_ns wake) (te_duration_ns wake) in
          match classify_prior_cause (te_tid wake) wake_start_ts typed with
          | CauseFutex next_wait =>
              let acc := acc ++ [blocked_line (te_tid wake) (te_duration_ns next_wait)
                                   (futex_text (te_key next_wait))] in
              walk_from_futex_wait fuel next_wait typed d (depth + 1) acc
          | CauseBlockIo io =>
              let '(dev, sector) := unpack_block_key (te_key io) in
              let '(n, d) := name dev d in
              Some (acc ++ [blocked_line (te_tid wake) (te_duration_ns io)
                              (block_io_text n sector)], d)
          | CauseUnknown => Some (acc, d)
          end
      end
  end.

(** Depth starts at 1 and stops at [MAX_CHAIN_DEPTH]. *)
Definition walk_fuel : nat := Z.to_nat MAX_CHAIN_DEPTH.

Definition explain_one_stall (b : TraceEvent) (trace : TraceFile) (typed : Typed) (d : DevNames) :
    option (Chain * DevNames) :=
  let start_ts := saturating_sub (te_timestamp_ns b) (te_duration_ns b) in
  let wall := format_wall_time (wall_ns_for trace start_ts) in
  let line := headline wall (te_tid b) (te_duration_ns b) in
  match classify_resume_cause (te_tid b) (te_timestamp_ns b) typed with
  | CauseFutex wait =>
      '(ls, d) ← walk_from_futex_wait walk_fuel wait typed d 1
                   [line ("on " +:+ futex_text (te_key wait))];
      Some (mkChain ls, d)
  | CauseBlockIo io =>
      let '(dev, sector) := unpack_block_key (te_key io) in
      let '(n, d) := name dev d in
      Some (mkChain [line ("on " +:+ block_io_text n sector)], d)
  | CauseUnknown =>
      Some (mkChain [line (dim color "(no correlated cause found)")], d)
  end.

Fixpoint explain_all (blocks : list TraceEvent) (trace : TraceFile) (typed : Typed) (d : DevNames) :
    option (list Chain * DevNames) :=
  match blocks with
  | [] => Some ([], d)
  | b :: blocks =>
      '(c, d) ← explain_one_stall b trace typed d;
      '(cs, d) ← explain_all blocks trace typed d;
      Some (c :: cs, d)
  end.

(** [b.duration_ns.cmp(&a.duration_ns)] is not [Greater]. *)
Definition longer_first (a b : TraceEvent) : bool := te_duration_ns b <=? te_duration_ns a.

Definition slowest_blocks (typed : Typed) (slowest : nat) : list TraceEvent :=
  take slowest (sort_by longer_first (block typed)).

Definition explain (trace : TraceFile) (slowest : nat) (w : W) : option (list Chain * W) :=
  let typed := partition (events trace) in
  '(cs, d) ← explain_all (slowest_blocks typed slowest) trace typed (DevNames_new w);
  Some (cs, fs d).

(** The lines [print_chains] prints. *)
Definition chain_lines (i : nat) (c : Chain) : list string :=
  (if (0 <? i)%nat then [dim color (repeat_str "─" 60)] else []) ++ lines c.

Definition print_chains (chains : list Chain) : list string :=
  match chains with
  | [] => ["whyslow: no blocked intervals recorded (process may not have stalled, or trace is empty)"]
  | _ =>
      [bold_cyan color ("▶ " +:+ fmt_display (Z.of_nat (length chains)) +:+ " slowest stall(s):"); ""] ++
      concat (imap chain_lines chains)
  end.
End Explain.
