(* ===== verification/CausalProps.v ===== *)
(** * Properties of the causal inference

    The joins against their declarative meaning, the chain walk against a
    relation on events, and the selection, naming and formatting around
    them. *)

From S2P Require Import Prelude RustStd Common Trace Ui Causal.

(** ** The joins *)

(** [e] ends at most 5ms before the anchor, and not after it. *)
Definition precedes (anchor : Z) (e : TraceEvent) : Prop :=
  te_timestamp_ns e <= anchor <= te_timestamp_ns e + MATCH_WINDOW_NS.

Definition follows (anchor : Z) (e : TraceEvent) : Prop :=
  anchor <= te_timestamp_ns e <= anchor + MATCH_WINDOW_NS.

Lemma precedes_bool pred anchor e :
  pred e && (te_timestamp_ns e <=? anchor) && (anchor - te_timestamp_ns e <=? MATCH_WINDOW_NS) = true <->
  pred e = true /\ precedes anchor e.
Proof. unfold precedes. rewrite !andb_true_iff, !Z.leb_le. intuition lia. Qed.

Lemma follows_bool pred anchor e :
  pred e && (anchor <=? te_timestamp_ns e) && (te_timestamp_ns e - anchor <=? MATCH_WINDOW_NS) = true <->
  pred e = true /\ follows anchor e.
Proof. unfold follows. rewrite !andb_true_iff, !Z.leb_le. intuition lia. Qed.

(** C9: The nearest preceding candidate: in the window, no later one in the
    window, and the last recorded of several at the same instant. *)
Theorem nearest_preceding_iff (c : list TraceEvent) (anchor : Z) (pred : TraceEvent -> bool)
    (e : TraceEvent) :
  nearest_preceding c anchor pred = Some e <->
  pred e = true /\ precedes anchor e /\
  exists l1 l2, c = l1 ++ e :: l2 /\
    (forall x, x ∈ l1 -> pred x = true -> precedes anchor x -> te_timestamp_ns x <= te_timestamp_ns e) /\
    (forall x, x ∈ l2 -> pred x = true -> precedes anchor x -> te_timestamp_ns x < te_timestamp_ns e).
Proof.
  unfold nearest_preceding. rewrite max_by_key_Some. split.
  - intros (m1 & m2 & Hf & H1 & H2).
    apply filter_split in Hf as (l1 & l2 & -> & <- & <- & Hx).
    apply precedes_bool in Hx as [Hp Hw]. split_and!; try done. exists l1, l2.
    rewrite Forall_filter_bool in H1. rewrite Forall_filter_bool in H2.
    split_and!; [done|..]; intros x Hx Hpx Hwx; [apply H1|apply H2]; auto; by apply precedes_bool.
  - intros (Hp & Hw & l1 & l2 & -> & H1 & H2). eexists _, _. split.
    + rewrite List.filter_app. cbn [List.filter].
      by rewrite (proj2 (precedes_bool pred anchor e) (conj Hp Hw)).
    + split; apply Forall_filter_bool; intros x Hx [Hpx Hwx]%precedes_bool; auto.
Qed.

(** C10: The nearest following candidate: in the window, no earlier one in the
    window, and the first recorded of several at the same instant. *)
Theorem nearest_following_iff (c : list TraceEvent) (anchor : Z) (pred : TraceEvent -> bool)
    (e : TraceEvent) :
  nearest_following c anchor pred = Some e <->
  pred e = true /\ follows anchor e /\
  exists l1 l2, c = l1 ++ e :: l2 /\
    (forall x, x ∈ l1 -> pred x = true -> follows anchor x -> te_timestamp_ns e < te_timestamp_ns x) /\
    (forall x, x ∈ l2 -> pred x = true -> follows anchor x -> te_timestamp_ns e <= te_timestamp_ns x).
Proof.
  unfold nearest_following. rewrite min_by_key_Some. split.
  - intros (m1 & m2 & Hf & H1 & H2).
    apply filter_split in Hf as (l1 & l2 & -> & <- & <- & Hx).
    apply follows_bool in Hx as [Hp Hw]. split_and!; try done. exists l1, l2.
    rewrite Forall_filter_bool in H1. rewrite Forall_filter_bool in H2.
    split_and!; [done|..]; intros x Hx Hpx Hwx; [apply H1|apply H2]; auto; by apply follows_bool.
  - intros (Hp & Hw & l1 & l2 & -> & H1 & H2). eexists _, _. split.
    + rewrite List.filter_app. cbn [List.filter].
      by rewrite (proj2 (follows_bool pred anchor e) (conj Hp Hw)).
    + split; apply Forall_filter_bool; intros x Hx [Hpx Hwx]%follows_bool; auto.
Qed.

(** The join without the position: what the clients use. *)
Definition latest_before (c : list TraceEvent) (anchor : Z) (P : TraceEvent -> Prop) (e : TraceEvent) : Prop :=
  e ∈ c /\ P e /\ precedes anchor e /\
  forall x, x ∈ c -> P x -> precedes anchor x -> te_timestamp_ns x <= te_timestamp_ns e.

Definition earliest_after (c : list TraceEvent) (anchor : Z) (P : TraceEvent -> Prop) (e : TraceEvent) : Prop :=
  e ∈ c /\ P e /\ follows anchor e /\
  forall x, x ∈ c -> P x -> follows anchor x -> te_timestamp_ns e <= te_timestamp_ns x.

Definition none_before (c : list TraceEvent) (anchor : Z) (P : TraceEvent -> Prop) : Prop :=
  forall x, x ∈ c -> P x -> ~ precedes anchor x.

Definition none_after (c : list TraceEvent) (anchor : Z) (P : TraceEvent -> Prop) : Prop :=
  forall x, x ∈ c -> P x -> ~ follows anchor x.

Lemma nearest_preceding_spec c anchor pred P :
  (forall e, pred e = true <-> P e) ->
  match nearest_preceding c anchor pred with
  | Some e => latest_before c anchor P e
  | None => none_before c anchor P
  end.
Proof.
  intros HP. unfold nearest_preceding. destruct (max_by_key _ _) as [e|] eqn:E.
  - apply max_by_key_Some, last_max_elem in E as [He Hm].
    apply elem_of_filter_bool in He as [[Hp Hw]%precedes_bool He].
    split_and!; try done; [by apply HP|]. intros x Hx HPx Hwx. apply Hm.
    apply elem_of_filter_bool. split; [|done]. apply precedes_bool. by rewrite HP.
  - apply max_by_key_None in E. intros x Hx HPx Hwx.
    assert (x ∈ List.filter (fun e => pred e && (te_timestamp_ns e <=? anchor) &&
              (anchor - te_timestamp_ns e <=? MATCH_WINDOW_NS)) c) as Hf.
    { apply elem_of_filter_bool. split; [|done]. apply precedes_bool. by rewrite HP. }
    rewrite E in Hf. by apply elem_of_nil in Hf.
Qed.

Lemma nearest_following_spec c anchor pred P :
  (forall e, pred e = true <-> P e) ->
  match nearest_following c anchor pred with
  | Some e => earliest_after c anchor P e
  | None => none_after c anchor P
  end.
Proof.
  intros HP. unfold nearest_following. destruct (min_by_key _ _) as [e|] eqn:E.
  - apply min_by_key_Some, first_min_elem in E as [He Hm].
    apply elem_of_filter_bool in He as [[Hp Hw]%follows_bool He].
    split_and!; try done; [by apply HP|]. intros x Hx HPx Hwx. apply Hm.
    apply elem_of_filter_bool. split; [|done]. apply follows_bool. by rewrite HP.
  - apply min_by_key_None in E. intros x Hx HPx Hwx.
    assert (x ∈ List.filter (fun e => pred e && (anchor <=? te_timestamp_ns e) &&
              (te_timestamp_ns e - anchor <=? MATCH_WINDOW_NS)) c) as Hf.
    { apply elem_of_filter_bool. split; [|done]. apply follows_bool. by rewrite HP. }
    rewrite E in Hf. by apply elem_of_nil in Hf.
Qed.

(** ** Classification *)

Definition of_tid (tid : Z) (e : TraceEvent) : Prop := te_tid e = tid.

(** What a resume was the tail end of: the closer of the nearest completed
    futex wait after it and the nearest block I/O completion before it, the
    futex wait on a tie; unknown only if there is neither. *)
Definition resume_cause (typed : Typed) (tid ts : Z) (c : Cause) : Prop :=
  match c with
  | CauseFutex f =>
      earliest_after (futex_wait typed) ts (of_tid tid) f /\
      forall i, i ∈ block_io typed -> of_tid tid i -> precedes ts i ->
        te_timestamp_ns f - ts <= ts - te_timestamp_ns i
  | CauseBlockIo i =>
      latest_before (block_io typed) ts (of_tid tid) i /\
      forall f, f ∈ futex_wait typed -> of_tid tid f -> follows ts f ->
        ts - te_timestamp_ns i < te_timestamp_ns f - ts
  | CauseUnknown =>
      none_after (futex_wait typed) ts (of_tid tid) /\ none_before (block_io typed) ts (of_tid tid)
  end.

(** What a thread had finished just before an instant: the later of its
    nearest futex wait and block I/O, the futex wait on a tie. *)
Definition prior_cause (typed : Typed) (tid ts : Z) (c : Cause) : Prop :=
  match c with
  | CauseFutex f =>
      latest_before (futex_wait typed) ts (of_tid tid) f /\
      forall i, i ∈ block_io typed -> of_tid tid i -> precedes ts i ->
        te_timestamp_ns i <= te_timestamp_ns f
  | CauseBlockIo i =>
      latest_before (block_io typed) ts (of_tid tid) i /\
      forall f, f ∈ futex_wait typed -> of_tid tid f -> precedes ts f ->
        te_timestamp_ns f < te_timestamp_ns i
  | CauseUnknown =>
      none_before (futex_wait typed) ts (of_tid tid) /\ none_before (block_io typed) ts (of_tid tid)
  end.

Lemma tid_eqb tid : forall e, (te_tid e =? tid) = true <-> of_tid tid e.
Proof. intros e. apply Z.eqb_eq. Qed.

Lemma classify_resume_cause_sound (tid ts : Z) (typed : Typed) :
  resume_cause typed tid ts (classify_resume_cause tid ts typed).
Proof.
  unfold classify_resume_cause.
  pose proof (nearest_following_spec (futex_wait typed) ts _ _ (tid_eqb tid)) as Hf.
  pose proof (nearest_preceding_spec (block_io typed) ts _ _ (tid_eqb tid)) as Hi.
  destruct (nearest_following _ _ _) as [f|], (nearest_preceding _ _ _) as [i|]; cbn; try done.
  - destruct Hf as (Hf1 & Hf2 & Hf3 & Hf4), Hi as (Hi1 & Hi2 & Hi3 & Hi4).
    unfold saturating_sub, precedes, follows in *.
    destruct (Z.leb_spec (Z.max 0 (te_timestamp_ns f - ts)) (Z.max 0 (ts - te_timestamp_ns i)));
      (split; [done|]); intros x Hx Htx Hwx; [apply Hi4 in Hwx|apply Hf4 in Hwx]; try done; lia.
  - split; [done|]. intros i Hxi Ht Hw. by destruct (Hi i).
  - split; [done|]. intros f Hxf Ht Hw. by destruct (Hf f).
Qed.

Lemma classify_prior_cause_sound (tid ts : Z) (typed : Typed) :
  prior_cause typed tid ts (classify_prior_cause tid ts typed).
Proof.
  unfold classify_prior_cause.
  pose proof (nearest_preceding_spec (futex_wait typed) ts _ _ (tid_eqb tid)) as Hf.
  pose proof (nearest_preceding_spec (block_io typed) ts _ _ (tid_eqb tid)) as Hi.
  destruct (nearest_preceding (futex_wait typed) _ _) as [f|],
    (nearest_preceding (block_io typed) _ _) as [i|]; cbn; try done.
  - destruct Hf as (Hf1 & Hf2 & Hf3 & Hf4), Hi as (Hi1 & Hi2 & Hi3 & Hi4).
    destruct (Z.leb_spec (te_timestamp_ns i) (te_timestamp_ns f));
      (split; [done|]); intros x Hx Htx Hwx; [apply Hi4 in Hwx|apply Hf4 in Hwx]; try done; lia.
  - split; [done|]. intros i Hxi Ht Hw. by destruct (Hi i).
  - split; [done|]. intros f Hxf Ht Hw. by destruct (Hf f).
Qed.

(** ** The chain walk *)

(** [wake] is the wake that [wait] is matched with: the latest one on the
    same futex that completed within 5ms before the wait did. *)
Definition is_waker (typed : Typed) (wait wake : TraceEvent) : Prop :=
  latest_before (futex_wake typed) (te_timestamp_ns wait) (fun e => te_key e = te_key wait) wake.

Definition no_waker (typed : Typed) (wait : TraceEvent) : Prop :=
  none_before (futex_wake typed) (te_timestamp_ns wait) (fun e => te_key e = te_key wait).

Definition wake_start (wake : TraceEvent) : Z :=
  saturating_sub (te_timestamp_ns wake) (te_duration_ns wake).

(** The links of a chain, each with the event it names. *)
Inductive edge :=
  | Woken (wake : TraceEvent)
  | WaitedFutex (wait : TraceEvent)
  | WaitedIo (io : TraceEvent).

Definition edge_event (e : edge) : TraceEvent :=
  match e with Woken ev | WaitedFutex ev | WaitedIo ev => ev end.

(** The chains that explain a futex wait found at some depth: backwards from
    the wait to its waker, to what the waker had waited for, and so on, until
    nothing is found, a block I/O is reached, or the depth limit cuts it. *)
Inductive chain (typed : Typed) : Z -> TraceEvent -> list edge -> Prop :=
  | chain_unwoken depth wait : no_waker typed wait -> chain typed depth wait []
  | chain_cut depth wait wake :
      is_waker typed wait wake -> MAX_CHAIN_DEPTH <= depth -> chain typed depth wait [Woken wake]
  | chain_unexplained depth wait wake :
      is_waker typed wait wake -> depth < MAX_CHAIN_DEPTH ->
      prior_cause typed (te_tid wake) (wake_start wake) CauseUnknown ->
      chain typed depth wait [Woken wake]
  | chain_io depth wait wake io :
      is_waker typed wait wake -> depth < MAX_CHAIN_DEPTH ->
      prior_cause typed (te_tid wake) (wake_start wake) (CauseBlockIo io) ->
      chain typed depth wait [Woken wake; WaitedIo io]
  | chain_futex depth wait wake next es :
      is_waker typed wait wake -> depth < MAX_CHAIN_DEPTH ->
      prior_cause typed (te_tid wake) (wake_start wake) (CauseFutex next) ->
      chain typed (depth + 1) next es ->
      chain typed depth wait (Woken wake :: WaitedFutex next :: es).

(** ** Device names

    A name is resolved if it is what the sysfs link of the device said at some
    moment, or the fallback when there was none. *)
Section Names.
Context {W : Type} (read_link : string -> W -> option (list byte) * W).

Definition resolved (dev : Z) (n : string) : Prop :=
  exists w, n = (name read_link dev (DevNames_new w)).1.

Definition names_sound (d : @DevNames W) : Prop :=
  forall dev n, cache d !! dev = Some n -> resolved dev n.

(** [d'] knows all the names [d] knows, and no wrong one if [d] did not. *)
Definition grows (d d' : @DevNames W) : Prop :=
  cache d ⊆ cache d' /\ (names_sound d -> names_sound d').

(** [nm] names the devices in [d] the way [d] does. *)
Definition agrees (nm : Z -> string) (d : @DevNames W) : Prop :=
  forall dev n, cache d !! dev = Some n -> nm dev = n.

#[export] Instance grows_preorder : PreOrder grows.
Proof.
  split; [by intros d; split|]. intros d1 d2 d3 [? ?] [? ?]. split; [by etrans|auto].
Qed.

Lemma agrees_before nm d d' : grows d d' -> agrees nm d' -> agrees nm d.
Proof. intros [Hc _] Ha dev n Hn. apply Ha. by eapply lookup_weaken. Qed.

Lemma name_grows dev d : grows d (name read_link dev d).2.
Proof.
  unfold name. destruct (cache d !! dev) as [n|] eqn:E; [done|].
  destruct (read_link (dev_path dev) (fs d)) as [target w] eqn:Er. cbn.
  split; [by apply insert_subseteq|]. intros Hs dev' n'. cbn. intros Hn.
  destruct (decide (dev = dev')) as [<-|Hne].
  - rewrite lookup_insert_eq in Hn. injection Hn as <-. exists (fs d).
    unfold name, DevNames_new. cbn [cache fs]. by rewrite lookup_empty, Er.
  - rewrite lookup_insert_ne in Hn by done. by apply Hs.
Qed.

Lemma name_known dev d : cache (name read_link dev d).2 !! dev = Some (name read_link dev d).1.
Proof.
  unfold name. destruct (cache d !! dev) as [n|] eqn:E; [done|].
  destruct (read_link _ _) as [target w]. apply lookup_insert_eq.
Qed.

Lemma name_resolved dev d : names_sound d -> resolved dev (name read_link dev d).1.
Proof. intros Hs. eapply (proj2 (name_grows dev d) Hs), name_known. Qed.

Lemma DevNames_new_sound w : names_sound (DevNames_new w).
Proof. intros dev n. cbn. by rewrite lookup_empty. Qed.
End Names.

Section Walk.
Context {W : Type} (read_link : string -> W -> option (list byte) * W) (color : bool).

(** The printed form of a link, with the devices named by [nm]. *)
Definition render (nm : Z -> string) (e : edge) : string :=
  match e with
  | Woken wake => woken_line color (te_tid wake)
  | WaitedFutex wait =>
      blocked_line color (te_tid wait) (te_duration_ns wait) (futex_text color (te_key wait))
  | WaitedIo io =>
      blocked_line color (te_tid io) (te_duration_ns io)
        (block_io_text color (nm (unpack_block_key (te_key io)).1) (unpack_block_key (te_key io)).2)
  end.

Lemma walk_waker wait typed :
  match nearest_preceding (futex_wake typed) (te_timestamp_ns wait) (fun e => te_key e =? te_key wait) with
  | Some wake => is_waker typed wait wake
  | None => no_waker typed wait
  end.
Proof. apply nearest_preceding_spec. intros e. apply Z.eqb_eq. Qed.

Lemma walk_chain fuel typed depth wait d acc :
  MAX_CHAIN_DEPTH - depth < Z.of_nat fuel -> (0 < fuel)%nat ->
  exists es ls d', chain typed depth wait es /\
    walk_from_futex_wait read_link color fuel wait typed d depth acc = Some (acc ++ ls, d') /\
    grows read_link d d' /\ forall nm, agrees nm d' -> ls = render nm <$> es.
Proof.
  revert depth wait d acc. induction fuel as [|fuel IH]; intros depth wait d acc Hf Hpos; [lia|].
  cbn [walk_from_futex_wait]. pose proof (walk_waker wait typed) as Hw.
  destruct (nearest_preceding _ _ _) as [wake|].
  2: { exists [], [], d. rewrite app_nil_r. by split; [constructor|]. }
  destruct (Z.leb_spec MAX_CHAIN_DEPTH depth) as [Hd|Hd].
  { eexists [Woken wake], _, d. by split; [apply chain_cut|]. }
  pose proof (classify_prior_cause_sound (te_tid wake) (wake_start wake) typed) as Hc.
  unfold wake_start in Hc. destruct (classify_prior_cause _ _ _) as [next|io|].
  - assert (te_tid next = te_tid wake) as Ht by apply Hc.
    edestruct (IH (depth + 1) next d) as (es & ls & d' & Hes & -> & Hg & Hr); [lia|lia|].
    eexists (Woken wake :: WaitedFutex next :: es), _, d'. split; [by eapply chain_futex|].
    rewrite <- !app_assoc. split; [done|]. split; [done|]. intros nm Hnm.
    cbn. by rewrite Ht, <- (Hr nm Hnm).
  - assert (te_tid io = te_tid wake) as Ht by apply Hc.
    pose proof (name_known read_link (unpack_block_key (te_key io)).1 d) as Hk.
    pose proof (name_grows read_link (unpack_block_key (te_key io)).1 d) as Hg.
    destruct (unpack_block_key (te_key io)) as [dev sector] eqn:Eu. cbn [fst snd] in *.
    destruct (name read_link dev d) as [n d'] eqn:En. rewrite <- app_assoc.
    eexists [Woken wake; WaitedIo io], _, d'. split; [by apply chain_io|].
    split; [done|]. split; [done|]. intros nm Hnm. rewrite !fmap_cons, fmap_nil. cbn [render].
    rewrite Eu, Ht. cbn [fst snd]. by rewrite (Hnm _ _ Hk).
  - eexists [Woken wake], _, d. by split; [apply chain_unexplained|].
Qed.

Lemma chain_length typed depth wait es :
  chain typed depth wait es -> depth <= MAX_CHAIN_DEPTH ->
  Z.of_nat (length es) <= 2 * (MAX_CHAIN_DEPTH - depth) + 1.
Proof. induction 1; cbn [length]; intros; lia. Qed.

Context (localtime : Z -> Z * Z * Z).

(** A chain as printed for a blocked interval: the headline names the cause
    of the resume, and a futex wait is explained by a chain from depth 1. *)
Definition stall_explained (nm : Z -> string) (trace : TraceFile) (typed : Typed) (b : TraceEvent)
    (c : Chain) : Prop :=
  let wall := format_wall_time localtime
    (wall_ns_for trace (saturating_sub (te_timestamp_ns b) (te_duration_ns b))) in
  let line := headline color wall (te_tid b) (te_duration_ns b) in
  (exists wait es,
    resume_cause typed (te_tid b) (te_timestamp_ns b) (CauseFutex wait) /\
    chain typed 1 wait es /\
    lines c = line ("on " +:+ futex_text color (te_key wait)) :: (render nm <$> es)) \/
  (exists io,
    resume_cause typed (te_tid b) (te_timestamp_ns b) (CauseBlockIo io) /\
    lines c = [line ("on " +:+ block_io_text color (nm (unpack_block_key (te_key io)).1)
                                 (unpack_block_key (te_key io)).2)]) \/
  (resume_cause typed (te_tid b) (te_timestamp_ns b) CauseUnknown /\
    lines c = [line (dim color "(no correlated cause found)")]).

Lemma explain_one_stall_sound trace typed b d :
  exists c d', explain_one_stall read_link localtime color b trace typed d = Some (c, d') /\
    grows read_link d d' /\ forall nm, agrees nm d' -> stall_explained nm trace typed b c.
Proof.
  unfold explain_one_stall, stall_explained. cbv zeta.
  pose proof (classify_resume_cause_sound (te_tid b) (te_timestamp_ns b) typed) as Hc.
  destruct (classify_resume_cause _ _ _) as [wait|io|].
  - edestruct (walk_chain walk_fuel typed 1 wait d) as (es & ls & d' & Hes & Hw & Hg & Hr);
      [done|by apply Nat.lt_0_succ|].
    rewrite Hw. cbn -[headline]. eexists _, d'. split; [done|]. split; [done|]. intros nm Hnm.
    left. exists wait, es. cbn [lines]. by rewrite <- (Hr nm Hnm).
  - pose proof (name_known read_link (unpack_block_key (te_key io)).1 d) as Hk.
    pose proof (name_grows read_link (unpack_block_key (te_key io)).1 d) as Hg.
    destruct (unpack_block_key (te_key io)) as [dev sector] eqn:Eu. cbn [fst snd] in Hk, Hg.
    destruct (name read_link dev d) as [n d'] eqn:En. eexists _, d'. split; [done|].
    split; [done|]. intros nm Hnm. right. left. exists io. rewrite Eu. cbn [fst snd lines].
    by rewrite (Hnm _ _ Hk).
  - eexists _, d. split; [done|]. split; [done|]. intros nm _. by right; right.
Qed.

Lemma explain_all_sound trace typed blocks d :
  exists cs d', explain_all read_link localtime color blocks trace typed d = Some (cs, d') /\
    grows read_link d d' /\
    forall nm, agrees nm d' -> Forall2 (stall_explained nm trace typed) blocks cs.
Proof.
  revert d. induction blocks as [|b blocks IH]; intros d; cbn.
  { exists [], d. split; [done|]. split; [done|]. constructor. }
  destruct (explain_one_stall_sound trace typed b d) as (c & d1 & -> & Hg1 & Hc). cbn.
  destruct (IH d1) as (cs & d2 & -> & Hg2 & Hcs). cbn. exists (c :: cs), d2. split; [done|].
  split; [by etrans|]. intros nm Hnm. constructor; [|by apply Hcs].
  by apply Hc, (agrees_before read_link _ _ d2).
Qed.

Lemma stall_explained_length nm trace typed b c :
  stall_explained nm trace typed b c -> (1 <= length (lines c) <= 16)%nat.
Proof.
  intros [(wait & es & _ & Hes & ->)|[(io & _ & ->)|[_ ->]]]; cbn [length]; [|lia..].
  rewrite length_fmap. apply chain_length in Hes; unfold MAX_CHAIN_DEPTH in *; lia.
Qed.
End Walk.

(** ** Selection of the stalls *)

Lemma longer_first_total x y : longer_first x y = true \/ longer_first y x = true.
Proof. unfold longer_first. rewrite !Z.leb_le. lia. Qed.

Lemma longer_first_trans x y z :
  longer_first x y = true -> longer_first y z = true -> longer_first x z = true.
Proof. unfold longer_first. rewrite !Z.leb_le. lia. Qed.

Lemma sort_blocks_sorted l :
  StronglySorted (fun a b => te_duration_ns b <= te_duration_ns a) (sort_by longer_first l).
Proof.
  pose proof (sort_by_sorted longer_first longer_first_total longer_first_trans l) as H.
  induction H as [|x l' _ IH Hx]; constructor; [done|].
  eapply Forall_impl; [exact Hx|]. cbn. unfold longer_first. intros y Hy.
  by apply Is_true_true, Z.leb_le in Hy.
Qed.

(** The names of a sequence of devices, in order. *)
Fixpoint names {W} (read_link : string -> W -> option (list byte) * W) (devs : list Z) (d : DevNames) :
    list string :=
  match devs with
  | [] => []
  | dev :: devs => let '(n, d) := name read_link dev d in n :: names read_link devs d
  end.

Lemma names_cached {W} (read_link : string -> W -> option (list byte) * W) devs d i dev n :
  cache d !! dev = Some n -> devs !! i = Some dev -> names read_link devs d !! i = Some n.
Proof.
  revert d i. induction devs as [|dev0 devs IH]; intros d i Hc Hi; [done|].
  cbn. pose proof (name_known read_link dev0 d) as Hk. pose proof (name_grows read_link dev0 d) as [Hg _].
  destruct (name read_link dev0 d) as [n0 d0] eqn:En. cbn in *.
  pose proof (lookup_weaken _ _ _ _ Hc Hg). destruct i as [|i]; cbn in *; [congruence|]. eauto.
Qed.

(** ** Properties *)

(** C11: What a resume was the tail end of, and what a thread had finished just
    before an instant, are classified as [resume_cause] and [prior_cause]
    say. *)
Theorem classify_causes_correct (tid ts : Z) (typed : Typed) :
  resume_cause typed tid ts (classify_resume_cause tid ts typed) /\
  prior_cause typed tid ts (classify_prior_cause tid ts typed).
Proof. split; [apply classify_resume_cause_sound|apply classify_prior_cause_sound]. Qed.

(** [partition] sorts the events by type, keeps their order, and drops the
    events of an unknown type. *)
Theorem partition_filters (events : list TraceEvent) :
  partition events =
    mkTyped (List.filter (fun e => te_event_type e =? EVENT_SCHED_BLOCK) events)
            (List.filter (fun e => te_event_type e =? EVENT_FUTEX_WAIT) events)
            (List.filter (fun e => te_event_type e =? EVENT_FUTEX_WAKE) events)
            (List.filter (fun e => te_event_type e =? EVENT_BLOCK_IO) events).
Proof.
  unfold partition.
  enough (forall t, foldl partition_push t events =
    mkTyped (block t ++ List.filter (fun e => te_event_type e =? EVENT_SCHED_BLOCK) events)
            (futex_wait t ++ List.filter (fun e => te_event_type e =? EVENT_FUTEX_WAIT) events)
            (futex_wake t ++ List.filter (fun e => te_event_type e =? EVENT_FUTEX_WAKE) events)
            (block_io t ++ List.filter (fun e => te_event_type e =? EVENT_BLOCK_IO) events))
    as H by by rewrite H.
  induction events as [|e events IH]; intros [b fw fk io]; cbn [foldl List.filter];
    [by cbn; rewrite !app_nil_r|].
  rewrite IH. unfold partition_push. cbv beta zeta.
  repeat match goal with
  | |- context [te_event_type e =? ?ty] =>
      destruct (Z.eqb_spec (te_event_type e) ty) as [E|_];
      [try rewrite E; cbn; by rewrite <- app_assoc|]
  end.
  done.
Qed.

(** [explain], with the names its chains use. *)
Lemma explain_explained {W : Type} (read_link : string -> W -> option (list byte) * W)
    (localtime : Z -> Z * Z * Z) (color : bool) (trace : TraceFile) (slowest : nat) (w : W) :
  let typed := partition (events trace) in
  exists cs w' nm, explain read_link localtime color trace slowest w = Some (cs, w') /\
    (forall dev, resolved read_link dev (nm dev)) /\
    Forall2 (stall_explained color localtime nm trace typed) (slowest_blocks typed slowest) cs /\
    Forall (fun c => 1 <= length (lines c) <= 16)%nat cs.
Proof.
  cbv zeta. unfold explain.
  destruct (explain_all_sound read_link color localtime trace (partition (events trace))
    (slowest_blocks (partition (events trace)) slowest) (DevNames_new w)) as (cs & d & -> & [_ Hs] & H).
  specialize (Hs (DevNames_new_sound read_link w)).
  pose (nm := fun dev => default (name read_link dev (DevNames_new w)).1 (cache d !! dev)).
  assert (agrees nm d) as Hnm by (intros dev n Hn; unfold nm; by rewrite Hn).
  specialize (H nm Hnm). exists cs, (fs d), nm. split_and!; [done| |done|].
  - intros dev. unfold nm. destruct (cache d !! dev) eqn:E; [by apply Hs|by exists w].
  - clear -H. induction H; constructor; [by eapply stall_explained_length|done].
Qed.

(** C2: [explain] always returns, with one chain for each of the selected
    intervals; each chain's lines are a sound explanation of it, at most 16 of
    them, and all chains name a device alike, by a name its sysfs link had. *)
Theorem explain_sound {W : Type} (read_link : string -> W -> option (list byte) * W)
    (localtime : Z -> Z * Z * Z) (color : bool) (trace : TraceFile) (slowest : nat) (w : W) :
  let typed := partition (events trace) in
  exists cs w' nm, explain read_link localtime color trace slowest w = Some (cs, w') /\
    (forall dev, resolved read_link dev (nm dev)) /\
    Forall2 (stall_explained color localtime nm trace typed) (slowest_blocks typed slowest) cs /\
    Forall (fun c => 1 <= length (lines c) <= 16)%nat cs.
Proof. exact (explain_explained read_link localtime color trace slowest w). Qed.

(** C27: The intervals explained are the longest ones: longest first, recording
    order on ties, and none left out is longer than one taken. *)
Theorem slowest_blocks_correct (typed : Typed) (slowest : nat) :
  let sel := slowest_blocks typed slowest in
  length sel = Nat.min slowest (length (block typed)) /\
  StronglySorted (fun a b => te_duration_ns b <= te_duration_ns a) sel /\
  exists rest, sel ++ rest ≡ₚ block typed /\
    (forall a b, a ∈ sel -> b ∈ rest -> te_duration_ns b <= te_duration_ns a) /\
    forall d, List.filter (fun e => te_duration_ns e =? d) (sel ++ rest) =
              List.filter (fun e => te_duration_ns e =? d) (block typed).
Proof.
  cbv zeta. unfold slowest_blocks. set (l := sort_by longer_first (block typed)).
  assert (l ≡ₚ block typed) as Hp by apply sort_by_perm.
  pose proof (sort_blocks_sorted (block typed)) as Hs. fold l in Hs.
  rewrite <- (take_drop slowest l) in Hs.
  split_and!.
  - by rewrite length_take, Hp.
  - by eapply StronglySorted_app_1_l.
  - exists (drop slowest l). rewrite take_drop. split_and!; [done| |].
    + intros a b Ha Hb. by apply (StronglySorted_app_1_elem_of _ _ _ a b Hs).
    + intros d. apply sort_by_stable. unfold longer_first.
      intros x y Hx%Z.eqb_eq Hy%Z.eqb_eq. apply Z.leb_le. lia.
Qed.

(** Walking a chain goes back in time: every link's event is stamped no
    later than the one before it. *)
Theorem chain_backwards (typed : Typed) (depth : Z) (wait : TraceEvent) (es : list edge) :
  (forall e, e ∈ futex_wake typed -> 0 <= te_timestamp_ns e /\ 0 <= te_duration_ns e) ->
  chain typed depth wait es ->
  StronglySorted (fun a b => te_timestamp_ns b <= te_timestamp_ns a) (wait :: (edge_event <$> es)).
Proof.
  intros Hwf Hc.
  assert (forall wait wake, is_waker typed wait wake -> te_timestamp_ns wake <= te_timestamp_ns wait /\
            wake_start wake <= te_timestamp_ns wake) as Hwake.
  { intros w1 w2 (Hin & _ & [Hle _] & _). split; [done|].
    destruct (Hwf w2 Hin). unfold wake_start. by apply saturating_sub_le. }
  induction Hc as [depth wait _|depth wait wake Hw _|depth wait wake Hw _ _
    |depth wait wake io Hw _ Hio|depth wait wake next es Hw _ Hn _ IH]; cbn.
  - by repeat constructor.
  - apply Hwake in Hw. repeat constructor; lia.
  - apply Hwake in Hw. repeat constructor; lia.
  - apply Hwake in Hw. destruct Hio as ((_ & _ & [Hle _] & _) & _). repeat constructor; lia.
  - apply Hwake in Hw. destruct Hn as ((_ & _ & [Hle _] & _) & _).
    cbn in IH. pose proof (StronglySorted_inv IH) as [_ Hall].
    assert (forall t, te_timestamp_ns next <= t ->
      Forall (fun e => te_timestamp_ns e <= t) (edge_event <$> es)) as Hlow.
    { intros t Ht. eapply Forall_impl; [exact Hall|]. cbn. intros; lia. }
    constructor; [constructor; [exact IH|]|]; repeat constructor; try lia; apply Hlow; lia.
Qed.

Lemma chain_backwards_witness :
  let wake := mkTraceEvent 100 10 64 7 8 EVENT_FUTEX_WAKE "w" in
  let wait := mkTraceEvent 120 50 64 7 9 EVENT_FUTEX_WAIT "v" in
  StronglySorted (fun a b => te_timestamp_ns b <= te_timestamp_ns a) [wait; wake].
Proof.
  intros wake wait. apply (chain_backwards (mkTyped [] [wait] [wake] []) 1 wait [Woken wake]).
  - intros e ->%list_elem_of_singleton. cbn. lia.
  - apply chain_unexplained; [|done|].
    + split_and!; [by apply list_elem_of_singleton|done|unfold precedes, MATCH_WINDOW_NS; cbn; lia|].
      intros x ->%list_elem_of_singleton _ _. done.
    + split; [|by intros x ?%elem_of_nil]. intros x ->%list_elem_of_singleton. done.
Defined.

(** Two lookups of a device in one run give the same name, even when the
    file system changes in between. *)
Theorem device_names_agree {W : Type} (read_link : string -> W -> option (list byte) * W)
    (devs : list Z) (w : W) (i j : nat) (dev : Z) :
  devs !! i = Some dev -> devs !! j = Some dev ->
  names read_link devs (DevNames_new w) !! i = names read_link devs (DevNames_new w) !! j.
Proof.
  generalize (DevNames_new w). revert i j. induction devs as [|dev0 devs IH]; [done|].
  intros i j d Hi Hj. cbn. pose proof (name_known read_link dev0 d) as Hc.
  destruct (name read_link dev0 d) as [n d0]. cbn in Hc.
  destruct i as [|i], j as [|j]; cbn in *; simplify_eq; [done|..].
  - symmetry. by eapply names_cached.
  - by eapply names_cached.
  - by apply IH.
Qed.

(** A file system whose links change at every look. *)
Lemma device_names_agree_witness :
  let read_link := fun (_ : string) (n : Z) => (Some (bytes_of_string (fmt_display n)), n + 1) in
  names read_link [5; 6; 5] (DevNames_new 0) !! 0%nat = names read_link [5; 6; 5] (DevNames_new 0) !! 2%nat.
Proof. intros read_link. exact (device_names_agree read_link [5; 6; 5] 0 0 2 5 eq_refl eq_refl). Defined.

(** A duration under a second is printed truncated in the largest unit that
    it reaches. *)
Theorem format_duration_subsecond (ns : Z) :
  0 <= ns < 1000000000 ->
  exists q unit suffix, format_duration ns = fmt_display q +:+ suffix /\
    (unit, suffix) ∈ [(1, "ns"); (1000, "µs"); (1000000, "ms")] /\
    q * unit <= ns < (q + 1) * unit /\ 0 <= q < 1000.
Proof.
  intros H. unfold format_duration. destruct (Z.leb_spec 1000000000 ns); [lia|].
  destruct (Z.leb_spec 1000000 ns); [|destruct (Z.leb_spec 1000 ns)].
  - exists (ns / 1000000), 1000000, "ms". split_and!; [done|set_solver|..].
    all: pose proof (Z.div_mod ns 1000000); pose proof (Z.mod_pos_bound ns 1000000); lia.
  - exists (ns / 1000), 1000, "µs". split_and!; [done|set_solver|..].
    all: pose proof (Z.div_mod ns 1000); pose proof (Z.mod_pos_bound ns 1000); lia.
  - exists ns, 1, "ns". split_and!; [done|set_solver|lia..].
Qed.

Lemma format_duration_subsecond_witness :
  exists q unit suffix, format_duration 41999999 = fmt_display q +:+ suffix /\
    (unit, suffix) ∈ [(1, "ns"); (1000, "µs"); (1000000, "ms")] /\
    q * unit <= 41999999 < (q + 1) * unit /\ 0 <= q < 1000.
Proof. apply (format_duration_subsecond 41999999). lia. Defined.
