(* ===== verification/ExplainRef.v ===== *)
(** * [explain] against a reference definition

    [explain] builds the lines of a chain while it walks it, and names devices
    through a cache. The reference first computes the links of a chain and then
    prints them, with no cache, no accumulator and no state: on a file system
    that does not change meanwhile both are equal, and the cache only saves
    look-ups. *)

From S2P Require Import Prelude RustStd Common Trace Ui Causal CausalProps.

(** ** The reference *)

Section Reference.
Context (link : string -> option (list byte)) (localtime : Z -> Z * Z * Z) (color : bool).

Definition device_name (dev : Z) : string :=
  default (dev_fallback dev)
    (p ← link (dev_path dev); f ← file_name p; Some (string_of_bytes (from_utf8_lossy f))).

(** The events of one type, in recording order. *)
Definition of_type (ty : Z) (es : list TraceEvent) : list TraceEvent :=
  List.filter (fun e => te_event_type e =? ty) es.

Definition by_type (es : list TraceEvent) : Typed :=
  mkTyped (of_type EVENT_SCHED_BLOCK es) (of_type EVENT_FUTEX_WAIT es)
    (of_type EVENT_FUTEX_WAKE es) (of_type EVENT_BLOCK_IO es).

(** The links behind a futex wait, at most [n] waits and I/Os of them. *)
Fixpoint links (n : nat) (typed : Typed) (wait : TraceEvent) : list edge :=
  match nearest_preceding (futex_wake typed) (te_timestamp_ns wait) (fun e => te_key e =? te_key wait) with
  | None => []
  | Some wake =>
      Woken wake ::
      match n with
      | O => []
      | S n =>
          match classify_prior_cause (te_tid wake) (wake_start wake) typed with
          | CauseFutex next => WaitedFutex next :: links n typed next
          | CauseBlockIo io => [WaitedIo io]
          | CauseUnknown => []
          end
      end
  end.

Definition stall_chain (trace : TraceFile) (typed : Typed) (b : TraceEvent) : Chain :=
  let line := headline color
    (format_wall_time localtime (wall_ns_for trace (saturating_sub (te_timestamp_ns b) (te_duration_ns b))))
    (te_tid b) (te_duration_ns b) in
  mkChain
    match classify_resume_cause (te_tid b) (te_timestamp_ns b) typed with
    | CauseFutex wait =>
        line ("on " +:+ futex_text color (te_key wait)) ::
        (render color device_name <$> links (Z.to_nat MAX_CHAIN_DEPTH - 1) typed wait)
    | CauseBlockIo io =>
        [line ("on " +:+ block_io_text color (device_name (unpack_block_key (te_key io)).1)
                           (unpack_block_key (te_key io)).2)]
    | CauseUnknown => [line (dim color "(no correlated cause found)")]
    end.

(** The [slowest] longest blocked intervals, each with its chain. *)
Definition explanations (trace : TraceFile) (slowest : nat) : list Chain :=
  let typed := by_type (events trace) in
  stall_chain trace typed <$> take slowest (sort_by longer_first (block typed)).

(** ** The cache *)

Context {W : Type} (read_link : string -> W -> option (list byte) * W).

(** The links are what [link] says whatever is done to the file system. *)
Hypothesis Hlink : forall path w, (read_link path w).1 = link path.

Definition faithful (d : @DevNames W) : Prop := agrees device_name d.

Lemma name_reference dev d : faithful d ->
  (name read_link dev d).1 = device_name dev /\ faithful (name read_link dev d).2.
Proof.
  intros Hd. unfold name. destruct (cache d !! dev) as [n|] eqn:E.
  { cbn. split; [symmetry; by apply Hd|done]. }
  pose proof (Hlink (dev_path dev) (fs d)) as Hl. destruct (read_link _ _) as [target w]. cbn in Hl.
  subst target. split; [done|]. intros dev' n'. cbn. intros Hn.
  destruct (decide (dev = dev')) as [<-|Hne].
  - rewrite lookup_insert_eq in Hn. by injection Hn.
  - rewrite lookup_insert_ne in Hn by done. by apply Hd.
Qed.

Lemma walk_reference n wait typed d depth acc :
  faithful d -> depth = MAX_CHAIN_DEPTH - Z.of_nat n ->
  exists d', walk_from_futex_wait read_link color (S n) wait typed d depth acc =
    Some (acc ++ (render color device_name <$> links n typed wait), d') /\ faithful d'.
Proof.
  revert wait d depth acc. induction n as [|n IH]; intros wait d depth acc Hd ->.
  all: cbn [walk_from_futex_wait links];
    destruct (nearest_preceding _ _ _) as [wake|]; [|exists d; by rewrite app_nil_r].
  - rewrite Z.sub_0_r, Z.leb_refl. by exists d.
  - rewrite (proj2 (Z.leb_gt _ _)) by lia. cbv zeta.
    pose proof (classify_prior_cause_sound (te_tid wake) (wake_start wake) typed) as Hc.
    unfold wake_start in *. destruct (classify_prior_cause _ _ _) as [next|io|].
    + destruct (IH next d (MAX_CHAIN_DEPTH - Z.of_nat (S n) + 1)
        ((acc ++ [woken_line color (te_tid wake)]) ++
         [blocked_line color (te_tid wake) (te_duration_ns next) (futex_text color (te_key next))]) Hd)
        as (d' & Hw & Hd'); [lia|].
      exists d'. split; [|done]. etrans; [exact Hw|]. rewrite <- !app_assoc. cbn.
      by replace (te_tid next) with (te_tid wake) by (symmetry; apply Hc).
    + destruct (name_reference (unpack_block_key (te_key io)).1 d Hd) as [Hn Hd'].
      destruct (unpack_block_key (te_key io)) as [dev sector] eqn:Eu. cbn [fst snd] in *.
      destruct (name read_link dev d) as [nm d'] eqn:En. exists d'. split; [|done].
      rewrite <- app_assoc, !fmap_cons, fmap_nil. cbn [render fst snd] in Hn |- *. rewrite Eu. cbn [fst snd].
      rewrite <- Hn. by replace (te_tid io) with (te_tid wake) by (symmetry; apply Hc).
    + by exists d.
Qed.

Lemma stall_reference trace typed b d : faithful d ->
  exists d', explain_one_stall read_link localtime color b trace typed d =
    Some (stall_chain trace typed b, d') /\ faithful d'.
Proof.
  intros Hd. unfold explain_one_stall, stall_chain. cbv zeta.
  destruct (classify_resume_cause _ _ _) as [wait|io|].
  - edestruct (walk_reference (Z.to_nat MAX_CHAIN_DEPTH - 1) wait typed d 1) as (d' & Hw & Hd'); [done|done|].
    exists d'. split; [|done]. change walk_fuel with (S (Z.to_nat MAX_CHAIN_DEPTH - 1)). by rewrite Hw.
  - destruct (name_reference (unpack_block_key (te_key io)).1 d Hd) as [Hn Hd'].
    destruct (unpack_block_key (te_key io)) as [dev sector]. cbn [fst snd] in *.
    destruct (name read_link dev d) as [nm d'] eqn:En. exists d'. cbn in Hn. by rewrite <- Hn.
  - by exists d.
Qed.

Lemma explain_all_reference trace typed blocks d : faithful d ->
  exists d', explain_all read_link localtime color blocks trace typed d =
    Some (stall_chain trace typed <$> blocks, d') /\ faithful d'.
Proof.
  revert d. induction blocks as [|b blocks IH]; intros d Hd; cbn [explain_all]; [by exists d|].
  destruct (stall_reference trace typed b d Hd) as (d1 & -> & Hd1). cbn.
  destruct (IH d1 Hd1) as (d2 & -> & Hd2). cbn. by exists d2.
Qed.
End Reference.

(** ** The property *)

(** [explain] is the reference. *)
Lemma explain_is_reference {W : Type} (read_link : string -> W -> option (list byte) * W)
    (link : string -> option (list byte)) (localtime : Z -> Z * Z * Z) (color : bool)
    (trace : TraceFile) (slowest : nat) (w : W) :
  (forall path w, (read_link path w).1 = link path) ->
  exists w', explain read_link localtime color trace slowest w =
    Some (explanations link localtime color trace slowest, w').
Proof.
  intros Hlink. unfold explain, explanations. rewrite partition_filters.
  edestruct (explain_all_reference link localtime color read_link Hlink) as (d' & -> & _);
    [|by exists (fs d')].
  intros dev n. cbn. by rewrite lookup_empty.
Qed.

(** C8: On a file system whose links stay what they are, [explain] computes
    exactly the reference: the cache, the accumulators and the depth counter
    change nothing of the result. *)
Theorem explain_reference {W : Type} (read_link : string -> W -> option (list byte) * W)
    (link : string -> option (list byte)) (localtime : Z -> Z * Z * Z) (color : bool)
    (trace : TraceFile) (slowest : nat) (w : W) :
  (forall path w, (read_link path w).1 = link path) ->
  exists w', explain read_link localtime color trace slowest w =
    Some (explanations link localtime color trace slowest, w').
Proof. exact (explain_is_reference read_link link localtime color trace slowest w). Qed.

Lemma explain_reference_witness :
  let wait := mkTraceEvent 120 50 64 7 9 EVENT_FUTEX_WAIT "v" in
  let trace := mkTraceFile 0 0
    [mkTraceEvent 119 50 0 7 9 EVENT_SCHED_BLOCK "v"; mkTraceEvent 100 10 64 7 8 EVENT_FUTEX_WAKE "w"; wait;
     mkTraceEvent 85 40 (pack_block_key 8388609 5) 7 8 EVENT_BLOCK_IO "w"] in
  let link := fun _ : string => Some (bytes_of_string "../../block/sda/sda1") in
  let reference := explanations link (fun _ => (0, 0, 0)) false trace 5 in
  (exists w', explain (fun p n => (link p, n + 1)) (fun _ => (0, 0, 0)) false trace 5 0 = Some (reference, w')) /\
  lines <$> reference =
    [["00:00:00.000 — tid 9 blocked 50ns on futex 0x40"; " ← woken by tid 8";
      " ← tid 8 blocked 40ns on block I/O (dev sda1, sector 5)"]].
Proof. split; [by apply explain_reference|vm_compute; reflexivity]. Defined.

(** ** What the cache saves *)

Section Reads.
Context {W : Type} (read_link : string -> W -> option (list byte) * W).

(** [d'] is [d] after some more devices were named. *)
Definition named (d d' : @DevNames W) : Prop :=
  rtc (fun d d' => exists dev, is_u32 dev /\ d' = (name read_link dev d).2) d d'.

Lemma named_one key d : named d (name read_link (unpack_block_key key).1 d).2.
Proof. apply rtc_once. eexists. split; [apply as_uint_range; lia|done]. Qed.

Context (localtime : Z -> Z * Z * Z) (color : bool).

Lemma walk_named fuel wait typed d depth acc ls d' :
  walk_from_futex_wait read_link color fuel wait typed d depth acc = Some (ls, d') -> named d d'.
Proof.
  revert wait depth acc. induction fuel as [|fuel IH]; intros wait depth acc; [done|].
  cbn [walk_from_futex_wait]. destruct (nearest_preceding _ _ _) as [wake|]; [|intros [= _ <-]; apply rtc_refl].
  destruct (_ <=? _); [intros [= _ <-]; apply rtc_refl|]. destruct (classify_prior_cause _ _ _) as [next|io|].
  - apply IH.
  - pose proof (named_one (te_key io) d) as Hn. destruct (unpack_block_key (te_key io)) as [dev sector].
    cbn [fst] in Hn. destruct (name read_link dev d) as [n d1]. intros [= _ <-]. exact Hn.
  - intros [= _ <-]; apply rtc_refl.
Qed.

Lemma stall_named trace typed b d c d' :
  explain_one_stall read_link localtime color b trace typed d = Some (c, d') -> named d d'.
Proof.
  unfold explain_one_stall. destruct (classify_resume_cause _ _ _) as [wait|io|].
  - intros ([ls d1] & Hw & [= _ <-])%bind_Some. by eapply walk_named.
  - pose proof (named_one (te_key io) d) as Hn. destruct (unpack_block_key (te_key io)) as [dev sector].
    cbn [fst] in Hn. destruct (name read_link dev d) as [n d1]. intros [= _ <-]. exact Hn.
  - intros [= _ <-]; apply rtc_refl.
Qed.

Lemma explain_all_named trace typed blocks d cs d' :
  explain_all read_link localtime color blocks trace typed d = Some (cs, d') -> named d d'.
Proof.
  revert d cs. induction blocks as [|b blocks IH]; intros d cs; cbn [explain_all]; [intros [= _ <-]; apply rtc_refl|].
  intros ([c d1] & Hc & ([cs1 d2] & Hcs & [= _ <-])%bind_Some)%bind_Some.
  unfold named. etrans; [by eapply stall_named|by eapply IH].
Qed.
End Reads.

(** [read_link] with a log of the paths it was called on. *)
Definition logging {W} (read_link : string -> W -> option (list byte) * W) (path : string)
    (wl : W * list string) : option (list byte) * (W * list string) :=
  let '(target, w) := read_link path wl.1 in (target, (w, path :: wl.2)).

Lemma display_no_colon n : 0 <= n -> byte_of 58 ∉ bytes_of_string (fmt_display n).
Proof.
  intros Hn Hb. unfold fmt_display in Hb. rewrite (proj2 (Z.ltb_ge n 0)) in Hb by done. unfold fmt_radix in Hb.
  rewrite String.list_ascii_of_string_of_list_ascii in Hb.
  apply list_elem_of_fmap in Hb as (d & Hd & Hin). rewrite elem_of_reverse in Hin.
  pose proof (radix_digits_range (radix_fuel n) 10 n ltac:(lia) Hn) as Hr. rewrite Forall_forall in Hr.
  specialize (Hr d Hin). apply (f_equal byte_val) in Hd. unfold digit_char in Hd.
  rewrite (proj2 (Z.ltb_lt d 10)), !byte_val_of in Hd by lia. lia.
Qed.

Lemma app_sep_inj {A} (sep : A) l l' k k' :
  sep ∉ l -> sep ∉ l' -> l ++ sep :: k = l' ++ sep :: k' -> l = l' /\ k = k'.
Proof.
  revert l'. induction l as [|a l IH]; intros [|a' l'] Hl Hl' He; cbn in He.
  - by injection He.
  - injection He as -> _. rewrite elem_of_cons in Hl'. tauto.
  - injection He as -> _. rewrite elem_of_cons in Hl. tauto.
  - injection He as -> He. apply not_elem_of_cons in Hl as [_ Hl], Hl' as [_ Hl'].
    by destruct (IH l' Hl Hl' He) as [-> ->].
Qed.

Lemma display_bytes_inj m n :
  bytes_of_string (fmt_display m) = bytes_of_string (fmt_display n) -> 0 <= m -> 0 <= n -> m = n.
Proof.
  intros E%(f_equal string_of_bytes) Hm Hn. rewrite !String.string_of_list_ascii_of_string in E.
  unfold fmt_display in E. rewrite !(proj2 (Z.ltb_ge _ 0)) in E by done.
  rewrite <- (parse_fmt_radix 10 m), <- (parse_fmt_radix 10 n) by lia. by rewrite E.
Qed.

Lemma dev_path_inj dev dev' : is_u32 dev -> is_u32 dev' -> dev_path dev = dev_path dev' -> dev = dev'.
Proof.
  assert (Hp : forall d, is_u32 d -> 0 <= Z.shiftr d 20 /\ 0 <= Z.land d 0xFFFFF /\
    d = Z.shiftr d 20 * 2 ^ 20 + Z.land d 0xFFFFF).
  { intros d [H _]. change 0xFFFFF with (2 ^ 20 - 1). rewrite land_low, Z.shiftr_div_pow2 by lia.
    pose proof (Z.div_mod d (2 ^ 20)). pose proof (Z.mod_pos_bound d (2 ^ 20)).
    split_and!; [apply Z.div_pos; lia|lia|lia]. }
  intros Hd Hd'. destruct (Hp dev Hd) as (Hh & Hl & E), (Hp dev' Hd') as (Hh' & Hl' & E').
  intros Heq%(f_equal (fun s => bytes_of_string s)). unfold dev_path in Heq. rewrite !bytes_app in Heq.
  apply (inj (app _)) in Heq. cbn [app] in Heq.
  apply app_sep_inj in Heq as [H1 H2]; [|by apply display_no_colon..].
  apply display_bytes_inj in H1, H2; [congruence|done..].
Qed.

(** The log holds the paths of the devices in the cache, once each. *)
Definition read_once {W} (d : @DevNames (W * list string)) : Prop :=
  exists devs, (fs d).2 = dev_path <$> devs /\ NoDup devs /\ Forall (fun dev => is_u32 dev) devs /\
    forall dev, dev ∈ devs <-> is_Some (cache d !! dev).

Lemma read_once_name {W} (read_link : string -> W -> option (list byte) * W) dev d :
  is_u32 dev -> read_once d -> read_once (name (logging read_link) dev d).2.
Proof.
  intros Hdev (devs & Hl & Hnd & Hu & Hc). unfold name. destruct (cache d !! dev) as [n|] eqn:E; [by exists devs|].
  unfold logging. destruct (read_link _ _) as [target w]. cbn. exists (dev :: devs). cbn. rewrite Hl.
  split_and!; [done| | |].
  - constructor; [|done]. rewrite Hc, E. by intros [].
  - by constructor.
  - intros dev'. rewrite elem_of_cons, Hc. destruct (decide (dev' = dev)) as [->|Hne].
    + rewrite lookup_insert_eq. split; [by eauto|by left].
    + rewrite lookup_insert_ne by done. split; [by intros [?|?]|by right].
Qed.

Lemma read_once_named {W} (read_link : string -> W -> option (list byte) * W) d d' :
  named (logging read_link) d d' -> read_once d -> read_once d'.
Proof. induction 1 as [|d d1 d' (dev & Hdev & ->) _ IH]; [done|]. intros Hd. by apply IH, read_once_name. Qed.

(** C31: However many lines name a device, its link is read at most once: the paths
    [explain] reads are distinct, and each is one of a block device. *)
Theorem links_read_once {W : Type} (read_link : string -> W -> option (list byte) * W)
    (localtime : Z -> Z * Z * Z) (color : bool) (trace : TraceFile) (slowest : nat) (w : W) :
  exists cs w' paths,
    explain (logging read_link) localtime color trace slowest (w, []) = Some (cs, (w', paths)) /\
    NoDup paths /\ Forall (fun path => exists dev, is_u32 dev /\ path = dev_path dev) paths.
Proof.
  unfold explain.
  destruct (explain_all_sound (logging read_link) color localtime trace (partition (events trace))
    (slowest_blocks (partition (events trace)) slowest) (DevNames_new (w, []))) as (cs & d & He & _).
  rewrite He. apply explain_all_named in He. apply read_once_named in He as (devs & Hl & Hnd & Hu & _).
  - cbn. destruct (fs d) as [w' paths]. cbn in Hl. subst paths. exists cs, w', (dev_path <$> devs).
    split_and!; [done| |].
    + apply NoDup_fmap_2_strong; [|done]. rewrite Forall_forall in Hu.
      intros x y Hx Hy. apply dev_path_inj; by apply Hu.
    + apply Forall_fmap. eapply Forall_impl; [exact Hu|]. intros dev Hdev. by exists dev.
  - exists []. split_and!; [done|constructor|constructor|]. intros dev. cbn. rewrite lookup_empty.
    split; [by intros ?%elem_of_nil|by intros []].
Qed.
