(* ===== verification/ReportText.v ===== *)
(** * The report is text

    A Rust [String] is well-formed UTF-8, while a [string] of this development
    is any sequence of bytes. Every line of the report is built from literals,
    numbers and device names, and is well-formed too, whatever bytes the names
    came from. *)

From S2P Require Import Prelude RustStd Common Trace Ui Causal CausalProps.

Definition is_text (s : string) : Prop := utf8_valid (bytes_of_string s).

Create HintDb text.

Lemma text_app s t : is_text s -> is_text t -> is_text (s +:+ t).
Proof. unfold is_text. rewrite bytes_app. apply utf8_valid_app. Qed.

Lemma text_ascii s : forallb (fun b => byte_val b <? 128) (bytes_of_string s) = true -> is_text s.
Proof.
  intros H. apply ascii_utf8_valid, Forall_forall. intros b Hb%list_elem_of_In.
  apply Z.ltb_lt. exact (proj1 (forallb_forall _ _) H b Hb).
Qed.

Lemma text_lossy l : is_text (string_of_bytes (from_utf8_lossy l)).
Proof.
  unfold is_text. rewrite String.list_ascii_of_string_of_list_ascii. apply from_utf8_lossy_valid.
Qed.

(** A literal is text if reading it as UTF-8 changes nothing. *)
Lemma text_literal s : from_utf8_lossy (bytes_of_string s) = bytes_of_string s -> is_text s.
Proof. unfold is_text. intros <-. apply from_utf8_lossy_valid. Qed.

#[export] Hint Resolve text_app text_lossy : text.
#[export] Hint Extern 2 (is_text _) => (apply text_literal; reflexivity) : text.

(** ** Numbers *)

Lemma digit_char_ascii d : d < 16 -> byte_val (digit_char d) < 128.
Proof.
  intros Hd. unfold digit_char. destruct (Z.ltb_spec d 10).
  - destruct (Z.le_gt_cases 0 (48 + d)); [rewrite byte_val_of; lia|].
    unfold byte_of. by replace (Z.to_N (48 + d)) with 0%N by lia.
  - rewrite byte_val_of; lia.
Qed.

Lemma radix_digits_small fuel b n : 2 <= b <= 16 -> Forall (fun d => d < 16) (radix_digits fuel b n).
Proof.
  intros Hb. revert n. induction fuel as [|fuel IH]; intros n; cbn; [constructor|].
  destruct (Z.ltb_spec n b); [repeat constructor; lia|].
  constructor; [pose proof (Z.mod_pos_bound n b); lia|apply IH].
Qed.

Lemma text_radix b n : 2 <= b <= 16 -> is_text (fmt_radix b n).
Proof.
  intros Hb. unfold is_text, fmt_radix. rewrite String.list_ascii_of_string_of_list_ascii.
  apply ascii_utf8_valid, Forall_fmap, Forall_reverse.
  eapply Forall_impl; [by apply radix_digits_small|]. exact digit_char_ascii.
Qed.

Lemma text_repeat s n : is_text s -> is_text (repeat_str s n).
Proof. intros Hs. induction n as [|n IH]; cbn [repeat_str]; auto with text. Qed.

#[export] Hint Resolve text_repeat : text.

Lemma text_display n : is_text (fmt_display n).
Proof. unfold fmt_display. destruct (_ <? _); [apply text_app; [auto with text|]|]; apply text_radix; lia. Qed.

Lemma text_zero_pad w n : is_text (fmt_zero_pad w n).
Proof.
  unfold fmt_zero_pad. apply text_app; [by destruct (_ <? _); auto with text|].
  apply text_app; [auto with text|apply text_radix; lia].
Qed.

Lemma text_hex n : is_text (fmt_lower_hex_alt n).
Proof. unfold fmt_lower_hex_alt. apply text_app; [auto with text|apply text_radix; lia]. Qed.

#[export] Hint Resolve text_display text_zero_pad text_hex : text.

Lemma text_f64 x : is_text (fmt_f64_2 x).
Proof. destruct x as [[]|[]| |[] m e]; cbn [fmt_f64_2]; unfold fmt_cents; auto 8 with text. Qed.

Lemma text_duration ns : is_text (format_duration ns).
Proof. pose proof text_f64. unfold format_duration. repeat case_match; auto with text. Qed.

#[export] Hint Resolve text_duration : text.

(** ** Lines *)

Lemma text_paint c code s : is_text code -> is_text s -> is_text (paint c code s).
Proof. intros Hc Hs. unfold paint. destruct c; [|done]. auto 10 with text. Qed.

#[export] Hint Resolve text_paint : text.
#[export] Hint Unfold bold dim bold_yellow bold_red magenta cyan green bold_cyan blue : text.

Lemma text_wall localtime ns : is_text (format_wall_time localtime ns).
Proof. unfold format_wall_time. destruct (localtime _) as [[h m] s]. auto 12 with text. Qed.

#[export] Hint Resolve text_wall : text.

Lemma text_futex color key : is_text (futex_text color key).
Proof. unfold futex_text, magenta. auto with text. Qed.

Lemma text_block_io color n sector : is_text n -> is_text (block_io_text color n sector).
Proof. intros Hn. unfold block_io_text, cyan. apply text_paint; auto 10 with text. Qed.

Lemma text_tid color tid : is_text (tid_text color tid).
Proof. unfold tid_text, bold_yellow. auto with text. Qed.

Lemma text_arrow color : is_text (arrow color).
Proof. unfold arrow, dim. auto with text. Qed.

#[export] Hint Resolve text_futex text_block_io text_tid text_arrow : text.

Lemma text_headline color wall tid dur what :
  is_text wall -> is_text what -> is_text (headline color wall tid dur what).
Proof.
  intros Hw Hwhat. unfold headline, blue, dim, bold_red.
  repeat apply text_app; auto with text.
Qed.

Lemma text_woken color tid : is_text (woken_line color tid).
Proof. unfold woken_line, green. repeat apply text_app; auto with text. Qed.

Lemma text_blocked color tid dur what : is_text what -> is_text (blocked_line color tid dur what).
Proof. intros Hw. unfold blocked_line, bold_red. repeat apply text_app; auto with text. Qed.

#[export] Hint Resolve text_headline text_woken text_blocked : text.

(** ** The report *)

Lemma text_resolved {W} (read_link : string -> W -> option (list byte) * W) dev n :
  resolved read_link dev n -> is_text n.
Proof.
  intros [w ->]. unfold name, DevNames_new. cbn [cache]. rewrite lookup_empty.
  destruct (read_link _ _) as [target w']. cbn [Datatypes.fst].
  assert (is_text (dev_fallback dev)) by (unfold dev_fallback; auto 10 with text).
  destruct target as [p|]; [|done]. cbn. destruct (file_name p); [apply text_lossy|done].
Qed.

Lemma text_render color nm e : (forall dev, is_text (nm dev)) -> is_text (render color nm e).
Proof. intros Hnm. destruct e; cbn [render]; auto with text. Qed.

Lemma text_stall color localtime nm trace typed b c :
  (forall dev, is_text (nm dev)) -> stall_explained color localtime nm trace typed b c ->
  Forall is_text (lines c).
Proof.
  intros Hnm [(wait & es & _ & _ & ->)|[(io & _ & ->)|[_ ->]]]; constructor;
    try (apply text_headline; [apply text_wall|]); unfold dim; auto with text.
  apply Forall_fmap, Forall_forall. intros e _. by apply text_render.
Qed.

Lemma text_print_chains color cs :
  Forall (fun c => Forall is_text (lines c)) cs -> Forall is_text (print_chains color cs).
Proof.
  intros Hcs. unfold print_chains. destruct cs as [|c0 cs]; [repeat constructor; auto with text|].
  apply Forall_app. split; [unfold bold_cyan; repeat constructor; auto 10 with text|].
  apply Forall_concat, Forall_forall. intros ls Hls. apply list_elem_of_lookup in Hls as [i Hi].
  rewrite list_lookup_imap in Hi. destruct ((c0 :: cs) !! i) as [c|] eqn:E; [|done]. injection Hi as <-.
  rewrite Forall_lookup in Hcs. unfold chain_lines. apply Forall_app. split; [|by eapply Hcs].
  destruct (0 <? i)%nat; unfold dim; repeat constructor; auto with text.
Qed.

Lemma explain_text {W : Type} (read_link : string -> W -> option (list byte) * W)
    (localtime : Z -> Z * Z * Z) (color : bool) (trace : TraceFile) (slowest : nat) (w : W) cs w' :
  explain read_link localtime color trace slowest w = Some (cs, w') ->
  Forall is_text (print_chains color cs).
Proof.
  destruct (explain_explained read_link localtime color trace slowest w) as (cs1 & w1 & nm & He & Hnm & Hcs & _).
  rewrite He. intros [= <- <-]. apply text_print_chains.
  clear He. induction Hcs as [|b c bs cs Hb _ IH]; constructor; [|done].
  eapply text_stall; [|exact Hb]. intros dev. eapply text_resolved, Hnm.
Qed.
