(* ===== verification/Paths.v ===== *)
(** * std::path and std::env, as far as the build scripts and the test use them

    A Unix path is the bytes of its name. [Path::parent] parses components
    from the back, without the empty ones and the ["."]s that do not come
    first, and cuts what it has passed; [Path::join] is [PathBuf::push]. *)

From S2P Require Import Prelude RustStd.

(** Components that are normalized away. *)
Definition ignorable (c : list byte) : bool := bool_decide (c = [] \/ c = [dot]).

(** The last component of a body read from its end, and what comes before
    its separator; [c] is the part of the component read so far. *)
Fixpoint parse_back (c rbody : list byte) : option (list byte * list byte) :=
  match rbody with
  | [] => if ignorable c then None else Some (c, [])
  | b :: rbody =>
      if decide (b = slash) then if ignorable c then parse_back [] rbody else Some (c, rbody)
      else parse_back (b :: c) rbody
  end.

(** [trim_right]: [whole] is what was left when [c] began. *)
Fixpoint trim_from (whole c rbody : list byte) : list byte :=
  match rbody with
  | [] => if ignorable c then [] else whole
  | b :: rbody =>
      if decide (b = slash) then if ignorable c then trim_from rbody [] rbody else whole
      else trim_from whole (b :: c) rbody
  end.

Definition trim_back (rbody : list byte) : list byte := trim_from rbody [] rbody.

Definition has_root (p : list byte) : bool :=
  match p with b :: _ => bool_decide (b = slash) | [] => false end.

Definition include_cur_dir (p : list byte) : bool :=
  match p with
  | [a] => bool_decide (a = dot)
  | a :: b :: _ => bool_decide (a = dot /\ b = slash)
  | [] => false
  end.

Definition len_before_body (p : list byte) : nat := if has_root p || include_cur_dir p then 1 else 0.

Definition parent (p : list byte) : option (list byte) :=
  let n := len_before_body p in
  match parse_back [] (reverse (drop n p)) with
  | Some (_, rest) => Some (take n p ++ reverse (trim_back rest))
  | None => if include_cur_dir p then Some [] else None
  end.

Definition path_join (p q : list byte) : list byte :=
  if has_root q then q
  else p ++ match last p with Some c => if decide (c = slash) then [] else [slash] | None => [] end ++ q.

Example parents :
  map (fun s => fmap string_of_bytes (parent (bytes_of_string s)))
    ["/a/b"; "/a//b/./"; "/a"; "/"; "a/b"; "a"; ""; "./a"; "."; "../a"; "//a"] =
  [Some "/a"; Some "/a"; Some "/"; None; Some "a"; Some ""; None; Some "."; Some ""; Some ".."; Some "/"].
Proof. vm_compute. reflexivity. Qed.

(** ** Absolute paths *)

#[local] Opaque slash dot.

Definition is_component (c : list byte) : Prop := (slash ∉ c) /\ c <> [] /\ c <> [dot].

Definition absolute (cs : list (list byte)) : list byte := mjoin (cons slash <$> cs).

Lemma absolute_snoc cs c : absolute (cs ++ [c]) = absolute cs ++ slash :: c.
Proof.
  induction cs as [|d cs IH]; [cbn; by rewrite app_nil_r|].
  change (slash :: d ++ absolute (cs ++ [c]) = slash :: (d ++ absolute cs) ++ slash :: c).
  by rewrite IH, app_assoc.
Qed.

Lemma component_kept c : is_component c -> ignorable c = false.
Proof. intros (_ & H1 & H2). apply bool_decide_eq_false. by intros [?|?]. Qed.

Lemma parse_back_component c acc rest :
  slash ∉ c -> ignorable (c ++ acc) = false ->
  parse_back acc (reverse c ++ slash :: rest) = Some (c ++ acc, rest) /\
  parse_back acc (reverse c) = Some (c ++ acc, []).
Proof.
  revert acc. induction c as [|b c IH] using rev_ind; intros acc Hc Hi; cbn in *.
  - by rewrite Hi.
  - rewrite not_elem_of_app, not_elem_of_cons in Hc. destruct Hc as (Hc & Hb & _).
    rewrite reverse_snoc. cbn. rewrite !decide_False by congruence.
    rewrite <- app_assoc in *. by apply IH.
Qed.

Lemma trim_from_component whole c acc rest :
  slash ∉ c -> ignorable (c ++ acc) = false ->
  trim_from whole acc (reverse c ++ slash :: rest) = whole /\ trim_from whole acc (reverse c) = whole.
Proof.
  revert acc. induction c as [|b c IH] using rev_ind; intros acc Hc Hi; cbn in *.
  - by rewrite Hi.
  - rewrite not_elem_of_app, not_elem_of_cons in Hc. destruct Hc as (Hc & Hb & _).
    rewrite reverse_snoc. cbn. rewrite !decide_False by congruence.
    rewrite <- app_assoc in *. by apply IH.
Qed.

Lemma len_rooted p : len_before_body (slash :: p) = 1%nat.
Proof. unfold len_before_body. cbn [has_root]. by rewrite bool_decide_eq_true_2. Qed.

(** The parent of an absolute path drops its last component. *)
Lemma parent_absolute cs c :
  Forall is_component (cs ++ [c]) ->
  parent (absolute (cs ++ [c])) = Some (if decide (cs = []) then [slash] else absolute cs).
Proof.
  intros [Hcs Hc%Forall_inv]%Forall_app. pose proof (component_kept _ Hc) as Hi. destruct Hc as [Hn _].
  rewrite <- (app_nil_r c) in Hi.
  rewrite absolute_snoc. destruct cs as [|d cs]; unfold parent.
  - destruct (parse_back_component c [] [] Hn Hi) as [_ E].
    change (absolute [] ++ slash :: c) with (slash :: c). rewrite len_rooted. cbn [skipn firstn]; rewrite skipn_O, firstn_O. by rewrite E.
  - rewrite decide_False by done.
    change (absolute (d :: cs) ++ slash :: c) with (slash :: (d ++ absolute cs) ++ slash :: c).
    rewrite len_rooted. cbn [skipn firstn]; rewrite skipn_O, firstn_O.
    rewrite reverse_app, reverse_cons, <- app_assoc. cbn [app].
    destruct (parse_back_component c [] (reverse (d ++ absolute cs)) Hn Hi) as [-> _].
    enough (trim_back (reverse (d ++ absolute cs)) = reverse (d ++ absolute cs)) as E
      by (rewrite E; by rewrite reverse_involutive).
    unfold trim_back. destruct cs as [|z cs _] using rev_ind.
    + apply Forall_inv in Hcs. pose proof (component_kept _ Hcs) as Hd. rewrite <- (app_nil_r d) in Hd.
      unfold absolute. cbn. rewrite app_nil_r. by apply (trim_from_component _ d [] [] (proj1 Hcs) Hd).
    + rewrite app_comm_cons in Hcs. apply Forall_app in Hcs as [_ Hz%Forall_inv].
      pose proof (component_kept _ Hz) as Hd. rewrite <- (app_nil_r z) in Hd.
      rewrite absolute_snoc, app_assoc, reverse_app, reverse_cons, <- app_assoc.
      by apply (trim_from_component _ z [] _ (proj1 Hz) Hd).
Qed.

Lemma path_join_absolute cs c :
  cs <> [] -> Forall is_component cs -> is_component c -> path_join (absolute cs) c = absolute (cs ++ [c]).
Proof.
  intros Hne Hcs (Hc & Hc0 & _). rewrite absolute_snoc. unfold path_join.
  assert (has_root c = false) as ->.
  { destruct c as [|b c]; [done|]. apply bool_decide_eq_false. intros ->. apply Hc, list_elem_of_here. }
  destruct cs as [|z cs _] using rev_ind; [done|]. apply Forall_app in Hcs as [_ (Hz & Hz0 & _)%Forall_inv].
  rewrite absolute_snoc. destruct z as [|y z _] using rev_ind; [done|].
  assert (last (absolute cs ++ slash :: z ++ [y]) = Some y) as ->
    by (rewrite app_comm_cons, app_assoc; apply last_snoc).
  rewrite decide_False; [done|]. intros ->. apply Hz, elem_of_app. right. apply list_elem_of_here.
Qed.
