(* ===== verification/Os.v ===== *)
(** * The CLI's environment and effect monad

    What the CLI calls and does not implement: libc, [std::process], the file
    system with serde_json, and aya. The class [Os] lists the calls; the monad
    [M] runs a program against an [Os], keeps a log of the calls it made with
    their results, and stops at the first error, panic, or exhausted fuel of a
    loop. *)

From S2P Require Import Prelude RustStd Trace Ui.

(** An [anyhow::Error]: its chain of messages, the outermost context first. *)
Definition error : Type := list string.

Definition context {A : Type} (msg : string) (r : result error A) : result error A :=
  map_err (cons msg) r.

(** [anyhow!(...)], and the conversion of a foreign error by [?]. *)
Definition anyhow (msg : string) : error := [msg].

Inductive clock := CLOCK_REALTIME | CLOCK_MONOTONIC.

(** The environment. A fallible call returns its error's message. *)
Class Os (W : Type) := {
  (* std::env, std::io *)
  os_no_color_set : W -> bool * W;
  os_stdout_is_terminal : W -> bool * W;
  (* libc *)
  os_geteuid : W -> Z * W;
  os_setrlimit_memlock : W -> Z * W;
  os_clock_gettime : clock -> W -> option timespec * W;
  os_waitpid : Z -> bool -> W -> result string (Z * Z) * W;  (* pid, WNOHANG; returned pid, status *)
  os_ptrace_detach : Z -> W -> result string unit * W;
  os_kill_0 : Z -> W -> Z * W;
  os_signal_sigint : W -> W;
  os_poll : Z -> W -> W;
  os_wifstopped : Z -> bool;
  os_wifexited : Z -> bool;
  os_wifsignaled : Z -> bool;
  os_localtime : Z -> Z * Z * Z;
  (* std::process and std::time *)
  os_spawn_traced : list string -> W -> result string Z * W;
  os_instant_now : W -> (Z * Z) * W;
  (* the atomic STOP_REQUESTED, which the signal handler stores to at any time *)
  os_stop_requested : W -> bool * W;
  os_store_stop_requested : bool -> W -> W;
  (* std::fs, serde_json *)
  os_read_link : string -> W -> option (list byte) * W;
  os_file_create : string -> W -> result string unit * W;
  os_to_writer_pretty : string -> TraceFile -> W -> result string unit * W;  (* to the created file *)
  os_file_open : string -> W -> result string unit * W;
  os_from_reader : string -> W -> result string TraceFile * W;  (* from the opened file *)
  (* aya *)
  os_ebpf_load : W -> result string unit * W;
  os_program_mut : string -> W -> bool * W;
  os_program_try_into : string -> W -> result string unit * W;
  os_program_load : string -> W -> result string unit * W;
  os_program_attach : string -> string -> string -> W -> result string unit * W;
  os_map_mut : string -> W -> bool * W;
  os_map_try_from : string -> W -> result string unit * W;
  os_array_set : Z -> Z -> W -> result string unit * W;
  os_ring_next : W -> option (list byte) * W;
}.

(** The calls whose order matters, as logged. *)
Inductive entry :=
  | LPrint (line : string)
  | LEprint (line : string)
  | LSpawn (argv : list string) (r : result string Z)
  | LWaitpid (pid : Z) (nohang : bool)
  | LLoad (r : result string unit)
  | LAttach (prog category name : string) (r : result string unit)
  | LSetTarget (tgid : Z) (r : result string unit)
  | LClock (c : clock)
  | LDetach (pid : Z) (r : result string unit)
  | LRingNext (item : option (list byte))
  | LPoll
  | LCreate (path : string) (r : result string unit)
  | LWriteTrace (path : string) (f : TraceFile) (r : result string unit)
  | LOpen (path : string) (r : result string unit)
  | LReadTrace (path : string).

Inductive outcome (A : Type) :=
  | Done (a : A)
  | Fail (e : error)
  | Panic (msg : string)
  | OutOfFuel.
Arguments Done {A} a.
Arguments Fail {A} e.
Arguments Panic {A} msg.
Arguments OutOfFuel {A}.

Section Monad.
Context {W : Type}.

(** The environment, the log (oldest first), and the colour cell of [Ui]. *)
Record sys := mkSys { world : W; log : list entry; color_cell : option bool }.

Definition M (A : Type) : Type := sys -> outcome A * sys.

Definition ret {A} (a : A) : M A := fun s => (Done a, s).
Definition fail {A} (e : error) : M A := fun s => (Fail e, s).
Definition panic {A} (msg : string) : M A := fun s => (Panic msg, s).
Definition out_of_fuel {A} : M A := fun s => (OutOfFuel, s).

Definition bind {A B} (m : M A) (f : A -> M B) : M B := fun s =>
  match m s with
  | (Done a, s) => f a s
  | (Fail e, s) => (Fail e, s)
  | (Panic msg, s) => (Panic msg, s)
  | (OutOfFuel, s) => (OutOfFuel, s)
  end.

(** The [?] operator. *)
Definition lift {A} (r : result error A) : M A :=
  match r with Ok a => ret a | Err e => fail e end.

(** [with_context] on a computation. *)
Definition with_context {A} (msg : string) (m : M A) : M A := fun s =>
  match m s with
  | (Fail e, s) => (Fail (msg :: e), s)
  | r => r
  end.

Definition silent {A} (call : W -> A * W) : M A := fun s =>
  let '(a, w) := call (world s) in (Done a, mkSys w (log s) (color_cell s)).

Definition logged {A} (call : W -> A * W) (e : A -> entry) : M A := fun s =>
  let '(a, w) := call (world s) in (Done a, mkSys w (log s ++ [e a]) (color_cell s)).

Definition emit_entry (e : entry) : M unit := logged (fun w => (tt, w)) (fun _ => e).

Definition println (line : string) : M unit := emit_entry (LPrint line).
Definition eprintln (line : string) : M unit := emit_entry (LEprint line).

Fixpoint println_all (ls : list string) : M unit :=
  match ls with
  | [] => ret tt
  | l :: ls => bind (println l) (fun _ => println_all ls)
  end.

(** The colour decision, through its cell: the environment is asked only
    while the cell is empty. *)
Definition get_color `{Os W} : M bool := fun s =>
  match color_cell s with
  | Some _ =>
      let '(b, cell) := color_enabled false false (color_cell s) in
      (Done b, mkSys (world s) (log s) cell)
  | None =>
      let '(no_color, w) := os_no_color_set (world s) in
      let '(tty, w) := os_stdout_is_terminal w in
      let '(b, cell) := color_enabled no_color tty None in
      (Done b, mkSys w (log s) cell)
  end.

Lemma appends_get_color `{Os W} (s s' : sys) r : get_color s = (r, s') -> log s' = log s.
Proof. unfold get_color. repeat case_match; intros; by simplify_eq. Qed.
End Monad.
Arguments sys : clear implicits.
Arguments M : clear implicits.

Declare Scope os_scope.
Delimit Scope os_scope with os.
Notation "'let!' x := m 'in' k" := (bind m (fun x => k))
  (at level 10, x name, m at level 100, k at level 200) : os_scope.
Notation "m ;! k" := (bind m (fun _ => k))
  (at level 100, right associativity) : os_scope.
Open Scope os_scope.

(** ** What a computation does to the log

    [appends P m]: whatever happens, [m] only adds entries that satisfy
    [P]. *)
Section Logs.
Context {W : Type}.

Definition appends {A} (P : entry -> Prop) (m : M W A) : Prop := forall s r s',
  m s = (r, s') -> exists l, log s' = log s ++ l /\ Forall P l.

Lemma appends_ret {A} P (a : A) : appends P (ret a).
Proof. intros s r s' [= <- <-]. exists []. by rewrite app_nil_r. Qed.

Lemma appends_fail {A} P e : appends P (@fail W A e).
Proof. intros s r s' [= <- <-]. exists []. by rewrite app_nil_r. Qed.

Lemma appends_panic {A} P e : appends P (@panic W A e).
Proof. intros s r s' [= <- <-]. exists []. by rewrite app_nil_r. Qed.

Lemma appends_fuel {A} P : appends P (@out_of_fuel W A).
Proof. intros s r s' [= <- <-]. exists []. by rewrite app_nil_r. Qed.

Lemma appends_lift {A} P (r : result error A) : appends P (lift r).
Proof. destruct r; [apply appends_ret|apply appends_fail]. Qed.

Lemma appends_silent {A} P (call : W -> A * W) : appends P (silent call).
Proof.
  intros s r s' H. unfold silent in H. destruct (call _). injection H as <- <-.
  exists []. by rewrite app_nil_r.
Qed.

Lemma appends_logged {A} (P : entry -> Prop) (call : W -> A * W) e :
  (forall a, P (e a)) -> appends P (logged call e).
Proof.
  intros He s r s' H. unfold logged in H. destruct (call _) as [a w]. injection H as <- <-.
  exists [e a]. split; [done|]. by repeat constructor.
Qed.

Lemma appends_bind {A B} P (m : M W A) (f : A -> M W B) :
  appends P m -> (forall a, appends P (f a)) -> appends P (bind m f).
Proof.
  intros Hm Hf s r s' H. unfold bind in H. destruct (m s) as [o s1] eqn:E.
  destruct (Hm _ _ _ E) as (l1 & Hl1 & HP1).
  destruct o as [a| | |]; try (injection H as <- <-; by exists l1).
  destruct (Hf a _ _ _ H) as (l2 & -> & HP2). exists (l1 ++ l2).
  rewrite Hl1, <- app_assoc. split; [done|]. by apply Forall_app.
Qed.

Lemma appends_context {A} P msg (m : M W A) : appends P m -> appends P (with_context msg m).
Proof.
  intros Hm s r s' H. unfold with_context in H. destruct (m s) as [o s1] eqn:E.
  destruct (Hm _ _ _ E) as (l & Hl & HP). exists l. destruct o; by simplify_eq.
Qed.

Lemma appends_weaken {A} (P Q : entry -> Prop) (m : M W A) :
  (forall e, P e -> Q e) -> appends P m -> appends Q m.
Proof.
  intros HPQ Hm s r s' H. destruct (Hm _ _ _ H) as (l & Hl & HP). exists l.
  split; [done|]. by eapply Forall_impl.
Qed.
End Logs.

Create HintDb os.
Lemma appends_color {W} `{Os W} P : appends P get_color.
Proof.
  intros s r s' Hs%appends_get_color. exists []. by rewrite Hs, app_nil_r.
Qed.

#[export] Hint Resolve appends_color appends_ret appends_fail appends_panic appends_fuel appends_lift
  appends_silent appends_logged appends_bind appends_context : os.

(** Follow the structure of a computation down to its calls. *)
Ltac appends_tac :=
  repeat match goal with
  | |- appends _ (bind _ _) => apply appends_bind; [|intros ?]
  | |- appends _ (with_context _ _) => apply appends_context
  | |- appends _ (lift _) => apply appends_lift
  | |- appends _ (ret _) => apply appends_ret
  | |- appends _ (fail _) => apply appends_fail
  | |- appends _ (panic _) => apply appends_panic
  | |- appends _ out_of_fuel => apply appends_fuel
  | |- appends _ (silent _) => apply appends_silent
  | |- appends _ get_color => apply appends_color
  | |- appends _ (logged _ _) => apply appends_logged; intros ?; try exact I; try done
  | |- appends _ (match ?x with _ => _ end) => destruct x
  | |- appends _ _ => assumption
  end.

(** ** Running a sequence *)

Section Sequences.
Context {W : Type}.

Lemma bind_done {A B} (m : M W A) (f : A -> M W B) s b s' :
  bind m f s = (Done b, s') -> exists a s1, m s = (Done a, s1) /\ f a s1 = (Done b, s').
Proof. unfold bind. destruct (m s) as [[a| | |] s1]; [eauto|done..]. Qed.

Lemma lift_done {A} (r : result error A) (s s' : sys W) a :
  lift r s = (Done a, s') -> r = Ok a /\ s' = s.
Proof. unfold lift, ret, fail. destruct r; intros; by simplify_eq. Qed.

(** A triple on the log a computation has built so far: from [P], a normal
    end satisfies [Q] and any other end [E]. *)
Definition hoare {A} (P : list entry -> Prop) (m : M W A) (Q : A -> list entry -> Prop)
    (E : list entry -> Prop) : Prop := forall base l s r s',
  log s = base ++ l -> P l -> m s = (r, s') ->
  exists l', log s' = base ++ l' /\ (forall a, r = Done a -> Q a l') /\
    ((forall a, r <> Done a) -> E l').

Lemma hoare_bind {A B} P Q R E (m : M W A) (f : A -> M W B) :
  hoare P m Q E -> (forall a, hoare (Q a) (f a) R E) -> hoare P (bind m f) R E.
Proof.
  intros Hm Hf base l s r s' Hl HP H. unfold bind in H. destruct (m s) as [o s1] eqn:E1.
  destruct (Hm base l s o s1 Hl HP E1) as (l1 & Hl1 & HQ & HE).
  destruct o as [a|e|msg|]; [by eapply Hf; eauto|..]; simplify_eq;
    exists l1; (split; [done|]; split; [done|]; intros _; by apply HE).
Qed.

Lemma hoare_weaken {A} P P' (Q Q' : A -> list entry -> Prop) E E' (m : M W A) :
  (forall l, P' l -> P l) -> (forall a l, Q a l -> Q' a l) -> (forall l, E l -> E' l) ->
  hoare P m Q E -> hoare P' m Q' E'.
Proof.
  intros HP HQ HE Hm base l s r s' Hl HP' H.
  destruct (Hm base l s r s' Hl (HP l HP') H) as (l1 & Hl1 & H1 & H2).
  exists l1. split_and!; auto.
Qed.

(** A computation that only adds entries a predicate tolerates keeps it. *)
Lemma hoare_frame {A} (I : entry -> Prop) (P E : list entry -> Prop) (m : M W A) :
  appends I m -> (forall l l', P l -> Forall I l' -> P (l ++ l')) -> (forall l, P l -> E l) ->
  hoare P m (fun _ => P) E.
Proof.
  intros Hm HP HE base l s r s' Hl Hp H. destruct (Hm s r s' H) as (l' & Hl' & Hf).
  exists (l ++ l'). rewrite Hl', Hl, <- app_assoc. split_and!; auto.
Qed.

(** ... and what a normal end has added is known. *)
Lemma hoare_frame_done {A} (I : entry -> Prop) (P E : list entry -> Prop)
    (Added : A -> list entry -> Prop) (m : M W A) :
  appends I m -> (forall l l', P l -> Forall I l' -> P (l ++ l')) -> (forall l, P l -> E l) ->
  (forall a s s', m s = (Done a, s') -> exists l, log s' = log s ++ l /\ Added a l) ->
  hoare P m (fun a l => P l /\ exists l0 l1, l = l0 ++ l1 /\ P l0 /\ Added a l1) E.
Proof.
  intros Hm HP HE Ha base l s r s' Hl Hp H. destruct (Hm s r s' H) as (l' & Hl' & Hf).
  exists (l ++ l'). rewrite Hl', Hl, <- app_assoc.
  split_and!; [done| |intros _; apply HE; by apply HP].
  intros a ->. destruct (Ha a s s' H) as (l1 & Hl1 & Hadd). rewrite Hl1 in Hl'. simplify_list_eq.
  split; [by apply HP|eauto 6].
Qed.

Lemma hoare_then {A B} I (P E : list entry -> Prop) R (m : M W A) (f : A -> M W B) :
  appends I m -> (forall l l', P l -> Forall I l' -> P (l ++ l')) -> (forall l, P l -> E l) ->
  (forall a, hoare P (f a) R E) -> hoare P (bind m f) R E.
Proof. intros Hm HP HE Hf. by eapply hoare_bind; [eapply hoare_frame|]. Qed.

Lemma hoare_then_done {A B} I (P E : list entry -> Prop) R
    (Added : A -> list entry -> Prop) (m : M W A) (f : A -> M W B) :
  appends I m -> (forall l l', P l -> Forall I l' -> P (l ++ l')) -> (forall l, P l -> E l) ->
  (forall a s s', m s = (Done a, s') -> exists l, log s' = log s ++ l /\ Added a l) ->
  (forall a, hoare (fun l => P l /\ exists l0 l1, l = l0 ++ l1 /\ P l0 /\ Added a l1) (f a) R E) ->
  hoare P (bind m f) R E.
Proof. intros Hm HP HE Ha Hf. by eapply hoare_bind; [eapply hoare_frame_done|]. Qed.

Lemma hoare_fail {A} (P E : list entry -> Prop) (Q : A -> list entry -> Prop) e :
  (forall l, P l -> E l) -> hoare P (fail e) Q E.
Proof.
  intros HE base l s r s' Hl HP [= <- <-]. exists l. split_and!; [done|done|auto].
Qed.

Lemma hoare_ret {A} (P E : list entry -> Prop) (Q : A -> list entry -> Prop) a :
  (forall l, P l -> Q a l) -> hoare P (ret a) Q E.
Proof.
  intros HQ base l s r s' Hl HP [= <- <-]. exists l.
  split_and!; [done|intros ? [= <-]; auto|intros Hn; by destruct (Hn a)].
Qed.

Lemma hoare_context {A} P (Q : A -> list entry -> Prop) E msg (m : M W A) :
  hoare P m Q E -> hoare P (with_context msg m) Q E.
Proof.
  intros Hm base l s r s' Hl HP H. unfold with_context in H. destruct (m s) as [o s1] eqn:E1.
  destruct (Hm base l s o s1 Hl HP E1) as (l1 & Hl1 & HQ & HE). exists l1.
  destruct o; simplify_eq; (split; [done|]; split; [done|]); intros Hn; by apply HE.
Qed.

Lemma hoare_logged {A} (P : list entry -> Prop) (call : W -> A * W) e (Q : A -> list entry -> Prop) E :
  (forall a l, P l -> Q a (l ++ [e a])) -> hoare P (logged call e) Q E.
Proof.
  intros HQ base l s r s' Hl HP H. unfold logged in H. destruct (call _) as [a w].
  injection H as <- <-. exists (l ++ [e a]). cbn. rewrite Hl, <- app_assoc.
  split; [done|]. split; [intros ? [= <-]; by apply HQ|intros Hn; by destruct (Hn a)].
Qed.

Lemma println_all_log ls (s : sys W) :
  println_all ls s = (Done tt, mkSys (world s) (log s ++ (LPrint <$> ls)) (color_cell s)).
Proof.
  revert s. induction ls as [|l ls IH]; intros [w lg cc]; cbn.
  - unfold ret. by rewrite app_nil_r.
  - unfold bind, println, emit_entry, logged. rewrite IH. cbn. by rewrite <- app_assoc.
Qed.
End Sequences.
