(* ===== verification/BuildScripts.v ===== *)
(** * The build scripts (whyslow-cli/build.rs, whyslow-ebpf/build.rs)

    The CLI's script finds the eBPF crate among the workspace's packages and
    has aya-build compile it, from the directory of its manifest; the eBPF
    crate's asks cargo to rerun when [bpf-linker] changes. cargo_metadata,
    camino, aya-build and which are parameters. *)

From S2P Require Import Prelude RustStd Trace Ui ReportText Paths Os.

(** The fields of [cargo_metadata::Package] and [aya_build::Package] that are
    used; the others of the latter are the default. *)
Record MetadataPackage := mkMetadataPackage { name : string; manifest_path : list byte }.
Record EbpfPackage := mkEbpfPackage { ebpf_name : string; root_dir : list byte }.

Section Scripts.
Context {W Toolchain : Type}.

(** [MetadataCommand::exec] with or without [no_deps], [Utf8Path::parent],
    [aya_build::build_ebpf] and [which::which]. *)
Context (exec : bool -> W -> result string (list MetadataPackage) * W)
        (utf8_parent : list byte -> option (list byte))
        (build_ebpf : list EbpfPackage -> Toolchain -> W -> result error unit * W)
        (toolchain : Toolchain)
        (which : string -> W -> result string (list byte) * W).

Definition cli_build_main : M W unit :=
  let! packages := with_context "MetadataCommand::exec"
    (let! r := silent (exec true) in lift (map_err anyhow r)) in
  let! ebpf_package := lift
    match List.find (fun p => bool_decide (name p = "whyslow-ebpf")) packages with
    | Some p => Ok p
    | None => Err (anyhow "whyslow-ebpf package not found")
    end in
  let! dir := lift
    match utf8_parent (manifest_path ebpf_package) with
    | Some dir => Ok dir
    | None => Err (anyhow ("no parent for " +:+ string_of_bytes (manifest_path ebpf_package)))
    end in
  let! r := silent (build_ebpf [mkEbpfPackage (name ebpf_package) dir] toolchain) in
  lift r.

(** [Path::to_str] is [None] unless the bytes are UTF-8. *)
Definition to_str (path : list byte) : option string :=
  if decide (from_utf8_lossy path = path) then Some (string_of_bytes path) else None.

Definition ebpf_build_main : M W unit :=
  let! r := silent (which "bpf-linker") in
  match r with
  | Err e => panic ("called `Result::unwrap()` on an `Err` value: " +:+ e)
  | Ok bpf_linker =>
      match to_str bpf_linker with
      | None => panic "called `Option::unwrap()` on a `None` value"
      | Some path => println ("cargo:rerun-if-changed=" +:+ path)
      end
  end.
End Scripts.

(** ** What the scripts do *)

Definition end_of (r : result error unit) : outcome unit :=
  match r with Ok _ => Done tt | Err e => Fail e end.

Lemma find_named n before p after :
  Forall (fun q => name q <> n) before -> name p = n ->
  List.find (fun q => bool_decide (name q = n)) (before ++ p :: after) = Some p.
Proof.
  intros Hb Hp. induction Hb as [|q before Hq _ IH]; cbn.
  - by rewrite bool_decide_eq_true_2.
  - by rewrite bool_decide_eq_false_2.
Qed.

Lemma find_unnamed n ps :
  Forall (fun q => name q <> n) ps -> List.find (fun q => bool_decide (name q = n)) ps = None.
Proof. intros Hps. induction Hps as [|q ps Hq _ IH]; [done|]. cbn. by rewrite bool_decide_eq_false_2. Qed.

(** C40: The CLI builds the eBPF programs from the directory of its workspace
    sibling, once, and ends as aya-build does; where the crate is no sibling
    (a registry dependency) it fails with that message, and builds nothing. *)
Theorem cli_build_finds_sibling {W Toolchain} (exec : bool -> W -> result string (list MetadataPackage) * W)
    (build_ebpf : list EbpfPackage -> Toolchain -> W -> result error unit * W) (toolchain : Toolchain)
    (s : sys W) packages w :
  exec true (world s) = (Ok packages, w) ->
  (forall before dir after, packages =
     before ++ mkMetadataPackage "whyslow-ebpf" (absolute (dir ++ [bytes_of_string "Cargo.toml"])) :: after ->
   dir <> [] -> Forall is_component dir -> Forall (fun q => name q <> "whyslow-ebpf") before ->
   cli_build_main exec parent build_ebpf toolchain s =
     let '(r, w') := build_ebpf [mkEbpfPackage "whyslow-ebpf" (absolute dir)] toolchain w in
     (end_of r, mkSys w' (log s) (color_cell s))) /\
  (Forall (fun q => name q <> "whyslow-ebpf") packages ->
   cli_build_main exec parent build_ebpf toolchain s =
     (Fail ["whyslow-ebpf package not found"], mkSys w (log s) (color_cell s))).
Proof.
  intros He. unfold cli_build_main, with_context, silent, bind. rewrite He. split.
  - intros before dir after -> Hne Hdir Hb. cbn [map_err lift ret].
    rewrite (find_named _ before _ after) by done. cbn [lift ret name manifest_path].
    rewrite parent_absolute, decide_False; [|done|].
    + cbn [lift ret world log color_cell]. destruct (build_ebpf _ _ w) as [[[]|e] w']; done.
    + apply Forall_app. split; [done|]. repeat constructor; [|done..]. apply (bool_decide_unpack _). by vm_compute.
  - intros Hp. cbn [map_err lift ret]. by rewrite find_unnamed.
Qed.

Lemma cli_build_finds_sibling_witness :
  let cli := mkMetadataPackage "whyslow" (bytes_of_string "/src/whyslow-cli/Cargo.toml") in
  let ebpf := mkMetadataPackage "whyslow-ebpf" (bytes_of_string "/src/whyslow-ebpf/Cargo.toml") in
  let exec packages := fun (no_deps : bool) (w : list EbpfPackage) => (Ok packages, w) in
  let build := fun packages (_ : unit) w => (Ok tt, w ++ packages) in
  cli_build_main (exec [cli; ebpf]) parent build tt (mkSys [] [] None) =
    (Done tt, mkSys [mkEbpfPackage "whyslow-ebpf" (bytes_of_string "/src/whyslow-ebpf")] [] None) /\
  cli_build_main (exec [cli]) parent build tt (mkSys [] [] None) =
    (Fail ["whyslow-ebpf package not found"], mkSys [] [] None).
Proof.
  intros cli ebpf exec build. split.
  - apply (proj1 (cli_build_finds_sibling (exec [cli; ebpf]) build tt (mkSys [] [] None) _ [] eq_refl)
      [cli] [bytes_of_string "src"; bytes_of_string "whyslow-ebpf"] []); [done|done| |by repeat constructor].
    repeat constructor; try done; apply (bool_decide_unpack _); by vm_compute.
  - apply (proj2 (cli_build_finds_sibling (exec [cli]) build tt (mkSys [] [] None) _ [] eq_refl)).
    by repeat constructor.
Defined.

(** Cargo is told to watch the linker that was found. *)
Theorem ebpf_build_watches {W} (which : string -> W -> result string (list byte) * W) (s : sys W) path w :
  which "bpf-linker" (world s) = (Ok path, w) -> utf8_valid path ->
  ebpf_build_main which s =
    (Done tt, mkSys w (log s ++ [LPrint ("cargo:rerun-if-changed=" +:+ string_of_bytes path)]) (color_cell s)).
Proof.
  intros Hw Hp. unfold ebpf_build_main, to_str, silent, bind. rewrite Hw.
  by rewrite decide_True by (by apply from_utf8_lossy_id).
Qed.
