(* ===== verification/Child.v ===== *)
(** * The traced child (whyslow-cli/src/child.rs)

    Spawning the child under [PTRACE_TRACEME], waiting for its post-exec
    trap, letting it run, and polling for its exit. *)

From S2P Require Import Prelude RustStd Trace Os.

Section Child.
Context {W : Type} `{Os W}.

(** [argv[0]] panics on an empty vector; [pre_exec], the spawn itself and
    its error come from [std::process]. *)
Definition spawn_stopped (argv : list string) : M W Z :=
  match argv with
  | [] => panic "index out of bounds: the len is 0 but the index is 0"
  | _ =>
      let! r := logged (os_spawn_traced argv) (LSpawn argv) in
      lift (context ("spawning `" +:+ join " " argv +:+ "`") (map_err anyhow r))
  end.

Fixpoint wait_until_stopped (fuel : nat) (pid : Z) : M W unit :=
  match fuel with
  | O => out_of_fuel
  | S fuel =>
      let! r := logged (os_waitpid (as_i32 pid) false) (fun _ => LWaitpid (as_i32 pid) false) in
      match r with
      | Err msg => fail (anyhow ("waitpid(" +:+ fmt_display pid +:+ ") failed: " +:+ msg))
      | Ok (_, status) =>
          if os_wifstopped (W := W) status then ret tt
          else if os_wifexited (W := W) status || os_wifsignaled (W := W) status then
            fail (anyhow ("child " +:+ fmt_display pid +:+ " exited before tracing could start"))
          else wait_until_stopped fuel pid
      end
  end.

Definition resume (pid : Z) : M W unit :=
  let! r := logged (os_ptrace_detach (as_i32 pid)) (LDetach pid) in
  match r with
  | Ok _ => ret tt
  | Err msg => fail (anyhow ("PTRACE_DETACH(" +:+ fmt_display pid +:+ ") failed: " +:+ msg))
  end.

(** [ret == pid]: a failed [waitpid] returns -1. *)
Definition has_exited (pid : Z) : M W bool :=
  let! r := logged (os_waitpid (as_i32 pid) true) (fun _ => LWaitpid (as_i32 pid) true) in
  ret (match r with Ok (p, _) => p =? as_i32 pid | Err _ => -1 =? as_i32 pid end).

(** ** Lemmas *)

Definition is_waitpid (e : entry) : Prop := match e with LWaitpid _ _ => True | _ => False end.

Lemma wait_until_stopped_appends fuel pid : appends is_waitpid (wait_until_stopped fuel pid).
Proof.
  induction fuel as [|fuel IH]; cbn; [auto with os|].
  appends_tac.
Qed.

Lemma has_exited_appends pid : appends is_waitpid (has_exited pid).
Proof. unfold has_exited. appends_tac. Qed.
End Child.
