(* ===== verification/Bpf.v ===== *)
(** * Loading the BPF programs and draining their events (whyslow-cli/src/bpf.rs) *)

From S2P Require Import Prelude RustStd Layout Common Trace Os.

(** (BPF program name, tracepoint category, tracepoint name) *)
Definition TRACEPOINTS : list (string * string * string) :=
  [("sched_switch", "sched", "sched_switch");
   ("futex_enter", "syscalls", "sys_enter_futex");
   ("futex_exit", "syscalls", "sys_exit_futex");
   ("block_rq_issue", "block", "block_rq_issue");
   ("block_rq_complete", "block", "block_rq_complete")]%string.

(** The [Event] whose memory is [item], if it has the size of one. *)
Definition decode_event (item : list byte) : option Event :=
  if negb (length item =? l_size (repr_c event_layout))%nat then None
  else match decode_struct event_layout item with
       | [ts; dur; key; pid; tid; ty; pad; comm] =>
           Some (mkEvent (le_val ts) (le_val dur) (le_val key) (le_val pid) (le_val tid)
                   (le_val ty) pad comm)
       | _ => None
       end.

Section Bpf.
Context {W : Type} `{Os W}.

(** The result of [setrlimit] is ignored. *)
Definition bump_memlock_rlimit : M W unit :=
  let! _r := silent os_setrlimit_memlock in ret tt.

Definition missing_program (prog_name : string) : string :=
  "BPF program `" +:+ prog_name +:+ "` missing from object".

Definition attach_one (tp : string * string * string) : M W unit :=
  let '(prog_name, category, tp_name) := tp in
  let! found := silent (os_program_mut prog_name) in
  if negb found then fail (anyhow (missing_program prog_name)) else
  let! r := silent (os_program_try_into prog_name) in
  lift (map_err anyhow r) ;!
  let! r := silent (os_program_load prog_name) in
  lift (context ("loading BPF program `" +:+ prog_name +:+ "`") (map_err anyhow r)) ;!
  let! r := logged (os_program_attach prog_name category tp_name) (LAttach prog_name category tp_name) in
  lift (context ("attaching to tracepoint " +:+ category +:+ ":" +:+ tp_name) (map_err anyhow r)).

Fixpoint attach_all (tps : list (string * string * string)) : M W unit :=
  match tps with
  | [] => ret tt
  | tp :: tps => attach_one tp ;! attach_all tps
  end.

Definition load_and_attach : M W unit :=
  bump_memlock_rlimit ;!
  let! r := logged os_ebpf_load LLoad in
  lift (context "loading whyslow-ebpf object" (map_err anyhow r)) ;!
  attach_all TRACEPOINTS.

(** [map_mut(name).ok_or_else(...)?] and the typed view of the map. *)
Definition open_map (map_name : string) : M W unit :=
  let! found := silent (os_map_mut map_name) in
  if negb found then fail (anyhow (map_name +:+ " map missing from object")) else
  let! r := silent (os_map_try_from map_name) in
  lift (map_err anyhow r).

Definition set_target_tgid (tgid : Z) : M W unit :=
  open_map "TARGET_TGID" ;!
  let! r := logged (os_array_set 0 tgid) (LSetTarget tgid) in
  lift (map_err anyhow r).

(** [if let Some(ev) = decode_event(&item) { events.push(ev.into()) }] *)
Definition push_item (evs : list TraceEvent) (item : list byte) : list TraceEvent :=
  match decode_event item with
  | Some ev => evs ++ [trace_event_from ev]
  | None => evs
  end.

(** [while let Some(item) = ring.next() { ... }] *)
Fixpoint drain_pending (fuel : nat) (evs : list TraceEvent) : M W (list TraceEvent) :=
  match fuel with
  | O => out_of_fuel
  | S fuel =>
      let! item := logged os_ring_next LRingNext in
      match item with
      | None => ret evs
      | Some item => drain_pending fuel (push_item evs item)
      end
  end.

Fixpoint drain_loop (fuel : nat) (should_stop : M W bool) (evs : list TraceEvent) :
    M W (list TraceEvent) :=
  match fuel with
  | O => out_of_fuel
  | S fuel' =>
      let! evs := drain_pending fuel evs in
      let! stop := should_stop in
      if stop : bool then drain_pending fuel evs
      else logged (fun w => (tt, os_poll 100 w)) (fun _ => LPoll) ;!
           drain_loop fuel' should_stop evs
  end.

Definition drain_ring_buffer (fuel : nat) (should_stop : M W bool) : M W (list TraceEvent) :=
  open_map "EVENTS" ;! drain_loop fuel should_stop [].
End Bpf.
