(* ===== verification/BpfProps.v ===== *)
(** * Properties of loading and draining

    The decoder inverts the event's memory image, and the drain loop returns
    exactly when its session with the environment ends, with every item of
    the session decoded in order. *)

From S2P Require Import Prelude RustStd Layout Common Trace Os Bpf.

(** ** Decoding *)

Lemma decode_event_bytes pad ev : wf_event ev -> decode_event (event_bytes pad ev) = Some ev.
Proof.
  intros Hwf. unfold decode_event. rewrite length_event_bytes by done. cbn [negb Nat.eqb].
  unfold event_bytes. rewrite decode_encode_struct by by apply event_fields_ok.
  unfold event_fields. destruct Hwf. rewrite !le_val_bytes by assumption. by destruct ev.
Qed.

(** The trace events of a sequence of ring buffer items. *)
Definition decode_all (items : list (list byte)) : list TraceEvent :=
  trace_event_from <$> omap decode_event items.

Lemma decode_all_app i j : decode_all (i ++ j) = decode_all i ++ decode_all j.
Proof. unfold decode_all. by rewrite omap_app, fmap_app. Qed.

Lemma decode_all_bytes pad evs :
  Forall wf_event evs -> decode_all (event_bytes pad <$> evs) = trace_event_from <$> evs.
Proof.
  unfold decode_all. induction 1 as [|ev evs Hev _ IH]; [done|].
  cbn -[decode_event event_bytes trace_event_from]. rewrite decode_event_bytes by done.
  cbn -[decode_event event_bytes trace_event_from]. by f_equal.
Qed.

Lemma push_item_decode evs item : push_item evs item = evs ++ decode_all [item].
Proof.
  unfold push_item, decode_all. cbn. destruct (decode_event item); cbn; [done|].
  by rewrite app_nil_r.
Qed.

(** ** The drain loop's session *)

Section Drain.
Context {W : Type} `{Os W}.

Definition next_item : M W (option (list byte)) := logged os_ring_next LRingNext.
Definition poll_once : M W unit := logged (fun w => (tt, os_poll 100 w)) (fun _ => LPoll).

(** Reading the ring buffer until it is empty. *)
Inductive pulls : sys W -> list (list byte) -> sys W -> Prop :=
  | pulls_empty s s' : next_item s = (Done None, s') -> pulls s [] s'
  | pulls_item s s1 s' item items :
      next_item s = (Done (Some item), s1) -> pulls s1 items s' -> pulls s (item :: items) s'.

(** A session: empty the ring buffer, ask whether to stop; if so empty it
    once more, else poll and go on. *)
Inductive session (should_stop : M W bool) : sys W -> list (list byte) -> sys W -> Prop :=
  | session_stop s i1 s1 s2 i2 s' :
      pulls s i1 s1 -> should_stop s1 = (Done true, s2) -> pulls s2 i2 s' ->
      session should_stop s (i1 ++ i2) s'
  | session_poll s i1 s1 s2 s3 rest s' :
      pulls s i1 s1 -> should_stop s1 = (Done false, s2) -> poll_once s2 = (Done tt, s3) ->
      session should_stop s3 rest s' ->
      session should_stop s (i1 ++ rest) s'.

Lemma drain_pending_complete s items s' evs fuel :
  pulls s items s' -> (length items < fuel)%nat ->
  drain_pending fuel evs s = (Done (evs ++ decode_all items), s').
Proof.
  intros Hp. revert evs fuel.
  induction Hp as [s s' Hn|s s1 s' item items Hn _ IH]; intros evs [|fuel] Hf; cbn in Hf; try lia;
    cbn [drain_pending]; unfold bind; fold next_item; rewrite Hn.
  - by rewrite app_nil_r.
  - rewrite IH by lia. by rewrite push_item_decode, <- app_assoc, <- decode_all_app.
Qed.

Lemma drain_pending_sound fuel evs s r s' :
  drain_pending fuel evs s = (Done r, s') ->
  exists items, pulls s items s' /\ r = evs ++ decode_all items.
Proof.
  revert evs s. induction fuel as [|fuel IH]; intros evs s Hd; [done|].
  cbn [drain_pending] in Hd. unfold bind in Hd. fold next_item in Hd.
  destruct (next_item s) as [[[item|]| | |] s1] eqn:En; try done.
  - apply IH in Hd as (items & Hp & ->). exists (item :: items). split; [by econstructor|].
    by rewrite push_item_decode, <- app_assoc, <- decode_all_app.
  - injection Hd as <- <-. exists []. split; [by constructor|]. by rewrite app_nil_r.
Qed.

Lemma drain_loop_complete stop s items s' :
  session stop s items s' ->
  exists n, forall fuel evs, (n <= fuel)%nat ->
    drain_loop fuel stop evs s = (Done (evs ++ decode_all items), s').
Proof.
  induction 1 as [s i1 s1 s2 i2 s' H1 Hs H2|s i1 s1 s2 s3 rest s' H1 Hs Hp _ [n IH]].
  - exists (S (length i1 + length i2)). intros [|fuel] evs Hf; [lia|].
    cbn [drain_loop]. unfold bind. erewrite drain_pending_complete by (eauto; lia).
    rewrite Hs. erewrite drain_pending_complete by (eauto; lia).
    by rewrite <- app_assoc, <- decode_all_app.
  - exists (S (length i1 + n)). intros [|fuel] evs Hf; [lia|].
    cbn [drain_loop]. unfold bind. erewrite drain_pending_complete by (eauto; lia).
    rewrite Hs. fold poll_once. rewrite Hp, IH by lia.
    by rewrite <- app_assoc, <- decode_all_app.
Qed.

Lemma drain_loop_sound stop fuel evs s r s' :
  drain_loop fuel stop evs s = (Done r, s') ->
  exists items, session stop s items s' /\ r = evs ++ decode_all items.
Proof.
  revert evs s. induction fuel as [|fuel IH]; intros evs s Hd; [done|].
  cbn [drain_loop] in Hd. unfold bind in Hd. fold poll_once in Hd.
  destruct (drain_pending _ _ s) as [[evs1| | |] s1] eqn:E1; try done.
  apply drain_pending_sound in E1 as (i1 & Hp1 & ->).
  destruct (stop s1) as [[[|]| | |] s2] eqn:E2; try done.
  - apply drain_pending_sound in Hd as (i2 & Hp2 & ->). exists (i1 ++ i2).
    split; [by econstructor|]. by rewrite <- app_assoc, <- decode_all_app.
  - destruct (poll_once s2) as [[[]| | |] s3] eqn:E3; try done.
    apply IH in Hd as (rest & Hr & ->). exists (i1 ++ rest).
    split; [by eapply session_poll|]. by rewrite <- app_assoc, <- decode_all_app.
Qed.

(** A session comes to an end when the ring buffer can be emptied and every
    poll brings the stop closer. *)
Section Termination.
Context (stop : M W bool) (I : sys W -> Prop) (pending_items polls_left : sys W -> nat).
Hypothesis Hnext : forall s o s', I s -> next_item s = (Done o, s') ->
  I s' /\ (polls_left s' <= polls_left s)%nat /\
  (o <> None -> (pending_items s' < pending_items s)%nat).
Hypothesis Hstop : forall s, I s -> exists b s', stop s = (Done b, s') /\ I s' /\
  (b = false -> forall s'', poll_once s' = (Done tt, s'') ->
    I s'' /\ (polls_left s'' < polls_left s)%nat).

Lemma pulls_exist s :
  I s -> exists items s', pulls s items s' /\ I s' /\ (polls_left s' <= polls_left s)%nat.
Proof.
  remember (pending_items s) as k eqn:Hk. revert s Hk.
  induction k as [k IH] using lt_wf_ind. intros s -> HI.
  destruct (next_item s) as [r s1] eqn:En.
  assert (exists o, r = Done o) as [o ->].
  { unfold next_item, logged in En. case_match. simplify_eq. eauto. }
  destruct (Hnext _ _ _ HI En) as (HI1 & Hle & Hlt). destruct o as [item|].
  - destruct (IH (pending_items s1) (Hlt ltac:(done)) s1 eq_refl HI1) as (items & s' & Hp & HI' & Hle').
    exists (item :: items), s'. split; [by econstructor|]. split; [done|lia].
  - exists [], s1. split; [by constructor|done].
Qed.

Lemma session_exists s : I s -> exists items s', session stop s items s'.
Proof.
  remember (polls_left s) as k eqn:Hk. revert s Hk.
  induction k as [k IH] using lt_wf_ind. intros s -> HI.
  destruct (pulls_exist s HI) as (i1 & s1 & Hp1 & HI1 & Hle1).
  destruct (Hstop s1 HI1) as ([|] & s2 & Hs & HI2 & Hlt).
  - destruct (pulls_exist s2 HI2) as (i2 & s3 & Hp2 & _). eexists _, _. by eapply session_stop.
  - destruct (poll_once s2) as [r s3] eqn:Ep.
    assert (r = Done tt) as ->.
    { unfold poll_once, logged in Ep. by simplify_eq. }
    destruct (Hlt eq_refl s3 eq_refl) as [HI3 Hlt3].
    destruct (IH (polls_left s3) ltac:(lia) s3 eq_refl HI3) as (rest & s' & Hr).
    eexists _, _. by eapply session_poll.
Qed.
End Termination.

(** *** What is logged *)

Definition ring_items (l : list entry) : list (list byte) :=
  omap (fun e => match e with LRingNext o => o | _ => None end) l.

Definition is_attach (e : entry) : Prop :=
  match e with LAttach _ _ _ _ | LLoad _ => True | _ => False end.

Lemma attach_one_appends tp : appends is_attach (attach_one tp).
Proof.
  destruct tp as [[prog cat] tp]. unfold attach_one. appends_tac.
Qed.

Lemma load_and_attach_appends : appends is_attach load_and_attach.
Proof.
  unfold load_and_attach, bump_memlock_rlimit. appends_tac.
  generalize TRACEPOINTS. intros tps. induction tps as [|tp tps IH]; cbn [attach_all].
  - apply appends_ret.
  - apply appends_bind; [apply attach_one_appends|intros _; exact IH].
Qed.

Lemma open_map_appends P m : appends P (open_map m).
Proof. unfold open_map. appends_tac. Qed.

Definition attached (tp : string * string * string) : entry :=
  let '(prog, cat, name) := tp in LAttach prog cat name (Ok tt).

Lemma attach_one_done tp s s' :
  attach_one tp s = (Done tt, s') -> exists l, log s' = log s ++ l ++ [attached tp].
Proof.
  destruct tp as [[prog cat] tp]. unfold attach_one.
  intros (found & s1 & H1 & H2)%bind_done. destruct found; [|done].
  apply bind_done in H2 as (r1 & s2 & H2 & H3).
  apply bind_done in H3 as ([] & s3 & [_ ->]%lift_done & H4).
  apply bind_done in H4 as (r2 & s4 & H4 & H5).
  apply bind_done in H5 as ([] & s5 & [_ ->]%lift_done & H6).
  apply bind_done in H6 as (r3 & s6 & H6 & [Hr ->]%lift_done).
  destruct r3 as [[]|]; [|done].
  assert (log s4 = log s) as Hl.
  { unfold silent in *. repeat case_match; by simplify_eq. }
  unfold logged in H6. case_match; simplify_eq. exists []. cbn. by rewrite Hl.
Qed.

Lemma attach_all_done tps s s' :
  attach_all tps s = (Done tt, s') ->
  exists l, log s' = log s ++ l /\ (attached <$> tps) `sublist_of` l.
Proof.
  revert s. induction tps as [|tp tps IH]; intros s Hd.
  - injection Hd as <-. exists []. by rewrite app_nil_r.
  - apply bind_done in Hd as ([] & s1 & (l1 & Hl1)%attach_one_done & (l2 & Hl2 & Hs2)%IH).
    exists (l1 ++ [attached tp] ++ l2). rewrite Hl2, Hl1, <- !app_assoc. split; [done|].
    cbn. apply sublist_inserts_l. by apply sublist_skip.
Qed.

Lemma load_and_attach_done s s' :
  load_and_attach s = (Done tt, s') ->
  exists l, log s' = log s ++ l /\ (attached <$> TRACEPOINTS) `sublist_of` l.
Proof.
  intros (? & s1 & H1 & H2)%bind_done.
  apply bind_done in H2 as (r & s2 & H2 & H3).
  apply bind_done in H3 as (? & s3 & [_ ->]%lift_done & (l & Hl & Hs)%attach_all_done).
  assert (exists e, log s2 = log s ++ [e]) as [e He].
  { unfold bump_memlock_rlimit, bind, silent, logged, ret in *.
    repeat case_match; simplify_eq. cbn. eauto. }
  exists (e :: l). rewrite Hl, He, <- app_assoc. split; [done|]. by apply sublist_cons.
Qed.

Lemma set_target_done tgid s s' :
  set_target_tgid tgid s = (Done tt, s') ->
  exists l, log s' = log s ++ l /\ l = [LSetTarget tgid (Ok tt)].
Proof.
  intros ([] & s1 & H1 & H2)%bind_done.
  apply bind_done in H2 as (r & s2 & H2 & [Hr ->]%lift_done). destruct r as [[]|]; [|done].
  destruct (open_map_appends (fun _ => False) _ _ _ _ H1) as ([|e l] & Hl & HF);
    [|by inversion HF].
  unfold logged in H2. case_match; simplify_eq. eexists. split; [|done]. cbn. by rewrite Hl, app_nil_r.
Qed.

Lemma pulls_log s items s' :
  pulls s items s' ->
  exists l, log s' = log s ++ l /\ ring_items l = items /\
    Forall (fun e => exists o, e = LRingNext o) l.
Proof.
  induction 1 as [s s' Hn|s s1 s' item items Hn _ (l & Hl & Hi & Hf)];
    unfold next_item, logged in Hn; case_match; simplify_eq.
  - eexists [_]. split_and!; [done..|]. repeat constructor. eauto.
  - eexists (_ :: l). rewrite Hl. cbn. rewrite <- app_assoc. split_and!; [done| |].
    + done.
    + constructor; eauto.
Qed.
End Drain.
