(* ===== verification/Cli.v ===== *)
(** * The command line tool (whyslow-cli/src/main.rs)

    The three subcommands as computations of [M], and [main]. The command is
    clap's parse of the arguments; [fuel] bounds each loop. *)

From S2P Require Import Prelude RustStd Common Trace Ui Causal Os Child Bpf.

Inductive command :=
  | Run (trace_out : string) (slowest : nat) (cmd : list string)
  | Attach (pid : Z) (trace_out : string) (slowest : nat) (duration_secs : option Z)
  | Explain (slowest : nat) (trace : string).

(** The arguments as given, with nothing for an option that was left out;
    clap refuses [run] without a command. The defaults are those of the
    [#[arg]] attributes. *)
Inductive arguments :=
  | RunArgs (trace_out : option string) (slowest : option nat) (cmd : list string)
  | AttachArgs (pid : Z) (trace_out : option string) (slowest : option nat) (duration_secs : option Z)
  | ExplainArgs (slowest : option nat) (trace : option string).

Definition default_trace : string := "whyslow.trace.json".
Definition default_slowest : nat := 3.

Definition command_of (a : arguments) : option command :=
  match a with
  | RunArgs _ _ [] => None
  | RunArgs trace_out slowest cmd =>
      Some (Run (default default_trace trace_out) (default default_slowest slowest) cmd)
  | AttachArgs pid trace_out slowest duration_secs =>
      Some (Attach pid (default default_trace trace_out) (default default_slowest slowest) duration_secs)
  | ExplainArgs slowest trace =>
      Some (Explain (default default_slowest slowest) (default default_trace trace))
  end.

Section Cli.
Context {W : Type} `{Os W}.

Definition need_root : string :=
  "whyslow needs root or CAP_BPF to load its eBPF programs. " +:+
  "Try again with sudo (this includes containers / restricted cloud " +:+
  "shells / WSL without CAP_BPF configured -- see README.md).".

Definition require_root : M W unit :=
  let! euid := silent os_geteuid in
  if negb (euid =? 0) then fail (anyhow need_root) else ret tt.

Definition banner : M W unit :=
  let! c := get_color in println_all (print_banner c).

(** The realtime clock is read first. *)
Definition read_anchor : M W (Z * Z) :=
  let! realtime := logged (os_clock_gettime CLOCK_REALTIME) (fun _ => LClock CLOCK_REALTIME) in
  let! monotonic := logged (os_clock_gettime CLOCK_MONOTONIC) (fun _ => LClock CLOCK_MONOTONIC) in
  ret (capture_anchor realtime monotonic).

(** [TraceFile::write_to]: creating truncates an existing file. *)
Definition write_to (path : string) (f : TraceFile) : M W unit :=
  let! file := logged (os_file_create path) (LCreate path) in
  lift (map_err anyhow file) ;!
  let! r := logged (os_to_writer_pretty path f) (LWriteTrace path f) in
  lift (map_err anyhow r).

(** [TraceFile::read_from] *)
Definition read_from (path : string) : M W TraceFile :=
  let! file := logged (os_file_open path) (LOpen path) in
  lift (map_err anyhow file) ;!
  let! r := logged (os_from_reader path) (fun _ => LReadTrace path) in
  lift (map_err anyhow r).

(** [causal::print_chains(&causal::explain(&trace_file, slowest))] *)
Definition explain_trace (f : TraceFile) (slowest : nat) : M W (list string) :=
  let! c := get_color in
  fun s => match explain os_read_link os_localtime c f slowest (world s) with
           | Some (cs, w) => (Done (print_chains c cs), mkSys w (log s) (color_cell s))
           | None => (OutOfFuel, s)
           end.

Definition print_explained (f : TraceFile) (slowest : nat) : M W unit :=
  let! ls := explain_trace f slowest in println_all ls.

(** The common end of [run] and [attach]. *)
Definition finish (anchor : Z * Z) (evs : list TraceEvent) (trace_out : string) (slowest : nat) :
    M W unit :=
  let trace_file := mkTraceFile anchor.1 anchor.2 evs in
  with_context ("writing trace to " +:+ trace_out) (write_to trace_out trace_file) ;!
  println "" ;!
  print_explained trace_file slowest.

Definition run (fuel : nat) (cmd : list string) (trace_out : string) (slowest : nat) : M W unit :=
  require_root ;!
  banner ;!
  (let! c := get_color in
   println (blue c "▸ tracing:" +:+ " " +:+ bold c (join " " cmd))) ;!
  let! pid := spawn_stopped cmd in
  with_context "waiting for child to reach pre-exec stop point" (wait_until_stopped fuel pid) ;!
  load_and_attach ;!
  set_target_tgid pid ;!
  let! anchor := read_anchor in
  with_context "resuming child after attaching BPF" (resume pid) ;!
  let! evs := drain_ring_buffer fuel (has_exited pid) in
  finish anchor evs trace_out slowest.

(** The signal handler that [attach] installs; the environment runs it when a
    SIGINT arrives. *)
Definition handle_sigint : W -> W := os_store_stop_requested true.

(** [Instant::now() + Duration::from_secs(secs)]: the addition of seconds
    panics when it leaves the [i64] of the clock. *)
Definition deadline_after (secs : Z) : M W (Z * Z) :=
  let! now := silent os_instant_now in
  if now.1 + secs <? 2 ^ 63 then ret (now.1 + secs, now.2)
  else panic "overflow when adding duration to instant".

Definition instant_le (a b : Z * Z) : bool :=
  (a.1 <? b.1) || ((a.1 =? b.1) && (a.2 <=? b.2)).

(** The [should_stop] closure of [attach]. *)
Definition attach_should_stop (pid : Z) (deadline : option (Z * Z)) : M W bool :=
  let! requested := silent os_stop_requested in
  if requested : bool then ret true else
  let! passed :=
    match deadline with
    | Some d => let! now := silent os_instant_now in ret (instant_le d now)
    | None => ret false
    end in
  if passed : bool then ret true else
  let! r := silent (os_kill_0 (as_i32 pid)) in
  ret (negb (r =? 0)).

Definition attach (fuel : nat) (pid : Z) (trace_out : string) (slowest : nat)
    (duration_secs : option Z) : M W unit :=
  require_root ;!
  banner ;!
  let! alive := silent (os_kill_0 (as_i32 pid)) in
  if negb (alive =? 0) then fail (anyhow ("no such process: " +:+ fmt_display pid)) else
  load_and_attach ;!
  set_target_tgid pid ;!
  let! anchor := read_anchor in
  silent (fun w => (tt, os_signal_sigint w)) ;!
  println ("whyslow: tracing pid " +:+ fmt_display pid +:+
           ", press Ctrl-C to stop and print results...") ;!
  let! deadline :=
    match duration_secs with
    | Some secs => let! d := deadline_after secs in ret (Some d)
    | None => ret None
    end in
  let! evs := drain_ring_buffer fuel (attach_should_stop pid deadline) in
  finish anchor evs trace_out slowest.

Definition explain_cmd (trace : string) (slowest : nat) : M W unit :=
  let! trace_file := with_context ("reading trace from " +:+ trace) (read_from trace) in
  print_explained trace_file slowest.

Definition try_main (fuel : nat) (c : command) : M W unit :=
  match c with
  | Run trace_out slowest cmd => run fuel cmd trace_out slowest
  | Attach pid trace_out slowest duration_secs => attach fuel pid trace_out slowest duration_secs
  | Explain slowest trace => explain_cmd trace slowest
  end.

Fixpoint eprintln_all (ls : list string) : M W unit :=
  match ls with
  | [] => ret tt
  | l :: ls => eprintln l ;! eprintln_all ls
  end.

(** The process exit code; an error prints its chain to stderr. *)
Definition main (fuel : nat) (c : command) : M W Z := fun s =>
  match try_main fuel c s with
  | (Done _, s) => (Done 0, s)
  | (Fail e, s) =>
      (let! c := get_color in
       eprintln (bold_red c "error:" +:+ " " +:+ default "" (head e)) ;!
       eprintln_all ((fun cause => "  " +:+ dim c "caused by:" +:+ " " +:+ cause) <$> tail e) ;!
       ret 1) s
  | (Panic msg, s) => (Panic msg, s)
  | (OutOfFuel, s) => (OutOfFuel, s)
  end.
End Cli.
