(* ===== verification/GroundTruth.v ===== *)
(** * The ground-truth chain

    What the reproducer is built to make happen: a waiter blocked on a futex,
    woken by the holder, which had been blocked on block I/O just before. It
    is stated of any recording in which these four spans occur, whatever else
    does: the holder's other reads, other threads, futexes and requests. Thread
    ids, addresses, device and times are parameters. *)

From S2P Require Import Prelude RustStd Layout Common Vmlinux Ebpf EbpfSpec EbpfProps KernelMaps.
From S2P Require Import Concurrent Trace Ui Causal CausalProps Os Bpf BpfProps.

(** The ids and addresses of a run. *)
Record cast := mkCast {
  c_tgid : Z;
  c_holder : Z;
  c_waiter : Z;
  c_uaddr : Z;
  c_dev : Z;
  c_sector : Z;
  c_comm : list byte;
}.

Record cast_ok (c : cast) : Prop := {
  ok_tgid : is_u32 (c_tgid c) /\ c_tgid c <> 0;
  ok_holder : is_u32 (c_holder c) /\ c_holder c <> 0;
  ok_waiter : is_u32 (c_waiter c) /\ c_waiter c <> 0;
  ok_distinct : c_holder c <> c_waiter c;
  ok_uaddr : is_u64 (c_uaddr c);
  ok_dev : is_u32 (c_dev c);
  ok_comm : length (c_comm c) = TASK_COMM_LEN;
}.

(** When each probe fires. *)
Record times := mkTimes {
  t_issue : Z;  (* the holder issues its last read ... *)
  t_done : Z;   (* ... which completes *)
  t_wake : Z;   (* the holder enters futex(FUTEX_WAKE) ... *)
  t_woke : Z;   (* ... and leaves it *)
  t_wait : Z;   (* the waiter enters futex(FUTEX_WAIT) ... *)
  t_wout : Z;   (* ... and blocks; *)
  t_win : Z;    (* it runs again *)
  t_ret : Z;    (* and leaves futex *)
}.

(** Causes come before effects, within the join window. *)
Record times_ok (t : times) : Prop := {
  ok_io : 0 <= t_issue t <= t_done t;
  ok_wake : t_done t <= t_wake t <= t_woke t;
  ok_wait : 0 <= t_wait t <= t_ret t;
  ok_block : 0 <= t_wout t <= t_win t;
  ok_end : t_woke t <= t_ret t /\ t_win t <= t_ret t;
  ok_io_window : t_wake t - t_done t <= MATCH_WINDOW_NS;
  ok_wake_window : t_ret t - t_woke t <= MATCH_WINDOW_NS;
  ok_wait_window : t_ret t - t_win t <= MATCH_WINDOW_NS;
}.

Section GroundTruth.
Context (c : cast) (t : times).

Definition key : Z := pack_block_key (c_dev c) (c_sector c).

(** ** What happens *)

(** A probe of a thread of the target, at a time. *)
Definition by_thread (h : helpers) (tid now : Z) : Prop :=
  current_tgid h = c_tgid c /\ current_tid h = tid /\ current_comm h = c_comm c /\ h_ktime h = now.

Definition issues (now : Z) (p : probe) : Prop :=
  match p with
  | BlockRqIssue h (Some evt) =>
      by_thread h (c_holder c) now /\ pack_block_key (br_dev evt) (br_sector evt) = key
  | _ => False
  end.

Definition completes (now : Z) (p : probe) : Prop :=
  match p with
  | BlockRqComplete h (Some evt) => h_ktime h = now /\ pack_block_key (bc_dev evt) (bc_sector evt) = key
  | _ => False
  end.

Definition enters (tid op now : Z) (p : probe) : Prop :=
  match p with
  | FutexEnter h (Some evt) =>
      by_thread h tid now /\ nth 0 (se_args evt) 0 = c_uaddr c /\ as_u32 (nth 1 (se_args evt) 0) = op
  | _ => False
  end.

Definition leaves (tid now : Z) (p : probe) : Prop :=
  match p with FutexExit h => current_tid h = tid /\ h_ktime h = now | _ => False end.

Definition blocks (tid now : Z) (p : probe) : Prop :=
  match p with
  | SchedSwitch h (Some evt) =>
      current_tgid h = c_tgid c /\ h_ktime h = now /\ ss_prev_comm evt = c_comm c /\
      as_u32 (ss_prev_pid evt) = tid /\ ss_prev_state evt <> TASK_RUNNING /\ as_u32 (ss_next_pid evt) <> tid
  | _ => False
  end.

Definition resumes (tid now : Z) (p : probe) : Prop :=
  match p with
  | SchedSwitch h (Some evt) =>
      h_ktime h = now /\ as_u32 (ss_next_pid evt) = tid /\ as_u32 (ss_prev_pid evt) <> tid
  | _ => False
  end.

(** Neither about the place [l] nor the CLI's change of target. *)
Definition untouched (l : loc) (p : probe) : Prop := (l ∉ footprint p) /\ forall tgid, p <> SetTarget tgid.

(** A probe as in [Q] while the process is the target, and then one as in [P]
    with nothing about the same place in between. *)
Definition span (ls : list probe) (l : loc) (Q P : probe -> Prop) : Prop :=
  exists before q between p after, ls = before ++ q :: between ++ p :: after /\
    target_of (reverse before) = c_tgid c /\ Q q /\ P p /\ Forall (untouched l) between.

Record happens (ls : list probe) : Prop := {
  hp_read : span ls (LIo key) (issues (t_issue t)) (completes (t_done t));
  hp_wake : span ls (LFutex (c_holder c)) (enters (c_holder c) FUTEX_WAKE (t_wake t)) (leaves (c_holder c) (t_woke t));
  hp_wait : span ls (LFutex (c_waiter c)) (enters (c_waiter c) FUTEX_WAIT (t_wait t)) (leaves (c_waiter c) (t_ret t));
  hp_stall : span ls (LBlock (c_waiter c)) (blocks (c_waiter c) (t_wout t)) (resumes (c_waiter c) (t_win t));
}.

(** ** What is recorded of it *)

Definition event (now start k tid ty : Z) : Event :=
  Event_new now (saturating_sub now start) k (c_tgid c) tid ty (c_comm c).

Definition io_ev := event (t_done t) (t_issue t) key (c_holder c) EVENT_BLOCK_IO.
Definition wake_ev := event (t_woke t) (t_wake t) (c_uaddr c) (c_holder c) EVENT_FUTEX_WAKE.
Definition wait_ev := event (t_ret t) (t_wait t) (c_uaddr c) (c_waiter c) EVENT_FUTEX_WAIT.
Definition waiter_block_ev := event (t_win t) (t_wout t) 0 (c_waiter c) EVENT_SCHED_BLOCK.

(** Nothing else that is recorded comes closer: no other wake on the futex
    returns between the holder's and the waiter's return; no other wait of the
    waiter ends after it runs again and before that return, and no block I/O
    of its own ends as shortly before it runs again as its wait does after;
    what the holder did last before it enters its wake is its read. *)
Record undisturbed (evs : list Event) : Prop := {
  ud_wake e : e ∈ evs -> ev_event_type e = EVENT_FUTEX_WAKE -> ev_key e = c_uaddr c ->
    t_woke t <= ev_timestamp_ns e <= t_ret t -> e = wake_ev;
  ud_wait e : e ∈ evs -> ev_event_type e = EVENT_FUTEX_WAIT -> ev_tid e = c_waiter c ->
    t_win t <= ev_timestamp_ns e <= t_ret t -> e = wait_ev;
  ud_waiter_io e : e ∈ evs -> ev_event_type e = EVENT_BLOCK_IO -> ev_tid e = c_waiter c ->
    ev_timestamp_ns e <= t_win t -> t_ret t - t_win t <= t_win t - ev_timestamp_ns e;
  ud_holder_wait e : e ∈ evs -> ev_event_type e = EVENT_FUTEX_WAIT -> ev_tid e = c_holder c ->
    ev_timestamp_ns e <= t_wake t -> ev_timestamp_ns e < t_done t;
  ud_holder_io e : e ∈ evs -> ev_event_type e = EVENT_BLOCK_IO -> ev_tid e = c_holder c ->
    t_done t <= ev_timestamp_ns e <= t_wake t -> e = io_ev;
}.

Hypothesis Hc : cast_ok c.
Hypothesis Ht : times_ok t.

Lemma spec_events_intro newer p older ev :
  spec_emit p older = Some ev -> ev ∈ spec_events (newer ++ p :: older).
Proof.
  intros He. induction newer as [|q newer IH]; cbn; apply elem_of_app; [right|by left].
  rewrite He. apply list_elem_of_here.
Qed.

(** The end of a span finds what its beginning left pending. *)
Lemma span_event {V} opens closes l k (v : V) ls (Q P : probe -> Prop) ev :
  span ls l Q P ->
  (forall r target, untouched l r -> closes r target k = false /\ opens r target k = None) ->
  (forall q, Q q -> (forall tgid, q <> SetTarget tgid) /\
     closes q (c_tgid c) k = false /\ opens q (c_tgid c) k = Some v) ->
  (forall p hist, P p -> target_of hist = c_tgid c -> pending opens closes hist k = Some v ->
     spec_emit p hist = Some ev) ->
  ev ∈ spec_events (reverse ls).
Proof.
  intros (before & q & between & p & after & -> & Htg & Hq & Hp & Hb) Hu HQ HP.
  rewrite app_comm_cons, app_assoc, reverse_app, reverse_cons, <- app_assoc. cbn [app].
  apply spec_events_intro. rewrite reverse_app, reverse_cons, <- app_assoc. cbn [app].
  apply Forall_reverse in Hb. apply HP; [done| |].
  - rewrite target_of_frame; [|apply (Forall_impl _ _ _ Hb); by intros r [_ ?]].
    destruct (HQ q Hq) as [Hn _]. destruct q; try done. by destruct (Hn tgid).
  - destruct (HQ q Hq) as (_ & Hcl & Ho). apply pending_frame; [by rewrite Htg..|].
    apply (Forall_impl _ _ _ Hb). auto.
Qed.

Lemma recorded_read ls : happens ls -> io_ev ∈ spec_events (reverse ls).
Proof.
  intros [Hs _ _ _]. destruct (ok_tgid _ Hc) as [_ Hg%Z.eqb_neq].
  apply (span_event io_opens io_closes _ key
    (mkBlockIoStart (t_issue t) (c_tgid c) (c_holder c) (c_comm c)) _ _ _ _ Hs); clear Hs.
  - intros r target [Hr _]. destruct r as [| | |h [evt|]|h [evt|]|]; try done; cbn -[pack_block_key] in *;
      rewrite list_elem_of_singleton in Hr; rewrite ?(proj2 (Z.eqb_neq key _)) by congruence; by rewrite ?andb_false_r.
  - intros [| | |h [evt|]| |] Hq; try done. destruct Hq as ((Htg & Htid & Hcomm & Hts) & Hk). split_and!; [done..|].
    cbn -[pack_block_key]. by rewrite Hg, Htg, Hk, !Z.eqb_refl, Htid, Hcomm, Hts.
  - intros [| | | |h [evt|]|] hist Hp _ Hpe; try done. destruct Hp as [Hts Hk].
    cbn [spec_emit]. unfold closing. cbn [io_opens]. rewrite Hk, Hpe, Hts. done.
Qed.

Lemma recorded_futex tid op ty start now ls :
  futex_event_type op = Some ty ->
  span ls (LFutex tid) (enters tid op start) (leaves tid now) ->
  event now start (c_uaddr c) tid ty ∈ spec_events (reverse ls).
Proof.
  intros Hty Hs. destruct (ok_tgid _ Hc) as [_ Hg%Z.eqb_neq].
  apply (span_event futex_opens futex_closes _ tid
    (mkFutexStart start (c_uaddr c) op (c_tgid c) (c_comm c)) _ _ _ _ Hs); clear Hs.
  - intros r target [Hr _]. destruct r as [|h [evt|]|h| | |]; try done; cbn in *;
      rewrite list_elem_of_singleton in Hr; rewrite ?(proj2 (Z.eqb_neq tid _)) by congruence; by rewrite ?andb_false_r.
  - intros [|h [evt|]| | | |] Hq; try done. destruct Hq as ((Htg & Htid & Hcomm & Hts) & Hu & Ho). split_and!; [done..|].
    cbn. by rewrite Hg, Htg, Htid, !Z.eqb_refl, Hcomm, Hts, Hu, Ho.
  - intros [| |h| | |] hist Hp _ Hpe; try done. destruct Hp as [Htid Hts].
    cbn [spec_emit]. unfold closing. cbn [futex_opens]. rewrite Htid, Hpe, Hts. cbn. unfold futex_event. cbn.
    by rewrite Hty.
Qed.

Lemma recorded_stall ls : happens ls -> waiter_block_ev ∈ spec_events (reverse ls).
Proof.
  intros [_ _ _ Hs]. destruct (ok_tgid _ Hc) as [_ Hg%Z.eqb_neq], (ok_waiter _ Hc) as [_ Hw].
  apply (span_event block_opens block_closes _ (c_waiter c)
    (mkBlockStart (t_wout t) (c_tgid c) (c_comm c)) _ _ _ _ Hs); clear Hs.
  - intros r target [Hr _]. destruct r as [h [evt|]| | | | |]; try done. cbn in *.
    apply not_elem_of_app in Hr as [Hr1 Hr2]. split.
    + destruct (c_waiter c =? as_u32 (ss_next_pid evt)) eqn:E; [|by rewrite andb_false_r]. zbool. rewrite <- E in Hr2.
      rewrite (proj2 (Z.eqb_neq _ _) Hw) in Hr2. destruct Hr2. apply list_elem_of_here.
    + destruct (c_waiter c =? as_u32 (ss_prev_pid evt)) eqn:E; [|by rewrite !andb_false_r]. zbool. rewrite <- E in Hr1.
      destruct (ss_prev_state evt =? TASK_RUNNING); [by rewrite !andb_false_r|]. destruct Hr1. apply list_elem_of_here.
  - intros [h [evt|]| | | | |] Hq; try done. destruct Hq as (Htg & Hts & Hcomm & Hp & Hst & Hn). cbn.
    rewrite (proj2 (Z.eqb_neq _ _) (not_eq_sym Hn)), (proj2 (Z.eqb_neq _ _) Hst), andb_false_r. split_and!; [done..|].
    by rewrite Hg, Htg, Hp, !Z.eqb_refl, Hts, Hcomm.
  - intros [h [evt|]| | | | |] hist Hp Htg Hpe; try done. destruct Hp as (Hts & Hn & Hpr).
    cbn [spec_emit]. unfold closing. cbn [block_opens].
    rewrite Htg, Hg, Hn, (proj2 (Z.eqb_neq _ _) (not_eq_sym Hpr)), !andb_false_r, Hpe, Hts. done.
Qed.

(** The four events are specified. *)
Lemma happens_specified ls :
  happens ls ->
  [io_ev; wake_ev; wait_ev; waiter_block_ev] ⊆ spec_events (reverse ls).
Proof.
  intros Hh. pose proof (recorded_read ls Hh). pose proof (recorded_stall ls Hh). destruct Hh as [_ Hk Hf _].
  apply (recorded_futex _ _ EVENT_FUTEX_WAKE) in Hk; [|done]. apply (recorded_futex _ _ EVENT_FUTEX_WAIT) in Hf; [|done].
  intros e. rewrite !elem_of_cons, elem_of_nil. intros [->|[->|[->|[->|[]]]]]; done.
Qed.

(** ** What is printed *)

Definition io_te := trace_event_from io_ev.
Definition wake_te := trace_event_from wake_ev.
Definition wait_te := trace_event_from wait_ev.
Definition waiter_block_te := trace_event_from waiter_block_ev.

Section Chain.
Context (evs : list Event).
Hypothesis Hevs : [io_ev; wake_ev; wait_ev; waiter_block_ev] ⊆ evs.
Hypothesis Hud : undisturbed evs.
#[local] Abbreviation typed := (partition (trace_event_from <$> evs)).

Lemma of_type (ty : Z) e :
  e ∈ List.filter (fun e => te_event_type e =? ty) (trace_event_from <$> evs) <->
  exists ev, ev ∈ evs /\ ev_event_type ev = ty /\ e = trace_event_from ev.
Proof.
  rewrite elem_of_filter_bool, list_elem_of_fmap, Z.eqb_eq. split.
  - intros [Hty (ev & -> & Hev)]. by exists ev.
  - intros (ev & Hev & <- & ->). split; [done|]. by exists ev.
Qed.

Lemma recorded_te ev ty :
  ev ∈ [io_ev; wake_ev; wait_ev; waiter_block_ev] -> ev_event_type ev = ty ->
  trace_event_from ev ∈ List.filter (fun e => te_event_type e =? ty) (trace_event_from <$> evs).
Proof. intros Hin Hty. apply of_type. exists ev. by split_and!; [apply Hevs|..]. Qed.

Lemma waiter_resume_cause : classify_resume_cause (c_waiter c) (t_win t) typed = CauseFutex wait_te.
Proof.
  pose proof (classify_resume_cause_sound (c_waiter c) (t_win t) typed) as Hs.
  rewrite partition_filters in *. cbn [resume_cause futex_wait block_io] in Hs.
  assert (Hw : wait_te ∈ List.filter (fun e => te_event_type e =? EVENT_FUTEX_WAIT) (trace_event_from <$> evs))
    by (apply recorded_te; [do 2 apply list_elem_of_further; apply list_elem_of_here|done]).
  assert (Hfw : follows (t_win t) wait_te) by (destruct Ht; unfold follows; cbn; lia).
  destruct (classify_resume_cause _ _ _) as [f|i|]; cbn [resume_cause futex_wait block_io] in Hs.
  - destruct Hs as [(Hf & Htid & Hfo & Hmin) _]. specialize (Hmin wait_te Hw eq_refl Hfw). f_equal.
    apply of_type in Hf as (ev & Hev & Hty & ->). unfold wait_te. f_equal.
    apply (ud_wait _ Hud); [done..|]. unfold follows in Hfo. cbn in *. lia.
  - destruct Hs as [(Hi & Htid & Hpi & _) Hfar]. specialize (Hfar wait_te Hw eq_refl Hfw).
    apply of_type in Hi as (ev & Hev & Hty & ->). unfold precedes in Hpi. cbn in *.
    pose proof (ud_waiter_io _ Hud ev Hev Hty Htid) as Hx. lia.
  - destruct Hs as [Hn _]. by destruct (Hn wait_te Hw eq_refl).
Qed.

Lemma holder_prior_cause : classify_prior_cause (c_holder c) (t_wake t) typed = CauseBlockIo io_te.
Proof.
  pose proof (classify_prior_cause_sound (c_holder c) (t_wake t) typed) as Hs.
  rewrite partition_filters in *.
  assert (Hw : io_te ∈ List.filter (fun e => te_event_type e =? EVENT_BLOCK_IO) (trace_event_from <$> evs))
    by (apply recorded_te; [apply list_elem_of_here|done]).
  assert (Hpw : precedes (t_wake t) io_te) by (destruct Ht; unfold precedes; cbn; lia).
  destruct (classify_prior_cause _ _ _) as [f|i|]; cbn [prior_cause futex_wait block_io] in Hs.
  - destruct Hs as [(Hf & Htid & Hpf & _) Hfar]. specialize (Hfar io_te Hw eq_refl Hpw).
    apply of_type in Hf as (ev & Hev & Hty & ->). unfold precedes in Hpf. cbn in *.
    pose proof (ud_holder_wait _ Hud ev Hev Hty Htid) as Hx. lia.
  - destruct Hs as [(Hi & Htid & Hpi & Hmax) _]. specialize (Hmax io_te Hw eq_refl Hpw). f_equal.
    apply of_type in Hi as (ev & Hev & Hty & ->). unfold io_te. f_equal.
    apply (ud_holder_io _ Hud); [done..|]. unfold precedes in Hpi. cbn in *. lia.
  - destruct Hs as [_ Hn]. by destruct (Hn io_te Hw eq_refl).
Qed.

Lemma waiter_waker :
  nearest_preceding (futex_wake typed) (t_ret t) (fun e => te_key e =? c_uaddr c) = Some wake_te.
Proof.
  pose proof (nearest_preceding_spec (futex_wake typed) (t_ret t) (fun e => te_key e =? c_uaddr c)
    (fun e => te_key e = c_uaddr c) (fun e => Z.eqb_eq _ _)) as Hs.
  rewrite partition_filters in *. cbn [futex_wake] in *.
  assert (Hw : wake_te ∈ List.filter (fun e => te_event_type e =? EVENT_FUTEX_WAKE) (trace_event_from <$> evs))
    by (apply recorded_te; [apply list_elem_of_further, list_elem_of_here|done]).
  assert (Hpw : precedes (t_ret t) wake_te) by (destruct Ht; unfold precedes; cbn; lia).
  destruct (nearest_preceding _ _ _) as [e|].
  - destruct Hs as (He & Hk & Hpe & Hmax). specialize (Hmax wake_te Hw eq_refl Hpw). f_equal.
    apply of_type in He as (ev & Hev & Hty & ->). unfold wake_te. f_equal.
    apply (ud_wake _ Hud); [done..|]. unfold precedes in Hpe. cbn in *. lia.
  - by destruct (Hs wake_te Hw eq_refl).
Qed.

(** A stall of any thread at least as long as the waiter's. *)
Definition long_stall (e : TraceEvent) : bool :=
  (te_event_type e =? EVENT_SCHED_BLOCK) && (t_win t - t_wout t <=? te_duration_ns e).

Section Printed.
Context {W : Type} (read_link : string -> W -> option (list byte) * W).
Context (localtime : Z -> Z * Z * Z) (color : bool).

(** The two lines below the headline. *)
Definition cause_lines (dev_name : string) : list string :=
  [woken_line color (c_holder c);
   blocked_line color (c_holder c) (t_done t - t_issue t)
     (block_io_text color dev_name (c_sector c mod 2 ^ 32))].

Lemma ground_truth_walk d acc :
  walk_from_futex_wait read_link color walk_fuel wait_te typed d 1 acc =
  Some (acc ++ cause_lines (name read_link (c_dev c) d).1, (name read_link (c_dev c) d).2).
Proof.
  change walk_fuel with (S (pred walk_fuel)). cbn [walk_from_futex_wait].
  change (te_timestamp_ns wait_te) with (t_ret t). change (te_key wait_te) with (c_uaddr c).
  rewrite waiter_waker.
  change (te_tid wake_te) with (c_holder c). change (MAX_CHAIN_DEPTH <=? 1) with false. cbv iota.
  assert (saturating_sub (te_timestamp_ns wake_te) (te_duration_ns wake_te) = t_wake t) as ->.
  { cbn. destruct Ht. unfold saturating_sub. lia. }
  rewrite holder_prior_cause. change (te_key io_te) with key. unfold key.
  rewrite unpack_pack by apply Hc. change (te_duration_ns io_te) with (saturating_sub (t_done t) (t_issue t)).
  rewrite saturating_sub_exact by (destruct Ht; lia).
  destruct (name read_link (c_dev c) d) as [n d']. by rewrite <- app_assoc.
Qed.

Lemma ground_truth_stall f d :
  explain_one_stall read_link localtime color waiter_block_te f typed d =
  Some (mkChain
    (headline color (format_wall_time localtime (wall_ns_for f (t_wout t))) (c_waiter c)
       (t_win t - t_wout t) ("on " +:+ futex_text color (c_uaddr c)) ::
     cause_lines (name read_link (c_dev c) d).1), (name read_link (c_dev c) d).2).
Proof.
  unfold explain_one_stall.
  change (te_tid waiter_block_te) with (c_waiter c).
  change (te_timestamp_ns waiter_block_te) with (t_win t).
  change (te_duration_ns waiter_block_te) with (saturating_sub (t_win t) (t_wout t)).
  rewrite (saturating_sub_exact (t_win t) (t_wout t)) by (destruct Ht; lia).
  replace (saturating_sub (t_win t) (t_win t - t_wout t)) with (t_wout t)
    by (destruct Ht; unfold saturating_sub; lia).
  rewrite waiter_resume_cause. by rewrite ground_truth_walk.
Qed.
End Printed.
End Chain.
End GroundTruth.

(** Each selected interval is explained with the names known by then. *)
Lemma explain_all_elem {W} (read_link : string -> W -> option (list byte) * W) localtime color
    blocks trace typed d cs d' b :
  explain_all read_link localtime color blocks trace typed d = Some (cs, d') ->
  names_sound read_link d -> b ∈ blocks ->
  exists c d1 d2, c ∈ cs /\ names_sound read_link d1 /\
    explain_one_stall read_link localtime color b trace typed d1 = Some (c, d2).
Proof.
  revert d cs. induction blocks as [|b' blocks IH]; intros d cs He Hs Hb; [by apply elem_of_nil in Hb|].
  cbn in He. apply bind_Some in He as ([c1 d1] & Hc1 & He).
  apply bind_Some in He as ([cs1 d2] & Hcs & He). injection He as <- <-.
  apply elem_of_cons in Hb as [->|Hb].
  - exists c1, d, d1. split_and!; [apply elem_of_cons; by left|done..].
  - destruct (explain_one_stall_sound read_link color localtime trace typed b' d) as (c1' & d1' & Hc1' & Hg & _).
    rewrite Hc1 in Hc1'. injection Hc1' as <- <-.
    destruct (IH _ _ Hcs (proj2 Hg Hs) Hb) as (c & d3 & d4 & Hin & Hs3 & Hx). exists c, d3, d4.
    split; [apply elem_of_cons; by right|done].
Qed.

(** A stall is among the [n] explained if no more than [n] are as long. *)
Lemma slowest_blocks_elem typed n b :
  b ∈ block typed ->
  (length (List.filter (fun e => te_duration_ns b <=? te_duration_ns e)%Z (block typed)) <= n)%nat ->
  b ∈ slowest_blocks typed n.
Proof.
  unfold slowest_blocks. pose proof (sort_blocks_sorted (block typed)) as Hs.
  pose proof (sort_by_perm longer_first (block typed)) as Hp. revert Hs Hp. generalize (sort_by longer_first (block typed)).
  intros l Hs Hp Hb Hn. rewrite <- Hp in Hb. apply list_elem_of_split in Hb as (l1 & l2 & ->).
  assert (length (List.filter (fun e => te_duration_ns b <=? te_duration_ns e)%Z (l1 ++ b :: l2)) <= n)%nat as Hn'.
  { etrans; [|exact Hn]. apply Nat.eq_le_incl, Permutation_length. clear - Hp.
    induction Hp; cbn; repeat case_match; try done; [by constructor|by constructor|by etrans]. }
  rewrite List.filter_app, length_app in Hn'. cbn [List.filter] in Hn'. rewrite Z.leb_refl in Hn'. cbn [length] in Hn'.
  rewrite forallb_filter_id in Hn'.
  - apply elem_of_take. exists (length l1). split; [by apply list_lookup_middle|lia].
  - apply forallb_forall. intros x Hx%list_elem_of_In. apply Z.leb_le.
    eapply (StronglySorted_app_1_elem_of _ _ _ x b Hs); [done|apply list_elem_of_here].
Qed.

(** The waiter's stall is explained if no more stalls are as long. *)
Lemma waiter_selected c t evs n :
  times_ok t -> waiter_block_ev c t ∈ evs ->
  (length (List.filter (long_stall t) (trace_event_from <$> evs)) <= n)%nat ->
  waiter_block_te c t ∈ slowest_blocks (partition (trace_event_from <$> evs)) n.
Proof.
  intros Ht He Hn. apply slowest_blocks_elem; rewrite partition_filters; cbn [block].
  - apply of_type. by exists (waiter_block_ev c t).
  - etrans; [|exact Hn]. apply Nat.eq_le_incl. f_equal.
    assert (te_duration_ns (waiter_block_te c t) = t_win t - t_wout t) as ->
      by (apply saturating_sub_exact; destruct Ht; lia).
    generalize (trace_event_from <$> evs). intros l. induction l as [|e l IH]; [done|]. cbn. unfold long_stall at 1.
    destruct (te_event_type e =? EVENT_SCHED_BLOCK); cbn; [|done]. destruct (_ <=? te_duration_ns e); cbn; congruence.
Qed.

(** The chain of the waiter's stall, in a trace of the events of a recording
    in which the ground truth happens. *)
Lemma chain_explained {W : Type} (read_link : string -> W -> option (list byte) * W)
    (localtime : Z -> Z * Z * Z) (color : bool) (c : cast) (t : times) (f : TraceFile)
    (slowest : nat) (w : W) ls :
  cast_ok c -> times_ok t -> happens c t ls ->
  events f = trace_event_from <$> spec_events (reverse ls) -> undisturbed c t (spec_events (reverse ls)) ->
  (length (List.filter (long_stall t) (events f)) <= slowest)%nat ->
  exists cs w' chain dev_name,
    explain read_link localtime color f slowest w = Some (cs, w') /\ chain ∈ cs /\
    resolved read_link (c_dev c) dev_name /\
    lines chain =
      [headline color (format_wall_time localtime (wall_ns_for f (t_wout t))) (c_waiter c)
         (t_win t - t_wout t) ("on " +:+ futex_text color (c_uaddr c));
       woken_line color (c_holder c);
       blocked_line color (c_holder c) (t_done t - t_issue t)
         (block_io_text color dev_name (c_sector c mod 2 ^ 32))].
Proof.
  intros Hc Ht Hh He Hu Hn. pose proof (happens_specified c t Hc ls Hh) as Hin. rewrite He in Hn.
  assert (Hb : waiter_block_te c t ∈ slowest_blocks (partition (events f)) slowest).
  { rewrite He. apply waiter_selected; [done| |done]. apply Hin.
    do 3 apply list_elem_of_further. apply list_elem_of_here. }
  unfold explain. set (typed := partition (events f)) in *.
  destruct (explain_all_sound read_link color localtime f typed (slowest_blocks typed slowest)
    (DevNames_new w)) as (cs & d' & Hx & _ & _).
  rewrite Hx. cbn [mbind option_bind].
  destruct (explain_all_elem _ _ _ _ _ _ _ _ _ _ Hx (DevNames_new_sound read_link w) Hb)
    as (ch & d1 & d2 & Hch & Hs & Hst).
  unfold typed in Hst. rewrite He in Hst. rewrite (ground_truth_stall c t Hc Ht _ Hin Hu) in Hst.
  apply (inj Some) in Hst. exists cs, (fs d'), ch, (name read_link (c_dev c) d1).1.
  split_and!; [done..|by apply name_resolved|]. exact (f_equal (fun r => lines r.1) (eq_sym Hst)).
Qed.

(** ** A concrete run

    What the probes see in a thread of the target, and in a context that
    belongs to no process (an interrupt on an idle CPU). *)

Definition in_thread (c : cast) (tid now : Z) : helpers :=
  mkHelpers (Z.lor (Z.shiftl (c_tgid c) 32) tid) (Some (c_comm c)) now.
Definition in_idle (now : Z) : helpers := mkHelpers 0 None now.

Definition no_entry : TraceEntry := mkTraceEntry 0 0 0 0.

Definition switch (c : cast) (prev state next : Z) : option TraceEventRawSchedSwitch :=
  Some (mkSchedSwitch no_entry (c_comm c) prev 120 state (c_comm c) next 120).
Definition futex (c : cast) (op : Z) : option TraceEventRawSysEnter :=
  Some (mkSysEnter no_entry 202 [c_uaddr c; op; 2; 0; 0; 0]).
Definition rq_issue (c : cast) : option TraceEventRawBlockRq :=
  Some (mkBlockRq no_entry (c_dev c) (c_sector c) 128 65536 0 [] (c_comm c) 0).
Definition rq_complete (c : cast) : option TraceEventRawBlockRqCompletion :=
  Some (mkBlockRqCompletion no_entry (c_dev c) (c_sector c) 128 0 0 [] 0).

Definition demo_cast : cast :=
  mkCast 4000 4001 4002 0x7f00deadbee0 (Z.lor (Z.shiftl 259 20) 1) 2048
    (bytes_of_string "synthetic" ++ replicate 7 zero_byte).

Lemma demo_cast_ok : cast_ok demo_cast.
Proof. split; cbn; repeat split; try done; lia. Qed.

(** Microseconds of that day. *)
Definition at_us (us : Z) : Z := 100 * 1000000000 + us * 1000.

(** A read of the holder, which blocks for it. *)
Definition one_read (us : Z) : list probe :=
  [ BlockRqIssue (in_thread demo_cast 4001 (at_us us)) (rq_issue demo_cast);
    SchedSwitch (in_thread demo_cast 4001 (at_us (us + 100))) (switch demo_cast 4001 2 0);
    BlockRqComplete (in_idle (at_us (us + 800))) (rq_complete demo_cast);
    SchedSwitch (in_idle (at_us (us + 900))) (switch demo_cast 0 0 4001) ].

(** The reads from the [n]th, a millisecond each. *)
Definition reads (first n : nat) : list probe :=
  concat ((fun i => one_read (1000 * (1 + Z.of_nat i))) <$> seq first n).

(** Thread 78 of another process. *)
Definition other_at (us : Z) : helpers := mkHelpers (Z.lor (Z.shiftl 77 32) 78) None (at_us us).

Definition join_futex : option TraceEventRawSysEnter :=
  Some (mkSysEnter no_entry 202 [0x7f00deada9d0; FUTEX_WAIT; 4001; 0; 0; 0]).

(** The reproducer: the main thread 4000 waits for the others to end; the
    holder 4001 makes its 64 reads and wakes the waiter 4002, which came at
    the fifth of them, and which then takes the lock, marks it contended as
    [lock] does and so makes a wake of its own. Thread 78 of another process
    runs and reads meanwhile. *)
Definition demo_session : list probe :=
  [ SetTarget 4000;
    FutexEnter (in_thread demo_cast 4000 (at_us 0)) join_futex;
    SchedSwitch (in_thread demo_cast 4000 (at_us 0)) (switch demo_cast 4000 1 78) ] ++
  reads 0 4 ++
  [ FutexEnter (in_thread demo_cast 4002 (at_us 5010)) (futex demo_cast FUTEX_WAIT);
    SchedSwitch (in_thread demo_cast 4002 (at_us 5020)) (switch demo_cast 4002 1 0) ] ++
  reads 4 6 ++
  [ BlockRqIssue (other_at 11000) (Some (mkBlockRq no_entry 8 4096 8 4096 0 [] (c_comm demo_cast) 0)) ] ++
  reads 10 32 ++
  [ BlockRqComplete (in_idle (at_us 43000)) (Some (mkBlockRqCompletion no_entry 8 4096 8 0 0 [] 0)) ] ++
  reads 42 22 ++
  [ FutexEnter (in_thread demo_cast 4001 (at_us 65000)) (futex demo_cast FUTEX_WAKE);
    FutexExit (in_thread demo_cast 4001 (at_us 65100));
    SchedSwitch (in_idle (at_us 65200)) (switch demo_cast 0 0 4002);
    FutexExit (in_thread demo_cast 4002 (at_us 65300));
    FutexEnter (in_thread demo_cast 4002 (at_us 65400)) (futex demo_cast FUTEX_WAKE);
    FutexExit (in_thread demo_cast 4002 (at_us 65500));
    SchedSwitch (other_at 70000) (switch demo_cast 78 1 4000);
    FutexExit (in_thread demo_cast 4000 (at_us 71000)) ].

(** Of the last of the reads. *)
Definition demo_times : times :=
  mkTimes (at_us 64000) (at_us 64800) (at_us 65000) (at_us 65100) (at_us 5010) (at_us 5020)
    (at_us 65200) (at_us 65300).

Lemma demo_times_ok : times_ok demo_times.
Proof. split; cbn; unfold at_us, MATCH_WINDOW_NS; lia. Qed.

Definition is_read (p : probe) : bool :=
  match p with BlockRqIssue h _ => current_tid h =? 4001 | _ => false end.

Example demo_session_reads : length (List.filter is_read demo_session) = 64%nat.
Proof. vm_compute. reflexivity. Qed.

(** A span, by the positions of its ends. *)
Lemma span_between c ls l (Q P : probe -> Prop) i j q p :
  ls !! i = Some q -> ls !! j = Some p -> (i < j)%nat ->
  target_of (reverse (take i ls)) = c_tgid c -> Q q -> P p ->
  Forall (untouched l) (take (j - S i) (drop (S i) ls)) -> span c ls l Q P.
Proof.
  intros Hi Hj Hlt Ht HQ HP Hb. exists (take i ls), q, (take (j - S i) (drop (S i) ls)), p, (drop (S j) ls).
  split_and!; [|done..]. rewrite <- (take_drop_middle ls i q Hi) at 1. f_equal. f_equal.
  rewrite <- (take_drop_middle (drop (S i) ls) (j - S i) p) at 1.
  - f_equal. f_equal. rewrite drop_drop. f_equal. lia.
  - rewrite lookup_drop, <- Hj. f_equal. lia.
Qed.

#[export] Instance untouched_dec l p : Decision (untouched l p).
Proof.
  unfold untouched. apply and_dec; [apply _|]. destruct p; try (by left; intros ?). right. intros H. by apply (H tgid).
Defined.

Ltac demo_span i j :=
  eapply (span_between _ _ _ _ _ i j); [vm_compute; reflexivity|vm_compute; reflexivity|lia|
    vm_compute; reflexivity|by vm_compute|by vm_compute|apply (bool_decide_unpack _); vm_compute; exact I].

Lemma demo_session_happens : happens demo_cast demo_times demo_session.
Proof.
  split.
  - demo_span 259%nat 261%nat.
  - demo_span 263%nat 264%nat.
  - demo_span 19%nat 266%nat.
  - demo_span 20%nat 265%nat.
Qed.
