(* ===== verification/Bystanders.v ===== *)
(** * The ground truth, end to end

    The ground truth happens while everything else on the machine runs: the
    reproducer's other reads, its main thread, other processes. From the
    interleaved operations of the handlers to the printed lines, [explain]
    finds the chain of the waiter's stall. The concrete run has all 64 reads
    of the reproducer. *)

From S2P Require Import Prelude RustStd Layout Common Vmlinux Ebpf EbpfSpec KernelMaps EbpfProps.
From S2P Require Import Concurrent Lossy Capacity Consumer Slots Trace Ui Causal CausalProps.
From S2P Require Import Os Bpf BpfProps GroundTruth.

(** What the CLI gets is all that is specified. *)
Lemma short_session_decoded ls evs m (pad : nat -> byte) :
  srun exclusive (mkSmachine loaded_slots []) ls evs m -> settled m -> Forall wf_probe ls ->
  (length ls + length (s_flight m) <= min_capacity)%nat ->
  decode_all (event_bytes pad <$> (evs ++ readable (sl_items (EVENTS (s_kernel m))))) =
    trace_event_from <$> spec_events (reverse ls).
Proof.
  intros Hs Hall Hwf Hl. destruct (loaded_slots_session ls evs m Hs) as (Ht & Hread & Hfl).
  rewrite <- (Hread Hall), (session_short_run ls evs (view m) Ht) by lia.
  apply decode_all_bytes, spec_events_wf. by rewrite reverse_Permutation.
Qed.

Lemma chain_among_bystanders {W : Type} (read_link : string -> W -> option (list byte) * W)
    (localtime : Z -> Z * Z * Z) (color : bool) (c : cast) (t : times) (pad : nat -> byte)
    (realtime monotonic : Z) (slowest : nat) (w : W) ls evs m :
  cast_ok c -> times_ok t ->
  srun exclusive (mkSmachine loaded_slots []) ls evs m -> settled m -> Forall wf_probe ls ->
  (length ls + length (s_flight m) <= min_capacity)%nat ->
  happens c t ls -> undisturbed c t (spec_events (reverse ls)) ->
  let f := mkTraceFile realtime monotonic
    (decode_all (event_bytes pad <$> (evs ++ readable (sl_items (EVENTS (s_kernel m)))))) in
  (length (List.filter (long_stall t) (events f)) <= slowest)%nat ->
  exists cs w' chain dev_name,
    explain read_link localtime color f slowest w = Some (cs, w') /\ chain ∈ cs /\
    resolved read_link (c_dev c) dev_name /\
    lines chain =
      [headline color (format_wall_time localtime (wall_ns_for f (t_wout t))) (c_waiter c)
         (t_win t - t_wout t) ("on " +:+ futex_text color (c_uaddr c));
       woken_line color (c_holder c);
       blocked_line color (c_holder c) (t_done t - t_issue t)
         (block_io_text color dev_name (c_sector c mod 2 ^ 32))].
Proof.
  intros Hc Ht Hs Hall Hwf Hl Hh Hu f Hn.
  eapply chain_explained; [exact Hc|exact Ht|exact Hh| |exact Hu|exact Hn].
  by apply short_session_decoded.
Qed.

(** ** The concrete run *)

#[export] Instance wf_helpers_dec h : Decision (wf_helpers h).
Proof.
  unfold wf_helpers. apply and_dec; [unfold is_uint; apply _|]. destruct (h_comm h) as [comm|]; [|by left].
  destruct (decide (length comm = TASK_COMM_LEN)); [left|right]; [by intros ? [= <-]|]. intros H. by apply n, H.
Defined.

Lemma decide_forall_Some {A} (P : A -> Prop) (o : option A) :
  (forall a, Decision (P a)) -> Decision (forall a, o = Some a -> P a).
Proof.
  intros H. destruct o as [a|]; [|by left].
  destruct (H a); [left|right]; [by intros ? [= <-]|]. intros Ha. by apply n, Ha.
Defined.

#[export] Instance wf_probe_dec p : Decision (wf_probe p).
Proof.
  destruct p; cbn; repeat (apply and_dec || apply decide_forall_Some || intros ?); unfold is_uint; apply _.
Defined.

Lemma demo_session_wf : Forall wf_probe demo_session.
Proof. apply (bool_decide_unpack _). vm_compute. exact I. Qed.

Lemma demo_session_run :
  exists m, srun exclusive (mkSmachine loaded_slots []) demo_session [] m /\ s_flight m = [].
Proof.
  destruct (serial_run (c_tgid demo_cast) (drop 1 demo_session) loaded_slots) as (k & Hr); [done| |by eexists].
  apply (bool_decide_unpack _). vm_compute. exact I.
Qed.

Lemma demo_session_settled (m : smachine (capmap BlockStart) (capmap FutexStart) (capmap BlockIoStart)) :
  s_flight m = [] -> settled m.
Proof. unfold settled. intros ->. constructor. Qed.

Lemma demo_session_fits (m : smachine (capmap BlockStart) (capmap FutexStart) (capmap BlockIoStart)) :
  s_flight m = [] -> (length demo_session + length (s_flight m) <= min_capacity)%nat.
Proof. intros ->. apply (bool_decide_unpack _). vm_compute. exact I. Qed.

Lemma demo_session_undisturbed : undisturbed demo_cast demo_times (spec_events (reverse demo_session)).
Proof.
  assert (H : Forall (fun e =>
    (ev_event_type e = EVENT_FUTEX_WAKE -> ev_key e = c_uaddr demo_cast ->
      t_woke demo_times <= ev_timestamp_ns e <= t_ret demo_times -> e = wake_ev demo_cast demo_times) /\
    (ev_event_type e = EVENT_FUTEX_WAIT -> ev_tid e = c_waiter demo_cast ->
      t_win demo_times <= ev_timestamp_ns e <= t_ret demo_times -> e = wait_ev demo_cast demo_times) /\
    (ev_event_type e = EVENT_BLOCK_IO -> ev_tid e = c_waiter demo_cast -> False) /\
    (ev_event_type e = EVENT_FUTEX_WAIT -> ev_tid e = c_holder demo_cast -> False) /\
    (ev_event_type e = EVENT_BLOCK_IO -> ev_tid e = c_holder demo_cast ->
      t_done demo_times <= ev_timestamp_ns e <= t_wake demo_times -> e = io_ev demo_cast demo_times))
    (spec_events (reverse demo_session))) by (apply (bool_decide_unpack _); vm_compute; exact I).
  rewrite Forall_forall in H. split; intros e He; destruct (H e He) as (H1 & H2 & H3 & H4 & H5); try done.
  - intros Hty Htid. by destruct (H3 Hty Htid).
  - intros Hty Htid. by destruct (H4 Hty Htid).
Qed.

(** Two stalls are as long as the waiter's: its own, and that of the main
    thread. *)
Lemma demo_session_stalls m pad :
  srun exclusive (mkSmachine loaded_slots []) demo_session [] m -> s_flight m = [] ->
  length (List.filter (long_stall demo_times)
    (decode_all (event_bytes pad <$> ([] ++ readable (sl_items (EVENTS (s_kernel m))))))) = 2%nat.
Proof.
  intros Hr Hn.
  rewrite (short_session_decoded demo_session [] m pad Hr (demo_session_settled m Hn) demo_session_wf
    (demo_session_fits m Hn)).
  vm_compute. reflexivity.
Qed.

(** ** The property *)

(** C3: The whole pipeline reproduces the ground truth, among whatever else
    happens. In any recording in which the holder's read, its wake, the
    waiter's wait and the waiter's stall are spans ([happens]), each cause
    within the join window of its effect ([times_ok]) and nothing recorded
    closer ([undisturbed]; the holder's earlier reads and the waiter's own later
    wake are not), [explain] on what the CLI decodes prints the waiter's stall
    on the futex, woken by the holder, which had been blocked on that block
    I/O, each with its exact duration. The handlers interleave in any way, with
    each other and with the consumer, provided that no two in flight are about
    the same thread or request, no more than the smallest of the declared
    capacities (4095) ran, none is inside [emit] at the end, and no more stalls
    are as long as the waiter's than are explained. *)
Theorem ground_truth_among_others {W : Type} (read_link : string -> W -> option (list byte) * W)
    (localtime : Z -> Z * Z * Z) (color : bool) (c : cast) (t : times) (pad : nat -> byte)
    (realtime monotonic : Z) (slowest : nat) (w : W) ls evs m :
  cast_ok c -> times_ok t ->
  srun exclusive (mkSmachine loaded_slots []) ls evs m -> settled m -> Forall wf_probe ls ->
  (length ls + length (s_flight m) <= min_capacity)%nat ->
  happens c t ls -> undisturbed c t (spec_events (reverse ls)) ->
  let f := mkTraceFile realtime monotonic
    (decode_all (event_bytes pad <$> (evs ++ readable (sl_items (EVENTS (s_kernel m)))))) in
  (length (List.filter (long_stall t) (events f)) <= slowest)%nat ->
  exists cs w' chain dev_name,
    explain read_link localtime color f slowest w = Some (cs, w') /\ chain ∈ cs /\
    resolved read_link (c_dev c) dev_name /\
    lines chain =
      [headline color (format_wall_time localtime (wall_ns_for f (t_wout t))) (c_waiter c)
         (t_win t - t_wout t) ("on " +:+ futex_text color (c_uaddr c));
       woken_line color (c_holder c);
       blocked_line color (c_holder c) (t_done t - t_issue t)
         (block_io_text color dev_name (c_sector c mod 2 ^ 32))].
Proof. exact (chain_among_bystanders read_link localtime color c t pad realtime monotonic slowest w ls evs m). Qed.

(** The run with all 64 reads. *)
Lemma ground_truth_among_others_witness :
  length (List.filter is_read demo_session) = 64%nat /\
  exists m, srun exclusive (mkSmachine loaded_slots []) demo_session [] m /\
    let f := mkTraceFile 0 0
      (decode_all (event_bytes (fun _ => zero_byte) <$> ([] ++ readable (sl_items (EVENTS (s_kernel m)))))) in
    exists cs w' chain dev_name,
      explain (fun _ (w : unit) => (None, w)) (fun _ => (0, 0, 0)) false f 2 tt = Some (cs, w') /\ chain ∈ cs /\
      resolved (fun _ (w : unit) => (None, w)) (c_dev demo_cast) dev_name /\
      lines chain =
        [headline false (format_wall_time (fun _ => (0, 0, 0)) (wall_ns_for f (t_wout demo_times))) 4002
           (t_win demo_times - t_wout demo_times) ("on " +:+ futex_text false (c_uaddr demo_cast));
         woken_line false 4001;
         blocked_line false 4001 (t_done demo_times - t_issue demo_times)
           (block_io_text false dev_name (c_sector demo_cast mod 2 ^ 32))].
Proof.
  split; [exact demo_session_reads|].
  destruct demo_session_run as (m & Hr & Hn). exists m. split; [exact Hr|].
  apply (ground_truth_among_others (fun _ (w : unit) => (None, w)) (fun _ => (0, 0, 0)) false demo_cast demo_times
    (fun _ => zero_byte) 0 0 2 tt demo_session [] m demo_cast_ok demo_times_ok Hr (demo_session_settled m Hn)
    demo_session_wf (demo_session_fits m Hn) demo_session_happens demo_session_undisturbed).
  exact (Nat.eq_le_incl _ _ (demo_session_stalls m (fun _ => zero_byte) Hr Hn)).
Defined.
