(* ===== verification/Pipeline.v ===== *)
(** * The pipeline on several processors

    The handlers and the consumer interleaved, the ring buffer's bytes, the
    decoder and [explain], put together: what is printed is the reference
    explanation of what the specification says happened. *)

From S2P Require Import Prelude RustStd Layout Common Vmlinux Ebpf EbpfSpec KernelMaps EbpfProps.
From S2P Require Import Concurrent Lossy Capacity Consumer Slots Trace Ui Causal CausalProps ExplainRef.
From S2P Require Import Os Bpf BpfProps GroundTruth.

(** Whatever the handlers recorded and the consumer read, interleaved in any
    way and with any capacities, the CLI decodes those records, all of them, in
    order, from their bytes. *)
Theorem session_events_decoded {MB MF MI R}
    `{!BpfHashMap Z BlockStart MB, !BpfHashMap Z FutexStart MF, !BpfHashMap Z BlockIoStart MI,
      !BpfRingBuf Event R, !BpfHashMapLaws Z BlockStart MB, !BpfHashMapLaws Z FutexStart MF,
      !BpfHashMapLaws Z BlockIoStart MI, !BpfRingBufLaws Event R,
      !BpfRingConsumer Event R, !BpfRingConsumerLaws Event R}
    (k : kernel MB MF MI R) ls evs c (pad : nat -> byte) :
  initial k -> tracing exclusive (mkMachine k []) ls evs c -> Forall wf_probe ls ->
  let taken := evs ++ rb_contents (EVENTS (shared c)) in
  decode_all (event_bytes pad <$> taken) = trace_event_from <$> taken.
Proof.
  intros Hk Hs Hwf taken. apply decode_all_bytes. eapply sublist_Forall; [by eapply session_sublist|].
  apply spec_events_wf. by rewrite reverse_Permutation.
Qed.

Lemma two_processors_wf : Forall wf_probe two_processors_probes.
Proof.
  unfold two_processors_probes. repeat apply Forall_cons_2; try apply Forall_nil_2; cbn;
    unfold wf_helpers, blink_out, blink_in; split_and?; try (unfold is_uint; cbn; lia);
    cbn; intros; simplify_eq; try done.
  repeat constructor; cbn; lia.
Qed.

Lemma session_events_decoded_witness :
  exists evs c, tracing exclusive (mkMachine loaded_bounded []) two_processors_probes evs c /\
    decode_all (event_bytes (fun _ => zero_byte) <$> (evs ++ rb_contents (EVENTS (shared c)))) =
    trace_event_from <$> (evs ++ rb_contents (EVENTS (shared c))).
Proof.
  destruct reading_along_session as (evs & c & Hs & _). exists evs, c. split; [done|].
  exact (session_events_decoded loaded_bounded _ evs c _ loaded_bounded_initial Hs two_processors_wf).
Defined.

(** C1: The whole pipeline implements its specification: however the handlers
    interleave on the processors, with the steps of [emit] and with the CLI
    taking events off the ring buffer, and with the capacities the program
    declares, [explain] on what the CLI decodes is the reference explanation of
    the specified events, provided that no two handlers in flight are about the
    same thread or request ([exclusive]), no more handlers ran than the smallest
    capacity (4095), none is inside [emit] when the CLI takes what is left, and
    the links that are read do not change meanwhile. *)
Theorem pipeline_specified {W : Type} (read_link : string -> W -> option (list byte) * W)
    (link : string -> option (list byte)) (localtime : Z -> Z * Z * Z) (color : bool)
    (pad : nat -> byte) (realtime monotonic : Z) (slowest : nat) (w : W) ls evs c :
  (forall path w, (read_link path w).1 = link path) ->
  srun exclusive (mkSmachine loaded_slots []) ls evs c -> settled c -> Forall wf_probe ls ->
  (length ls + length (s_flight c) <= min_capacity)%nat ->
  let recorded :=
    decode_all (event_bytes pad <$> (evs ++ readable (sl_items (EVENTS (s_kernel c))))) in
  let specified := trace_event_from <$> spec_events (reverse ls) in
  exists w', explain read_link localtime color (mkTraceFile realtime monotonic recorded) slowest w =
    Some (explanations link localtime color (mkTraceFile realtime monotonic specified) slowest, w').
Proof.
  intros Hlink Hs Hall Hwf Hl recorded specified.
  destruct (loaded_slots_session ls evs c Hs) as (Ht & Hread & Hfl). specialize (Hread Hall).
  assert (recorded = specified) as ->; [|by apply explain_is_reference].
  unfold recorded, specified. rewrite <- Hread, (session_short_run ls evs (view c) Ht) by lia.
  apply decode_all_bytes, spec_events_wf. by rewrite reverse_Permutation.
Qed.

Lemma pipeline_specified_witness :
  exists evs c w', srun exclusive (mkSmachine loaded_slots []) two_processors_probes evs c /\
    ev_event_type <$> evs = [EVENT_FUTEX_WAIT] /\
    explain (fun _ n => (None, n + 1)) (fun _ => (0, 0, 0)) false
      (mkTraceFile 0 0 (decode_all (event_bytes (fun _ => zero_byte) <$>
        (evs ++ readable (sl_items (EVENTS (s_kernel c))))))) 3 0 =
    Some (explanations (fun _ => None) (fun _ => (0, 0, 0)) false
      (mkTraceFile 0 0 (trace_event_from <$> spec_events (reverse two_processors_probes))) 3, w') /\
    lines <$> explanations (fun _ => None) (fun _ => (0, 0, 0)) false
      (mkTraceFile 0 0 (trace_event_from <$> spec_events (reverse two_processors_probes))) 3 =
      [["00:00:00.000 — tid 8 blocked 15ns (no correlated cause found)"]].
Proof.
  destruct submitted_late_run as (evs & c & Hs & He & _ & Hn).
  destruct (pipeline_specified (fun _ n => (None, n + 1)) (fun _ => None) (fun _ => (0, 0, 0)) false
    (fun _ => zero_byte) 0 0 3 0 two_processors_probes evs c) as [w' Hw];
    [done|done|unfold settled; rewrite Hn; constructor|exact two_processors_wf| |exists evs, c, w'; split_and!; [done..|vm_compute; reflexivity]].
  rewrite Hn. cbn [length]. apply (bool_decide_unpack _). vm_compute. exact I.
Defined.
