(* ===== verification/Simulated.v ===== *)
(** * A simulated environment

    An executable instance of [Os]: one traced child, the loaded BPF programs
    of [Ebpf] on unbounded maps, and a script of the probes that fire between
    two polls. It makes the command line tool runnable inside the logic, and
    shows that the hypotheses of the theorems on [Os] can hold. *)

From S2P Require Import Prelude RustStd Layout Common Vmlinux Ebpf EbpfSpec KernelMaps.
From S2P Require Import Trace Ui Causal Os Child Bpf Cli GroundTruth.

Record sim_world := mkSimWorld {
  sw_euid : Z;
  sw_child : Z;                    (* the pid a spawn yields, and the one that is alive *)
  sw_kernel : unbounded_kernel;
  sw_script : list (list probe);   (* what fires during each poll to come *)
  sw_now : nat;                    (* seconds of the monotonic clock; a poll takes one *)
  sw_files : gmap string (option TraceFile);  (* what is in a file, if a trace is *)
  sw_stop : bool;                  (* STOP_REQUESTED *)
  sw_sigint : option nat;          (* the polls before the one a SIGINT arrives in *)
}.

Definition set_kernel (k : unbounded_kernel) (w : sim_world) : sim_world :=
  mkSimWorld (sw_euid w) (sw_child w) k (sw_script w) (sw_now w) (sw_files w) (sw_stop w) (sw_sigint w).

Definition set_file (path : string) (f : option TraceFile) (w : sim_world) : sim_world :=
  mkSimWorld (sw_euid w) (sw_child w) (sw_kernel w) (sw_script w) (sw_now w) (<[path := f]> (sw_files w))
    (sw_stop w) (sw_sigint w).

Definition set_stop (b : bool) (w : sim_world) : sim_world :=
  mkSimWorld (sw_euid w) (sw_child w) (sw_kernel w) (sw_script w) (sw_now w) (sw_files w) b (sw_sigint w).

(** A poll: the next batch of probes fires, and a SIGINT that is due runs the
    handler. *)
Definition sim_poll (w : sim_world) : sim_world :=
  mkSimWorld (sw_euid w) (sw_child w) (EbpfSpec.run (sw_kernel w) (default [] (head (sw_script w))))
    (tail (sw_script w)) (S (sw_now w)) (sw_files w)
    (match sw_sigint w with Some O => sw_stop (set_stop true w) | _ => sw_stop w end)
    (match sw_sigint w with Some (S n) => Some n | _ => None end).

(** The consumer's side of the ring buffer. *)
Definition sim_ring_next (w : sim_world) : option (list byte) * sim_world :=
  match EVENTS (sw_kernel w) with
  | [] => (None, w)
  | ev :: evs =>
      (Some (event_bytes (fun _ => zero_byte) ev), set_kernel (with_events evs (sw_kernel w)) w)
  end.

(** [waitpid]: the child is stopped after its exec, and exits when the script
    is over. The statuses are Linux's. *)
Definition status_trapped : Z := 0x057f.
Definition status_exited : Z := 0.

Definition sim_waitpid (pid : Z) (nohang : bool) (w : sim_world) : result string (Z * Z) * sim_world :=
  (if negb (pid =? sw_child w) then Err "No child processes (os error 10)"%string
   else if nohang then Ok (if bool_decide (sw_script w = []) then (pid, status_exited) else (0, 0))
   else Ok (pid, status_trapped), w).

Definition sim_localtime (secs : Z) : Z * Z * Z :=
  (secs / 3600 mod 24, secs / 60 mod 60, secs mod 60).

Definition sim_read_link (path : string) (w : sim_world) : option (list byte) * sim_world :=
  (if decide (path = "/sys/dev/block/259:1"%string)
   then Some (bytes_of_string "../../devices/pci0000:00/nvme0/nvme0n1/nvme0n1p1") else None, w).

#[export] Instance sim_os : Os sim_world := {
  os_no_color_set w := (true, w);
  os_stdout_is_terminal w := (false, w);
  os_geteuid w := (sw_euid w, w);
  os_setrlimit_memlock w := (0, w);
  os_clock_gettime c w :=
    (Some (match c with
           | CLOCK_REALTIME => mkTimespec (1700000000 + Z.of_nat (sw_now w)) 0
           | CLOCK_MONOTONIC => mkTimespec (Z.of_nat (sw_now w)) 0
           end), w);
  os_waitpid := sim_waitpid;
  os_ptrace_detach pid w :=
    (if pid =? sw_child w then Ok tt else Err "No such process (os error 3)"%string, w);
  os_kill_0 pid w := (if pid =? sw_child w then 0 else -1, w);
  os_signal_sigint w := w;
  os_poll _ w := sim_poll w;
  os_wifstopped st := Z.land st 0xff =? 0x7f;
  os_wifexited st := Z.land st 0x7f =? 0;
  os_wifsignaled st := (0 <? Z.land st 0x7f) && negb (Z.land st 0x7f =? 0x7f);
  os_localtime := sim_localtime;
  os_spawn_traced _ w := (Ok (sw_child w), w);
  os_instant_now w := ((Z.of_nat (sw_now w), 0), w);
  os_stop_requested w := (sw_stop w, w);
  os_store_stop_requested := set_stop;
  os_read_link := sim_read_link;
  os_file_create path w := (Ok tt, set_file path None w);
  os_to_writer_pretty path f w := (Ok tt, set_file path (Some f) w);
  os_file_open path w :=
    (match sw_files w !! path with
     | Some _ => Ok tt
     | None => Err "No such file or directory (os error 2)"%string
     end, w);
  os_from_reader path w :=
    (match sw_files w !! path with
     | Some (Some f) => Ok f
     | _ => Err "EOF while parsing a value at line 1 column 0"%string
     end, w);
  os_ebpf_load w := (Ok tt, set_kernel loaded w);
  os_program_mut _ w := (true, w);
  os_program_try_into _ w := (Ok tt, w);
  os_program_load _ w := (Ok tt, w);
  os_program_attach _ _ _ w := (Ok tt, w);
  os_map_mut _ w := (true, w);
  os_map_try_from _ w := (Ok tt, w);
  os_array_set _ v w := (Ok tt, set_kernel (with_target v (sw_kernel w)) w);
  os_ring_next := sim_ring_next;
}.

(** A small run: one read of the holder, for which it blocks; meanwhile the
    waiter waits, until the holder wakes it. *)
Definition small_run : list probe :=
  let holder ms := in_thread demo_cast 4001 (at_us (1000 * ms)) in
  let waiter ms := in_thread demo_cast 4002 (at_us (1000 * ms)) in
  let idle ms := in_idle (at_us (1000 * ms)) in
  [ BlockRqIssue (holder 0) (rq_issue demo_cast);
    SchedSwitch (holder 1) (switch demo_cast 4001 2 0);
    FutexEnter (waiter 2) (futex demo_cast FUTEX_WAIT);
    SchedSwitch (waiter 3) (switch demo_cast 4002 1 0);
    BlockRqComplete (idle 40) (rq_complete demo_cast);
    SchedSwitch (idle 41) (switch demo_cast 0 0 4001);
    FutexEnter (holder 42) (futex demo_cast FUTEX_WAKE);
    FutexExit (holder 43);
    SchedSwitch (idle 44) (switch demo_cast 0 0 4002);
    FutexExit (waiter 45) ].

(** A world where its probes fire in two batches. *)
Definition demo_world (euid : Z) : sim_world :=
  mkSimWorld euid (c_tgid demo_cast) loaded [take 6 small_run; drop 6 small_run] 100%nat ∅ false None.

Definition demo_sys (euid : Z) : sys sim_world := mkSys (demo_world euid) [] None.

(** What was printed on stdout. *)
Definition stdout (l : list entry) : list string :=
  omap (fun e => match e with LPrint line => Some line | _ => None end) l.

(** A SIGINT that is due runs the CLI's handler. *)
Lemma sim_poll_sigint w : sw_sigint w = Some O -> sw_stop (sim_poll w) = sw_stop (handle_sigint w).
Proof. cbn. by intros ->. Qed.

(** ** The program, run *)

(** [whyslow run -- ./synthetic] in this environment exits with 0 and prints
    the known causal chain: what the integration test looks for. *)
Theorem run_reproduces_known_causal_chain :
  let '(r, s) := main 10 (Run "whyslow.trace.json" 5 ["./synthetic"]) (demo_sys 0) in
  r = Done 0 /\
  drop 9 (stdout (log s)) =
    ["▸ tracing: ./synthetic";
     "";
     "▶ 2 slowest stall(s):";
     "";
     "22:15:00.003 — tid 4002 blocked 41ms on futex 0x7f00deadbee0";
     " ← woken by tid 4001";
     " ← tid 4001 blocked 40ms on block I/O (dev nvme0n1p1, sector 2048)";
     repeat_str "─" 60;
     "22:15:00.001 — tid 4001 blocked 40ms on block I/O (dev nvme0n1p1, sector 2048)"].
Proof. vm_compute. by split. Qed.
