(* ===== verification/WholeRun.v ===== *)
(** * A whole session, end to end

    [run] and [attach] in the simulated environment, for any script of probes:
    what they write and print is the specification of the handlers applied to
    the probes that fired while they traced, and [explain] on the file they
    wrote prints the same again. *)

From S2P Require Import Prelude RustStd Layout Common Vmlinux Ebpf EbpfSpec KernelMaps EbpfProps.
From S2P Require Import Trace Ui Causal CausalProps Os Child Bpf BpfProps Cli GroundTruth Simulated.

(** ** The consumer and the handlers share the ring buffer

    What is already in the buffer does not change what a handler does. *)

Lemma unbounded_emit r ev (k : unbounded_kernel) :
  emit ev (with_events (r ++ EVENTS k) k) = with_events (r ++ EVENTS (emit ev k)) (emit ev k).
Proof. unfold emit. cbn. by rewrite app_assoc. Qed.

Lemma step_ring r (k : unbounded_kernel) p :
  step (with_events (r ++ EVENTS k) k) p = with_events (r ++ EVENTS (step k p)) (step k p).
Proof.
  destruct p; cbn [step]; unfold sched_switch, try_sched_switch, futex_enter, try_futex_enter,
    futex_exit, try_futex_exit, block_rq_issue, try_block_rq_issue, block_rq_complete,
    try_block_rq_complete; try done; change (target_tgid (with_events ?r k)) with (target_tgid k);
    cbn -[emit target_tgid]; repeat case_match; cbn -[emit target_tgid] in *; simplify_eq; try done.
  all: match goal with |- _ = with_events (_ ++ EVENTS (emit _ ?k)) _ => apply (unbounded_emit r _ k) end.
Qed.

Lemma run_ring r (k : unbounded_kernel) ps :
  EbpfSpec.run (with_events (r ++ EVENTS k) k) ps =
  with_events (r ++ EVENTS (EbpfSpec.run k ps)) (EbpfSpec.run k ps).
Proof.
  revert k. induction ps as [|p ps IH]; intros k; [done|]. cbn [EbpfSpec.run foldl].
  rewrite step_ring. apply IH.
Qed.

(** Reading the buffer empty takes what is in it, and nothing from what comes
    after. *)
Lemma run_after_read (k : unbounded_kernel) ps :
  EVENTS (EbpfSpec.run k ps) = EVENTS k ++ EVENTS (EbpfSpec.run (with_events [] k) ps).
Proof.
  replace k with (with_events (EVENTS k ++ EVENTS (with_events [] k)) (with_events [] k)) at 1.
  - by rewrite run_ring.
  - cbn. rewrite app_nil_r. by destruct k.
Qed.

(** ** The drain loop *)

(** The item the consumer sees of an event. *)
Definition item_of : Event -> list byte := event_bytes (fun _ => zero_byte).

(** The probes that fire during the next [n] polls. *)
Definition fired (n : nat) (script : list (list probe)) : list probe := concat (take n script).

Lemma fired_S n script : fired (S n) script = default [] (head script) ++ fired n (tail script).
Proof. unfold fired. destruct script; cbn; [by rewrite take_nil|done]. Qed.

Lemma sim_drain_pending fuel evs w l cc :
  (length (EVENTS (sw_kernel w)) < fuel)%nat ->
  exists l', drain_pending fuel evs (mkSys w l cc) =
    (Done (evs ++ decode_all (item_of <$> EVENTS (sw_kernel w))),
     mkSys (set_kernel (with_events [] (sw_kernel w)) w) l' cc).
Proof.
  revert evs w l. induction fuel as [|fuel IH]; intros evs w l Hf; [lia|].
  cbn [drain_pending]. unfold bind, logged. cbn [os_ring_next sim_os world log color_cell]. unfold sim_ring_next.
  destruct (EVENTS (sw_kernel w)) as [|ev r] eqn:E.
  - eexists. cbn. rewrite app_nil_r. unfold ret. do 3 f_equal.
    destruct w as [? ? [] ? ? ?]. cbn in *. by subst.
  - destruct (IH (push_item evs (item_of ev)) (set_kernel (with_events r (sw_kernel w)) w)
      (l ++ [LRingNext (Some (item_of ev))])) as [l' Hl']; [cbn in *; lia|].
    exists l'. cbv beta iota. change (event_bytes _ ev) with (item_of ev).
    rewrite Hl', push_item_decode, <- app_assoc.
    by rewrite <- decode_all_app.
Qed.

(** In the worlds of [I], which polling and reading do not leave, [stop] says
    yes after [count w] more polls. *)
Record counts_down (I : sim_world -> Prop) (stop : M sim_world bool) (count : sim_world -> nat) : Prop := {
  cd_stop w l cc : I w -> exists l', stop (mkSys w l cc) = (Done (count w =? 0)%nat, mkSys w l' cc);
  cd_poll w : count (sim_poll w) = pred (count w);
  cd_kernel k w : count (set_kernel k w) = count w;
  cd_poll_in w : I w -> I (sim_poll w);
  cd_kernel_in k w : I w -> I (set_kernel k w);
}.

(** What is taken from the ring buffer when the loop runs for [n] polls. *)
Definition taken (n : nat) (w : sim_world) : list Event :=
  EVENTS (EbpfSpec.run (sw_kernel w) (fired n (sw_script w))).

Lemma taken_S n w :
  taken (S n) w =
  EVENTS (sw_kernel w) ++ taken n (sim_poll (set_kernel (with_events [] (sw_kernel w)) w)).
Proof. unfold taken. rewrite run_after_read, fired_S. cbn. unfold EbpfSpec.run. by rewrite foldl_app. Qed.

Lemma sim_drain_loop I stop count w :
  counts_down I stop count -> I w -> forall fuel evs l cc,
  (count w + length (taken (count w) w) < fuel)%nat ->
  exists l' w', drain_loop fuel stop evs (mkSys w l cc) =
    (Done (evs ++ decode_all (item_of <$> taken (count w) w)), mkSys w' l' cc) /\
    sw_files w' = sw_files w.
Proof.
  intros [Hs Hp Hk HIp HIk]. remember (count w) as n eqn:Hn. revert w Hn.
  induction n as [|n IH]; intros w Hn Hc [|fuel] evs l cc Hf; try lia; cbn [drain_loop]; unfold bind.
  - destruct (sim_drain_pending (S fuel) evs w l cc) as [l1 ->]; [exact Hf|].
    destruct (Hs (set_kernel (with_events [] (sw_kernel w)) w) l1 cc) as [l2 ->]; [by auto|].
    rewrite Hk, <- Hn. cbn [Nat.eqb].
    edestruct (sim_drain_pending (S fuel)) as [l3 ->]; [cbn; lia|].
    eexists _, _. split; [do 2 f_equal; cbn; by rewrite app_nil_r|done].
  - rewrite taken_S in *. rewrite length_app in Hf.
    destruct (sim_drain_pending (S fuel) evs w l cc) as [l1 ->]; [lia|].
    destruct (Hs (set_kernel (with_events [] (sw_kernel w)) w) l1 cc) as [l2 ->]; [by auto|].
    rewrite Hk, <- Hn. cbn [Nat.eqb]. unfold logged. cbn [os_poll sim_os world log color_cell].
    edestruct IH as (l3 & w3 & -> & Hw3); [by rewrite Hp, Hk, <- Hn|by auto|lia|].
    eexists _, _. split; [do 2 f_equal; by rewrite fmap_app, decode_all_app, app_assoc|done].
Qed.

(** ** Computations in the simulated environment

    [evals m w a w']: whatever the log, and with colours off, [m] ends
    normally with [a] and [w']. *)

Definition evals {A} (m : M sim_world A) (w : sim_world) (a : A) (w' : sim_world) : Prop :=
  forall l cc, cc <> Some true ->
    exists l' cc', cc' <> Some true /\ m (mkSys w l cc) = (Done a, mkSys w' l' cc').

Lemma evals_bind {A B} (m : M sim_world A) (f : A -> M sim_world B) w a w1 b w2 :
  evals m w a w1 -> evals (f a) w1 b w2 -> evals (bind m f) w b w2.
Proof.
  intros Hm Hf l cc Hcc. destruct (Hm l cc Hcc) as (l1 & cc1 & Hcc1 & E).
  destruct (Hf l1 cc1 Hcc1) as (l2 & cc2 & Hcc2 & E2). exists l2, cc2. split; [done|].
  unfold bind. by rewrite E.
Qed.

Lemma evals_ret {A} (a : A) w : evals (ret a) w a w.
Proof. intros l cc Hcc. by exists l, cc. Qed.

Lemma evals_silent {A} (call : sim_world -> A * sim_world) w a w' :
  call w = (a, w') -> evals (silent call) w a w'.
Proof. intros E l cc Hcc. exists l, cc. unfold silent. cbn. by rewrite E. Qed.

Lemma evals_logged {A} (call : sim_world -> A * sim_world) e w a w' :
  call w = (a, w') -> evals (logged call e) w a w'.
Proof. intros E l cc Hcc. exists (l ++ [e a]), cc. unfold logged. cbn. by rewrite E. Qed.

Lemma evals_context {A} msg (m : M sim_world A) w a w' :
  evals m w a w' -> evals (with_context msg m) w a w'.
Proof.
  intros Hm l cc Hcc. destruct (Hm l cc Hcc) as (l' & cc' & Hcc' & E). exists l', cc'.
  split; [done|]. unfold with_context. by rewrite E.
Qed.

Lemma evals_color w : evals get_color w false w.
Proof.
  intros l [[]|] Hcc; [done|..]; exists l, (Some false); (split; [done|reflexivity]).
Qed.

Lemma evals_println_all ls w : evals (println_all ls) w tt w.
Proof. intros l cc Hcc. rewrite println_all_log. eexists _, cc. split; [done|reflexivity]. Qed.

Create HintDb evals.
#[export] Hint Resolve evals_ret evals_context evals_color evals_println_all : evals.
#[export] Hint Extern 1 (evals (silent _) _ _ _) => apply evals_silent; reflexivity : evals.
#[export] Hint Extern 1 (evals (logged _ _) _ _ _) => apply evals_logged; reflexivity : evals.
#[export] Hint Extern 2 (evals (bind _ _) _ _ _) => eapply evals_bind : evals.

(** Straight-line computations evaluate. *)
Ltac evals_compute := intros l cc Hcc; eexists _, cc; split; [exact Hcc|reflexivity].

Lemma evals_println line w : evals (println line) w tt w.
Proof. evals_compute. Qed.

Lemma evals_root w : sw_euid w = 0 -> evals require_root w tt w.
Proof.
  intros He. unfold require_root. eapply evals_bind; [by apply evals_silent|].
  cbn. rewrite He. apply evals_ret.
Qed.

Lemma evals_banner w : evals banner w tt w.
Proof. unfold banner. eapply evals_bind; [apply evals_color|apply evals_println_all]. Qed.

Lemma evals_attach_one tp w : evals (attach_one tp) w tt w.
Proof.
  destruct tp as [[prog cat] tp]. unfold attach_one.
  repeat (eapply evals_bind; [first [by apply evals_silent|by apply evals_logged|apply evals_ret]|]).
  apply evals_ret.
Qed.

Lemma evals_attach_all tps w : evals (attach_all tps) w tt w.
Proof.
  induction tps as [|tp tps IH]; [apply evals_ret|]. eapply evals_bind; [apply evals_attach_one|done].
Qed.

Lemma evals_load w : evals load_and_attach w tt (set_kernel loaded w).
Proof.
  unfold load_and_attach. eapply evals_bind; [eapply evals_bind; [by apply evals_silent|apply evals_ret]|].
  eapply evals_bind; [by apply evals_logged|]. eapply evals_bind; [apply evals_ret|].
  apply evals_attach_all.
Qed.

Lemma evals_open_map name w : evals (open_map name) w tt w.
Proof.
  unfold open_map. eapply evals_bind; [by apply evals_silent|].
  eapply evals_bind; [by apply evals_silent|apply evals_ret].
Qed.

Lemma evals_target t w :
  evals (set_target_tgid t) w tt (set_kernel (with_target t (sw_kernel w)) w).
Proof.
  eapply evals_bind; [apply evals_open_map|]. eapply evals_bind; [by apply evals_logged|apply evals_ret].
Qed.

(** The two clocks at a moment of the environment. *)
Definition sim_anchor (w : sim_world) : Z * Z :=
  capture_anchor (os_clock_gettime CLOCK_REALTIME w).1 (os_clock_gettime CLOCK_MONOTONIC w).1.

Lemma evals_anchor w : evals read_anchor w (sim_anchor w) w.
Proof. evals_compute. Qed.

(** A process id of Linux. *)
Definition is_pid (pid : Z) : Prop := 0 < pid < 2 ^ 31.

Lemma is_pid_i32 pid : is_pid pid -> as_i32 pid = pid.
Proof. intros [? ?]. apply as_sint_id_u; lia. Qed.

Lemma evals_spawn cmd w : cmd <> [] -> evals (spawn_stopped cmd) w (sw_child w) w.
Proof. destruct cmd; [done|]. intros _. evals_compute. Qed.

Lemma evals_wait fuel w :
  is_pid (sw_child w) -> evals (wait_until_stopped (S fuel) (sw_child w)) w tt w.
Proof.
  intros Hp. cbn [wait_until_stopped]. eapply evals_bind; [by apply evals_logged|].
  cbn [os_waitpid sim_os]. unfold sim_waitpid. rewrite is_pid_i32, Z.eqb_refl by done. apply evals_ret.
Qed.

Lemma evals_resume w : is_pid (sw_child w) -> evals (resume (sw_child w)) w tt w.
Proof.
  intros Hp. unfold resume. rewrite is_pid_i32 by done. eapply evals_bind.
  - apply evals_logged. cbn. by rewrite Z.eqb_refl.
  - apply evals_ret.
Qed.

(** *** The stop conditions *)

Lemma has_exited_counts pid :
  is_pid pid ->
  counts_down (fun w => sw_child w = pid) (has_exited pid) (fun w => length (sw_script w)).
Proof.
  intros Hp. split; [|intros w; cbn; by destruct (sw_script w)|done..].
  intros w l cc <-. unfold has_exited, bind, logged. rewrite is_pid_i32 by done.
  cbn [os_waitpid sim_os world log color_cell]. unfold sim_waitpid. rewrite Z.eqb_refl. cbn [negb].
  eexists. unfold ret. do 2 f_equal. destruct (sw_script w); cbn -[Z.eqb]; [by rewrite Z.eqb_refl|].
  destruct Hp. apply Z.eqb_neq. lia.
Qed.

(** What is left until the earlier of a SIGINT and a deadline. *)
Definition sigint_left (w : sim_world) : option nat := if sw_stop w then Some O else S <$> sw_sigint w.
Definition deadline_left (deadline : option nat) (w : sim_world) : option nat :=
  (fun d => d - sw_now w)%nat <$> deadline.
Definition polls_left (deadline : option nat) (w : sim_world) : nat :=
  match sigint_left w, deadline_left deadline w with
  | Some a, Some b => Nat.min a b
  | Some a, None => a
  | None, Some b => b
  | None, None => 0
  end.

Definition instant (t : nat) : Z * Z := (Z.of_nat t, 0).

Lemma instant_le_left d w : instant_le (instant d) (instant (sw_now w)) = (d - sw_now w =? 0)%nat.
Proof.
  unfold instant_le, instant. cbn [Datatypes.fst Datatypes.snd].
  destruct (Nat.eqb_spec (d - sw_now w) 0), (Z.ltb_spec (Z.of_nat d) (Z.of_nat (sw_now w))),
    (Z.eqb_spec (Z.of_nat d) (Z.of_nat (sw_now w))); cbn; lia.
Qed.

(** [attach] stops at the earlier of the two, if the process lives on and
    there is at least one. *)
Lemma attach_counts pid deadline :
  is_pid pid ->
  counts_down (fun w => sw_child w = pid /\ (sigint_left w <> None \/ deadline <> None))
    (attach_should_stop pid (instant <$> deadline)) (polls_left deadline).
Proof.
  intros Hp. split; [..|done].
  - intros w l cc [<- Hsome]. eexists. unfold attach_should_stop, bind, silent.
    cbn [os_stop_requested sim_os world log color_cell]. unfold polls_left, sigint_left in *.
    destruct (sw_stop w); [by destruct (deadline_left _ _)|].
    destruct deadline as [d|]; cbn [fmap option_fmap option_map deadline_left] in *.
    + unfold ret. cbn [os_instant_now sim_os world log color_cell].
      rewrite (instant_le_left d w : instant_le (instant d) (Z.of_nat (sw_now w), 0) = _).
      destruct (Nat.eqb_spec (d - sw_now w) 0) as [->|Hd].
      * by destruct (sw_sigint w).
      * cbn -[Nat.min Nat.sub]. rewrite is_pid_i32, Z.eqb_refl by done. unfold ret. do 2 f_equal.
        symmetry. apply Nat.eqb_neq. destruct (sw_sigint w); cbn [fmap option_fmap option_map]; lia.
    + cbn. rewrite is_pid_i32, Z.eqb_refl by done. by destruct (sw_sigint w); [|destruct Hsome].
  - intros w. unfold polls_left, sigint_left, deadline_left. cbn.
    destruct (sw_sigint w) as [[|n]|], (sw_stop w), deadline; cbn -[Nat.min Nat.sub]; lia.
  - done.
  - intros w [Hc Hsome]. split; [done|]. destruct Hsome as [Hs|Hd]; [left|by right].
    unfold sigint_left in *. cbn. by destruct (sw_sigint w) as [[|n]|], (sw_stop w).
Qed.

(** ** The report *)

(** When reading links has no effect, explaining has none. *)
Section ReadOnly.
Context {W : Type} (read_link : string -> W -> option (list byte) * W).
Context (localtime : Z -> Z * Z * Z) (color : bool).
Hypothesis Hread : forall path w, (read_link path w).2 = w.

Lemma name_fs dev d : fs (name read_link dev d).2 = fs d.
Proof.
  unfold name. destruct (cache d !! dev); [done|]. specialize (Hread (dev_path dev) (fs d)).
  by destruct (read_link _ _).
Qed.

Lemma walk_fs fuel wait typed d depth acc ls d' :
  walk_from_futex_wait read_link color fuel wait typed d depth acc = Some (ls, d') -> fs d' = fs d.
Proof.
  revert wait d depth acc. induction fuel as [|fuel IH]; intros wait d depth acc Hw; [done|].
  cbn [walk_from_futex_wait] in Hw. destruct (nearest_preceding _ _ _); [|by simplify_eq].
  destruct (_ <=? _); [by simplify_eq|]. destruct (classify_prior_cause _ _ _) as [|io|].
  - by eapply IH.
  - destruct (unpack_block_key _) as [dev sector]. pose proof (name_fs dev d) as Hn.
    destruct (name _ _ _). by simplify_eq.
  - by simplify_eq.
Qed.

Lemma explain_one_fs b trace typed d c d' :
  explain_one_stall read_link localtime color b trace typed d = Some (c, d') -> fs d' = fs d.
Proof.
  unfold explain_one_stall. destruct (classify_resume_cause _ _ _) as [|io|]; intros He.
  - apply bind_Some in He as ([ls d1] & Hw%walk_fs & He). by simplify_eq.
  - destruct (unpack_block_key _) as [dev sector]. pose proof (name_fs dev d) as Hn.
    destruct (name _ _ _). by simplify_eq.
  - by simplify_eq.
Qed.

Lemma explain_all_fs blocks trace typed d cs d' :
  explain_all read_link localtime color blocks trace typed d = Some (cs, d') -> fs d' = fs d.
Proof.
  revert d cs. induction blocks as [|b blocks IH]; intros d cs He; [by cbn in He; simplify_eq|].
  apply bind_Some in He as ([c d1] & H1%explain_one_fs & He).
  apply bind_Some in He as ([cs1 d2] & H2 & He). simplify_eq. apply IH in H2. congruence.
Qed.

(** Explaining always ends, and here leaves the environment as it was. *)
Lemma explain_read_only trace slowest w :
  exists cs, explain read_link localtime color trace slowest w = Some (cs, w).
Proof.
  unfold explain.
  destruct (explain_all_sound read_link color localtime trace (partition (events trace))
    (slowest_blocks (partition (events trace)) slowest) (DevNames_new w)) as (cs & d' & He & _).
  exists cs. rewrite He. apply explain_all_fs in He. cbn in He. by rewrite <- He.
Qed.
End ReadOnly.

(** The lines printed about a trace. *)
Definition report_lines (f : TraceFile) (slowest : nat) (w : sim_world) (ls : list string) : Prop :=
  exists cs, explain sim_read_link sim_localtime false f slowest w = Some (cs, w) /\
    ls = print_chains false cs.

Lemma sim_read_only path w : (sim_read_link path w).2 = w.
Proof. done. Qed.

Lemma report_lines_exist f slowest w : exists ls, report_lines f slowest w ls.
Proof.
  destruct (explain_read_only sim_read_link sim_localtime false sim_read_only f slowest w) as [cs Hcs].
  exists (print_chains false cs), cs. done.
Qed.

Lemma print_explained_sim f slowest w ls l cc :
  report_lines f slowest w ls -> cc <> Some true ->
  print_explained f slowest (mkSys w l cc) = (Done tt, mkSys w (l ++ (LPrint <$> ls)) (Some false)).
Proof.
  intros (cs & Hcs & ->) Hcc. unfold print_explained, explain_trace, bind.
  replace (get_color (mkSys w l cc)) with (Done false, mkSys w l (Some false))
    by (destruct cc as [[]|]; done).
  cbn [world log color_cell os_read_link os_localtime sim_os]. rewrite Hcs. apply println_all_log.
Qed.

(** How a session leaves things: the trace [f] in the file [out] and the other
    files as they were, last on the screen the report on it, and [explain] on
    the file prints that report again. *)
Definition reported (files : gmap string (option TraceFile)) (out : string) (slowest : nat)
    (f : TraceFile) (s : sys sim_world) : Prop :=
  exists ls, report_lines f slowest (world s) ls /\ sw_files (world s) = <[out := Some f]> files /\
    (exists l0, log s = l0 ++ LWriteTrace out f (Ok tt) :: LPrint "" :: (LPrint <$> ls)) /\
    forall l, explain_cmd out slowest (mkSys (world s) l None) =
      (Done tt, mkSys (world s) (l ++ LOpen out (Ok tt) :: LReadTrace out :: (LPrint <$> ls)) (Some false)).

(** Wherever it starts in [w], with colours off, [m] ends normally in a
    state with [P]. *)
Definition leads (m : M sim_world unit) (w : sim_world) (P : sys sim_world -> Prop) : Prop :=
  forall l cc, cc <> Some true -> exists s, m (mkSys w l cc) = (Done tt, s) /\ P s.

Lemma leads_bind {A} (m : M sim_world A) (f : A -> M sim_world unit) w a w1 P :
  evals m w a w1 -> leads (f a) w1 P -> leads (bind m f) w P.
Proof.
  intros Hm Hf l cc Hcc. destruct (Hm l cc Hcc) as (l1 & cc1 & Hcc1 & E).
  unfold bind. rewrite E. by apply Hf.
Qed.

Lemma finish_reported anchor evs out slowest w :
  leads (finish anchor evs out slowest) w
    (reported (sw_files w) out slowest (mkTraceFile anchor.1 anchor.2 evs)).
Proof.
  intros l cc Hcc. set (f := mkTraceFile anchor.1 anchor.2 evs).
  set (w1 := set_file out (Some f) (set_file out None w)).
  assert (sw_files w1 = <[out := Some f]> (sw_files w)) as Hw1 by apply insert_insert_eq.
  destruct (report_lines_exist f slowest w1) as [ls Hls].
  set (l1 := ((l ++ [LCreate out (Ok tt)]) ++ [LWriteTrace out f (Ok tt)]) ++ [LPrint ""]).
  exists (mkSys w1 (l1 ++ (LPrint <$> ls)) (Some false)). split.
  - change (finish anchor evs out slowest (mkSys w l cc)) with
      (print_explained f slowest (mkSys w1 l1 cc)). by apply print_explained_sim.
  - exists ls. cbn [world log]. split_and!; [done|done| |].
    + exists (l ++ [LCreate out (Ok tt)]). unfold l1. by rewrite <- !app_assoc.
    + intros l'. replace (explain_cmd out slowest (mkSys w1 l' None)) with
        (print_explained f slowest (mkSys w1 ((l' ++ [LOpen out (Ok tt)]) ++ [LReadTrace out]) None)).
      2: { unfold explain_cmd, with_context, read_from, bind, logged.
           cbn [os_file_open os_from_reader sim_os world log color_cell]. rewrite Hw1, lookup_insert_eq.
           cbn [lift map_err ret world log color_cell]. by rewrite Hw1, lookup_insert_eq. }
      rewrite (print_explained_sim _ _ _ ls) by done. by rewrite <- !app_assoc.
Qed.

(** From the target set to the report. *)
Lemma drain_finish_reported pid stop count anchor out slowest fuel w ps I :
  is_pid pid -> counts_down I stop count -> I w ->
  sw_kernel w = with_target pid loaded -> ps = fired (count w) (sw_script w) -> Forall wf_probe ps ->
  let evs := spec_events (reverse (SetTarget pid :: ps)) in
  (count w + length evs < fuel)%nat ->
  leads (let! evs := drain_ring_buffer fuel stop in finish anchor evs out slowest) w
    (reported (sw_files w) out slowest (mkTraceFile anchor.1 anchor.2 (trace_event_from <$> evs))).
Proof.
  intros Hpid Hcount Hc Hk Hps Hwf evs Hf l cc Hcc.
  assert (taken (count w) w = rb_contents (EVENTS (EbpfSpec.run loaded (SetTarget pid :: ps)))) as Ht.
  { unfold taken. by rewrite Hk, Hps. }
  assert (taken (count w) w = evs) as He.
  { rewrite Ht. apply (recorded_lossless loaded _ loaded_initial loaded_lossless). }
  destruct (evals_open_map "EVENTS" w l cc Hcc) as (l1 & cc1 & Hcc1 & E1).
  destruct (sim_drain_loop _ _ _ w Hcount Hc fuel [] l1 cc1) as (l2 & w2 & E2 & <-); [by rewrite He|].
  unfold bind at 1, drain_ring_buffer, bind at 1. rewrite E1, E2, He. cbn [app].
  unfold item_of. rewrite decode_all_bytes; [by apply finish_reported|].
  rewrite <- He, Ht. apply (run_wf loaded); [apply loaded_initial|].
  constructor; [|done]. unfold is_pid in Hpid. cbn. unfold is_uint. lia.
Qed.

(** ** Properties *)

(** [run], from its start to the report. *)
Lemma run_reported (w : sim_world) (cmd : list string) (out : string) (slowest fuel : nat)
    (l : list entry) :
  sw_euid w = 0 -> is_pid (sw_child w) -> cmd <> [] -> Forall wf_probe (concat (sw_script w)) ->
  let evs := spec_events (reverse (SetTarget (sw_child w) :: concat (sw_script w))) in
  (length (sw_script w) + length evs < fuel)%nat ->
  exists s, Cli.run fuel cmd out slowest (mkSys w l None) = (Done tt, s) /\
    reported (sw_files w) out slowest
      (mkTraceFile (sim_anchor w).1 (sim_anchor w).2 (trace_event_from <$> evs)) s.
Proof.
  intros Hroot Hpid Hcmd Hwf evs Hf. destruct fuel as [|fuel]; [lia|].
  set (f := mkTraceFile _ _ _).
  enough (leads (Cli.run (S fuel) cmd out slowest) w (reported (sw_files w) out slowest f)) as H by by apply H.
  unfold Cli.run. eapply leads_bind; [by apply evals_root|].
  eapply leads_bind; [apply evals_banner|].
  eapply leads_bind; [eapply evals_bind; [apply evals_color|apply evals_println]|].
  eapply leads_bind; [by apply evals_spawn|].
  eapply leads_bind; [by apply evals_context, evals_wait|].
  eapply leads_bind; [apply evals_load|]. eapply leads_bind; [apply evals_target|].
  eapply leads_bind; [apply evals_anchor|].
  set (w2 := set_kernel _ _).
  eapply leads_bind; [by apply evals_context, (evals_resume w2)|].
  change (sw_files w) with (sw_files w2).
  eapply (drain_finish_reported _ _ _ _ _ _ _ _ _ (fun w' => sw_child w' = sw_child w)); try done;
    [by apply has_exited_counts| |done].
  unfold fired. cbn. by rewrite take_ge.
Qed.

(** C5: In the simulated environment [run] succeeds, and the trace it writes is
    the specification of the handlers applied to the child's pid as the target
    and to all that fired until the child exited; it prints the report on
    that trace, and so does [explain] on the file afterwards. *)
Theorem run_reports_specified (w : sim_world) (cmd : list string) (out : string) (slowest fuel : nat)
    (l : list entry) :
  sw_euid w = 0 -> is_pid (sw_child w) -> cmd <> [] -> Forall wf_probe (concat (sw_script w)) ->
  let evs := spec_events (reverse (SetTarget (sw_child w) :: concat (sw_script w))) in
  (length (sw_script w) + length evs < fuel)%nat ->
  exists s, Cli.run fuel cmd out slowest (mkSys w l None) = (Done tt, s) /\
    reported (sw_files w) out slowest
      (mkTraceFile (sim_anchor w).1 (sim_anchor w).2 (trace_event_from <$> evs)) s.
Proof. exact (run_reported w cmd out slowest fuel l). Qed.

(** C17: [attach] does the same for a process that lives on, until the duration is
    over or a SIGINT arrives, whichever comes first; [secs] counts seconds,
    here polls. *)
Theorem attach_reports_specified (w : sim_world) (secs : option nat) (out : string)
    (slowest fuel : nat) (l : list entry) :
  sw_euid w = 0 -> is_pid (sw_child w) ->
  (forall n, secs = Some n -> Z.of_nat (sw_now w) + Z.of_nat n < 2 ^ 63) ->
  sigint_left w <> None \/ secs <> None ->
  let polls := polls_left (Nat.add (sw_now w) <$> secs) w in
  Forall wf_probe (fired polls (sw_script w)) ->
  let evs := spec_events (reverse (SetTarget (sw_child w) :: fired polls (sw_script w))) in
  (polls + length evs < fuel)%nat ->
  exists s, attach fuel (sw_child w) out slowest (Z.of_nat <$> secs) (mkSys w l None) = (Done tt, s) /\
    reported (sw_files w) out slowest
      (mkTraceFile (sim_anchor w).1 (sim_anchor w).2 (trace_event_from <$> evs)) s.
Proof.
  intros Hroot Hpid Hsecs Hsome polls Hwf evs Hf. set (f := mkTraceFile _ _ _).
  enough (leads (attach fuel (sw_child w) out slowest (Z.of_nat <$> secs)) w (reported (sw_files w) out slowest f))
    as H by by apply H.
  unfold attach. eapply leads_bind; [by apply evals_root|].
  eapply leads_bind; [apply evals_banner|].
  eapply leads_bind; [by apply evals_silent|].
  rewrite is_pid_i32, Z.eqb_refl by done. cbn [negb Z.eqb].
  eapply leads_bind; [apply evals_load|]. eapply leads_bind; [apply evals_target|].
  eapply leads_bind; [apply evals_anchor|]. eapply leads_bind; [by apply evals_silent|].
  eapply leads_bind; [apply evals_println|].
  set (w2 := set_kernel _ _).
  eapply (leads_bind _ _ _ (instant <$> (Nat.add (sw_now w) <$> secs)) w2).
  { destruct secs as [n|]; [|apply evals_ret]. eapply evals_bind; [|apply evals_ret]. unfold deadline_after.
    eapply evals_bind; [by apply evals_silent|]. cbn -[Z.pow].
    rewrite (proj2 (Z.ltb_lt _ _)) by auto. unfold instant. rewrite Nat2Z.inj_add. apply evals_ret. }
  change (sw_files w) with (sw_files w2).
  eapply (drain_finish_reported _ _ _ _ _ _ _ _ _ (fun w' => sw_child w' = sw_child w /\
    (sigint_left w' <> None \/ (Nat.add (sw_now w) <$> secs) <> None))); try done;
    [by apply attach_counts| |done|done].
  split; [done|]. by destruct Hsome; [left|right; destruct secs].
Qed.

(** Thread 8 of process 7 blinks during the second poll. *)
Definition blink_world : sim_world := mkSimWorld 0 7 loaded [[]; tail (blink 1)] 100 ∅ false None.

Lemma blink_world_wf n : (2 <= n)%nat -> Forall wf_probe (fired n (sw_script blink_world)).
Proof.
  intros Hn. unfold fired. rewrite take_ge by (cbn; lia). cbn [concat sw_script blink_world app tail blink].
  by apply (Forall_inv_tail blink_wf).
Qed.

Lemma run_reports_specified_witness :
  let evs := spec_events (reverse (SetTarget 7 :: concat (sw_script blink_world))) in
  evs = [blink_event] /\
  exists s, Cli.run 4 ["./blink"] "t.json" 3 (mkSys blink_world [] None) = (Done tt, s) /\
    reported ∅ "t.json" 3 (mkTraceFile (sim_anchor blink_world).1 (sim_anchor blink_world).2
      (trace_event_from <$> evs)) s.
Proof.
  split; [vm_compute; reflexivity|].
  apply (run_reports_specified blink_world ["./blink"] "t.json" 3 4 []).
  - reflexivity.
  - by split.
  - discriminate.
  - exact (blink_world_wf 2 ltac:(lia)).
  - vm_compute. lia.
Defined.

(** SIGINT arrives in the second poll, before the 30 seconds are over. *)
Definition blink_attached : sim_world :=
  mkSimWorld 0 7 loaded [[]; tail (blink 1); tail (blink 1)] 100 ∅ false (Some 1%nat).

Lemma attach_reports_specified_witness :
  let polls := polls_left (Some 130%nat) blink_attached in
  let evs := spec_events (reverse (SetTarget 7 :: fired polls (sw_script blink_attached))) in
  polls = 2%nat /\ evs = [blink_event] /\
  exists s, attach 4 7 "t.json" 3 (Some 30) (mkSys blink_attached [] None) = (Done tt, s) /\
    reported ∅ "t.json" 3 (mkTraceFile (sim_anchor blink_attached).1 (sim_anchor blink_attached).2
      (trace_event_from <$> evs)) s.
Proof.
  split; [reflexivity|]. split; [vm_compute; reflexivity|].
  apply (attach_reports_specified blink_attached (Some 30%nat) "t.json" 3 4 []).
  - reflexivity.
  - by split.
  - intros n [= <-]. cbn. lia.
  - by right.
  - exact (blink_world_wf 2 ltac:(lia)).
  - vm_compute. lia.
Defined.

(** ** Two processes, with nothing but the defaults *)

Lemma stdout_app l l' : stdout (l ++ l') = stdout l ++ stdout l'.
Proof. apply omap_app. Qed.

Lemma stdout_print ls : stdout (LPrint <$> ls) = ls.
Proof. induction ls as [|l ls IH]; [done|]. cbn. by f_equal. Qed.

(** C20: [whyslow run -- cmd] followed by [whyslow explain], no option given: both
    exit with 0, and the second prints exactly the report the first ended
    with. *)
Theorem default_session_explained (w : sim_world) (cmd : list string) (fuel : nat) :
  sw_euid w = 0 -> is_pid (sw_child w) -> cmd <> [] -> Forall wf_probe (concat (sw_script w)) ->
  (length (sw_script w) +
   length (spec_events (reverse (SetTarget (sw_child w) :: concat (sw_script w)))) < fuel)%nat ->
  exists run_command explain_command s s' before report,
    command_of (RunArgs None None cmd) = Some run_command /\
    command_of (ExplainArgs None None) = Some explain_command /\
    main fuel run_command (mkSys w [] None) = (Done 0, s) /\
    main fuel explain_command (mkSys (world s) [] None) = (Done 0, s') /\
    stdout (log s) = before ++ "" :: report /\ stdout (log s') = report.
Proof.
  intros Hroot Hpid Hcmd Hwf Hf.
  destruct (run_reported w cmd default_trace default_slowest fuel [] Hroot Hpid Hcmd Hwf Hf)
    as (s & Hrun & ls & _ & _ & (l0 & Hl) & Hex). specialize (Hex []).
  eexists (Run default_trace default_slowest cmd), (Explain default_slowest default_trace), s, _, (stdout l0), ls.
  split_and!.
  - by destruct cmd.
  - done.
  - unfold main, try_main. by rewrite Hrun.
  - unfold main, try_main. by rewrite Hex.
  - rewrite Hl, stdout_app. cbn. by rewrite <- (stdout_print ls) at 2.
  - cbn [log app]. cbn. apply stdout_print.
Qed.

Lemma default_session_explained_witness :
  exists run_command explain_command s s' before report,
    command_of (RunArgs None None ["./blink"]) = Some run_command /\
    command_of (ExplainArgs None None) = Some explain_command /\
    main 4 run_command (mkSys blink_world [] None) = (Done 0, s) /\
    main 4 explain_command (mkSys (world s) [] None) = (Done 0, s') /\
    stdout (log s) = before ++ "" :: report /\ stdout (log s') = report.
Proof.
  apply (default_session_explained blink_world ["./blink"] 4).
  - reflexivity.
  - by split.
  - discriminate.
  - exact (blink_world_wf 2 ltac:(lia)).
  - vm_compute. lia.
Defined.
