(* ===== verification/CliProps.v ===== *)
(** * Properties of the command line tool *)

From S2P Require Import Vmlinux Ebpf EbpfSpec EbpfProps KernelMaps GroundTruth Simulated.
From S2P Require Import Prelude RustStd Layout Common Trace Ui Causal CausalProps Os Child Bpf BpfProps Cli.

Section Phases.
Context {W : Type} `{Os W}.

(** Neither lets the child run nor takes an event. *)
Definition quiet (e : entry) : Prop :=
  match e with LDetach _ _ | LRingNext _ => False | _ => True end.

Definition no_detach (e : entry) : Prop := match e with LDetach _ _ => False | _ => True end.

Lemma println_all_appends P ls : (forall l, P (LPrint l)) -> appends P (@println_all W ls).
Proof.
  intros HP s r s'. rewrite println_all_log. intros [= <- <-].
  exists (LPrint <$> ls). split; [done|]. apply Forall_fmap, Forall_true. auto.
Qed.

Lemma explain_trace_appends P f n : appends P (explain_trace (W := W) f n).
Proof.
  apply appends_bind; [apply appends_color|]. intros c s r s'.
  case_match; [case_match|]; intros; simplify_eq; exists []; by rewrite app_nil_r.
Qed.

Lemma finish_appends anchor evs out n : appends no_detach (finish (W := W) anchor evs out n).
Proof.
  unfold finish, write_to, println, emit_entry, print_explained. appends_tac.
  - apply explain_trace_appends.
  - by apply println_all_appends.
Qed.

Lemma drain_pending_appends fuel evs :
  appends (fun e => exists o, e = LRingNext o) (drain_pending (W := W) fuel evs).
Proof.
  revert evs. induction fuel as [|fuel IH]; intros evs; cbn [drain_pending]; [appends_tac|].
  apply appends_bind; [apply appends_logged; eauto|]. intros [item|]; [apply IH|appends_tac].
Qed.

Lemma drain_appends (P : entry -> Prop) fuel stop :
  (forall o, P (LRingNext o)) -> P LPoll -> appends P stop ->
  appends P (drain_ring_buffer (W := W) fuel stop).
Proof.
  intros Hr Hp Hs. apply appends_bind; [apply open_map_appends|intros _].
  assert (forall fuel evs, appends P (drain_pending (W := W) fuel evs)) as Hd.
  { intros fuel' evs. eapply appends_weaken; [|apply drain_pending_appends]. naive_solver. }
  generalize (@nil TraceEvent). induction fuel as [|fuel IH]; intros evs; cbn [drain_loop]; appends_tac;
    auto using appends_logged.
Qed.

Lemma banner_quiet : appends quiet (banner (W := W)).
Proof. unfold banner. appends_tac. by apply println_all_appends. Qed.

Lemma load_quiet : appends quiet (load_and_attach (W := W)).
Proof. eapply appends_weaken; [|apply load_and_attach_appends]. by intros []. Qed.

Lemma set_target_quiet t : appends quiet (set_target_tgid (W := W) t).
Proof. unfold set_target_tgid, open_map. appends_tac. Qed.

Lemma wait_quiet fuel pid msg : appends quiet (with_context msg (wait_until_stopped (W := W) fuel pid)).
Proof.
  apply appends_context. eapply appends_weaken; [|apply wait_until_stopped_appends]. by intros [].
Qed.

Lemma spawn_quiet cmd : appends quiet (spawn_stopped (W := W) cmd).
Proof. unfold spawn_stopped. destruct cmd; appends_tac. Qed.

Lemma spawn_done cmd pid s s' :
  spawn_stopped (W := W) cmd s = (Done pid, s') -> exists l, log s' = log s ++ l /\ l = [LSpawn cmd (Ok pid)].
Proof.
  destruct cmd as [|a cmd]; [done|]. intros (r & s1 & H1 & [Hr ->]%lift_done)%bind_done.
  destruct r; [|done]. cbn in Hr. simplify_eq.
  unfold logged in H1. case_match. simplify_eq. eauto.
Qed.

Lemma read_anchor_quiet : appends quiet (read_anchor (W := W)).
Proof. unfold read_anchor. appends_tac. Qed.

(** What must have happened before the child is let run. *)
Definition tracing_in_place (cmd : list string) (pid : Z) (l : list entry) : Prop :=
  LSpawn cmd (Ok pid) ∈ l /\
  (attached <$> TRACEPOINTS) ++ [LSetTarget pid (Ok tt)] `sublist_of` l /\
  Forall quiet l.

(** The one attempt to let the child run was made with tracing in place. *)
Definition resumed (cmd : list string) (l : list entry) : Prop :=
  exists l1 pid res l2, l = l1 ++ LDetach pid res :: l2 /\
    tracing_in_place cmd pid l1 /\ Forall no_detach l2.

(** And the attempt succeeded. *)
Definition let_run (cmd : list string) (l : list entry) : Prop :=
  exists l1 pid l2, l = l1 ++ LDetach pid (Ok tt) :: l2 /\
    tracing_in_place cmd pid l1 /\ Forall no_detach l2.

Lemma let_run_resumed cmd l : let_run cmd l -> resumed cmd l.
Proof. intros (l1 & pid & l2 & Hl). by exists l1, pid, (Ok tt), l2. Qed.

Lemma quiet_app l l' : Forall quiet l -> Forall quiet l' -> Forall quiet (l ++ l').
Proof. intros. by apply Forall_app. Qed.

Lemma let_run_app cmd l l' : let_run cmd l -> Forall no_detach l' -> let_run cmd (l ++ l').
Proof.
  intros (l1 & pid & l2 & -> & Ht & Hn) Hl'. exists l1, pid, (l2 ++ l').
  rewrite <- app_assoc. split_and!; [done..|]. by apply Forall_app.
Qed.

Lemma in_place_app cmd pid l l' :
  tracing_in_place cmd pid l -> Forall quiet l' -> tracing_in_place cmd pid (l ++ l').
Proof.
  intros (? & ? & ?) ?. split_and!; [set_solver|by apply sublist_inserts_r|by apply quiet_app].
Qed.

Lemma resume_log msg pid s r s' :
  with_context msg (resume (W := W) pid) s = (r, s') ->
  exists res, log s' = log s ++ [LDetach pid res] /\ (r = Done tt -> res = Ok tt).
Proof.
  unfold with_context, resume, bind, logged, ret, fail. intros Hs.
  destruct (os_ptrace_detach _ _) as [[[]|m] w]; cbn in Hs; simplify_eq; eexists; split; [done..|done|done].
Qed.

(** [run] from the moment tracing is in place. *)
Lemma run_tail fuel cmd out n pid (E : list entry -> Prop) :
  (forall l, tracing_in_place cmd pid l -> E l) -> (forall l, resumed cmd l -> E l) ->
  hoare (tracing_in_place cmd pid)
    (let! anchor := read_anchor in
     with_context "resuming child after attaching BPF" (resume pid) ;!
     let! evs := drain_ring_buffer fuel (has_exited pid) in
     finish (W := W) anchor evs out n)
    (fun _ => let_run cmd) E.
Proof.
  intros HE HE'.
  eapply hoare_then; [apply read_anchor_quiet|apply in_place_app|done|intros anchor].
  apply (hoare_bind _ (fun _ => let_run cmd)).
  { intros base l s r s' Hl HP Hs. destruct (resume_log _ _ _ _ _ Hs) as (res & Hl' & Hok).
    exists (l ++ [LDetach pid res]). rewrite Hl', Hl, <- app_assoc.
    assert (resumed cmd (l ++ [LDetach pid res])) by (by exists l, pid, res, []).
    split_and!; [done| |auto].
    intros [] ->. exists l, pid, []. by rewrite Hok. }
  intros _. apply (hoare_bind _ (fun _ => let_run cmd)); [|intros evs].
  - eapply (hoare_frame no_detach); [|apply let_run_app|by intros; apply HE', let_run_resumed].
    apply drain_appends; [done..|]. eapply appends_weaken; [|apply has_exited_appends]. by intros [].
  - eapply (hoare_frame no_detach); [apply finish_appends|apply let_run_app|by intros; apply HE', let_run_resumed].
Qed.

(** At any end of [run], the child was either never let run, or [resumed]
    holds. *)
Lemma run_resumed fuel cmd out n :
  hoare (fun l => l = []) (run (W := W) fuel cmd out n) (fun _ => let_run cmd)
    (fun l => Forall quiet l \/ resumed cmd l).
Proof.
  set (E := fun l => Forall quiet l \/ resumed cmd l).
  assert (forall l, Forall quiet l -> E l) as HE by (intros l; by left).
  assert (forall l, resumed cmd l -> E l) as HE' by (intros l; by right).
  apply (hoare_weaken (Forall quiet) _ (fun _ => let_run cmd) _ E); [by intros ? ->|done|done|].
  unfold run.
  eapply hoare_then; [|exact quiet_app|done|intros _]; [unfold require_root; appends_tac|].
  eapply hoare_then; [apply banner_quiet|exact quiet_app|done|intros _].
  eapply hoare_then; [|exact quiet_app|done|intros _]; [unfold println, emit_entry; appends_tac|].
  eapply hoare_then_done; [apply spawn_quiet|exact quiet_app|done|exact (spawn_done cmd)|].
  intros pid. set (Q := fun l => LSpawn cmd (Ok pid) ∈ l /\ Forall quiet l).
  assert (forall l l', Q l -> Forall quiet l' -> Q (l ++ l')) as HQ.
  { intros l l' [? ?] ?. split; [set_solver|by apply quiet_app]. }
  assert (forall l, Q l -> E l) as HQE by (intros l [_ ?]; auto).
  apply (hoare_weaken Q _ (fun _ => let_run cmd) _ E); [|done..|].
  { intros l [? (l0 & l1 & -> & _ & ->)]. split; [set_solver|done]. }
  eapply hoare_then; [apply wait_quiet|exact HQ|done|intros _].
  eapply (hoare_then_done _ _ _ _ (fun _ l => (attached <$> TRACEPOINTS) `sublist_of` l));
    [apply load_quiet|exact HQ|done|intros []; exact load_and_attach_done|intros _].
  apply (hoare_weaken (fun l => Q l /\ (attached <$> TRACEPOINTS) `sublist_of` l) _ (fun _ => let_run cmd) _ E);
    [|done..|].
  { intros l [? (l0 & l1 & -> & _ & Hs)]. split; [done|by apply sublist_inserts_l]. }
  set (Q2 := fun l => Q l /\ (attached <$> TRACEPOINTS) `sublist_of` l).
  assert (forall l l', Q2 l -> Forall quiet l' -> Q2 (l ++ l')) as HQ2.
  { intros l l' [? ?] ?. split; [by apply HQ|by apply sublist_inserts_r]. }
  assert (forall l, Q2 l -> E l) as HQ2E by (intros l [? _]; auto).
  eapply (hoare_then_done _ _ _ _ (fun _ l => l = [LSetTarget pid (Ok tt)]));
    [apply set_target_quiet|exact HQ2|done|intros []; exact (set_target_done pid)|intros _].
  apply (hoare_weaken (tracing_in_place cmd pid) _ (fun _ => let_run cmd) _ E); [|done..|].
  { intros l [[[? ?] _] (l0 & l1 & -> & [_ Hs] & ->)]. split_and!; [done|by apply sublist_app|done]. }
  apply run_tail; [|exact HE'].
  intros l [_ [_ ?]]. auto.
Qed.
End Phases.

(** ** What ends up in the trace file *)

Section Saved.
Context {W : Type} `{Os W}.

Definition not_ring (e : entry) : Prop := match e with LRingNext _ => False | _ => True end.
Definition is_print (e : entry) : Prop := match e with LPrint _ => True | _ => False end.

Lemma ring_items_app l l' : ring_items (l ++ l') = ring_items l ++ ring_items l'.
Proof. apply omap_app. Qed.

Lemma ring_items_none l : Forall not_ring l -> ring_items l = [].
Proof. induction 1 as [|[] l Hx _ IH]; by try destruct Hx. Qed.

Lemma session_log stop s items s' :
  appends not_ring stop -> session (W := W) stop s items s' ->
  exists l, log s' = log s ++ l /\ ring_items l = items.
Proof.
  intros Ha. induction 1 as [s i1 s1 s2 i2 s' H1 Hs H2|s i1 s1 s2 s3 rest s' H1 Hs Hp _ (l3 & Hl3 & Hi3)].
  - apply pulls_log in H1 as (l1 & Hl1 & <- & _). apply pulls_log in H2 as (l2 & Hl2 & <- & _).
    destruct (Ha _ _ _ Hs) as (lm & Hlm & Hf). exists (l1 ++ lm ++ l2).
    rewrite Hl2, Hlm, Hl1, <- !app_assoc, !ring_items_app, (ring_items_none lm) by done. done.
  - apply pulls_log in H1 as (l1 & Hl1 & <- & _). destruct (Ha _ _ _ Hs) as (lm & Hlm & Hf).
    unfold poll_once, logged in Hp. injection Hp as <-. cbn in Hl3.
    exists (l1 ++ lm ++ [LPoll] ++ l3).
    rewrite Hl3, Hlm, Hl1, <- !app_assoc, !ring_items_app, (ring_items_none lm) by done.
    cbn. by rewrite Hi3.
Qed.

(** The trace was written, with exactly the items taken from the ring buffer
    before, and only output followed. *)
Definition saved (out : string) (l : list entry) : Prop :=
  exists l1 f l2, l = l1 ++ LWriteTrace out f (Ok tt) :: l2 /\
    events f = decode_all (ring_items l1) /\ Forall is_print l2.

Definition no_items (l : list entry) : Prop := ring_items l = [].

Lemma no_items_app l l' : no_items l -> Forall not_ring l' -> no_items (l ++ l').
Proof. unfold no_items. intros Hl Hl'. by rewrite ring_items_app, Hl, ring_items_none. Qed.

Lemma quiet_not_ring e : quiet e -> not_ring e.
Proof. by destruct e. Qed.

Lemma drain_done fuel stop evs s s' :
  appends not_ring stop -> drain_ring_buffer (W := W) fuel stop s = (Done evs, s') ->
  exists l, log s' = log s ++ l /\ evs = decode_all (ring_items l).
Proof.
  intros Ha ([] & s1 & H1 & H2)%bind_done.
  destruct (open_map_appends (fun _ => False) _ _ _ _ H1) as ([|e l] & Hl & HF); [|by inversion HF].
  apply drain_loop_sound in H2 as (items & Hs & ->).
  apply session_log in Hs as (l & Hl2 & <-); [|done]. exists l. rewrite Hl2, Hl, app_nil_r. done.
Qed.

Lemma finish_saved anchor evs out n :
  hoare (fun l => evs = decode_all (ring_items l)) (finish (W := W) anchor evs out n)
    (fun _ => saved out) (fun _ => True).
Proof.
  unfold finish. set (f := mkTraceFile _ _ _).
  apply (hoare_bind _ (fun _ => saved out)).
  - apply hoare_context. unfold write_to.
    eapply (hoare_then not_ring); [appends_tac| |done|intros file].
    { intros l l' -> Hl'. by rewrite ring_items_app, (ring_items_none l'), app_nil_r. }
    destruct file as [[]|msg]; [cbn [map_err lift]|by apply hoare_fail].
    apply (hoare_bind _ (fun _ l => evs = decode_all (ring_items l))); [by apply hoare_ret|intros _].
    apply (hoare_bind _ (fun r l => exists l1, l = l1 ++ [LWriteTrace out f r] /\
      evs = decode_all (ring_items l1))).
    { apply hoare_logged. intros r l ->. by exists l. }
    intros [[]|msg]; [|by apply hoare_fail]. apply hoare_ret. intros l (l1 & -> & ->).
    by exists l1, f, [].
  - intros _. eapply (hoare_frame is_print); [| |done].
    + unfold println, emit_entry, print_explained. appends_tac.
      * apply explain_trace_appends.
      * by apply println_all_appends.
    + intros l l' (l1 & f' & l2 & -> & Hf & Hp) Hl'. exists l1, f', (l2 ++ l').
      rewrite <- app_assoc. split_and!; [done..|]. by apply Forall_app.
Qed.

Lemma drain_finish_saved fuel stop anchor out n :
  appends not_ring stop ->
  hoare no_items (let! evs := drain_ring_buffer fuel stop in finish (W := W) anchor evs out n)
    (fun _ => saved out) (fun _ => True).
Proof.
  intros Ha. apply (hoare_bind _ (fun evs l => evs = decode_all (ring_items l)));
    [|intros evs; apply finish_saved].
  intros base l s r s' Hl Hn Hs.
  destruct (drain_appends (fun _ => True) fuel stop (fun _ => I) I) with s r s' as (l' & Hl' & _);
    [by eapply appends_weaken|done|].
  exists (l ++ l'). rewrite Hl', Hl, <- app_assoc. split_and!; [done| |done].
  intros evs ->. apply drain_done in Hs as (l2 & Hl2 & ->); [|done].
  rewrite Hl2 in Hl'. simplify_list_eq. by rewrite ring_items_app, Hn.
Qed.

Lemma attach_should_stop_appends P pid d : appends P (attach_should_stop (W := W) pid d).
Proof. unfold attach_should_stop. appends_tac. Qed.

Lemma has_exited_not_ring pid : appends not_ring (has_exited (W := W) pid).
Proof. eapply appends_weaken; [|apply has_exited_appends]. by intros []. Qed.

Ltac quietly lem := eapply hoare_then;
  [eapply appends_weaken; [exact quiet_not_ring|lem]|exact no_items_app|done|intros ?].

Lemma run_saved fuel cmd out n :
  hoare no_items (run (W := W) fuel cmd out n) (fun _ => saved out) (fun _ => True).
Proof.
  unfold run.
  quietly ltac:(unfold require_root; appends_tac).
  quietly ltac:(apply banner_quiet).
  quietly ltac:(unfold println, emit_entry; appends_tac).
  quietly ltac:(apply spawn_quiet).
  quietly ltac:(apply wait_quiet).
  quietly ltac:(apply load_quiet).
  quietly ltac:(apply set_target_quiet).
  quietly ltac:(apply read_anchor_quiet).
  eapply hoare_then; [|exact no_items_app|done|intros ?].
  - unfold resume. appends_tac.
  - apply drain_finish_saved, has_exited_not_ring.
Qed.

Lemma attach_saved fuel pid out n secs :
  hoare no_items (attach (W := W) fuel pid out n secs) (fun _ => saved out) (fun _ => True).
Proof.
  unfold attach.
  quietly ltac:(unfold require_root; appends_tac).
  quietly ltac:(apply banner_quiet).
  quietly ltac:(appends_tac).
  destruct (negb _).
  { by apply hoare_fail. }
  quietly ltac:(apply load_quiet).
  quietly ltac:(apply set_target_quiet).
  quietly ltac:(apply read_anchor_quiet).
  quietly ltac:(appends_tac).
  quietly ltac:(unfold println, emit_entry; appends_tac).
  quietly ltac:(unfold deadline_after; appends_tac).
  apply drain_finish_saved, attach_should_stop_appends.
Qed.
End Saved.

(** ** Properties *)

(** The decoder inverts the event's image in the ring buffer, whatever the
    padding holds. *)
Theorem decode_event_inverts (pad : nat -> byte) (ev : Event) :
  wf_event ev -> decode_event (event_bytes pad ev) = Some ev.
Proof. apply decode_event_bytes. Qed.

Lemma decode_event_inverts_witness :
  decode_event (event_bytes (fun _ => zero_byte) blink_event) = Some blink_event.
Proof.
  apply decode_event_inverts.
  split; try done; unfold is_uint; cbn; lia.
Defined.

(** C24: The drain loop returns exactly when its session with the environment
    ends, and then with every item of the session decoded, in order. *)
Theorem drain_loop_session {W : Type} `{Os W} (stop : M W bool) (s s' : sys W)
    (evs r : list TraceEvent) :
  (exists n, forall fuel, (n <= fuel)%nat -> drain_loop fuel stop evs s = (Done r, s')) <->
  (exists items, session stop s items s' /\ r = evs ++ decode_all items).
Proof.
  split.
  - intros [n Hn]. by eapply drain_loop_sound, (Hn n).
  - intros (items & Hs & ->). destruct (drain_loop_complete _ _ _ _ Hs) as [n Hn]. eauto.
Qed.

(** C25: The drain loop terminates when the ring buffer can be emptied, and every
    poll brings the time at which [should_stop] answers yes closer. [I] is
    what the environment keeps throughout. *)
Theorem drain_loop_terminates {W : Type} `{Os W} (stop : M W bool) (I : sys W -> Prop)
    (pending_items polls_left : sys W -> nat) (s : sys W) (evs : list TraceEvent) :
  (forall s o s', I s -> next_item s = (Done o, s') ->
     I s' /\ (polls_left s' <= polls_left s)%nat /\
     (o <> None -> (pending_items s' < pending_items s)%nat)) ->
  (forall s, I s -> exists b s', stop s = (Done b, s') /\ I s' /\
     (b = false -> forall s'', poll_once s' = (Done tt, s'') ->
        I s'' /\ (polls_left s'' < polls_left s)%nat)) ->
  I s ->
  exists n r s', forall fuel, (n <= fuel)%nat -> drain_loop fuel stop evs s = (Done r, s').
Proof.
  intros Hnext Hstop HI. destruct (session_exists stop I pending_items polls_left Hnext Hstop s HI)
    as (items & s' & Hs).
  destruct (drain_loop_complete _ _ _ _ Hs) as [n Hn]. exists n, (evs ++ decode_all items), s'. eauto.
Qed.

Lemma drain_loop_terminates_witness :
  exists n r s', forall fuel, (n <= fuel)%nat ->
    drain_loop fuel (has_exited 4000) [] (demo_sys 0) = (Done r, s').
Proof.
  apply (drain_loop_terminates (has_exited 4000) (fun s => sw_child (world s) = 4000)
    (fun s => length (EVENTS (sw_kernel (world s)))) (fun s => length (sw_script (world s)))).
  - intros [w lg c] o s' HI. unfold next_item, logged. cbn. unfold sim_ring_next.
    destruct (EVENTS (sw_kernel w)) as [|ev evs]; intros [= <- <-]; cbn; split_and!; auto; by intros.
  - intros [w lg c] HI. unfold has_exited, bind, logged, ret. cbn in *. unfold sim_waitpid. rewrite HI.
    cbn. eexists _, _. split; [reflexivity|]. cbn. split; [done|]. intros Hb s'' [= <-]. cbn.
    destruct (sw_script w); [done|]. cbn. split; [done|lia].
  - reflexivity.
Defined.

(** C7: However [run] ends, it tries to let the child run at most once, and
    only after the child was spawned, every tracepoint was attached and the
    target was set. When [run] succeeds it has made that attempt and
    [PTRACE_DETACH] has succeeded: a child that could not be let run is an
    error. *)
Theorem run_resumes_after_tracing {W : Type} `{Os W} (fuel : nat) (cmd : list string)
    (out : string) (n : nat) (s : sys W) :
  let '(r, s') := run fuel cmd out n s in
  exists l, log s' = log s ++ l /\
    (Forall quiet l \/ resumed cmd l) /\ (r = Done tt -> let_run cmd l).
Proof.
  destruct (run fuel cmd out n s) as [r s'] eqn:E.
  destruct (run_resumed fuel cmd out n (log s) [] s r s') as (l & Hl & Hd & Hn); [|done..|].
  { by rewrite app_nil_r. }
  exists l. split_and!; [done| |by intros ->; apply (Hd tt)].
  destruct r as [[]| | |]; [right; by apply let_run_resumed, (Hd tt)|by apply Hn..].
Qed.

(** C26: A successful [run] or [attach] has written a trace of exactly the items
    it took from the ring buffer, and only printed after that. *)
Theorem trace_saved {W : Type} `{Os W} (fuel : nat) (out : string) (n : nat) (s : sys W) :
  (forall cmd s', run fuel cmd out n s = (Done tt, s') ->
     exists l, log s' = log s ++ l /\ saved out l) /\
  (forall pid secs s', attach fuel pid out n secs s = (Done tt, s') ->
     exists l, log s' = log s ++ l /\ saved out l).
Proof.
  split.
  - intros cmd s' E. destruct (run_saved fuel cmd out n (log s) [] s (Done tt) s') as (l & Hl & Hd & _);
      [by rewrite app_nil_r|done|done|].
    exists l. split; [done|by apply (Hd tt)].
  - intros pid secs s' E.
    destruct (attach_saved fuel pid out n secs (log s) [] s (Done tt) s') as (l & Hl & Hd & _);
      [by rewrite app_nil_r|done|done|].
    exists l. split; [done|by apply (Hd tt)].
Qed.

(** A run in the simulated environment that succeeds. *)
Lemma trace_saved_witness :
  let r := run 10 ["./synthetic"] "t.json" 3 (demo_sys 0) in
  exists l, log r.2 = [] ++ l /\ saved "t.json" l.
Proof.
  intros r. assert (r = (Done tt, r.2)) as Hr by (vm_compute; reflexivity).
  exact (proj1 (trace_saved 10 "t.json" 3 (demo_sys 0)) ["./synthetic"] r.2 Hr).
Defined.

(** Without root nothing happens: no child, no BPF, no output. *)
Theorem not_root_refused {W : Type} `{Os W} (fuel : nat) (s : sys W) :
  (os_geteuid (world s)).1 <> 0 ->
  (forall cmd out n, exists w, run fuel cmd out n s = (Fail [need_root], mkSys w (log s) (color_cell s))) /\
  (forall pid out n secs, exists w,
     attach fuel pid out n secs s = (Fail [need_root], mkSys w (log s) (color_cell s))).
Proof.
  intros Hne.
  assert (exists w, require_root s = (Fail [need_root], mkSys w (log s) (color_cell s))) as [w Hw].
  { unfold require_root, bind, silent. destruct (os_geteuid (world s)) as [e w]. cbn in Hne.
    apply Z.eqb_neq in Hne. rewrite Hne. by exists w. }
  unfold run, attach. split; intros; exists w; unfold bind at 1; by rewrite Hw.
Qed.

Lemma not_root_refused_witness :
  exists w, run 10 ["./synthetic"] "t.json" 3 (demo_sys 1000) = (Fail [need_root], mkSys w [] None).
Proof.
  assert ((os_geteuid (world (demo_sys 1000))).1 <> 0) as Hne by done.
  exact (proj1 (not_root_refused 10 (demo_sys 1000) Hne) ["./synthetic"] "t.json" 3%nat).
Defined.

(** [waitpid] without [WCONTINUED] reports stops and ends only; then the wait
    for the child ends at its first report, successfully for a stop. *)
Theorem wait_until_stopped_ends {W : Type} `{Os W} (fuel : nat) (pid : Z) (s : sys W) :
  let r := (os_waitpid (as_i32 pid) false (world s)).1 in
  (forall p st, r = Ok (p, st) -> os_wifstopped (W := W) st || os_wifexited (W := W) st ||
                                  os_wifsignaled (W := W) st = true) ->
  match (wait_until_stopped (S fuel) pid s).1 with
  | Done _ => exists p st, r = Ok (p, st) /\ os_wifstopped (W := W) st = true
  | Fail _ => forall p st, r = Ok (p, st) -> os_wifstopped (W := W) st = false
  | Panic _ | OutOfFuel => False
  end.
Proof.
  cbv zeta. intros Hst. cbn [wait_until_stopped]. unfold bind, logged.
  destruct (os_waitpid _ _ _) as [[[p st]|msg] w]; cbn; [|by intros].
  cbn in Hst. specialize (Hst p st eq_refl).
  destruct (os_wifstopped st) eqn:E1; cbn; [eauto|].
  cbn in Hst. rewrite Hst. cbn. intros ? ? [= <- <-]. done.
Qed.

Lemma wait_until_stopped_ends_witness :
  match (wait_until_stopped 1 4000 (demo_sys 0)).1 with
  | Done _ => exists p st, (os_waitpid 4000 false (demo_world 0)).1 = Ok (p, st) /\
                           os_wifstopped (W := sim_world) st = true
  | Fail _ => forall p st, (os_waitpid 4000 false (demo_world 0)).1 = Ok (p, st) ->
                           os_wifstopped (W := sim_world) st = false
  | Panic _ | OutOfFuel => False
  end.
Proof.
  apply (wait_until_stopped_ends 0 4000 (demo_sys 0)).
  intros p st [= <- <-]. reflexivity.
Defined.

(** The exit code is 0 for success and 1 for an error, whose message and
    causes go to stderr in order. *)
Theorem main_exit_code {W : Type} `{Os W} (fuel : nat) (c : command) (s : sys W) :
  match try_main fuel c s with
  | (Done _, s1) => main fuel c s = (Done 0, s1)
  | (Fail e, s1) => exists b s2, main fuel c s = (Done 1, s2) /\
      log s2 = log s1 ++ LEprint (bold_red b "error:" +:+ " " +:+ default "" (head e)) ::
        ((fun cause => LEprint ("  " +:+ dim b "caused by:" +:+ " " +:+ cause)) <$> tail e)
  | (Panic msg, s1) => main fuel c s = (Panic msg, s1)
  | (OutOfFuel, s1) => main fuel c s = (OutOfFuel, s1)
  end.
Proof.
  unfold main. destruct (try_main fuel c s) as [[[]|e|msg|] s1]; try done.
  unfold bind at 1. destruct (get_color s1) as [o s2] eqn:Ec.
  assert (exists b, o = Done b) as [b ->].
  { unfold get_color in Ec. repeat case_match; simplify_eq; eauto. }
  apply appends_get_color in Ec. exists b.
  assert (forall ls (s : sys W), eprintln_all ls s =
    (Done tt, mkSys (world s) (log s ++ (LEprint <$> ls)) (color_cell s))) as He.
  { induction ls as [|l ls IH]; intros [w lg cc]; cbn.
    - unfold ret. by rewrite app_nil_r.
    - unfold bind, eprintln, emit_entry, logged. rewrite IH. cbn. by rewrite <- app_assoc. }
  unfold bind, eprintln, emit_entry, logged. rewrite He. eexists. split; [done|].
  cbn. rewrite Ec, <- app_assoc, <- list_fmap_compose. done.
Qed.
