(* ===== verification/Limits.v ===== *)
(** * Limits of the program, proved

    Behaviours of the code that its documentation does not announce: wakes
    the join accepts or misses, a deadline that cannot be represented, and a
    child's exit that is never seen. *)

From S2P Require Import Ebpf Simulated.
From S2P Require Import Prelude RustStd Layout Common Trace Ui Causal CausalProps.
From S2P Require Import Os Child Bpf BpfProps Cli CliProps.

(** ** The wake join *)

Section Wakes.
Context {W : Type} (read_link : string -> W -> option (list byte) * W) (color : bool).

(** The first step of a walk from a wait with one candidate closest to its
    end. *)
Lemma walk_latest_wake typed wait wake d depth acc :
  wake ∈ futex_wake typed -> te_key wake = te_key wait -> precedes (te_timestamp_ns wait) wake ->
  (forall x, x ∈ futex_wake typed -> te_key x = te_key wait ->
     te_timestamp_ns wake <= te_timestamp_ns x <= te_timestamp_ns wait -> x = wake) ->
  1 <= depth <= MAX_CHAIN_DEPTH ->
  exists rest d', walk_from_futex_wait read_link color walk_fuel wait typed d depth acc =
    Some (acc ++ woken_line color (te_tid wake) :: rest, d').
Proof.
  intros Hin Hkey Hp Hlatest Hd.
  destruct (walk_chain read_link color walk_fuel typed depth wait d acc)
    as (es & ls & d' & Hes & -> & _ & Hr); [unfold walk_fuel; lia|by apply Nat.lt_0_succ|].
  rewrite (Hr (fun dev => default "" (cache d' !! dev))); [|by intros dev n ->].
  assert (forall w, is_waker typed wait w -> w = wake) as Hu.
  { intros w' (Hw' & Hk' & [Hle _] & Hmax). apply Hlatest; [done..|]. split; [by apply Hmax|done]. }
  inversion Hes as [? ? Hno|? ? w' Hw|? ? w' Hw|? ? w' io Hw|? ? w' next es' Hw]; subst.
  { by destruct (Hno wake). }
  all: rewrite (Hu w' Hw), fmap_cons; cbn [render]; by eexists _, _.
Qed.

(** A walk from a wait before whose end no wake on its futex returned within
    the window. *)
Lemma walk_no_wake typed wait d acc :
  no_waker typed wait -> walk_from_futex_wait read_link color walk_fuel wait typed d 1 acc = Some (acc, d).
Proof.
  intros Hno. change walk_fuel with (S (pred walk_fuel)). cbn [walk_from_futex_wait].
  pose proof (walk_waker wait typed) as Hw. destruct (nearest_preceding _ _ _) as [w|]; [|done].
  destruct Hw as (Hin & Hk & Hp & _). by destruct (Hno w).
Qed.
End Wakes.

(** C36: A wake that was over before the wait began, so that it cannot have woken
    the thread (even the thread's own, when it unlocked, locked again and timed
    out), is reported as what woke it, in any trace in which it is within the
    join window of the wait's end and no later wake on the futex returns up to
    that end. *)
Theorem stale_wake_accepted {W : Type} (read_link : string -> W -> option (list byte) * W)
    (color : bool) (typed : Typed) (wait wake : TraceEvent) (d : DevNames) (acc : list string) :
  wake ∈ futex_wake typed -> te_key wake = te_key wait -> 0 <= te_duration_ns wait ->
  te_timestamp_ns wake < te_timestamp_ns wait - te_duration_ns wait ->
  te_timestamp_ns wait - te_timestamp_ns wake <= MATCH_WINDOW_NS ->
  (forall x, x ∈ futex_wake typed -> te_key x = te_key wait ->
     te_timestamp_ns wake <= te_timestamp_ns x <= te_timestamp_ns wait -> x = wake) ->
  exists rest d', walk_from_futex_wait read_link color walk_fuel wait typed d 1 acc =
    Some (acc ++ woken_line color (te_tid wake) :: rest, d').
Proof.
  intros Hin Hkey Hd Hb Hw Hl. apply walk_latest_wake; try done. unfold precedes. lia.
Qed.

(** Thread 9 wakes the futex at 1000, waits on it from 2000 to 3000; thread 8
    had made a wake before. *)
Lemma stale_wake_accepted_witness :
  let wake := mkTraceEvent 1000 10 64 7 9 EVENT_FUTEX_WAKE "w" in
  let older := mkTraceEvent 900 10 64 7 8 EVENT_FUTEX_WAKE "w" in
  let wait := mkTraceEvent 3000 1000 64 7 9 EVENT_FUTEX_WAIT "w" in
  exists rest d', walk_from_futex_wait (fun _ (w : unit) => (None, w)) false walk_fuel wait
    (mkTyped [] [wait] [older; wake] []) (DevNames_new tt) 1 [] =
    Some ([] ++ woken_line false 9 :: rest, d').
Proof.
  intros wake older wait. apply (stale_wake_accepted _ false _ wait wake); try reflexivity.
  - apply list_elem_of_further, list_elem_of_here.
  - cbn. lia.
  - unfold MATCH_WINDOW_NS. cbn. lia.
  - intros x Hx _ Hts. apply elem_of_cons in Hx as [->|Hx]; [cbn in Hts; lia|].
    by apply list_elem_of_singleton in Hx.
Defined.

(** C37: The wake that did wake the thread is missed when the waker's system call
    returns after the waiter's, as it may on another processor: in any trace in
    which no other wake on the futex returned within the join window before the
    wait's end, no waker is reported at all. *)
Theorem late_wake_missed {W : Type} (read_link : string -> W -> option (list byte) * W)
    (color : bool) (typed : Typed) (wait wake : TraceEvent) (d : DevNames) (acc : list string) :
  wake ∈ futex_wake typed -> te_key wake = te_key wait ->
  te_timestamp_ns wake - te_duration_ns wake <= te_timestamp_ns wait < te_timestamp_ns wake ->
  (forall x, x ∈ futex_wake typed -> te_key x = te_key wait ->
     te_timestamp_ns wait - MATCH_WINDOW_NS <= te_timestamp_ns x <= te_timestamp_ns wait -> x = wake) ->
  walk_from_futex_wait read_link color walk_fuel wait typed d 1 acc = Some (acc, d).
Proof.
  intros Hin Hkey Hts Hother. apply walk_no_wake. intros x Hx Hk [Hle Hw].
  assert (x = wake) as ->; [apply Hother; [done..|lia]|lia].
Qed.

(** Thread 8 is still in its wake when thread 9's wait ends at 6000000.
    Another wake came later, and one long before. *)
Lemma late_wake_missed_witness :
  let wake := mkTraceEvent 6000005 15 64 7 8 EVENT_FUTEX_WAKE "w" in
  let others := [mkTraceEvent 100 10 64 7 8 EVENT_FUTEX_WAKE "w"; mkTraceEvent 6000100 10 64 7 9 EVENT_FUTEX_WAKE "w"] in
  let wait := mkTraceEvent 6000000 1000 64 7 9 EVENT_FUTEX_WAIT "v" in
  walk_from_futex_wait (fun _ (w : unit) => (None, w)) false walk_fuel wait
    (mkTyped [] [wait] (wake :: others) []) (DevNames_new tt) 1 [] = Some ([], DevNames_new tt).
Proof.
  intros wake others wait. apply (late_wake_missed _ false _ wait wake); try reflexivity.
  - apply list_elem_of_here.
  - cbn. lia.
  - intros x Hx _ Hts. unfold MATCH_WINDOW_NS in Hts. cbn in Hx, Hts.
    apply elem_of_cons in Hx as [->|[->|[->|[]%elem_of_nil]%elem_of_cons]%elem_of_cons]; cbn in Hts; [done|lia..].
Defined.

(** ** The deadline of [attach] *)

Section Deadline.
Context {W : Type} `{Os W}.

Definition not_write (e : entry) : Prop := match e with LWriteTrace _ _ _ => False | _ => True end.

Lemma appends_not_write_app (l l' : list entry) :
  Forall not_write l -> Forall not_write l' -> Forall not_write (l ++ l').
Proof. intros. by apply Forall_app. Qed.

(** [Instant::now() + Duration::from_secs(secs)] panics. *)
Lemma deadline_after_panics secs s :
  (forall w, 0 <= (os_instant_now (W := W) w).1.1) -> 2 ^ 63 <= secs ->
  exists s', deadline_after secs s = (Panic "overflow when adding duration to instant", s') /\
    log s' = log s.
Proof.
  intros Hnow Hs. unfold deadline_after, bind, silent. specialize (Hnow (world s)).
  destruct (os_instant_now (world s)) as [now w]. cbn in Hnow.
  destruct (Z.ltb_spec (now.1 + secs) (2 ^ 63)); [lia|]. eexists. by split.
Qed.

Lemma attach_no_write fuel pid out n secs :
  (forall w, 0 <= (os_instant_now (W := W) w).1.1) -> 2 ^ 63 <= secs ->
  hoare (Forall not_write) (attach (W := W) fuel pid out n (Some secs))
    (fun _ _ => False) (Forall not_write).
Proof.
  intros Hnow Hs.
  unfold attach.
  eapply hoare_then; [|exact appends_not_write_app|done|intros _]; [unfold require_root; appends_tac|].
  eapply hoare_then; [|exact appends_not_write_app|done|intros _].
  { unfold banner. appends_tac. by apply println_all_appends. }
  eapply hoare_then; [|exact appends_not_write_app|done|intros alive]; [appends_tac|].
  destruct (negb _); [by apply hoare_fail|].
  eapply hoare_then; [|exact appends_not_write_app|done|intros _].
  { eapply appends_weaken; [|apply load_and_attach_appends]. by intros []. }
  eapply hoare_then; [|exact appends_not_write_app|done|intros _].
  { unfold set_target_tgid, open_map. appends_tac. }
  eapply hoare_then; [|exact appends_not_write_app|done|intros anchor]; [unfold read_anchor; appends_tac|].
  eapply hoare_then; [|exact appends_not_write_app|done|intros _]; [appends_tac|].
  eapply hoare_then; [|exact appends_not_write_app|done|intros _];
    [unfold println, emit_entry; appends_tac|].
  apply (hoare_bind _ (fun _ _ => False)); [|by intros d base l s r s' Hl []].
  intros base l s r s' Hl HP Hr. unfold bind in Hr.
  destruct (deadline_after_panics secs s Hnow Hs) as (s1 & Hd & Hlog). rewrite Hd in Hr.
  injection Hr as <- <-. exists l. rewrite Hlog. split_and!; done.
Qed.
End Deadline.

(** C39: [attach --duration-secs N] with an N the clock cannot represent never
    succeeds and never writes a trace: it fails before, or panics once
    tracing has begun. *)
Theorem attach_deadline_overflow {W : Type} `{Os W} (fuel : nat) (pid : Z) (out : string) (n : nat)
    (secs : Z) (s : sys W) :
  (forall w, 0 <= (os_instant_now (W := W) w).1.1) -> 2 ^ 63 <= secs ->
  let '(r, s') := attach fuel pid out n (Some secs) s in
  r <> Done tt /\ exists l, log s' = log s ++ l /\ Forall not_write l.
Proof.
  intros Hnow Hs. destruct (attach fuel pid out n (Some secs) s) as [r s'] eqn:E.
  destruct (attach_no_write fuel pid out n secs Hnow Hs (log s) [] s r s') as (l & Hl & Hd & He);
    [by rewrite app_nil_r|constructor|done|].
  split; [intros Hr; by apply (Hd tt)|]. exists l. split; [done|]. apply He.
  intros a Ha. by apply (Hd a).
Qed.

Lemma attach_deadline_overflow_witness :
  let '(r, s') := attach 10 4000 "t.json" 3 (Some (2 ^ 64 - 1)) (demo_sys 0) in
  r <> Done tt /\ exists l, log s' = log (demo_sys 0) ++ l /\ Forall not_write l.
Proof.
  apply (attach_deadline_overflow 10 4000 "t.json" 3 (2 ^ 64 - 1) (demo_sys 0)); [|lia].
  intros w. cbn. lia.
Defined.

(** ** The child's exit *)

Section Exit.
Context {W : Type} `{Os W}.

(** An environment in which [waitpid] never reports the child: no session
    ends. *)
Lemma no_session pid (I : W -> Prop) s items s' :
  0 < as_i32 pid ->
  (forall w, I w -> I (os_waitpid (as_i32 pid) true w).2 /\
     forall st, (os_waitpid (as_i32 pid) true w).1 <> Ok (as_i32 pid, st)) ->
  (forall w, I w -> I (os_ring_next w).2) -> (forall w, I w -> I (os_poll 100 w)) ->
  I (world s) -> ~ session (has_exited pid) s items s'.
Proof.
  intros Hpid Hwait Hring Hpoll HI Hs.
  assert (forall s items s', pulls s items s' -> I (world s) -> I (world s')) as Hpulls.
  { intros s1 items1 s1'. induction 1 as [s1 s2 Hn|s1 s2 s3 item items1 Hn _ IH]; intros H1;
      specialize (Hring _ H1); unfold next_item, logged in Hn;
      destruct (os_ring_next (world s1)) as [o w]; simplify_eq; auto. }
  assert (forall s b s', I (world s) -> has_exited pid s = (Done b, s') -> b = false /\ I (world s')) as Hex.
  { intros s1 b s2 H1 He. destruct (Hwait _ H1) as [HIw Hw].
    unfold has_exited, bind, logged, ret in He.
    destruct (os_waitpid _ _ _) as [[[p st]|msg] w]; simplify_eq; (split; [|done]).
    - apply Z.eqb_neq. intros ->. by apply (Hw st).
    - apply (proj2 (Z.eqb_neq (-1) _)). lia. }
  induction Hs as [s i1 s1 s2 i2 s' H1 H2 H3|s i1 s1 s2 s3 rest s' H1 H2 H3 _ IH].
  - destruct (Hex _ _ _ (Hpulls _ _ _ H1 HI) H2). done.
  - destruct (Hex _ _ _ (Hpulls _ _ _ H1 HI) H2) as [_ HI2]. apply IH.
    unfold poll_once, logged in H3. injection H3 as <-. by apply Hpoll.
Qed.
End Exit.

(** C38: When [waitpid] cannot report the child's exit (it fails with ECHILD once
    the child is gone if SIGCHLD is ignored, as whyslow may inherit), [run]
    polls for ever: with no amount of fuel does the drain loop return. *)
Theorem exit_missed_never_returns {W : Type} `{Os W} (pid : Z) (I : W -> Prop) (s : sys W)
    (fuel : nat) (evs r : list TraceEvent) (s' : sys W) :
  0 < as_i32 pid ->
  (forall w, I w -> I (os_waitpid (as_i32 pid) true w).2 /\
     forall st, (os_waitpid (as_i32 pid) true w).1 <> Ok (as_i32 pid, st)) ->
  (forall w, I w -> I (os_ring_next w).2) -> (forall w, I w -> I (os_poll 100 w)) ->
  I (world s) -> drain_loop fuel (has_exited pid) evs s <> (Done r, s').
Proof.
  intros Hpid Hwait Hring Hpoll HI (items & Hs & _)%drain_loop_sound. by eapply no_session.
Qed.

Lemma exit_missed_never_returns_witness :
  ~ exists r s', drain_loop 1000 (has_exited 4003) [] (demo_sys 0) = (Done r, s').
Proof.
  intros (r & s' & E). revert E. apply (exit_missed_never_returns 4003 (fun w => sw_child w = 4000)); try done.
  - intros w Hw. cbn. unfold sim_waitpid. rewrite Hw. done.
  - intros w Hw. cbn. unfold sim_ring_next. by destruct (EVENTS (sw_kernel w)).
Defined.
