(* ===== verification/Synthetic.v ===== *)
(** * The ground-truth reproducer's mutex (synthetic/src/main.rs)

    The three-state futex mutex as a transition system: each thread's [lock]
    and [unlock] as a program counter over the atomic operations on the word,
    interleaved arbitrarily, with the kernel's futex queue as the set of
    sleeping threads. The kernel may wake any one sleeper, and a sleeper may
    also return spuriously (a signal). Around it, the program's own order:
    the holder's flag, its 64 cold reads (any of which may fail and panic the
    holder's thread) and the waiter spawned only once the flag is up. The main
    thread is in [SyntheticMain]. *)

From S2P Require Import Prelude RustStd.

(** Where a thread is. *)
Inductive pc :=
  | Idle          (* about to call lock(): compare_exchange(0, 1) *)
  | LockSwap      (* in lock()'s loop: swap(2) *)
  | LockWait      (* in lock()'s loop: futex_wait(word, 2) *)
  | Sleeping      (* in the kernel, queued on the word *)
  | Critical      (* lock() returned *)
  | UnlockWake    (* in unlock(): swap(0) returned 2, futex_wake(word, 1) *)
  | Finished.     (* unlock() returned *)

#[export] Instance pc_eq_dec : EqDecision pc.
Proof. solve_decision. Defined.

(** The atomics on the word: the value left, and the value returned. *)
Definition compare_exchange (word expected new : Z) : Z * bool :=
  if word =? expected then (new, true) else (word, false).

Definition swap (word new : Z) : Z * Z := (new, word).

(** [futex(FUTEX_WAIT)]: sleeps only if the word still has the expected
    value; the result is ignored. *)
Definition futex_wait (word expected : Z) : bool := word =? expected.

(** The fast path of [lock]. *)
Definition lock_enter (word : Z) : Z * pc :=
  let '(word, ok) := compare_exchange word 0 1 in
  (word, if ok : bool then Critical else LockSwap).

(** One [swap] of [lock]'s loop. *)
Definition lock_swap (word : Z) : Z * pc :=
  let '(word, old) := swap word 2 in
  (word, if old =? 0 then Critical else LockWait).

(** The [futex_wait] of [lock]'s loop: asleep, or around the loop again. *)
Definition lock_wait (word : Z) : Z * pc :=
  (word, if futex_wait word 2 then Sleeping else LockSwap).

Definition unlock (word : Z) : Z * pc :=
  let '(word, old) := swap word 0 in
  (word, if old =? 2 then UnlockWake else Finished).

(** The next step of a thread that is not in a kernel call. *)
Definition own_step (p : pc) (word : Z) : option (Z * pc) :=
  match p with
  | Idle => Some (lock_enter word)
  | LockSwap => Some (lock_swap word)
  | LockWait => Some (lock_wait word)
  | Critical => Some (unlock word)
  | Sleeping | UnlockWake | Finished => None
  end.

Record mutex := mkMutex { word : Z; threads : list pc }.

Definition mutex_init (n : nat) : mutex := mkMutex 0 (replicate n Idle).

Definition set_pc (t : nat) (p : pc) (m : mutex) : mutex := mkMutex (word m) (<[t := p]> (threads m)).

(** A step without a spurious return. *)
Inductive step : mutex -> mutex -> Prop :=
  | step_own m t p w p' :
      threads m !! t = Some p -> own_step p (word m) = Some (w, p') ->
      step m (mkMutex w (<[t := p']> (threads m)))
  | step_wake_one m t u :
      threads m !! t = Some UnlockWake -> threads m !! u = Some Sleeping ->
      step m (set_pc u LockSwap (set_pc t Finished m))
  | step_wake_none m t :
      threads m !! t = Some UnlockWake -> Sleeping ∉ threads m ->
      step m (set_pc t Finished m).

(** Any step. *)
Inductive any_step : mutex -> mutex -> Prop :=
  | any_step_step m m' : step m m' -> any_step m m'
  | any_step_spurious m t :
      threads m !! t = Some Sleeping -> any_step m (set_pc t LockSwap m).

Definition reachable (n : nat) (m : mutex) : Prop := rtc any_step (mutex_init n) m.

(** ** The program around the mutex *)

Definition FILE_SIZE : Z := 64 * 1024.
Definition ALIGN : Z := 4096.
Definition READ_REPEATS : nat := 64.

(** [std::alloc::Layout]; [from_size_align] wants a power of two and a size
    that, rounded up to it, fits an [isize]. *)
Record Layout := mkLayout { layout_size : Z; layout_align : Z }.

Definition Layout_from_size_align (size align : Z) : option Layout :=
  if (0 <? align) && (align =? 2 ^ Z.log2 align) && (size <=? 2 ^ 63 - align)
  then Some (mkLayout size align) else None.

Record AlignedBuf := mkAlignedBuf { buf_ptr : Z; buf_layout : Layout }.

(** [None] is a panic: a bad layout, or a null pointer. *)
Definition AlignedBuf_new (alloc : Layout -> Z) (size : Z) : option AlignedBuf :=
  layout ← Layout_from_size_align size ALIGN;
  let ptr := alloc layout in
  if ptr =? 0 then None else Some (mkAlignedBuf ptr layout).

(** The slice's address and length. *)
Definition as_mut_slice (buf : AlignedBuf) : Z * Z := (buf_ptr buf, layout_size (buf_layout buf)).

(** How [cold_direct_read] fails: at opening the file, with a panic at the
    buffer, or at a read. *)
Inductive read_failure :=
  | OpenFailed
  | AllocFailed
  | PreadFailed (i : nat).

(** Its loop, over what each [pread] returns: stops at the first failure. A
    short read is not one. *)
Fixpoint cold_reads (pread : nat -> Z) (i fuel : nat) : option read_failure :=
  match fuel with
  | O => None
  | S fuel => if pread i <? 0 then Some (PreadFailed i) else cold_reads pread (S i) fuel
  end.

(** [None] is success. *)
Definition cold_direct_read (opened : bool) (alloc : Layout -> Z) (pread : nat -> Z) :
    option read_failure :=
  if opened then
    match AlignedBuf_new alloc FILE_SIZE with
    | Some _ => cold_reads pread 0 READ_REPEATS
    | None => Some AllocFailed
    end
  else Some OpenFailed.

(** Where the holder's closure is. *)
Inductive holder_pc :=
  | Locking | Storing | Reading (i : nat) | Unlocking | Panicked.

(** Threads of [mutex]: 0 is the holder, 1 the waiter. *)
Record program := mkProgram {
  lock_state : mutex;
  holder : holder_pc;
  holder_acquired : bool;
  waiter_spawned : bool;
}.

Definition program_init : program := mkProgram (mutex_init 2) Locking false false.

Section program.
Context (opened : bool) (alloc : Layout -> Z) (pread : nat -> Z).

(** Does thread [t] get to move on the lock? *)
Definition may_move (p : program) (t : nat) : bool :=
  match t with
  | O => match threads (lock_state p) !! 0%nat, holder p with
         | Some Critical, Unlocking => true
         | Some Critical, _ => false
         | _, Panicked => false
         | _, _ => true
         end
  | _ => waiter_spawned p
  end.

(** After the flag, the file is opened and the buffer allocated. *)
Definition holder_opens : holder_pc :=
  if opened then
    match AlignedBuf_new alloc FILE_SIZE with Some _ => Reading 0 | None => Panicked end
  else Panicked.

(** After the holder's [lock] returns, the flag; then the file is opened
    and read, where a failure panics; then [unlock]. *)
Definition holder_after (m : mutex) (h : holder_pc) : holder_pc :=
  match h with
  | Locking => if decide (threads m !! 0%nat = Some Critical) then Storing else Locking
  | h => h
  end.

(** The next step of the process, spurious returns from [futex_wait] included or
    not. *)
Inductive program_step (spurious : bool) : program -> program -> Prop :=
  | ps_own p t pc w pc' m' :
      may_move p t = true -> threads (lock_state p) !! t = Some pc ->
      own_step pc (word (lock_state p)) = Some (w, pc') ->
      m' = mkMutex w (<[t := pc']> (threads (lock_state p))) ->
      program_step spurious p (mkProgram m' (holder_after m' (holder p)) (holder_acquired p) (waiter_spawned p))
  | ps_wake p t u :
      threads (lock_state p) !! t = Some UnlockWake -> threads (lock_state p) !! u = Some Sleeping ->
      program_step spurious p (mkProgram (set_pc u LockSwap (set_pc t Finished (lock_state p)))
                        (holder p) (holder_acquired p) (waiter_spawned p))
  | ps_wake_none p t :
      threads (lock_state p) !! t = Some UnlockWake -> Sleeping ∉ threads (lock_state p) ->
      program_step spurious p (mkProgram (set_pc t Finished (lock_state p))
                        (holder p) (holder_acquired p) (waiter_spawned p))
  | ps_spurious p t :
      spurious = true -> threads (lock_state p) !! t = Some Sleeping ->
      program_step spurious p (mkProgram (set_pc t LockSwap (lock_state p))
                        (holder p) (holder_acquired p) (waiter_spawned p))
  | ps_store p :
      holder p = Storing ->
      program_step spurious p (mkProgram (lock_state p) holder_opens true (waiter_spawned p))
  | ps_read p i :
      holder p = Reading i -> (i < READ_REPEATS)%nat ->
      program_step spurious p (mkProgram (lock_state p)
        (if pread i <? 0 then Panicked
         else if decide (S i = READ_REPEATS) then Unlocking else Reading (S i))
        (holder_acquired p) (waiter_spawned p))
  | ps_spawn p :
      holder_acquired p = true ->
      program_step spurious p (mkProgram (lock_state p) (holder p) (holder_acquired p) true).

Definition program_reachable (p : program) : Prop := rtc (program_step true) program_init p.
End program.

(** ** The invariant *)

Record mutex_inv (m : mutex) : Prop := {
  inv_word : word m = 0 \/ word m = 1 \/ word m = 2;
  inv_exclusive t u : threads m !! t = Some Critical -> threads m !! u = Some Critical -> t = u;
  inv_held : word m <> 0 <-> Critical ∈ threads m;
  inv_wakeup : Sleeping ∈ threads m ->
    word m = 2 \/ UnlockWake ∈ threads m \/ LockSwap ∈ threads m;
}.

Lemma elem_of_set_pc (l : list pc) t p q :
  p ∈ <[t := q]> l -> p = q \/ p ∈ l.
Proof.
  intros (i & Hi)%list_elem_of_lookup. destruct (decide (i = t)) as [->|Hne].
  - apply list_lookup_insert_Some in Hi as [(_ & -> & _)|[? ?]]; [by left|done].
  - rewrite list_lookup_insert_ne in Hi by done. right. apply list_elem_of_lookup. eauto.
Qed.

(** Another thread's program counter survives an update. *)
Lemma elem_of_set_pc_other (l : list pc) t p q r :
  l !! t = Some r -> p <> r -> p ∈ l -> p ∈ <[t := q]> l.
Proof.
  intros Ht Hne (i & Hi)%list_elem_of_lookup. apply list_elem_of_lookup. exists i.
  rewrite list_lookup_insert_ne; [done|congruence].
Qed.

Lemma elem_of_set_pc_new (l : list pc) t q r : l !! t = Some r -> q ∈ <[t := q]> l.
Proof.
  intros Ht. apply list_elem_of_lookup. exists t. apply list_lookup_insert_eq.
  by eapply lookup_lt_Some.
Qed.

Lemma lookup_set_pc (l : list pc) t u p q :
  <[t := q]> l !! u = Some p -> (u = t /\ p = q) \/ (u <> t /\ l !! u = Some p).
Proof.
  intros H. destruct (decide (u = t)) as [->|Hne].
  - apply list_lookup_insert_Some in H as [(_ & -> & _)|[? ?]]; [by left|done].
  - rewrite list_lookup_insert_ne in H by done. by right.
Qed.

Lemma mutex_init_inv n : mutex_inv (mutex_init n).
Proof.
  split; cbn.
  - by left.
  - intros t u Ht%list_elem_of_lookup_2. apply elem_of_replicate in Ht as [? _]. done.
  - split; [done|]. by intros [? _]%elem_of_replicate.
  - by intros [? _]%elem_of_replicate.
Qed.

(** A move of one thread that neither takes nor leaves the lock. *)
Lemma inv_move m t r q w' :
  mutex_inv m -> threads m !! t = Some r -> r <> Critical -> q <> Critical ->
  w' = 0 \/ w' = 1 \/ w' = 2 -> (w' <> 0 <-> word m <> 0) ->
  (Sleeping ∈ <[t := q]> (threads m) ->
    w' = 2 \/ UnlockWake ∈ <[t := q]> (threads m) \/ LockSwap ∈ <[t := q]> (threads m)) ->
  mutex_inv (mkMutex w' (<[t := q]> (threads m))).
Proof.
  intros [_ Hex Hh _] Ht Hr Hq Hw Hw0 Hs. split; cbn; [done| | |done].
  - intros u v Hu Hv. apply lookup_set_pc in Hu as [[_ ?]|[_ Hu]]; [congruence|].
    apply lookup_set_pc in Hv as [[_ ?]|[_ Hv]]; [congruence|]. by apply Hex.
  - rewrite Hw0, Hh. split; intros Hc.
    + by eapply elem_of_set_pc_other.
    + apply elem_of_set_pc in Hc as [?|?]; [congruence|done].
Qed.

(** Taking the lock: the word was 0. *)
Lemma inv_acquire m t r w' :
  mutex_inv m -> threads m !! t = Some r -> word m = 0 ->
  (w' = 1 /\ r = Idle) \/ (w' = 2 /\ r = LockSwap) ->
  mutex_inv (mkMutex w' (<[t := Critical]> (threads m))).
Proof.
  intros [_ Hex Hh Hs] Ht Hw0 Hw.
  assert (Critical ∉ threads m) as Hn by (intros ?%Hh; done).
  assert (forall u, threads m !! u <> Some Critical) as Hnl.
  { intros u Hu. by apply list_elem_of_lookup_2 in Hu. }
  split; cbn.
  - lia.
  - intros u v Hu Hv. apply lookup_set_pc in Hu as [[-> _]|[_ Hu]]; [|by destruct (Hnl u)].
    by apply lookup_set_pc in Hv as [[-> _]|[_ Hv]]; [|destruct (Hnl v)].
  - split; [|lia]. intros _. by eapply elem_of_set_pc_new.
  - intros Hsl. apply elem_of_set_pc in Hsl as [?|Hsl]; [done|].
    destruct Hw as [[-> ->]|[-> ->]]; [|by left].
    destruct (Hs Hsl) as [?|[Hu|Hu]]; [congruence|right; left|right; right];
      by eapply elem_of_set_pc_other.
Qed.

(** Leaving it: the holder was alone, and a contended word passes the duty to
    wake on. *)
Lemma inv_release m t q :
  mutex_inv m -> threads m !! t = Some Critical ->
  (word m = 2 /\ q = UnlockWake) \/ (word m <> 2 /\ q = Finished) ->
  mutex_inv (mkMutex 0 (<[t := q]> (threads m))).
Proof.
  intros [_ Hex Hh Hs] Ht Hq. split; cbn.
  - by left.
  - intros u v Hu Hv.
    apply lookup_set_pc in Hu as [[_ ?]|[_ Hu]]; [destruct Hq as [[_ ->]|[_ ->]]; done|].
    apply lookup_set_pc in Hv as [[_ ?]|[_ Hv]]; [destruct Hq as [[_ ->]|[_ ->]]; done|].
    by apply Hex.
  - split; [done|]. intros (u & Hu)%list_elem_of_lookup.
    apply lookup_set_pc in Hu as [[_ ?]|[Hne Hu]]; [destruct Hq as [[_ ->]|[_ ->]]; done|].
    by destruct Hne, (Hex u t).
  - intros Hsl. destruct Hq as [[_ ->]|[Hw ->]].
    + right. left. by eapply elem_of_set_pc_new.
    + apply elem_of_set_pc in Hsl as [?|Hsl]; [done|].
      destruct (Hs Hsl) as [?|[Hu|Hu]]; [done|right; left|right; right];
        by eapply elem_of_set_pc_other.
Qed.

(** The duty to wake survives a move of a thread that does not carry it. *)
Lemma wakeup_kept m t r q :
  mutex_inv m -> threads m !! t = Some r -> r <> UnlockWake -> r <> LockSwap -> q <> Sleeping ->
  Sleeping ∈ <[t := q]> (threads m) ->
  word m = 2 \/ UnlockWake ∈ <[t := q]> (threads m) \/ LockSwap ∈ <[t := q]> (threads m).
Proof.
  intros [_ _ _ Hs] Ht H1 H2 Hq Hsl.
  apply elem_of_set_pc in Hsl as [?|Hsl]; [congruence|].
  destruct (Hs Hsl) as [?|[?|?]]; [by left|right; left|right; right]; by eapply elem_of_set_pc_other.
Qed.

Lemma own_step_inv m t p w p' :
  mutex_inv m -> threads m !! t = Some p -> own_step p (word m) = Some (w, p') ->
  mutex_inv (mkMutex w (<[t := p']> (threads m))).
Proof.
  intros Hinv Ht Hs. pose proof (inv_word _ Hinv) as Hw.
  destruct p; cbn [own_step] in Hs; try done; apply (inj Some) in Hs; revert Hs.
  - unfold lock_enter, compare_exchange. destruct (Z.eqb_spec (word m) 0); intros [= <- <-].
    + eapply inv_acquire; eauto.
    + eapply inv_move; eauto. intros _. right. right. by eapply elem_of_set_pc_new.
  - unfold lock_swap, swap. destruct (Z.eqb_spec (word m) 0); intros [= <- <-].
    + eapply inv_acquire; eauto.
    + eapply inv_move; eauto; lia.
  - unfold lock_wait, futex_wait. destruct (Z.eqb_spec (word m) 2); intros [= <- <-].
    + eapply inv_move; eauto.
    + eapply inv_move; eauto. intros _. right. right. by eapply elem_of_set_pc_new.
  - unfold unlock, swap. destruct (Z.eqb_spec (word m) 2); intros [= <- <-];
      eapply inv_release; eauto.
Qed.

Lemma step_inv m m' : step m m' -> mutex_inv m -> mutex_inv m'.
Proof.
  intros Hs Hinv. pose proof (inv_word _ Hinv) as Hw.
  destruct Hs as [m t p w p' Ht Hp|m t u Ht Hu|m t Ht Hn].
  - by eapply own_step_inv.
  - unfold set_pc. cbn. assert (t <> u) as Hne by congruence.
    rewrite list_insert_insert_ne by done.
    assert (mutex_inv (mkMutex (word m) (<[u := LockSwap]> (threads m)))) as Hi.
    { eapply inv_move; eauto. intros _. right. right. by eapply elem_of_set_pc_new. }
    eapply (inv_move _ t UnlockWake Finished (word m) Hi); cbn; try done.
    + by rewrite list_lookup_insert_ne.
    + intros _. right. right. eapply elem_of_set_pc_other; [by rewrite list_lookup_insert_ne|done|].
      by eapply elem_of_set_pc_new.
  - eapply inv_move; eauto. intros Hsl. by apply elem_of_set_pc in Hsl as [?|?].
Qed.

Lemma any_step_inv m m' : any_step m m' -> mutex_inv m -> mutex_inv m'.
Proof.
  intros [? ? Hs|? t Ht] Hinv; [by eapply step_inv|].
  pose proof (inv_word _ Hinv) as Hw.
  eapply inv_move; eauto. intros _. right. right. by eapply elem_of_set_pc_new.
Qed.

Lemma reachable_inv n m : reachable n m -> mutex_inv m.
Proof.
  unfold reachable. intros H. assert (mutex_inv (mutex_init n)) as Hi by apply mutex_init_inv.
  induction H; [done|]. by apply IHrtc, (any_step_inv x).
Qed.

(** ** Progress *)

(** How far a thread is from done; a schedule that always favours the lock's
    holder, then a pending wake, then anyone, brings the sum down. *)
Definition pc_distance (p : pc) : nat :=
  match p with
  | Finished => 0 | UnlockWake => 1 | Critical => 2 | Idle | LockSwap => 3 | LockWait | Sleeping => 4
  end.

Definition distance (l : list pc) : nat := sum_list_with pc_distance l.

#[local] Arguments distance : simpl never.

Lemma distance_set (l : list pc) t p q :
  l !! t = Some p -> (distance (<[t := q]> l) + pc_distance p = distance l + pc_distance q)%nat.
Proof.
  unfold distance. revert t. induction l as [|x l IH]; intros [|t] Ht; try done.
  - injection Ht as ->. cbn. lia.
  - change (<[S t := q]> (x :: l)) with (x :: <[t := q]> l). cbn [sum_list_with].
    specialize (IH t Ht). lia.
Qed.

Lemma progress_step m :
  mutex_inv m -> (exists p, p ∈ threads m /\ p <> Finished) ->
  exists m', step m m' /\ (distance (threads m') < distance (threads m))%nat.
Proof.
  intros Hinv Hun. pose proof (inv_held _ Hinv) as Hh.
  destruct (decide (Critical ∈ threads m)) as [Hc|Hc].
  { apply list_elem_of_lookup in Hc as [t Ht].
    eexists. split; [eapply step_own; [exact Ht|reflexivity]|]. cbn.
    epose proof (distance_set _ _ _ (if word m =? 2 then UnlockWake else Finished) Ht) as Hd.
    destruct (word m =? 2); cbn in *; lia. }
  assert (word m = 0) as H0 by (destruct (Z.eq_dec (word m) 0); tauto).
  destruct (decide (UnlockWake ∈ threads m)) as [Hw|Hw].
  { apply list_elem_of_lookup in Hw as [t Ht].
    destruct (decide (Sleeping ∈ threads m)) as [Hsl|Hsl].
    - apply list_elem_of_lookup in Hsl as [u Hu]. eexists. split; [by eapply step_wake_one|]. cbn.
      pose proof (distance_set _ _ _ Finished Ht) as Hd1.
      assert (<[t := Finished]> (threads m) !! u = Some Sleeping) as Hu'
        by (rewrite list_lookup_insert_ne; congruence).
      pose proof (distance_set _ _ _ LockSwap Hu') as Hd2. cbn in *. lia.
    - eexists. split; [by eapply step_wake_none|]. cbn.
      pose proof (distance_set _ _ _ Finished Ht). cbn in *. lia. }
  assert (exists t p, threads m !! t = Some p /\ (p = Idle \/ p = LockSwap \/ p = LockWait)) as (t & p & Ht & Hp).
  { destruct Hun as (p & Hp & Hne). destruct p; try done.
    4: { destruct (inv_wakeup _ Hinv Hp) as [?|[?|Hl]]; [congruence|done|].
         apply list_elem_of_lookup in Hl as [t Ht]. eauto 6. }
    all: apply list_elem_of_lookup in Hp as [t Ht]; eauto 6. }
  pose proof (fun q => distance_set _ _ _ q Ht) as Hd.
  assert (exists w q, own_step p (word m) = Some (w, q) /\ (pc_distance q < pc_distance p)%nat)
    as (w & q & Hs & Hlt).
  { rewrite H0. destruct Hp as [->|[->| ->]]; eexists _, _; (split; [reflexivity|cbn; lia]). }
  exists (mkMutex w (<[t := q]> (threads m))). split; [by eapply step_own|].
  specialize (Hd q). cbn [threads]. lia.
Qed.

(** The layout of the buffer is accepted. *)
Lemma AlignedBuf_new_file alloc :
  AlignedBuf_new alloc FILE_SIZE =
  if alloc (mkLayout FILE_SIZE ALIGN) =? 0 then None
  else Some (mkAlignedBuf (alloc (mkLayout FILE_SIZE ALIGN)) (mkLayout FILE_SIZE ALIGN)).
Proof. done. Qed.

(** The first failing [pread] is the one reported, and success means none
    failed. *)
Lemma cold_reads_spec pread fuel i :
  match cold_reads pread i fuel with
  | None => forall j, (i <= j < i + fuel)%nat -> 0 <= pread j
  | Some OpenFailed | Some AllocFailed => False
  | Some (PreadFailed k) =>
      (i <= k < i + fuel)%nat /\ pread k < 0 /\ forall j, (i <= j < k)%nat -> 0 <= pread j
  end.
Proof.
  revert i. induction fuel as [|fuel IH]; intros i; cbn; [lia|].
  destruct (Z.ltb_spec (pread i) 0) as [Hi|Hi].
  - repeat split; [lia|lia|done|lia].
  - specialize (IH (S i)). destruct (cold_reads pread (S i) fuel) as [[| |k]|]; try done.
    + destruct IH as (Hk & Hn & Hb). repeat split; [lia|lia|done|]. intros j Hj.
      destruct (decide (j = i)) as [->|]; [done|]. apply Hb. lia.
    + intros j Hj. destruct (decide (j = i)) as [->|]; [done|]. apply IH. lia.
Qed.

(** ** What the program's invariant is *)

Record program_inv (pread : nat -> Z) (p : program) : Prop := {
  pinv_mutex : mutex_inv (lock_state p);
  pinv_threads : exists h w, threads (lock_state p) = [h; w] /\
    (* the holder takes the fast path: nobody else is there yet *)
    h <> LockSwap /\ h <> LockWait /\ h <> Sleeping /\
    (* the waiter has not begun before it is spawned *)
    (waiter_spawned p = false -> w = Idle) /\
    (* the holder's closure and its place in the lock agree *)
    (holder p = Locking <-> h = Idle) /\
    (holder p <> Locking -> holder p <> Unlocking -> h = Critical);
  pinv_flag : waiter_spawned p = true -> holder_acquired p = true;
  pinv_acquired : holder_acquired p = true -> holder p <> Locking /\ holder p <> Storing;
  pinv_reads : match holder p with
    | Reading i => (i < READ_REPEATS)%nat /\ forall j, (j < i)%nat -> 0 <= pread j
    | Unlocking => forall j, (j < READ_REPEATS)%nat -> 0 <= pread j
    | _ => True
    end;
}.

Lemma program_step_lock opened alloc pread spurious p p' :
  program_step opened alloc pread spurious p p' -> lock_state p' = lock_state p \/ any_step (lock_state p) (lock_state p').
Proof.
  destruct 1; cbn; subst; try (by left); right.
  - apply any_step_step. by eapply step_own.
  - apply any_step_step. by apply step_wake_one.
  - apply any_step_step. by apply step_wake_none.
  - by apply any_step_spurious.
Qed.

Lemma program_init_inv pread : program_inv pread program_init.
Proof.
  split; cbn; [apply mutex_init_inv| |done|done|done].
  exists Idle, Idle. repeat split; done.
Qed.

(** With the holder still locking, the lock is free for it. *)
Lemma holder_finds_free pread p w :
  program_inv pread p -> threads (lock_state p) = [Idle; w] -> word (lock_state p) = 0 /\ w = Idle.
Proof.
  intros Hi Ht. destruct (pinv_threads _ _ Hi) as (h & w' & Ht' & _ & _ & _ & Hw & Hl & _).
  rewrite Ht in Ht'. injection Ht' as <- <-.
  assert (w = Idle) as ->.
  { apply Hw. destruct (waiter_spawned p) eqn:Hs; [|done].
    apply (pinv_flag _ _ Hi), (pinv_acquired _ _ Hi) in Hs as [Hn _]. tauto. }
  split; [|done]. destruct (Z.eq_dec (word (lock_state p)) 0) as [|Hne]; [done|].
  apply (inv_held _ (pinv_mutex _ _ Hi)) in Hne. rewrite Ht in Hne.
  by apply elem_of_cons in Hne as [?|[?|?%elem_of_nil]%elem_of_cons].
Qed.

Lemma program_own_inv pread p t pc w pc' :
  program_inv pread p -> may_move p t = true -> threads (lock_state p) !! t = Some pc ->
  own_step pc (word (lock_state p)) = Some (w, pc') ->
  let m' := mkMutex w (<[t := pc']> (threads (lock_state p))) in
  program_inv pread (mkProgram m' (holder_after m' (holder p)) (holder_acquired p) (waiter_spawned p)).
Proof.
  intros Hi Hm Ht Hs m'.
  assert (mutex_inv m') as Hm' by (eapply own_step_inv; eauto using pinv_mutex).
  destruct (pinv_threads _ _ Hi) as (h & w0 & Hth & H1 & H2 & H3 & Hw & Hl & Hc).
  pose proof (pinv_flag _ _ Hi) as Hf. pose proof (pinv_acquired _ _ Hi) as Ha.
  pose proof (pinv_reads _ _ Hi) as Hr. unfold m' in *. clear m'.
  rewrite Hth in *. destruct t as [|[|t]]; cbn in Ht; [| |done]; apply (inj Some) in Ht as ->.
  - unfold may_move in Hm. rewrite Hth in Hm. cbn in Hm. destruct pc; try done.
    + destruct (holder_finds_free _ _ _ Hi Hth) as [H0 ->]. rewrite H0 in Hs.
      cbn in Hs. injection Hs as <- <-. assert (holder p = Locking) as HL by tauto.
      rewrite HL in *. split; cbn; try done.
      * exists Critical, Idle. repeat split; done.
      * intros [? _]%Ha. done.
    + destruct (holder p) eqn:Hh; try done. unfold own_step, unlock, swap in Hs.
      apply (inj Some) in Hs. split; cbn; try done.
      exists pc', w0. injection Hs as _ <-.
      destruct (_ =? 2); repeat split; try done.
  - cbn in Hm. change (<[1%nat := pc']> [h; pc]) with [h; pc'] in *.
    assert (holder_after (mkMutex w [h; pc']) (holder p) = holder p) as ->.
    { unfold holder_after. destruct (holder p) eqn:Hh; try done. cbn.
      by apply Hf, Ha in Hm as [? _]. }
    split; cbn; try done. exists h, pc'. repeat split; try done; try tauto. congruence.
Qed.

Lemma program_step_inv opened alloc pread spurious p p' :
  program_step opened alloc pread spurious p p' -> program_inv pread p -> program_inv pread p'.
Proof.
  intros Hstep Hi.
  assert (mutex_inv (lock_state p')) as Hm'.
  { destruct (program_step_lock _ _ _ _ _ _ Hstep) as [->|?]; eauto using any_step_inv, pinv_mutex. }
  destruct (pinv_threads _ _ Hi) as (h & w0 & Hth & H1 & H2 & H3 & Hw & Hl & Hc).
  pose proof (pinv_flag _ _ Hi) as Hf. pose proof (pinv_acquired _ _ Hi) as Ha.
  pose proof (pinv_reads _ _ Hi) as Hr.
  destruct Hstep as [p t pc w pc' m' Hmv Ht Hs ->|p t u Ht Hu|p t Ht _|p t _ Ht|p Hh|p i Hh Hlt|p Hacq].
  - by eapply program_own_inv.
  - split; cbn in *; try done. rewrite Hth in *. destruct t as [|[|t]], u as [|[|u]]; cbn in *; try (done || congruence).
    + injection Ht as ->. injection Hu as ->. exists Finished, LockSwap. repeat split; try done.
      * intros ?%Hw. done.
      * intros ?%Hl. done.
      * intros. by specialize (Hc ltac:(done) ltac:(done)).
  - split; cbn in *; try done. rewrite Hth in *. destruct t as [|[|t]]; cbn in *; try done;
      injection Ht as ->.
    + exists Finished, w0. repeat split; try done.
      * intros ?%Hl. done.
      * intros. by specialize (Hc ltac:(done) ltac:(done)).
    + exists h, Finished. repeat split; try tauto. intros ?%Hw. done.
  - split; cbn in *; try done. rewrite Hth in *. destruct t as [|[|t]]; cbn in *; try done;
      injection Ht as ->; [done|].
    exists h, LockSwap. repeat split; try tauto. intros ?%Hw. done.
  - rewrite Hh in *. split; cbn in *; try done. 
    + assert (h = Critical) as -> by by apply Hc. exists Critical, w0. unfold holder_opens. repeat case_match; by repeat split.
    + unfold holder_opens. by repeat case_match.
    + unfold holder_opens. repeat case_match; try done; simplify_eq. split; [unfold READ_REPEATS|]; lia.
  - rewrite Hh in *. destruct Hr as [_ Hr]. split; cbn in *; try done.
    + exists h, w0. assert (h = Critical) as -> by by apply Hc.
      repeat split; try done; repeat case_match; done.
    + intros _. repeat case_match; done.
    + destruct (Z.ltb_spec (pread i) 0); [done|].
      assert (forall j, (j < S i)%nat -> 0 <= pread j) as Hj.
      { intros j Hj. destruct (decide (j = i)) as [->|]; [done|]. apply Hr. lia. }
      destruct (decide _) as [He|He]; [intros j ?; apply Hj; lia|]. split; [lia|done].
  - split; cbn in *; try done. exists h, w0. repeat split; try tauto. done.
Qed.

Lemma program_reachable_inv opened alloc pread p : program_reachable opened alloc pread p -> program_inv pread p.
Proof.
  unfold program_reachable. intros H. pose proof (program_init_inv pread) as Hi.
  induction H; [done|]. by apply IHrtc, (program_step_inv opened alloc _ true x).
Qed.

(** ** What the reproducer relies on *)

(** C12: Mutual exclusion: for any number of threads, under every interleaving of
    the atomic operations, wakes and spurious returns, no two threads hold
    the lock. *)
Theorem mutual_exclusion n m t u :
  reachable n m -> threads m !! t = Some Critical -> threads m !! u = Some Critical -> t = u.
Proof. intros Hr. by apply inv_exclusive, (reachable_inv n). Qed.

Lemma can_finish_from k m :
  mutex_inv m -> (distance (threads m) <= k)%nat ->
  exists m', rtc step m m' /\ Forall (eq Finished) (threads m').
Proof.
  revert m. induction k as [k IH] using (well_founded_induction lt_wf). intros m Hi Hk.
  destruct (decide (Forall (eq Finished) (threads m))) as [Hf|Hf].
  { exists m. by split; [apply rtc_refl|]. }
  apply not_Forall_Exists in Hf; [|apply _]. apply Exists_exists in Hf as (p & Hp & Hne).
  destruct (progress_step m Hi) as (m1 & Hs & Hlt); [exists p; split; [done|by apply not_eq_sym]|].
  destruct (IH (distance (threads m1)) ltac:(lia) m1) as (m' & Hr & Hf); [by eapply step_inv|lia|].
  exists m'. split; [by eapply rtc_l|done].
Qed.

(** C13: No lost wake-up: from every reachable state, however the threads were
    interleaved so far, all threads can still run to the end of their
    [unlock] without any spurious return coming to the rescue. *)
Theorem no_lost_wakeup n m :
  reachable n m -> exists m', rtc step m m' /\ Forall (eq Finished) (threads m').
Proof. intros Hr. eapply can_finish_from; [by eapply reachable_inv|done]. Qed.

(** C28: The ground truth: while the waiter sleeps, the holder has the lock with
    the word at 2, or has already swapped it out and is about to call
    [futex_wake]; so the wake the waiter waits for is the holder's. And the
    holder leaves its reads only after all of them succeeded. *)
Theorem waiter_woken_by_holder opened alloc pread p :
  program_reachable opened alloc pread p -> threads (lock_state p) !! 1%nat = Some Sleeping ->
  holder_acquired p = true /\
  ((threads (lock_state p) !! 0%nat = Some Critical /\ word (lock_state p) = 2) \/
   (threads (lock_state p) !! 0%nat = Some UnlockWake /\
    forall j, (j < READ_REPEATS)%nat -> 0 <= pread j)).
Proof.
  intros Hi%program_reachable_inv Hs.
  destruct (pinv_threads _ _ Hi) as (h & w & Ht & H1 & H2 & H3 & Hw & Hl & Hc).
  rewrite Ht in *. injection Hs as ->.
  destruct (waiter_spawned p) eqn:Hsp; [|by discriminate (Hw eq_refl)].
  apply (pinv_flag _ _ Hi) in Hsp. split; [done|]. apply (pinv_acquired _ _ Hi) in Hsp as [Hn _].
  pose proof (inv_wakeup _ (pinv_mutex _ _ Hi)) as Hwk. rewrite Ht in Hwk.
  pose proof (inv_held _ (pinv_mutex _ _ Hi)) as Hh. rewrite Ht in Hh.
  destruct Hwk as [H|[H|H]]; [apply elem_of_cons; right; by apply list_elem_of_singleton| | |].
  - left. split; [|done]. assert (Critical ∈ [h; Sleeping]) as Hcr by (apply Hh; lia).
    by apply elem_of_cons in Hcr as [<-|?%list_elem_of_singleton].
  - right. apply elem_of_cons in H as [<-|?%list_elem_of_singleton]; [|done]. split; [done|].
    pose proof (pinv_reads _ _ Hi) as Hr. destruct (holder p); try done; by discriminate Hc.
  - by apply elem_of_cons in H as [<-|?%list_elem_of_singleton].
Qed.

(** C29: [cold_direct_read] stops at the first failure, of the open, the buffer
    or a [pread], and reports that one; it succeeds exactly when there is
    none. The layout is never the reason: only a null allocation is. *)
Theorem cold_direct_read_first_failure opened alloc pread :
  let buffered := alloc (mkLayout FILE_SIZE ALIGN) <> 0 in
  (cold_direct_read opened alloc pread = None <->
    opened = true /\ buffered /\ forall j, (j < READ_REPEATS)%nat -> 0 <= pread j) /\
  (cold_direct_read opened alloc pread = Some OpenFailed <-> opened = false) /\
  (cold_direct_read opened alloc pread = Some AllocFailed <-> opened = true /\ ~ buffered) /\
  (forall k, cold_direct_read opened alloc pread = Some (PreadFailed k) <->
    opened = true /\ buffered /\ (k < READ_REPEATS)%nat /\ pread k < 0 /\
    forall j, (j < k)%nat -> 0 <= pread j).
Proof.
  cbv zeta. unfold cold_direct_read. destruct opened; [|naive_solver].
  rewrite AlignedBuf_new_file. destruct (Z.eqb_spec (alloc (mkLayout FILE_SIZE ALIGN)) 0) as [Ha|Ha];
    [naive_solver|].
  pose proof (cold_reads_spec pread READ_REPEATS 0) as H.
  destruct (cold_reads pread 0 READ_REPEATS) as [[| |k]|]; [done|done|..].
  - destruct H as (Hk & Hn & Hb). split_and!; [|done|by split; [|intros [_ []]]|].
    + split; [done|]. intros (_ & _ & Hok). specialize (Hok k ltac:(lia)). lia.
    + intros k'. split.
      * intros [= <-]. repeat split; [done|lia|done|]. intros j Hj. apply Hb. lia.
      * intros (_ & _ & Hk' & Hn' & Hb'). do 2 f_equal.
        destruct (Nat.lt_trichotomy k k') as [?|[?|?]]; [|done|].
        -- specialize (Hb' k ltac:(lia)). lia.
        -- specialize (Hb k' ltac:(lia)). lia.
  - split_and!; [|done|by split; [|intros [_ []]]|].
    + split; [|done]. intros _. split_and!; [done..|]. intros j Hj. apply H. lia.
    + intros k. split; [done|]. intros (_ & _ & Hk & Hn & _). specialize (H k ltac:(lia)). lia.
Qed.

(** ** Concrete runs *)

Lemma mutual_exclusion_witness :
  reachable 2 (mkMutex 1 [Critical; Idle]) /\ (0 = 0)%nat.
Proof.
  assert (reachable 2 (mkMutex 1 [Critical; Idle])) as H.
  { eapply rtc_l; [|apply rtc_refl]. apply any_step_step, (step_own (mutex_init 2) 0 Idle); reflexivity. }
  split; [exact H|]. exact (mutual_exclusion 2 _ 0 0 H eq_refl eq_refl).
Defined.

(** Two threads contending: the loser went to sleep on the word. *)
Lemma no_lost_wakeup_witness :
  exists m', rtc step (mkMutex 2 [Critical; Sleeping]) m' /\ Forall (eq Finished) (threads m').
Proof.
  apply (no_lost_wakeup 2).
  eapply rtc_l; [apply any_step_step, (step_own (mutex_init 2) 0 Idle); reflexivity|].
  eapply rtc_l; [apply any_step_step, (step_own (mkMutex 1 [Critical; Idle]) 1 Idle); reflexivity|].
  eapply rtc_l; [apply any_step_step, (step_own (mkMutex 1 [Critical; LockSwap]) 1 LockSwap); reflexivity|].
  eapply rtc_l; [apply any_step_step, (step_own (mkMutex 2 [Critical; LockWait]) 1 LockWait); reflexivity|].
  apply rtc_refl.
Defined.

(** The run the reproducer is made for: the holder reads, the waiter is
    spawned, contends and sleeps. *)
Lemma waiter_woken_by_holder_witness :
  holder_acquired (mkProgram (mkMutex 2 [Critical; Sleeping]) (Reading 0) true true) = true.
Proof.
  pose (alloc := fun _ : Layout => ALIGN). pose (pread := fun _ : nat => FILE_SIZE).
  enough (program_reachable true alloc pread (mkProgram (mkMutex 2 [Critical; Sleeping]) (Reading 0) true true)) as H
    by exact (proj1 (waiter_woken_by_holder true alloc pread _ H eq_refl)).
  pose (at_ := fun w l => mkProgram (mkMutex w l) (Reading 0) true).
  eapply rtc_l; [by eapply (ps_own true alloc pread true program_init 0 Idle)|].
  eapply rtc_l; [by apply (ps_store true alloc pread true)|].
  eapply rtc_l; [by apply ps_spawn|].
  eapply rtc_l; [by eapply (ps_own true alloc pread true (at_ 1 [Critical; Idle] true) 1 Idle)|].
  eapply rtc_l; [by eapply (ps_own true alloc pread true (at_ 1 [Critical; LockSwap] true) 1 LockSwap)|].
  eapply rtc_l; [by eapply (ps_own true alloc pread true (at_ 2 [Critical; LockWait] true) 1 LockWait)|].
  apply rtc_refl.
Defined.
