(* ===== verification/SyntheticMemory.v ===== *)
(** * The reproducer's buffer and file (synthetic/src/main.rs)

    [cold_direct_read] again, with what it does to the allocator and to the
    file: the allocation behind [AlignedBuf], the reads into it, the
    deallocation in its [Drop], and the file's close. On every way out the
    buffer is freed once and after its last use, and no read leaves it. *)

From S2P Require Import Prelude RustStd Synthetic.

Inductive io :=
  | Opened                                  (* open(path, O_RDONLY | O_DIRECT) *)
  | Allocated (layout : Layout) (ptr : Z)   (* alloc(layout) *)
  | Pread (ptr len offset n : Z)            (* pread into [ptr, ptr + len) *)
  | Deallocated (ptr : Z) (layout : Layout) (* dealloc(ptr, layout) *)
  | Closed.                                 (* the file's drop *)

(** [Drop for AlignedBuf] *)
Definition AlignedBuf_drop (buf : AlignedBuf) : io := Deallocated (buf_ptr buf) (buf_layout buf).

Fixpoint cold_reads_io (buf : AlignedBuf) (pread : nat -> Z) (i fuel : nat) : option read_failure * list io :=
  match fuel with
  | O => (None, [])
  | S fuel =>
      let n := pread i in
      let e := Pread (as_mut_slice buf).1 FILE_SIZE 0 n in
      if n <? 0 then (Some (PreadFailed i), [e])
      else let '(r, l) := cold_reads_io buf pread (S i) fuel in (r, e :: l)
  end.

(** The locals are dropped in the reverse order of their declaration, on an
    early return, at the end, and when [AlignedBuf::new] panics. *)
Definition cold_direct_read_io (opened : bool) (alloc : Layout -> Z) (pread : nat -> Z) :
    option read_failure * list io :=
  if opened then
    match AlignedBuf_new alloc FILE_SIZE with
    | Some buf =>
        let '(r, l) := cold_reads_io buf pread 0 READ_REPEATS in
        (r, [Opened; Allocated (buf_layout buf) (buf_ptr buf)] ++ l ++ [AlignedBuf_drop buf; Closed])
    | None => (Some AllocFailed, [Opened; Closed])
    end
  else (Some OpenFailed, []).

(** ** The rules

    What the allocator and [O_DIRECT] ask for: memory is read into while it
    is allocated and within its bounds, address, length and offset are
    multiples of the block size, memory is freed once with the layout it was
    allocated with, and a file is read while open. *)

Record resources := mkResources { live : gmap Z Layout; file_open : bool }.

Definition within (live : gmap Z Layout) (ptr len : Z) : bool :=
  match live !! ptr with Some layout => (0 <=? len) && (len <=? layout_size layout) | None => false end.

Definition allowed (e : io) (r : resources) : option resources :=
  match e with
  | Opened => if file_open r then None else Some (mkResources (live r) true)
  | Allocated layout ptr =>
      match live r !! ptr with
      | Some _ => None
      | None => if ptr =? 0 then None else Some (mkResources (<[ptr := layout]> (live r)) (file_open r))
      end
  | Pread ptr len offset n =>
      if file_open r && within (live r) ptr len && (ptr mod ALIGN =? 0) && (len mod ALIGN =? 0) &&
         (offset mod ALIGN =? 0)
      then Some r else None
  | Deallocated ptr layout =>
      match live r !! ptr with
      | Some l => if (layout_size l =? layout_size layout) && (layout_align l =? layout_align layout)
                  then Some (mkResources (delete ptr (live r)) (file_open r)) else None
      | None => None
      end
  | Closed => if file_open r then Some (mkResources (live r) false) else None
  end.

Fixpoint replay (l : list io) (r : resources) : option resources :=
  match l with [] => Some r | e :: l => allowed e r ≫= replay l end.

Lemma replay_app l l' r : replay (l ++ l') r = replay l r ≫= replay l'.
Proof.
  revert r. induction l as [|e l IH]; intros r; [done|]. cbn [app replay].
  destruct (allowed e r); cbn; [apply IH|done].
Qed.

(** The loop keeps to the buffer. *)
Lemma cold_reads_io_allowed buf pread i fuel r :
  file_open r = true -> live r !! buf_ptr buf = Some (buf_layout buf) ->
  layout_size (buf_layout buf) = FILE_SIZE -> buf_ptr buf mod ALIGN = 0 ->
  let '(o, l) := cold_reads_io buf pread i fuel in o = cold_reads pread i fuel /\ replay l r = Some r.
Proof.
  intros Ho Hl Hs Ha. revert i. induction fuel as [|fuel IH]; intros i; [done|]. cbn [cold_reads_io cold_reads].
  assert (allowed (Pread (as_mut_slice buf).1 FILE_SIZE 0 (pread i)) r = Some r) as Hp.
  { unfold allowed, within, as_mut_slice. cbn [Datatypes.fst]. by rewrite Ho, Hl, Hs, Ha. }
  specialize (IH (S i)). destruct (pread i <? 0).
  - cbn [replay]. by rewrite Hp.
  - destruct (cold_reads_io _ _ _ _) as [o l]. destruct IH as [-> Hr]. split; [done|].
    cbn [replay]. by rewrite Hp.
Qed.

(** C30: On every way out of [cold_direct_read] (the file cannot be opened, there is
    no memory, a read fails, all succeed) it has kept to the rules, and left
    nothing behind: what was allocated is freed, once, and the file is closed;
    and the result is that of [cold_direct_read]. *)
Theorem cold_direct_read_resources (opened : bool) (alloc : Layout -> Z) (pread : nat -> Z)
    (m : gmap Z Layout) :
  (let ptr := alloc (mkLayout FILE_SIZE ALIGN) in ptr <> 0 -> m !! ptr = None /\ ptr mod ALIGN = 0) ->
  let '(r, l) := cold_direct_read_io opened alloc pread in
  r = cold_direct_read opened alloc pread /\ replay l (mkResources m false) = Some (mkResources m false).
Proof.
  intros Ha. unfold cold_direct_read_io, cold_direct_read. destruct opened; [|done].
  rewrite AlignedBuf_new_file. cbv zeta in Ha.
  set (ptr := alloc (mkLayout FILE_SIZE ALIGN)) in *. destruct (Z.eqb_spec ptr 0) as [|Hp]; [done|].
  destruct (Ha Hp) as [Hm Hal]. set (buf := mkAlignedBuf ptr (mkLayout FILE_SIZE ALIGN)).
  pose proof (cold_reads_io_allowed buf pread 0 READ_REPEATS
    (mkResources (<[ptr := mkLayout FILE_SIZE ALIGN]> m) true) eq_refl) as Hr.
  destruct (cold_reads_io _ _ _ _) as [o l]. destruct Hr as [-> Hr];
    [by apply lookup_insert_eq|done|done|]. split; [done|].
  rewrite !replay_app. cbn [replay allowed file_open live]. cbn [mbind option_bind buf_ptr buf_layout buf].
  cbn [live file_open]. rewrite Hm, (proj2 (Z.eqb_neq _ _) Hp). cbn [mbind option_bind].
  rewrite replay_app, Hr.
  cbn [mbind option_bind replay allowed AlignedBuf_drop buf_ptr buf_layout live file_open buf].
  rewrite lookup_insert_eq, !Z.eqb_refl. cbn. by rewrite delete_insert_id.
Qed.

(** The second read fails. *)
Lemma cold_direct_read_resources_witness :
  let '(r, l) := cold_direct_read_io true (fun _ => 0x7f0000001000) (fun i => if (i =? 1)%nat then -1 else 4096) in
  r = cold_direct_read true (fun _ => 0x7f0000001000) (fun i => if (i =? 1)%nat then -1 else 4096) /\
  replay l (mkResources ∅ false) = Some (mkResources ∅ false) /\ length l = 6%nat.
Proof.
  pose proof (cold_direct_read_resources true (fun _ => 0x7f0000001000)
    (fun i => if (i =? 1)%nat then -1 else 4096) ∅) as H.
  destruct (cold_direct_read_io _ _ _) as [r l] eqn:E. destruct H as [H1 H2]; [done|].
  split_and!; [done|done|]. vm_compute in E. by injection E as <- <-.
Defined.
