(* ===== verification/SyntheticMain.v ===== *)
(** * The ground-truth reproducer's main thread (synthetic/src/main.rs)

    [main] around the two threads of [Synthetic]: the checks before they are
    started, the wait for the holder's flag, the joins, and the line the
    integration test looks for. From every state the process can get into it
    can still reach an end, without the help of spurious returns, and how it
    ends is determined by what the system calls returned. *)

From S2P Require Import Prelude RustStd Synthetic.

(** Where [main] is. *)
Inductive main_pc :=
  | MainStart        (* current_exe(), metadata(), the assertion *)
  | MainPolling      (* while !holder_acquired.load() *)
  | MainJoinHolder   (* the waiter spawned; holder.join() *)
  | MainJoinWaiter   (* waiter.join() *)
  | MainPrint        (* println!, flush *)
  | MainReturned (r : result string unit)
  | MainPanicked (msg : string).

Record process := mkProcess {
  prog : program;
  main_at : main_pc;
  holder_stored : bool;  (* holder_tid.store(gettid()) *)
  waiter_stored : bool;  (* waiter_tid.store(gettid()) *)
  out : list string;
}.

Definition process_init : process := mkProcess program_init MainStart false false [].

Definition ended (q : process) : bool :=
  match main_at q with MainReturned _ | MainPanicked _ => true | _ => false end.

(** The threads exist, and the process does. *)
Definition running (q : process) : bool :=
  match main_at q with MainStart | MainReturned _ | MainPanicked _ => false | _ => true end.

Definition done_line (pid holder waiter : Z) : string :=
  "SYNTHETIC_DONE pid=" +:+ fmt_display pid +:+ " holder_tid=" +:+ fmt_display holder +:+
  " waiter_tid=" +:+ fmt_display waiter.

Section Main.
Context (current_exe : result string string) (metadata_len : string -> result string Z).
Context (opened : bool) (alloc : Layout -> Z) (pread : nat -> Z).
Context (pid : Z) (sys_gettid : nat -> Z).
(** The error of [thread::spawn] for each thread and that of [println!], if
    they fail: both panic. *)
Context (spawn_error : nat -> option string) (print_error : option string).

(** [gettid() as u32] in thread [t]; [gettid] is an [i32]. *)
Definition gettid (t : nat) : Z := as_i32 (sys_gettid t).
Definition stored_tid (stored : bool) (t : nat) : Z := if stored then as_u32 (gettid t) else 0.

Definition main_start : main_pc :=
  match current_exe with
  | Err e => MainReturned (Err e)
  | Ok read_source =>
      match metadata_len read_source with
      | Err e => MainReturned (Err e)
      | Ok len =>
          if FILE_SIZE <=? len then
            match spawn_error 0 with
            | None => MainPolling
            | Some e => MainPanicked ("failed to spawn thread: " +:+ e)
            end
          else MainPanicked ("own executable unexpectedly smaller than " +:+ fmt_display FILE_SIZE +:+ " bytes")
      end
  end.

Definition set_main (m : main_pc) (q : process) : process :=
  mkProcess (prog q) m (holder_stored q) (waiter_stored q) (out q).

(** The next step of the main thread, if it is not blocked in a join. *)
Definition main_next (q : process) : option process :=
  match main_at q with
  | MainStart => Some (set_main main_start q)
  | MainPolling =>
      if holder_acquired (prog q) then
        match spawn_error 1 with
        | None =>
            Some (mkProcess (mkProgram (lock_state (prog q)) (holder (prog q)) (holder_acquired (prog q)) true)
                    MainJoinHolder
                    (holder_stored q) (waiter_stored q) (out q))
        | Some e => Some (set_main (MainPanicked ("failed to spawn thread: " +:+ e)) q)
        end
      else Some q
  | MainJoinHolder =>
      match holder (prog q) with
      | Panicked => Some (set_main (MainPanicked "holder thread panicked: Any { .. }") q)
      | _ => if decide (threads (lock_state (prog q)) !! 0%nat = Some Finished)
             then Some (set_main MainJoinWaiter q) else None
      end
  | MainJoinWaiter =>
      if decide (threads (lock_state (prog q)) !! 1%nat = Some Finished)
      then Some (set_main MainPrint q) else None
  | MainPrint =>
      match print_error with
      | None =>
          Some (mkProcess (prog q) (MainReturned (Ok tt)) (holder_stored q) (waiter_stored q)
                  (out q ++ [done_line pid (stored_tid (holder_stored q) 0) (stored_tid (waiter_stored q) 1)]))
      | Some e => Some (set_main (MainPanicked ("failed printing to stdout: " +:+ e)) q)
      end
  | MainReturned _ | MainPanicked _ => None
  end.

(** The waiter exists once [main] spawned it; a thread stores its id before
    it calls [lock]. Whether a [futex_wait] may return spuriously is a
    parameter. *)
Inductive process_step (spurious : bool) : process -> process -> Prop :=
  | proc_main q q' : main_next q = Some q' -> process_step spurious q q'
  | proc_holder_tid q :
      running q = true -> holder_stored q = false ->
      process_step spurious q (mkProcess (prog q) (main_at q) true (waiter_stored q) (out q))
  | proc_waiter_tid q :
      running q = true -> waiter_spawned (prog q) = true -> waiter_stored q = false ->
      process_step spurious q (mkProcess (prog q) (main_at q) (holder_stored q) true (out q))
  | proc_threads q p' :
      running q = true -> program_step opened alloc pread spurious (prog q) p' ->
      waiter_spawned p' = waiter_spawned (prog q) ->
      (holder_stored q = false ->
         threads (lock_state p') !! 0%nat = threads (lock_state (prog q)) !! 0%nat) ->
      (waiter_stored q = false ->
         threads (lock_state p') !! 1%nat = threads (lock_state (prog q)) !! 1%nat) ->
      process_step spurious q (mkProcess p' (main_at q) (holder_stored q) (waiter_stored q) (out q)).

Definition process_reachable (q : process) : Prop := rtc (process_step true) process_init q.

(** What [main] panics for. *)
Inductive panics_for : string -> Prop :=
  | small_executable path len :
      current_exe = Ok path -> metadata_len path = Ok len -> len < FILE_SIZE ->
      panics_for ("own executable unexpectedly smaller than " +:+ fmt_display FILE_SIZE +:+ " bytes")
  | not_spawned t e : (t < 2)%nat -> spawn_error t = Some e -> panics_for ("failed to spawn thread: " +:+ e)
  | read_failed f :
      cold_direct_read opened alloc pread = Some f -> panics_for "holder thread panicked: Any { .. }"
  | not_printed e : print_error = Some e -> panics_for ("failed printing to stdout: " +:+ e).

(** ** The threads *)

(** Past the flag, it is up; and the holder panics only if its read fails. *)
Definition holder_sound (p : program) : Prop :=
  match holder p with
  | Panicked => holder_acquired p = true /\ cold_direct_read opened alloc pread <> None
  | Reading _ | Unlocking =>
      holder_acquired p = true /\ opened = true /\ AlignedBuf_new alloc FILE_SIZE <> None
  | Locking | Storing => True
  end.

Lemma cold_direct_read_None :
  cold_direct_read opened alloc pread = None <->
  opened = true /\ AlignedBuf_new alloc FILE_SIZE <> None /\
  forall j, (j < READ_REPEATS)%nat -> 0 <= pread j.
Proof.
  unfold cold_direct_read. destruct opened; [|split; [done|by intros [? _]]].
  destruct (AlignedBuf_new alloc FILE_SIZE); [|split; [done|by intros (_ & ? & _)]].
  pose proof (cold_reads_spec pread READ_REPEATS 0) as Hs. split.
  - intros E. rewrite E in Hs. split_and!; [done..|]. intros j Hj. apply Hs. lia.
  - intros (_ & _ & Hok). destruct (cold_reads pread 0 READ_REPEATS) as [[| |k]|]; try done.
    destruct Hs as (Hk & Hn & _). specialize (Hok k ltac:(lia)). lia.
Qed.

Lemma holder_opens_sound :
  match holder_opens opened alloc with
  | Panicked => cold_direct_read opened alloc pread <> None
  | Reading i => i = 0%nat /\ opened = true /\ AlignedBuf_new alloc FILE_SIZE <> None
  | _ => False
  end.
Proof.
  unfold holder_opens, cold_direct_read. destruct opened; [|done].
  by destruct (AlignedBuf_new alloc FILE_SIZE).
Qed.

Lemma holder_sound_step p p' :
  program_step opened alloc pread true p p' -> holder_sound p -> holder_sound p'.
Proof.
  unfold holder_sound. destruct 1 as [p t pc w pc' m' Hm| | |p t _ Ht|p Hh|p i Hh Hi|];
    cbn [holder holder_acquired]; try done.
  - unfold holder_after. destruct (holder p); try done. by case_decide.
  - intros _. pose proof holder_opens_sound as Ho. by destruct (holder_opens _ _); destruct_and?.
  - rewrite Hh. intros Hr. destruct (Z.ltb_spec (pread i) 0) as [Hn|Hn]; [|by case_decide].
    split; [apply Hr|].
    intros (_ & _ & Hok)%cold_direct_read_None. specialize (Hok i Hi). lia.
Qed.

Lemma finished_stays p p' t :
  program_step opened alloc pread true p p' ->
  threads (lock_state p) !! t = Some Finished -> threads (lock_state p') !! t = Some Finished.
Proof.
  intros Hs Ht.
  assert (forall u r q, threads (lock_state p) !! u = Some r -> r <> Finished ->
    <[u := q]> (threads (lock_state p)) !! t = Some Finished) as Hother.
  { intros u r q Hu Hr. rewrite list_lookup_insert_ne; [done|congruence]. }
  destruct Hs as [p u pc w pc' m' Hm Hu Ho ->|p u v Hu Hv|p u Hu _|p u Hu| | |]; cbn in *; try done.
  - apply (Hother u pc); [done|]. by intros ->.
  - destruct (decide (v = t)) as [->|Hne]; [congruence|].
    rewrite list_lookup_insert_ne by done. by apply (Hother u UnlockWake).
  - by apply (Hother u UnlockWake).
  - by apply (Hother u Sleeping).
Qed.

Lemma reachable_step p p' :
  program_reachable opened alloc pread p -> program_step opened alloc pread true p p' ->
  program_reachable opened alloc pread p'.
Proof. intros Hr Hs. by eapply rtc_r. Qed.

(** ** The invariant of the process *)

Definition thread_at (q : process) (t : nat) : option pc := threads (lock_state (prog q)) !! t.

Definition main_sound (q : process) : Prop :=
  match main_at q with
  | MainStart | MainPolling => True
  | MainJoinHolder => waiter_spawned (prog q) = true
  | MainJoinWaiter => waiter_spawned (prog q) = true /\ thread_at q 0 = Some Finished
  | MainPrint | MainReturned (Ok _) => thread_at q 0 = Some Finished /\ thread_at q 1 = Some Finished
  | MainReturned (Err e) => main_start = MainReturned (Err e)
  | MainPanicked msg => panics_for msg
  end.

Record process_inv (q : process) : Prop := {
  qi_reach : program_reachable opened alloc pread (prog q);
  qi_holder : holder_sound (prog q);
  qi_htid : holder_stored q = false -> thread_at q 0 = Some Idle;
  qi_wtid : waiter_stored q = false -> thread_at q 1 = Some Idle;
  qi_main : main_sound q;
  qi_out : out q = match main_at q with
    | MainReturned (Ok _) => [done_line pid (as_u32 (gettid 0)) (as_u32 (gettid 1))]
    | _ => []
    end;
}.

Lemma process_init_inv : process_inv process_init.
Proof. split; try done. apply rtc_refl. Qed.

Lemma main_next_inv q q' : process_inv q -> main_next q = Some q' -> process_inv q'.
Proof.
  intros [Hr Hh H0 H1 Hm Ho] Hn. unfold main_next in Hn. unfold main_sound in Hm.
  destruct (main_at q) eqn:Em; try done.
  - injection Hn as <-. split; try done; unfold main_sound; cbn.
    + unfold main_start. destruct current_exe as [path|] eqn:E1; [|done].
      destruct (metadata_len path) as [len|] eqn:E2; [|by rewrite ?E1, ?E2].
      destruct (Z.leb_spec FILE_SIZE len); [|by eapply small_executable].
      destruct (spawn_error 0) eqn:E3; [|done]. eapply (not_spawned 0); [lia|done].
    + rewrite Ho. unfold main_start. by repeat case_match.
  - destruct (holder_acquired (prog q)) eqn:Ha; [|injection Hn as <-; split; try done; by unfold main_sound; rewrite Em, ?Ho].
    destruct (spawn_error 1) eqn:Es.
    { injection Hn as <-. split; try done. unfold main_sound. cbn. eapply (not_spawned 1); [lia|done]. }
    injection Hn as <-. pose proof (ps_spawn opened alloc pread true _ Ha) as Hsp. rewrite Ha in Hsp.
    split; try done; [by eapply reachable_step|by eapply holder_sound_step].
  - destruct (holder (prog q)) eqn:Eh; try (case_decide; [|done]); injection Hn as <-; split; try done;
      try (unfold main_sound; cbn; by auto).
    unfold holder_sound in Hh. rewrite Eh in Hh. destruct Hh as [_ Hh].
    destruct (cold_direct_read _ _ _) eqn:Ec; [by eapply read_failed|done].
  - case_decide; [|done]. injection Hn as <-. split; try done. unfold main_sound. cbn. tauto.
  - destruct print_error eqn:Ep; injection Hn as <-.
    { split; try done. unfold main_sound. cbn. by apply not_printed. }
    split; try done. cbn. rewrite Ho. cbn. destruct Hm as [Hm0 Hm1].
    destruct (holder_stored q); [|by rewrite Hm0 in H0; discriminate H0].
    destruct (waiter_stored q); [done|by rewrite Hm1 in H1; discriminate H1].
Qed.

Lemma process_step_inv q q' : process_step true q q' -> process_inv q -> process_inv q'.
Proof.
  intros Hs Hi. destruct Hs as [q q' Hn|q Hr Hst|q Hr Hw Hst|q p' Hr Hp Hw Hk0 Hk1].
  - by eapply main_next_inv.
  - by destruct Hi.
  - by destruct Hi.
  - destruct Hi as [Hre Hh H0 H1 Hm Ho]. split; try done.
    + by eapply reachable_step.
    + by eapply holder_sound_step.
    + intros Hs. unfold thread_at. cbn. rewrite Hk0; auto.
    + intros Hs. unfold thread_at. cbn. rewrite Hk1; auto.
    + unfold main_sound, thread_at, running in *. cbn. destruct (main_at q); try done; rewrite ?Hw;
        try done; destruct_and?; split_and!; eauto using finished_stays.
Qed.

Lemma process_reachable_inv q : process_reachable q -> process_inv q.
Proof.
  unfold process_reachable. intros H. pose proof process_init_inv as Hi.
  induction H; [done|]. by apply IHrtc, (process_step_inv x).
Qed.

(** ** Progress *)

Definition holder_weight (h : holder_pc) : nat :=
  match h with
  | Locking => 3 + READ_REPEATS
  | Storing => 2 + READ_REPEATS
  | Reading i => 1 + (READ_REPEATS - i)
  | Unlocking => 1
  | Panicked => 0
  end.

Definition main_weight (m : main_pc) : nat :=
  match m with
  | MainStart => 5 | MainPolling => 4 | MainJoinHolder => 3 | MainJoinWaiter => 2 | MainPrint => 1
  | MainReturned _ | MainPanicked _ => 0
  end.

(** What is left to do on the way that never sleeps on the lock. *)
Definition to_do (q : process) : nat :=
  main_weight (main_at q) + holder_weight (holder (prog q)) +
  distance (threads (lock_state (prog q))) + Nat.b2n (negb (holder_stored q)) +
  Nat.b2n (negb (waiter_stored q)).

Definition advances (q : process) : Prop := exists q', process_step false q q' /\ (to_do q' < to_do q)%nat.

Lemma main_advances q q' :
  main_next q = Some q' -> holder (prog q') = holder (prog q) ->
  lock_state (prog q') = lock_state (prog q) -> holder_stored q' = holder_stored q ->
  waiter_stored q' = waiter_stored q -> (main_weight (main_at q') < main_weight (main_at q))%nat ->
  advances q.
Proof.
  intros Hn H1 H2 H3 H4 Hw. exists q'. split; [by constructor|]. unfold to_do.
  rewrite H1, H2, H3, H4. lia.
Qed.

(** Thread [t] takes its next step on the lock. *)
Lemma lock_advances q t pc w pc' :
  process_inv q -> running q = true -> may_move (prog q) t = true -> thread_at q t = Some pc ->
  pc <> Idle \/ (if (t =? 0)%nat then holder_stored q else waiter_stored q) = true ->
  own_step pc (word (lock_state (prog q))) = Some (w, pc') -> (t < 2)%nat ->
  (pc_distance pc' < pc_distance pc)%nat -> advances q.
Proof.
  intros Hi Hr Hm Ht Hst Ho Ht2 Hd. eexists. split.
  - eapply proc_threads; [done|by eapply ps_own|done|..]; intros Hs; cbn;
      [pose proof (qi_htid _ Hi Hs) as Hx|pose proof (qi_wtid _ Hi Hs) as Hx];
      rewrite list_lookup_insert_ne; try done; intros ->; rewrite Hs in Hst; cbn in Hst;
      destruct Hst; congruence.
  - unfold to_do. cbn [prog main_at holder holder_stored waiter_stored lock_state threads]. pose proof (distance_set _ _ _ pc' Ht) as Hds.
    assert (holder_weight (holder_after (mkMutex w (<[t := pc']> (threads (lock_state (prog q)))))
      (holder (prog q))) <= holder_weight (holder (prog q)))%nat as Hw.
    { unfold holder_after. destruct (holder (prog q)); try done. case_decide; cbn [holder_weight]; lia. }
    unfold distance, thread_at in *.
    lia.
Qed.

Lemma wake_advances q t :
  process_inv q -> running q = true -> thread_at q t = Some UnlockWake -> advances q.
Proof.
  intros Hi Hr Ht. unfold thread_at in Ht.
  pose proof (distance_set _ _ _ Finished Ht) as Hd1.
  assert (forall i, thread_at q i = Some Idle -> i <> t) as Hnt.
  { intros i Hx ->. unfold thread_at in Hx. congruence. }
  destruct (decide (Sleeping ∈ threads (lock_state (prog q)))) as [Hs|Hs].
  - apply list_elem_of_lookup in Hs as [u Hu].
    assert (<[t := Finished]> (threads (lock_state (prog q))) !! u = Some Sleeping) as Hu'
      by (rewrite list_lookup_insert_ne; congruence).
    pose proof (distance_set _ _ _ LockSwap Hu') as Hd2.
    assert (forall i, thread_at q i = Some Idle -> i <> u) as Hnu.
    { intros i Hx ->. unfold thread_at in Hx. congruence. }
    eexists. split; [eapply proc_threads; [done|by eapply ps_wake|done|..]|].
    + intros Hst. cbn. pose proof (qi_htid _ Hi Hst) as Hx.
      rewrite !list_lookup_insert_ne; auto using not_eq_sym.
    + intros Hst. cbn. pose proof (qi_wtid _ Hi Hst) as Hx.
      rewrite !list_lookup_insert_ne; auto using not_eq_sym.
    + unfold to_do, distance, set_pc in *.
      cbn [prog main_at holder holder_stored waiter_stored lock_state threads pc_distance] in *. lia.
  - eexists. split; [eapply proc_threads; [done|by eapply ps_wake_none|done|..]|].
    + intros Hst. cbn. pose proof (qi_htid _ Hi Hst) as Hx.
      rewrite list_lookup_insert_ne; auto using not_eq_sym.
    + intros Hst. cbn. pose proof (qi_wtid _ Hi Hst) as Hx.
      rewrite list_lookup_insert_ne; auto using not_eq_sym.
    + unfold to_do, distance, set_pc in *.
      cbn [prog main_at holder holder_stored waiter_stored lock_state threads pc_distance] in *. lia.
Qed.

(** The holder's own business: the flag, the file, the reads. *)
Lemma holder_advances q h :
  running q = true -> program_step opened alloc pread false (prog q)
    (mkProgram (lock_state (prog q)) h true (waiter_spawned (prog q))) ->
  (holder_weight h < holder_weight (holder (prog q)))%nat -> advances q.
Proof.
  intros Hr Hs Hw. eexists. split; [by eapply proc_threads|]. unfold to_do.
  cbn [prog main_at holder holder_stored waiter_stored lock_state]. lia.
Qed.

Lemma htid_advances q : running q = true -> holder_stored q = false -> advances q.
Proof.
  intros Hr Hs. eexists. split; [by apply proc_holder_tid|]. unfold to_do. rewrite Hs. cbn -[distance]. lia.
Qed.

Lemma wtid_advances q :
  running q = true -> waiter_spawned (prog q) = true -> waiter_stored q = false -> advances q.
Proof.
  intros Hr Hw Hs. eexists. split; [by apply proc_waiter_tid|]. unfold to_do. rewrite Hs.
  cbn -[distance]. lia.
Qed.

(** While main polls for the flag. *)
Lemma polling_advances q : process_inv q -> main_at q = MainPolling -> advances q.
Proof.
  intros Hi Hm. assert (running q = true) as Hr by (unfold running; by rewrite Hm).
  destruct (holder_acquired (prog q)) eqn:Ha.
  { destruct (spawn_error 1) eqn:Es; (eapply (main_advances q);
      [unfold main_next; rewrite Hm, Ha, Es; reflexivity|done..|]); rewrite Hm; cbn; lia. }
  pose proof (program_reachable_inv _ _ _ _ (qi_reach _ Hi)) as Hp.
  pose proof (qi_holder _ Hi) as Hh. unfold holder_sound in Hh. rewrite Ha in Hh.
  destruct (pinv_threads _ _ Hp) as (h & w & Ht & _ & _ & _ & Hw & Hl & _).
  destruct (holder (prog q)) eqn:Eh; try (by destruct Hh).
  - destruct (holder_stored q) eqn:Es; [|by apply htid_advances].
    assert (h = Idle) as -> by by apply Hl. destruct (holder_finds_free _ _ _ Hp Ht) as [H0 ->].
    eapply (lock_advances q 0 Idle 1 Critical); try done.
    + unfold may_move. by rewrite Ht, Eh.
    + unfold thread_at. by rewrite Ht.
    + by right.
    + by rewrite H0.
    + lia.
    + cbn. lia.
  - apply (holder_advances q (holder_opens opened alloc)); [done|by apply ps_store|].
    rewrite Eh. pose proof holder_opens_sound as Ho.
    destruct (holder_opens opened alloc); try done; cbn [holder_weight]; lia.
Qed.

(** While main waits for the holder. *)
Lemma join_holder_advances q : process_inv q -> main_at q = MainJoinHolder -> advances q.
Proof.
  intros Hi Hm. assert (running q = true) as Hr by (unfold running; by rewrite Hm).
  pose proof (qi_main _ Hi) as Hsp. unfold main_sound in Hsp. rewrite Hm in Hsp.
  pose proof (program_reachable_inv _ _ _ _ (qi_reach _ Hi)) as Hp.
  destruct (pinv_acquired _ _ Hp (pinv_flag _ _ Hp Hsp)) as [HnL HnS].
  pose proof (pinv_reads _ _ Hp) as Hrd.
  destruct (pinv_threads _ _ Hp) as (h & w & Ht & H1 & H2 & H3 & _ & Hl & Hc).
  destruct (holder (prog q)) as [| |i| |] eqn:Eh; try done.
  - eapply (holder_advances q (if pread i <? 0 then Panicked
      else if decide (S i = READ_REPEATS) then Unlocking else Reading (S i))); [done| |].
    + rewrite <- (pinv_flag _ _ Hp Hsp). apply ps_read; [done|apply Hrd].
    + rewrite Eh. destruct Hrd as [Hlt _]. destruct (_ <? 0); [cbn [holder_weight]; lia|].
      case_decide; cbn [holder_weight]; lia.
  - assert (thread_at q 0 = Some h) as Hh by (unfold thread_at; by rewrite Ht).
    destruct h; try done; [by discriminate (proj2 Hl eq_refl)|..|].
    + eapply (lock_advances q 0 Critical); [done|done| |done|by left|reflexivity|lia|].
      * unfold may_move. by rewrite Ht, Eh.
      * destruct (_ =? 2); cbn; lia.
    + by eapply wake_advances.
    + eapply (main_advances q); [unfold main_next; rewrite Hm, Eh, decide_True by done; reflexivity|done..|].
      rewrite Hm. cbn. lia.
  - eapply (main_advances q); [unfold main_next; rewrite Hm, Eh; reflexivity|done..|].
    rewrite Hm. cbn. lia.
Qed.

(** While main waits for the waiter, which cannot be asleep any more. *)
Lemma join_waiter_advances q : process_inv q -> main_at q = MainJoinWaiter -> advances q.
Proof.
  intros Hi Hm. assert (running q = true) as Hr by (unfold running; by rewrite Hm).
  pose proof (qi_main _ Hi) as Hsp. unfold main_sound in Hsp. rewrite Hm in Hsp. destruct Hsp as [Hsp Hf].
  destruct (waiter_stored q) eqn:Hst; [|by apply wtid_advances].
  pose proof (program_reachable_inv _ _ _ _ (qi_reach _ Hi)) as Hp.
  pose proof (pinv_mutex _ _ Hp) as Hmx.
  destruct (pinv_threads _ _ Hp) as (h & w & Ht & _).
  unfold thread_at in Hf. rewrite Ht in Hf. injection Hf as ->.
  assert (thread_at q 1 = Some w) as Hw by (unfold thread_at; by rewrite Ht).
  destruct (decide (w = UnlockWake)) as [->|Hn1]; [by eapply wake_advances|].
  destruct (decide (w = Finished)) as [->|Hn2].
  { eapply (main_advances q); [unfold main_next; rewrite Hm, decide_True by done; reflexivity|done..|].
    rewrite Hm. cbn. lia. }
  assert (w <> Critical -> word (lock_state (prog q)) = 0) as H0.
  { intros Hn. destruct (Z.eq_dec (word (lock_state (prog q))) 0) as [|Hne]; [done|].
    apply (inv_held _ Hmx) in Hne. rewrite Ht in Hne.
    apply elem_of_cons in Hne as [?|?%list_elem_of_singleton]; congruence. }
  assert (w <> Sleeping) as Hns.
  { intros ->. destruct (inv_wakeup _ Hmx) as [Hx|Hx]; rewrite ?Ht in *.
    - apply elem_of_cons. right. by apply list_elem_of_singleton.
    - rewrite H0 in Hx by done. done.
    - by destruct Hx as [Hx|Hx]; apply elem_of_cons in Hx as [?|?%list_elem_of_singleton]. }
  assert (exists w' pc', own_step w (word (lock_state (prog q))) = Some (w', pc') /\
    (pc_distance pc' < pc_distance w)%nat) as (w' & pc' & Ho & Hd).
  { destruct w; try done; try rewrite H0 by done; eexists _, _; (split; [reflexivity|]); cbn; try lia.
    destruct (_ =? 2); cbn; lia. }
  eapply (lock_advances q 1 w); eauto.
Qed.

Lemma process_advances q : process_inv q -> ended q = false -> advances q.
Proof.
  intros Hi He. destruct (main_at q) eqn:Hm; try (unfold ended in He; by rewrite Hm in He).
  - eapply (main_advances q); [unfold main_next; by rewrite Hm|done..|]. rewrite Hm. cbn [set_main main_at].
    unfold main_start. repeat case_match; cbn; lia.
  - by apply polling_advances.
  - by apply join_holder_advances.
  - by apply join_waiter_advances.
  - destruct print_error eqn:Ep; (eapply (main_advances q);
      [unfold main_next; rewrite Hm, Ep; reflexivity|done..|]); rewrite Hm; cbn; lia.
Qed.

(** A step without a spurious return is a step. *)
Lemma process_step_calm q q' : process_step false q q' -> process_step true q q'.
Proof.
  destruct 1 as [q q' Hn|q Hr Hst|q Hr Hw Hst|q p' Hr Hp Hw Hk0 Hk1]; [by constructor..|].
  apply proc_threads; [done| |done..]. destruct Hp; [by econstructor..|done|by econstructor|by econstructor|by econstructor].
Qed.

Lemma process_can_end q : process_inv q -> exists q', rtc (process_step false) q q' /\ ended q' = true.
Proof.
  remember (to_do q) as k eqn:Hk. revert q Hk. induction k as [k IH] using lt_wf_ind.
  intros q -> Hi. destruct (ended q) eqn:He; [by exists q; split; [apply rtc_refl|]|].
  destruct (process_advances q Hi He) as (q1 & Hs & Hlt).
  destruct (IH _ Hlt q1 eq_refl) as (q' & Hr & He'); [by eapply process_step_inv, Hi; apply process_step_calm|].
  exists q'. split; [by eapply rtc_l|done].
Qed.

(** *** Properties *)

(** C15: The reproducer never gets stuck: from every state it can reach, under
    every interleaving, with spurious returns from [futex_wait] or without, with
    every outcome of its reads, of [thread::spawn] and of [println!], it can
    still end, with no spurious return on the way: a waiter asleep is woken by
    the holder. (A holder that panics with the lock held leaves the waiter
    asleep, but main, which joins the holder first, panics too and takes the
    process with it.) *)
Theorem reproducer_can_end q :
  process_reachable q -> exists q', rtc (process_step false) q q' /\ ended q' = true.
Proof. intros Hr. by apply process_can_end, process_reachable_inv. Qed.

(** C16: How it ends: it returns success only after all 64 reads succeeded and
    both threads finished, having printed the one line with their ids; it
    returns an error only if its executable's path or length cannot be read; it
    panics, with that message, only if the executable is too small, a thread
    cannot be spawned, the read failed or the line cannot be printed; and no
    line is printed in any other case than success. *)
Theorem reproducer_outcome q :
  process_reachable q ->
  match main_at q with
  | MainReturned (Ok _) =>
      out q = [done_line pid (as_u32 (gettid 0)) (as_u32 (gettid 1))] /\
      cold_direct_read opened alloc pread = None /\
      threads (lock_state (prog q)) = [Finished; Finished]
  | MainReturned (Err e) => out q = [] /\
      (current_exe = Err e \/ exists path, current_exe = Ok path /\ metadata_len path = Err e)
  | MainPanicked msg => out q = [] /\ panics_for msg
  | _ => out q = []
  end.
Proof.
  intros Hi%process_reachable_inv. pose proof (qi_out _ Hi) as Ho. pose proof (qi_main _ Hi) as Hm.
  unfold main_sound in Hm. destruct (main_at q) as [| | | | |[[]|e]|msg]; try done.
  - split; [done|]. destruct Hm as [H0 H1].
    pose proof (program_reachable_inv _ _ _ _ (qi_reach _ Hi)) as Hp.
    destruct (pinv_threads _ _ Hp) as (h & w & Ht & _ & _ & _ & _ & Hl & Hc).
    unfold thread_at in *. rewrite Ht in *. injection H0 as ->. injection H1 as ->. split; [|done].
    pose proof (pinv_reads _ _ Hp) as Hr. pose proof (qi_holder _ Hi) as Hh. unfold holder_sound in Hh.
    destruct (holder (prog q)); try (by discriminate (Hc ltac:(done) ltac:(done)));
      [by discriminate (proj1 Hl eq_refl)|].
    destruct Hh as (_ & Hop & Hal). apply cold_direct_read_None. done.
  - split; [done|]. unfold main_start in Hm. destruct current_exe as [path|]; [right|left; congruence].
    exists path. split; [done|]. repeat case_match; congruence.
Qed.
End Main.

(** ** A run

    Both threads started and contending, then to the end. *)

Definition demo_exe : result string string := Ok "/target/debug/whyslow-synthetic"%string.
Definition demo_len (path : string) : result string Z := Ok 4000000.
Definition demo_alloc (layout : Layout) : Z := 0x7f0000001000.
Definition demo_pread (i : nat) : Z := FILE_SIZE.
Definition demo_gettid (t : nat) : Z := 4001 + Z.of_nat t.

#[local] Abbreviation demo_reachable := (process_reachable demo_exe demo_len true demo_alloc demo_pread 4000 demo_gettid (fun _ => None) None).

Definition demo_asleep : process :=
  mkProcess (mkProgram (mkMutex 2 [Critical; Sleeping]) (Reading 0) true true) MainJoinHolder true true [].

Ltac compute_state :=
  match goal with |- rtc _ ?q _ => let q' := eval vm_compute in q in
    replace q with q' by (vm_compute; reflexivity) end.
Ltac main_step := eapply rtc_l; [by apply proc_main|compute_state].
Ltac thread_step c :=
  eapply rtc_l; [eapply proc_threads; [reflexivity|c|reflexivity|first [discriminate|reflexivity]..]|compute_state].
Ltac lock_step t := thread_step ltac:(eapply (ps_own _ _ _ _ _ t); reflexivity).

Lemma demo_asleep_reachable : demo_reachable demo_asleep.
Proof.
  main_step. eapply rtc_l; [by apply proc_holder_tid|]. lock_step 0%nat.
  thread_step ltac:(by apply ps_store). main_step. eapply rtc_l; [by apply proc_waiter_tid|].
  do 3 lock_step 1%nat. apply rtc_refl.
Qed.

Lemma reproducer_can_end_witness :
  exists q', rtc (process_step demo_exe demo_len true demo_alloc demo_pread 4000 demo_gettid (fun _ => None) None false) demo_asleep q' /\
    ended q' = true.
Proof. exact (reproducer_can_end _ _ _ _ _ _ _ _ _ demo_asleep demo_asleep_reachable). Defined.

(** All reads succeed, and both threads and [main] come to their ends. *)
Lemma demo_outcome_reachable :
  demo_reachable (mkProcess (mkProgram (mkMutex 0 [Finished; Finished]) Unlocking true true)
    (MainReturned (Ok tt)) true true ["SYNTHETIC_DONE pid=4000 holder_tid=4001 waiter_tid=4002"%string]).
Proof.
  unfold process_reachable. etrans; [exact demo_asleep_reachable|].
  do 64 thread_step ltac:(eapply ps_read; [reflexivity|unfold READ_REPEATS; lia]).
  lock_step 0%nat. thread_step ltac:(by eapply (ps_wake _ _ _ _ _ 0 1)).
  do 2 lock_step 1%nat.
  thread_step ltac:(eapply (ps_wake_none _ _ _ _ _ 1); [reflexivity|apply (bool_decide_unpack _); reflexivity]).
  do 3 main_step. apply rtc_refl.
Qed.

Lemma reproducer_outcome_witness :
  ["SYNTHETIC_DONE pid=4000 holder_tid=4001 waiter_tid=4002"%string] =
    [done_line 4000 (as_u32 (gettid demo_gettid 0)) (as_u32 (gettid demo_gettid 1))] /\
  cold_direct_read true demo_alloc demo_pread = None.
Proof.
  pose proof (reproducer_outcome _ _ _ _ _ _ _ _ _ _ demo_outcome_reachable) as (H1 & H2 & _).
  by split.
Defined.
