(* ===== verification/IntegrationTest.v ===== *)
(** * The integration test (whyslow-cli/tests/integration.rs)

    The test runs the reproducer under [whyslow run], finds the two thread ids
    in the line the reproducer prints, and looks for the known chain in the
    output. Here is what it computes from the output it captures, with the
    [str] methods it uses, and that it passes wherever the ground truth of
    [GroundTruth] happens. *)

From S2P Require Import Prelude RustStd Layout Common Vmlinux Ebpf EbpfSpec EbpfProps KernelMaps.
From S2P Require Import Concurrent Lossy Capacity Consumer Slots Trace Ui Causal CausalProps ReportText Paths.
From S2P Require Import Os Bpf BpfProps GroundTruth Bystanders Synthetic SyntheticMain.

(** ** [str] methods, on UTF-8 bytes *)

Definition newline : byte := byte_of 10.
Definition carriage_return : byte := byte_of 13.

(** [str::lines]: each line without its newline and one carriage return
    before it; [acc] is the line read so far, reversed. *)
Definition chomp (acc : list byte) : list byte :=
  match acc with
  | c :: acc' => if decide (c = carriage_return) then reverse acc' else reverse acc
  | [] => []
  end.

Fixpoint lines_from (acc : list byte) (l : list byte) : list (list byte) :=
  match l with
  | [] => if decide (acc = []) then [] else [reverse acc]
  | b :: l =>
      if decide (b = newline) then chomp acc :: lines_from [] l
      else lines_from (b :: acc) l
  end.

Definition str_lines (l : list byte) : list (list byte) := lines_from [] l.

Fixpoint strip_prefix (p l : list byte) : option (list byte) :=
  match p, l with
  | [], _ => Some l
  | a :: p, b :: l => if decide (a = b) then strip_prefix p l else None
  | _ :: _, [] => None
  end.

Definition starts_with (p l : list byte) : bool := bool_decide (is_Some (strip_prefix p l)).

Fixpoint contains (needle l : list byte) : bool :=
  starts_with needle l || match l with [] => false | _ :: l => contains needle l end.

(** The encodings of the characters with the property White_Space. *)
Definition white_space : list (list byte) :=
  map (map byte_of)
    ([[9]; [10]; [11]; [12]; [13]; [32]; [0xC2; 0x85]; [0xC2; 0xA0]; [0xE1; 0x9A; 0x80]] ++
     map (fun i => [0xE2; 0x80; 0x80 + Z.of_nat i]) (seq 0 11) ++
     [[0xE2; 0x80; 0xA8]; [0xE2; 0x80; 0xA9]; [0xE2; 0x80; 0xAF]; [0xE2; 0x81; 0x9F]; [0xE3; 0x80; 0x80]]).

(** The bytes of the white space character at the head, if there is one. *)
Definition white_space_len (l : list byte) : nat :=
  match List.find (fun w => starts_with w l) white_space with Some w => length w | None => 0 end.

Definition flush (acc : list byte) : list (list byte) := if decide (acc = []) then [] else [reverse acc].

(** [str::split_whitespace]; [skip] bytes of a white space character are left. *)
Fixpoint words_from (skip : nat) (acc l : list byte) : list (list byte) :=
  match l with
  | [] => flush acc
  | b :: l' =>
      match skip with
      | S skip => words_from skip acc l'
      | O =>
          match white_space_len l with
          | O => words_from 0 (b :: acc) l'
          | S n => flush acc ++ words_from n [] l'
          end
      end
  end.

Definition split_whitespace (l : list byte) : list (list byte) := words_from 0 [] l.

(** [<u32 as FromStr>::from_str], without the kind of the error. *)
Definition to_digit (b : byte) : option Z :=
  if between 48 57 (byte_val b) then Some (byte_val b - 48) else None.

Fixpoint parse_digits (acc : Z) (l : list byte) : option Z :=
  match l with
  | [] => Some acc
  | b :: l => d ← to_digit b; let acc := acc * 10 + d in if acc <? 2 ^ 32 then parse_digits acc l else None
  end.

Definition parse_u32 (l : list byte) : option Z :=
  match l with
  | [] => None
  | [b] => d ← to_digit b; Some d
  | b :: rest => if decide (b = byte_of 43) then parse_digits 0 rest else parse_digits 0 l
  end.

(** ** The test *)

Definition nl : string := String newline "".

Definition tid_field (tids : option Z * option Z) (field : list byte) : option Z * option Z :=
  match strip_prefix (bytes_of_string "holder_tid=") field with
  | Some v => (parse_u32 v, tids.2)
  | None =>
      match strip_prefix (bytes_of_string "waiter_tid=") field with
      | Some v => (tids.1, parse_u32 v)
      | None => tids
      end
  end.

Definition parse_synthetic_tids (output : list byte) : option (Z * Z) :=
  line ← List.find (starts_with (bytes_of_string "SYNTHETIC_DONE")) (str_lines output);
  let '(holder, waiter) := foldl tid_field (None, None) (split_whitespace line) in
  h ← holder; w ← waiter; Some (h, w).

(** What the output must say of the two threads. *)
Definition says (stdout : list byte) (s : string) : bool := contains (bytes_of_string s) stdout.

Section Test.
Context {W : Type}.

Definition assert_that (b : bool) (msg : string) : M W unit := if b then ret tt else panic msg.

Definition expect {A} (o : option A) (msg : string) : M W A := match o with Some a => ret a | None => panic msg end.

Definition check_chain (stdout : list byte) (holder_tid waiter_tid : Z) : M W unit :=
  let output := string_of_bytes stdout in
  let holder := fmt_display holder_tid in
  let waiter := fmt_display waiter_tid in
  assert_that (says stdout ("tid " +:+ waiter +:+ " blocked") && says stdout "on futex")
    ("expected waiter tid " +:+ waiter +:+ "'s blocked-on-futex line in output:" +:+ nl +:+ output) ;!
  assert_that (says stdout ("woken by tid " +:+ holder))
    ("expected 'woken by tid " +:+ holder +:+ "' in output:" +:+ nl +:+ output) ;!
  assert_that (says stdout ("tid " +:+ holder) && says stdout "block I/O")
    ("expected holder tid " +:+ holder +:+ "'s block I/O root cause in output:" +:+ nl +:+ output).

(** From the exit status' success and the bytes on standard output and
    standard error. *)
Definition check_output (success : bool) (out err : list byte) : M W unit :=
  let stdout := from_utf8_lossy out in
  eprintln ("--- whyslow run stdout ---" +:+ nl +:+ string_of_bytes stdout) ;!
  eprintln ("--- whyslow run stderr ---" +:+ nl +:+ string_of_bytes (from_utf8_lossy err)) ;!
  assert_that success "whyslow run exited non-zero" ;!
  let! tids := expect (parse_synthetic_tids stdout)
    "synthetic program's SYNTHETIC_DONE line not found in output" in
  check_chain stdout tids.1 tids.2.

(** *** The environment of the test

    What it calls of libc, [std::env], [std::fs] and [std::process]. A command
    gives its success, standard output and standard error, if it could be
    run. *)
Record test_os := {
  t_geteuid : W -> Z * W;
  t_getpwnam : list byte -> W -> option (list byte) * W;  (* the entry's pw_dir *)
  t_var : string -> W -> option (list byte) * W;
  t_temp_dir : W -> list byte * W;
  t_process_id : W -> Z * W;
  t_exists : list byte -> W -> bool * W;
  t_remove_file : list byte -> W -> unit * W;
  t_cargo : list string -> list byte -> list (string * list byte) -> W ->
    option (bool * list byte * list byte) * W;  (* arguments, directory, environment *)
  t_whyslow : list (list byte) -> W -> option (bool * list byte * list byte) * W;
}.

Context (os : test_os) (CARGO_MANIFEST_DIR : list byte).

Definition workspace_root : M W (list byte) :=
  expect (parent CARGO_MANIFEST_DIR) "whyslow-cli has a parent directory".

(** [CString::new] fails on an interior NUL. *)
Definition passwd_home_dir (username : list byte) : M W (option (list byte)) :=
  if decide (zero_byte ∈ username) then ret None
  else
    let! pw_dir := silent (t_getpwnam os username) in
    ret (from_utf8_lossy <$> pw_dir).

(** [std::env::var]: set, and UTF-8. *)
Definition env_var (key : string) : M W (option (list byte)) :=
  let! v := silent (t_var os key) in
  ret (v ← v; if decide (from_utf8_lossy v = v) then Some v else None).

Definition sudo_corrected_env : M W (list (string * list byte)) :=
  let! sudo_user := env_var "SUDO_USER" in
  match sudo_user with
  | None => ret []
  | Some sudo_user =>
      let! home := passwd_home_dir sudo_user in
      match home with
      | None => ret []
      | Some home =>
          let join s := path_join home (bytes_of_string s) in
          let! path := env_var "PATH" in
          ret [("HOME", from_utf8_lossy home);
               ("RUSTUP_HOME", from_utf8_lossy (join ".rustup"));
               ("CARGO_HOME", from_utf8_lossy (join ".cargo"));
               ("PATH", from_utf8_lossy (join ".cargo/bin") ++ bytes_of_string ":" ++ default [] path)]
      end
  end.

Definition build_synthetic : M W (list byte) :=
  let! root := workspace_root in
  let! env := sudo_corrected_env in
  let! output := silent (t_cargo os ["build"; "-p"; "whyslow-synthetic"] root env) in
  let! output := expect output "failed to invoke cargo to build whyslow-synthetic" in
  let '(success, out, err) := output in
  (if success then ret tt
   else eprintln ("build stdout:" +:+ nl +:+ string_of_bytes (from_utf8_lossy out) +:+ nl +:+
     "build stderr:" +:+ nl +:+ string_of_bytes (from_utf8_lossy err))) ;!
  assert_that success "building whyslow-synthetic failed" ;!
  ret (path_join root (bytes_of_string "target/debug/whyslow-synthetic")).

(** [path.to_str().unwrap()]. *)
Definition str_of_path (path : list byte) : M W (list byte) :=
  expect (if decide (from_utf8_lossy path = path) then Some path else None)
    "called `Option::unwrap()` on a `None` value".

Definition run_reproduces_known_causal_chain : M W unit :=
  let! euid := silent (t_geteuid os) in
  if negb (euid =? 0) then
    let! euid := silent (t_geteuid os) in
    eprintln ("SKIP: run_reproduces_known_causal_chain requires root/CAP_BPF (got euid " +:+
      fmt_display euid +:+ "). Run via `sudo -E cargo test`.")
  else
    let! synthetic_bin := build_synthetic in
    let! found := silent (t_exists os synthetic_bin) in
    assert_that found "synthetic binary not found after build" ;!
    let! temp := silent (t_temp_dir os) in
    let! id := silent (t_process_id os) in
    let trace_out := path_join temp
      (bytes_of_string ("whyslow-integration-test-" +:+ fmt_display id +:+ ".trace.json")) in
    let! _ := silent (t_remove_file os trace_out) in
    let! trace_arg := str_of_path trace_out in
    let! bin_arg := str_of_path synthetic_bin in
    let! output := silent (t_whyslow os
      [bytes_of_string "run"; bytes_of_string "--trace-out"; trace_arg; bytes_of_string "--slowest";
       bytes_of_string "5"; bytes_of_string "--"; bin_arg]) in
    let! output := expect output "failed to run whyslow" in
    let '(success, out, err) := output in
    check_output success out err ;!
    silent (t_remove_file os trace_out).
End Test.
Arguments test_os : clear implicits.

(** ** The methods *)

Lemma strip_prefix_Some p l k : strip_prefix p l = Some k <-> l = p ++ k.
Proof.
  revert l. induction p as [|a p IH]; intros [|b l]; cbn; try (split; congruence).
  case_decide; [subst; rewrite IH; split; congruence|split; congruence].
Qed.

Lemma starts_with_iff p l : starts_with p l = true <-> exists k, l = p ++ k.
Proof.
  unfold starts_with. rewrite bool_decide_eq_true. split; intros [k Hk]; exists k; by apply strip_prefix_Some.
Qed.

Lemma contains_iff needle l : contains needle l = true <-> exists a b, l = a ++ needle ++ b.
Proof.
  split.
  - induction l as [|x l IH]; cbn; rewrite orb_true_iff, starts_with_iff.
    + intros [[k Hk]|]; [by exists [], k|done].
    + intros [[k Hk]|(a & b & ->)%IH]; [by exists [], k|by exists (x :: a), b].
  - intros (a & b & ->). induction a as [|x a IH]; cbn [app].
    + assert (starts_with needle (needle ++ b) = true) as Hs by (apply starts_with_iff; by exists b).
      destruct (needle ++ b); cbn [contains]; by rewrite Hs.
    + cbn [contains]. by rewrite IH, orb_true_r.
Qed.

(** *** Lines *)

Lemma lines_from_line acc l k :
  newline ∉ l -> lines_from acc (l ++ newline :: k) = chomp (reverse l ++ acc) :: str_lines k.
Proof.
  revert acc. induction l as [|b l IH]; intros acc Hn; cbn [app lines_from].
  - by rewrite decide_True.
  - apply not_elem_of_cons in Hn as [Hb Hn]. rewrite decide_False, IH by congruence.
    by rewrite reverse_cons, <- app_assoc.
Qed.

Lemma str_lines_line l k :
  newline ∉ l -> str_lines (l ++ newline :: k) = chomp (reverse l) :: str_lines k.
Proof. intros Hn. unfold str_lines. by rewrite lines_from_line, app_nil_r. Qed.

Lemma chomp_prefix l : exists k, l = chomp (reverse l) ++ k.
Proof.
  induction l as [|b l _] using rev_ind; [by exists []|]. rewrite reverse_snoc. cbn [chomp].
  rewrite reverse_cons, reverse_involutive. case_decide; [by exists [b]|exists []; by rewrite app_nil_r].
Qed.

Lemma chomp_id l b : b <> carriage_return -> chomp (reverse (l ++ [b])) = l ++ [b].
Proof. intros Hb. rewrite reverse_snoc. cbn [chomp]. by rewrite decide_False, reverse_cons, reverse_involutive. Qed.

(** A line that another program printed, and that does not look like the
    reproducer's. *)
Definition quiet (p : list byte) (line : string) : Prop :=
  (newline ∉ bytes_of_string line) /\ starts_with p (bytes_of_string line) = false.

Definition unlines (ls : list string) : string := String.concat "" (map (fun l => l +:+ String newline "") ls).

Lemma unlines_cons l ls :
  bytes_of_string (unlines (l :: ls)) = bytes_of_string l ++ newline :: bytes_of_string (unlines ls).
Proof.
  unfold unlines. destruct ls as [|l' ls]; cbn [map String.concat].
  - by rewrite bytes_app.
  - rewrite !bytes_app. cbn [String.append]. by rewrite <- app_assoc.
Qed.

Lemma find_line p ls line rest :
  Forall (quiet p) ls -> newline ∉ line -> chomp (reverse line) = line -> starts_with p line = true ->
  List.find (starts_with p) (str_lines (bytes_of_string (unlines ls) ++ line ++ newline :: rest)) = Some line.
Proof.
  intros Hls Hn Hc Hp. induction Hls as [|l ls [Hl Hq] _ IH].
  - change (bytes_of_string (unlines []) ++ ?l) with l. rewrite str_lines_line, Hc by done. cbn. by rewrite Hp.
  - rewrite unlines_cons, <- app_assoc. cbn [app]. rewrite str_lines_line by done. cbn [List.find].
    destruct (starts_with p (chomp _)) eqn:E; [|done].
    apply starts_with_iff in E as [k Hk]. destruct (chomp_prefix (bytes_of_string l)) as [k' Hk'].
    rewrite Hk, <- app_assoc in Hk'. by rewrite (proj2 (starts_with_iff _ _) (ex_intro _ _ Hk')) in Hq.
Qed.

(** *** Fields *)

(** A printable character that is not a space. *)
Definition graphic (b : byte) : Prop := 33 <= byte_val b <= 126.

Lemma graphic_no_space b l : graphic b -> white_space_len (b :: l) = 0%nat.
Proof. unfold graphic. destruct b as [[] [] [] [] [] [] [] []]; vm_compute; intros []; congruence || done. Qed.

Lemma words_from_graphic w acc l :
  Forall graphic w -> words_from 0 acc (w ++ l) = words_from 0 (reverse w ++ acc) l.
Proof.
  intros Hw. revert acc. induction Hw as [|b w Hb _ IH]; intros acc; [done|].
  cbn [app words_from]. by rewrite graphic_no_space, IH, reverse_cons, <- app_assoc.
Qed.

Lemma flush_reverse w : w <> [] -> flush (reverse w) = [w].
Proof.
  intros Hw. unfold flush. rewrite decide_False; [by rewrite reverse_involutive|].
  intros Hr. apply Hw. by rewrite <- (reverse_involutive w), Hr.
Qed.

Lemma split_whitespace_one w : w <> [] -> Forall graphic w -> split_whitespace w = [w].
Proof.
  intros Hw Hg. unfold split_whitespace. rewrite <- (app_nil_r w) at 1.
  rewrite words_from_graphic, app_nil_r by done. by apply flush_reverse.
Qed.

Lemma split_whitespace_cons w l :
  w <> [] -> Forall graphic w -> split_whitespace (w ++ byte_of 32 :: l) = w :: split_whitespace l.
Proof.
  intros Hw Hg. unfold split_whitespace. rewrite words_from_graphic, app_nil_r by done.
  cbn [words_from]. change (white_space_len (byte_of 32 :: l)) with 1%nat. cbv iota.
  by rewrite flush_reverse.
Qed.

(** *** Numbers *)

Lemma to_digit_char d : 0 <= d < 10 -> to_digit (digit_char d) = Some d.
Proof.
  intros Hd. unfold to_digit, digit_char, between. rewrite (proj2 (Z.ltb_lt d 10)) by lia.
  rewrite byte_val_of by lia. rewrite (proj2 (Z.leb_le 48 _)), (proj2 (Z.leb_le _ 57)) by lia.
  cbn. f_equal. lia.
Qed.

Lemma parse_digits_snoc acc l b :
  parse_digits acc (l ++ [b]) = n ← parse_digits acc l; parse_digits n [b].
Proof.
  revert acc. induction l as [|c l IH]; intros acc; [done|]. cbn [app parse_digits].
  destruct (to_digit c); cbn -[Z.pow]; [|done]. case_match; [apply IH|done].
Qed.

Lemma of_digits_nonneg ds : Forall (fun d => 0 <= d < 10) ds -> 0 <= of_digits 10 ds.
Proof. induction 1 as [|d ds Hd _ IH]; cbn; [lia|]. fold (of_digits 10 ds). lia. Qed.

Lemma parse_digits_of ds :
  Forall (fun d => 0 <= d < 10) ds -> of_digits 10 ds < 2 ^ 32 ->
  parse_digits 0 (digit_char <$> reverse ds) = Some (of_digits 10 ds).
Proof.
  induction 1 as [|d ds Hd Hds IH]; intros Hlt; [done|].
  rewrite reverse_cons, fmap_app. cbn [fmap list_fmap]. rewrite parse_digits_snoc.
  change (of_digits 10 (d :: ds)) with (d + 10 * of_digits 10 ds) in *.
  pose proof (of_digits_nonneg ds Hds).
  rewrite IH by lia. cbn -[Z.pow digit_char of_digits]. rewrite to_digit_char by done. cbn -[Z.pow of_digits].
  rewrite (proj2 (Z.ltb_lt _ _)) by lia. f_equal. lia.
Qed.

(** The digits of a number; they are not empty. *)
Lemma fmt_radix_digits n : 0 <= n ->
  exists ds, bytes_of_string (fmt_radix 10 n) = digit_char <$> reverse ds /\ ds <> [] /\
    Forall (fun d => 0 <= d < 10) ds /\ of_digits 10 ds = n.
Proof.
  intros Hn. exists (radix_digits (radix_fuel n) 10 n). split_and!.
  - unfold fmt_radix. by rewrite String.list_ascii_of_string_of_list_ascii.
  - unfold radix_fuel. cbn [radix_digits]. by destruct (n <? 10).
  - apply radix_digits_range; lia.
  - apply radix_digits_of; lia.
Qed.

Lemma digit_char_graphic d : 0 <= d < 10 -> graphic (digit_char d) /\ digit_char d <> byte_of 43.
Proof.
  intros Hd. unfold graphic, digit_char. rewrite (proj2 (Z.ltb_lt d 10)) by lia.
  rewrite byte_val_of by lia. split; [lia|]. intros E%(f_equal byte_val). rewrite !byte_val_of in E by lia. lia.
Qed.

Lemma parse_u32_display n : is_u32 n -> parse_u32 (bytes_of_string (fmt_display n)) = Some n.
Proof.
  unfold is_uint. intros Hn. unfold fmt_display. rewrite (proj2 (Z.ltb_ge n 0)) by lia.
  destruct (fmt_radix_digits n ltac:(lia)) as (ds & -> & Hne & Hds & Hof).
  pose proof (parse_digits_of ds Hds ltac:(lia)) as Hp. rewrite Hof in Hp.
  assert (Forall (fun b => graphic b /\ b <> byte_of 43) (digit_char <$> reverse ds)) as Hg.
  { apply Forall_fmap, Forall_reverse. eapply Forall_impl; [exact Hds|]. exact digit_char_graphic. }
  destruct (digit_char <$> reverse ds) as [|b [|b' l]] eqn:E.
  - apply fmap_nil_inv in E. destruct Hne. by rewrite <- (reverse_involutive ds), E.
  - cbn -[Z.pow] in Hp |- *. destruct (to_digit b); cbn -[Z.pow] in *; [|done]. by case_match.
  - apply Forall_cons in Hg as [[_ Hb] _]. unfold parse_u32. by rewrite decide_False.
Qed.

Lemma fmt_display_graphic n : Forall graphic (bytes_of_string (fmt_display n)).
Proof.
  assert (forall m, 0 <= m -> Forall graphic (bytes_of_string (fmt_radix 10 m))) as Hr.
  { intros m Hm. destruct (fmt_radix_digits m Hm) as (ds & -> & _ & Hds & _).
    apply Forall_fmap, Forall_reverse. eapply Forall_impl; [exact Hds|].
    intros d Hd. by apply digit_char_graphic. }
  unfold fmt_display. destruct (Z.ltb_spec n 0); [|by apply Hr].
  rewrite bytes_app. apply Forall_app. split; [|apply Hr; lia].
  repeat constructor; unfold graphic; by vm_compute.
Qed.

(** *** The reproducer's line *)

Definition is_graphic (b : byte) : bool := between 33 126 (byte_val b).

Lemma graphic_literal l : forallb is_graphic l = true -> Forall graphic l.
Proof.
  intros H. apply Forall_forall. intros b Hb%list_elem_of_In.
  pose proof (proj1 (forallb_forall _ _) H b Hb) as Hg. unfold is_graphic, between in Hg.
  apply andb_true_iff in Hg as [??]. unfold graphic. lia.
Qed.

Definition field (name : string) (n : Z) : list byte := bytes_of_string (name +:+ fmt_display n).

Lemma field_graphic name n : forallb is_graphic (bytes_of_string name) = true -> Forall graphic (field name n).
Proof.
  intros H. unfold field. rewrite bytes_app. apply Forall_app.
  split; [by apply graphic_literal|apply fmt_display_graphic].
Qed.

Lemma done_line_fields pid h w :
  bytes_of_string (done_line pid h w) =
  bytes_of_string "SYNTHETIC_DONE" ++ byte_of 32 :: field "pid=" pid ++
    byte_of 32 :: field "holder_tid=" h ++ byte_of 32 :: field "waiter_tid=" w.
Proof. unfold done_line, field. by rewrite !bytes_app, <- !app_assoc. Qed.

Lemma strip_prefix_field name n : strip_prefix (bytes_of_string name) (field name n) = Some (bytes_of_string (fmt_display n)).
Proof. apply strip_prefix_Some. unfold field. by rewrite bytes_app. Qed.

Lemma done_line_words pid h w :
  split_whitespace (bytes_of_string (done_line pid h w)) =
  [bytes_of_string "SYNTHETIC_DONE"; field "pid=" pid; field "holder_tid=" h; field "waiter_tid=" w].
Proof.
  rewrite done_line_fields.
  rewrite !split_whitespace_cons, split_whitespace_one;
    by (apply field_graphic || apply graphic_literal || idtac).
Qed.

Lemma graphic_end l w : w <> [] -> Forall graphic w -> chomp (reverse (l ++ w)) = l ++ w.
Proof.
  intros Hw Hg. induction w as [|b w _] using rev_ind; [done|].
  apply Forall_app in Hg as [_ [Hb _]%Forall_cons]. rewrite app_assoc. apply chomp_id.
  intros ->. by destruct Hb as [Hb _].
Qed.

Lemma graphic_no_newline w : Forall graphic w -> newline ∉ w.
Proof. intros Hg Hn. rewrite Forall_forall in Hg. specialize (Hg _ Hn). by destruct Hg as [Hg _]. Qed.

Lemma done_line_ends pid h w :
  (newline ∉ bytes_of_string (done_line pid h w)) /\
  chomp (reverse (bytes_of_string (done_line pid h w))) = bytes_of_string (done_line pid h w).
Proof.
  assert (Forall graphic (field "waiter_tid=" w)) as Hw by by apply field_graphic.
  rewrite done_line_fields. split.
  - rewrite !elem_of_app, !elem_of_cons, !elem_of_app, !elem_of_cons, !elem_of_app, !elem_of_cons.
    intros [H|[H|[H|[H|[H|[H|H]]]]]]; try discriminate H; revert H; apply graphic_no_newline;
      by (apply field_graphic || apply graphic_literal || idtac).
  - assert (exists l, forall d : list byte, bytes_of_string "SYNTHETIC_DONE" ++ byte_of 32 :: field "pid=" pid ++
      byte_of 32 :: field "holder_tid=" h ++ byte_of 32 :: d = l ++ d) as [l Hl].
    { exists (bytes_of_string "SYNTHETIC_DONE" ++ byte_of 32 :: field "pid=" pid ++
        byte_of 32 :: field "holder_tid=" h ++ [byte_of 32]).
      intros d. by repeat (rewrite <- app_assoc; cbn [app]). }
    rewrite Hl. apply graphic_end; [|done]. unfold field. by rewrite bytes_app.
Qed.

(** The test finds in the output the ids the reproducer printed. *)
Lemma done_line_parsed before pid h w rest :
  Forall (quiet (bytes_of_string "SYNTHETIC_DONE")) before -> is_u32 h -> is_u32 w ->
  parse_synthetic_tids (bytes_of_string (unlines before) ++
    bytes_of_string (done_line pid h w) ++ newline :: rest) = Some (h, w).
Proof.
  intros Hb Hh Hw. destruct (done_line_ends pid h w) as [Hn Hc]. unfold parse_synthetic_tids.
  rewrite find_line; [|done..|apply starts_with_iff; rewrite done_line_fields; by eexists].
  cbn [mbind option_bind]. rewrite done_line_words. cbn [foldl].
  change (tid_field (None, None) (bytes_of_string "SYNTHETIC_DONE")) with (@None Z, @None Z).
  change (tid_field (None, None) (field "pid=" pid)) with (@None Z, @None Z).
  unfold tid_field at 2. rewrite strip_prefix_field. cbn [Datatypes.fst Datatypes.snd].
  unfold tid_field. rewrite (strip_prefix_field "waiter_tid=").
  change (strip_prefix (bytes_of_string "holder_tid=") (field "waiter_tid=" w)) with (@None (list byte)).
  cbn [Datatypes.fst Datatypes.snd]. by rewrite !parse_u32_display.
Qed.

(** *** What the report says *)

(** [s] occurs in [l]. *)
Definition occurs (s : string) (l : list byte) : Prop := exists a b, l = a ++ bytes_of_string s ++ b.

Lemma occurs_mid s a l b : occurs s l -> occurs s (a ++ l ++ b).
Proof. intros (a' & b' & ->). exists (a ++ a'), (b' ++ b). by rewrite <- !app_assoc. Qed.

Lemma occurs_unlines s line ls :
  line ∈ ls -> occurs s (bytes_of_string line) -> occurs s (bytes_of_string (unlines ls)).
Proof.
  intros Hl Hs. induction Hl as [ls|line l ls _ IH]; rewrite unlines_cons.
  - by apply (occurs_mid s []).
  - rewrite cons_middle, app_assoc, <- (app_nil_r (bytes_of_string (unlines ls))). by apply occurs_mid, IH.
Qed.

Lemma print_chains_line color (cs : list Chain) c line :
  c ∈ cs -> line ∈ lines c -> line ∈ print_chains color cs.
Proof.
  intros [i Hi]%list_elem_of_lookup Hl. destruct cs as [|c0 cs]; [done|].
  unfold print_chains. apply elem_of_app. right. apply list_elem_of_In, in_concat.
  exists (chain_lines color i c). split; apply list_elem_of_In.
  - apply (list_elem_of_lookup_2 _ i). by rewrite list_lookup_imap, Hi.
  - unfold chain_lines. apply elem_of_app. by right.
Qed.

Lemma headline_says wall tid dur what :
  occurs ("tid " +:+ fmt_display tid +:+ " blocked") (bytes_of_string (headline false wall tid dur ("on futex " +:+ what))) /\
  occurs "on futex" (bytes_of_string (headline false wall tid dur ("on futex " +:+ what))).
Proof.
  unfold headline, tid_text, blue, dim, bold_yellow, bold_red, paint. split.
  - exists (bytes_of_string (wall +:+ " " +:+ "—" +:+ " ")),
      (bytes_of_string (" " +:+ format_duration dur +:+ " " +:+ "on futex " +:+ what)).
    by rewrite !bytes_app, <- !app_assoc.
  - exists (bytes_of_string (wall +:+ " " +:+ "—" +:+ " " +:+ "tid " +:+ fmt_display tid +:+ " blocked " +:+
      format_duration dur +:+ " ")), (bytes_of_string (" " +:+ what)).
    by rewrite !bytes_app, <- !app_assoc.
Qed.

Lemma woken_line_says tid : occurs ("woken by tid " +:+ fmt_display tid) (bytes_of_string (woken_line false tid)).
Proof.
  unfold woken_line, tid_text, arrow, green, dim, bold_yellow, paint.
  exists (bytes_of_string (" " +:+ "←" +:+ " ")), []. by rewrite !bytes_app, <- !app_assoc, app_nil_r.
Qed.

Lemma blocked_line_says tid dur dev sector :
  occurs ("tid " +:+ fmt_display tid) (bytes_of_string (blocked_line false tid dur (block_io_text false dev sector))) /\
  occurs "block I/O" (bytes_of_string (blocked_line false tid dur (block_io_text false dev sector))).
Proof.
  unfold blocked_line, block_io_text, tid_text, arrow, dim, cyan, bold_yellow, bold_red, paint. split.
  - exists (bytes_of_string (" " +:+ "←" +:+ " ")),
      (bytes_of_string (" blocked " +:+ format_duration dur +:+ " on " +:+ "block I/O (dev " +:+ dev +:+
        ", sector " +:+ fmt_display sector +:+ ")")).
    by rewrite !bytes_app, <- !app_assoc.
  - exists (bytes_of_string (" " +:+ "←" +:+ " " +:+ "tid " +:+ fmt_display tid +:+ " blocked " +:+
      format_duration dur +:+ " on ")),
      (bytes_of_string (" (dev " +:+ dev +:+ ", sector " +:+ fmt_display sector +:+ ")")).
    by rewrite !bytes_app, <- !app_assoc.
Qed.

Lemma check_chain_passes {W} stdout h w (s : sys W) :
  occurs ("tid " +:+ fmt_display w +:+ " blocked") stdout -> occurs "on futex" stdout ->
  occurs ("woken by tid " +:+ fmt_display h) stdout ->
  occurs ("tid " +:+ fmt_display h) stdout -> occurs "block I/O" stdout ->
  check_chain stdout h w s = (Done tt, s).
Proof.
  unfold check_chain, says.
  intros H1%contains_iff H2%contains_iff H3%contains_iff H4%contains_iff H5%contains_iff.
  by rewrite H1, H2, H3, H4, H5.
Qed.

Lemma text_unlines ls : Forall is_text ls -> is_text (unlines ls).
Proof.
  induction 1 as [|l ls Hl _ IH]; [auto with text|]. unfold is_text. rewrite unlines_cons, cons_middle, app_assoc.
  apply utf8_valid_app; [|done]. apply utf8_valid_app; [done|]. change (is_text (String newline "")). auto with text.
Qed.

Lemma text_done_line pid h w : is_text (done_line pid h w).
Proof. unfold done_line. auto 10 with text. Qed.

(** ** The environment *)

Section Environment.
Context {W : Type} (os : test_os W) (root : list (list byte)).

Definition synthetic_bin : list byte :=
  path_join (absolute root) (bytes_of_string "target/debug/whyslow-synthetic").

(** Run as root, cargo builds the reproducer, the temporary directory has a
    UTF-8 name, and [whyslow run] succeeds with [out] and [err]. *)
Record works (out err : list byte) : Prop := {
  wk_root w : (t_geteuid os w).1 = 0;
  wk_cargo env w : exists o e,
    (t_cargo os ["build"; "-p"; "whyslow-synthetic"] (absolute root) env w).1 = Some (true, o, e);
  wk_exists w : (t_exists os synthetic_bin w).1 = true;
  wk_temp w : utf8_valid (t_temp_dir os w).1;
  wk_whyslow trace w :
    (t_whyslow os [bytes_of_string "run"; bytes_of_string "--trace-out"; trace; bytes_of_string "--slowest";
      bytes_of_string "5"; bytes_of_string "--"; synthetic_bin] w).1 = Some (true, out, err);
}.

Lemma bind_silent {A B} (call : W -> A * W) (f : A -> M W B) s :
  bind (silent call) f s = f (call (world s)).1 (mkSys (call (world s)).2 (log s) (color_cell s)).
Proof. unfold bind, silent. by destruct (call (world s)). Qed.

Lemma env_var_done key s : exists v w, env_var os key s = (Done v, mkSys w (log s) (color_cell s)).
Proof. unfold env_var. rewrite bind_silent. eauto. Qed.

Lemma sudo_corrected_env_done s :
  exists env w, sudo_corrected_env os s = (Done env, mkSys w (log s) (color_cell s)).
Proof.
  unfold sudo_corrected_env. unfold bind at 1. destruct (env_var_done "SUDO_USER" s) as ([user|] & w & ->); [|by eauto].
  unfold bind at 1, passwd_home_dir. destruct (decide _); [by eauto|]. rewrite bind_silent.
  cbn [ret log world color_cell]. destruct (t_getpwnam _ _ _).1 as [home|]; cbn [fmap option_fmap option_map]; [|by eauto].
  unfold bind. destruct (env_var_done "PATH" (mkSys (t_getpwnam os user w).2 (log s) (color_cell s)))
    as (path & w' & ->). by eauto.
Qed.

Lemma path_join_valid p q : utf8_valid p -> utf8_valid q -> utf8_valid (path_join p q).
Proof.
  intros Hp Hq. unfold path_join. destruct (has_root q); [done|]. apply utf8_valid_app; [done|].
  destruct (last p); [case_decide|]; try done. apply utf8_valid_app; [|done].
  apply ascii_utf8_valid. by repeat constructor.
Qed.

(** In such an environment the test comes down to the checks. *)
Lemma run_reproduces_checks crate out err s :
  works out err -> root <> [] -> Forall is_component (root ++ [crate]) -> utf8_valid (absolute root) ->
  exists w trace, run_reproduces_known_causal_chain os (absolute (root ++ [crate])) s =
    (check_output true out err ;! silent (t_remove_file os trace)) (mkSys w (log s) (color_cell s)).
Proof.
  intros Hw Hne Hroot Hv. unfold run_reproduces_known_causal_chain. rewrite bind_silent, (wk_root _ _ Hw).
  cbn [negb Z.eqb]. unfold build_synthetic, workspace_root. rewrite parent_absolute, decide_False by done.
  generalize (t_geteuid os (world s)).2. intros w0. unfold bind at 1 2. cbn [expect ret].
  unfold bind at 1. destruct (sudo_corrected_env_done (mkSys w0 (log s) (color_cell s))) as (env & w1 & ->).
  cbn [log color_cell]. rewrite bind_silent. cbn [log color_cell world].
  destruct (wk_cargo _ _ Hw env w1) as (o & e & ->).
  unfold bind at 1 2 3. cbn [expect ret assert_that]. fold synthetic_bin.
  rewrite bind_silent. cbn [log color_cell world]. rewrite (wk_exists _ _ Hw). unfold bind at 1. cbn [assert_that ret].
  do 3 (rewrite bind_silent; cbn [log color_cell world]).
  set (trace := path_join _ (bytes_of_string (_ +:+ _))).
  assert (utf8_valid trace) as Ht.
  { apply path_join_valid; [apply (wk_temp _ _ Hw)|].
    change (is_text ("whyslow-integration-test-" +:+ fmt_display (t_process_id os (t_temp_dir os (t_exists os synthetic_bin
      (t_cargo os ["build"; "-p"; "whyslow-synthetic"] (absolute root) env w1).2).2).2).1 +:+ ".trace.json")).
    auto 10 with text. }
  assert (utf8_valid synthetic_bin) as Hbin.
  { apply path_join_valid; [done|]. change (is_text "target/debug/whyslow-synthetic"). auto with text. }
  unfold str_of_path. rewrite !decide_True by (by apply from_utf8_lossy_id).
  unfold bind at 1 2. cbn [expect ret]. rewrite bind_silent. cbn [log color_cell world].
  rewrite (wk_whyslow _ _ Hw trace). unfold bind at 1. cbn [expect ret]. by eauto.
Qed.

Lemma checks_pass out err trace h t s :
  from_utf8_lossy out = out -> parse_synthetic_tids out = Some (h, t) ->
  (forall s : sys W, check_chain out h t s = (Done tt, s)) ->
  exists w, (check_output true out err ;! silent (t_remove_file os trace)) s =
    (Done tt, mkSys w (log s ++ [LEprint ("--- whyslow run stdout ---" +:+ nl +:+ string_of_bytes out);
       LEprint ("--- whyslow run stderr ---" +:+ nl +:+ string_of_bytes (from_utf8_lossy err))]) (color_cell s)).
Proof.
  intros Hu Hp Hc. unfold check_output. rewrite Hu, Hp.
  unfold eprintln, emit_entry, logged, bind, assert_that, expect, ret, silent. cbn [world log color_cell fst snd].
  rewrite Hc. cbn [world log color_cell]. destruct (t_remove_file os trace (world s)) as [[] w].
  rewrite <- app_assoc. by exists w.
Qed.
End Environment.

(** ** The properties *)

(** C33: The line the reproducer prints is read back: wherever it stands in the
    output, after lines that do not look like it, the test finds the two
    thread ids it was printed with. *)
Theorem done_line_round_trip before pid h w rest :
  Forall (quiet (bytes_of_string "SYNTHETIC_DONE")) before -> is_u32 h -> is_u32 w ->
  parse_synthetic_tids (bytes_of_string (unlines before) ++
    bytes_of_string (done_line pid h w) ++ newline :: rest) = Some (h, w).
Proof. apply done_line_parsed. Qed.

Lemma done_line_round_trip_witness :
  parse_synthetic_tids (bytes_of_string (unlines ["whyslow: tracing"; ""]) ++
    bytes_of_string (done_line 4000 4001 4294967295) ++ [newline]) = Some (4001, 4294967295).
Proof.
  apply done_line_round_trip; [|unfold is_uint; lia..].
  repeat constructor; try (by vm_compute); apply (bool_decide_unpack _); vm_compute; exact I.
Defined.

(** C14: The integration test passes on the runs the reproducer is built for:
    as root, with the reproducer built by cargo, and [whyslow run] printing
    the report after the reproducer's line, of a recording in which the ground
    truth happens undisturbed within the join windows, among whatever else
    happens (the holder's other reads, other threads), with at most 5 stalls as
    long as the waiter's. The handlers interleave in any way provided that no
    two in flight are about the same thread or request, no more than the
    smallest declared capacity (4095) ran, and none is inside [emit] at the
    end. Whatever other lines come before that one and whatever comes between
    it and the report, the ids are found and the report says of them all that
    the test asserts. Standard output is a pipe, so it has no colours. *)
Theorem integration_test_passes {W : Type} (read_link : string -> W -> option (list byte) * W)
    (localtime : Z -> Z * Z * Z) (c : cast) (t : times) (pad : nat -> byte) (realtime monotonic : Z)
    (w : W) (no_color : bool) (before : list string) (pid : Z) (mid : string) ls evs m :
  cast_ok c -> times_ok t ->
  srun exclusive (mkSmachine loaded_slots []) ls evs m -> settled m -> Forall wf_probe ls ->
  (length ls + length (s_flight m) <= min_capacity)%nat ->
  happens c t ls -> undisturbed c t (spec_events (reverse ls)) ->
  Forall (quiet (bytes_of_string "SYNTHETIC_DONE")) before -> Forall is_text before -> is_text mid ->
  let color := (color_enabled no_color false None).1 in
  let f := mkTraceFile realtime monotonic
    (decode_all (event_bytes pad <$> (evs ++ readable (sl_items (EVENTS (s_kernel m)))))) in
  (length (List.filter (long_stall t) (events f)) <= 5)%nat ->
  exists cs w', explain read_link localtime color f 5 w = Some (cs, w') /\
    let stdout := bytes_of_string (unlines before) ++
      bytes_of_string (done_line pid (c_holder c) (c_waiter c)) ++ newline ::
      bytes_of_string mid ++ bytes_of_string (unlines (print_chains color cs)) in
    forall (V : Type) (os : test_os V) root crate err s,
      works os root stdout err -> root <> [] -> Forall is_component (root ++ [crate]) ->
      utf8_valid (absolute root) ->
      exists w, run_reproduces_known_causal_chain os (absolute (root ++ [crate])) s =
        (Done tt, mkSys w (log s ++ [LEprint ("--- whyslow run stdout ---" +:+ nl +:+ string_of_bytes stdout);
           LEprint ("--- whyslow run stderr ---" +:+ nl +:+ string_of_bytes (from_utf8_lossy err))])
         (color_cell s)).
Proof.
  intros Hc Ht Hs Hall Hwf Hl Hh Hu Hb Htb Htm color f H5. assert (color = false) as -> by (unfold color; cbn; by rewrite andb_false_r).
  destruct (chain_among_bystanders read_link localtime false c t pad realtime monotonic 5 w ls evs m
    Hc Ht Hs Hall Hwf Hl Hh Hu H5) as (cs & w' & ch & dev & He & Hin & _ & Hch).
  exists cs, w'. split; [exact He|]. intros stdout.
  assert (utf8_valid stdout) as Hv.
  { change (utf8_valid (bytes_of_string (unlines before) ++ bytes_of_string (done_line pid (c_holder c) (c_waiter c)) ++
      bytes_of_string (String newline "") ++ bytes_of_string mid ++ bytes_of_string (unlines (print_chains false cs)))).
    rewrite <- !bytes_app. change (is_text (unlines before +:+ done_line pid (c_holder c) (c_waiter c) +:+
      String newline "" +:+ mid +:+ unlines (print_chains false cs))).
    pose proof (text_unlines _ (explain_text _ _ _ _ _ _ _ _ He)). pose proof (text_unlines _ Htb).
    pose proof (text_done_line pid (c_holder c) (c_waiter c)). auto 10 with text. }
  intros V os root crate err s Hw Hne Hroot Hvr.
  destruct (run_reproduces_checks os root crate stdout err s Hw Hne Hroot Hvr) as (w1 & trace & ->).
  apply (checks_pass os stdout err trace (c_holder c) (c_waiter c) (mkSys w1 (log s) (color_cell s)));
    [by apply from_utf8_lossy_id|unfold stdout; rewrite done_line_parsed; [done|done|apply Hc|apply Hc]|].
  intros s0.
  assert (forall s line, line ∈ lines ch -> occurs s (bytes_of_string line) -> occurs s stdout) as Hocc.
  { intros x line Hline Hx. unfold stdout. rewrite app_comm_cons, !app_assoc, <- (app_nil_r (bytes_of_string (unlines (print_chains _ _)))).
    apply occurs_mid. eapply occurs_unlines; [by eapply print_chains_line|done]. }
  rewrite Hch in Hocc.
  pose proof (headline_says (format_wall_time localtime (wall_ns_for f (t_wout t))) (c_waiter c)
    (t_win t - t_wout t) (fmt_lower_hex_alt (c_uaddr c))) as [S1 S2].
  pose proof (blocked_line_says (c_holder c) (t_done t - t_issue t) dev (c_sector c mod 2 ^ 32)) as [S4 S5].
  apply check_chain_passes.
  - eapply Hocc; [apply list_elem_of_here|exact S1].
  - eapply Hocc; [apply list_elem_of_here|exact S2].
  - eapply Hocc; [apply list_elem_of_further, list_elem_of_here|apply woken_line_says].
  - eapply Hocc; [do 2 apply list_elem_of_further; apply list_elem_of_here|exact S4].
  - eapply Hocc; [do 2 apply list_elem_of_further; apply list_elem_of_here|exact S5].
Qed.

(** An environment in which all of that is so. *)
Definition test_os_printing (stdout : list byte) : test_os unit := {|
  t_geteuid _ := (0, tt);
  t_getpwnam _ _ := (Some (bytes_of_string "/home/dev"), tt);
  t_var _ _ := (Some (bytes_of_string "dev"), tt);
  t_temp_dir _ := (bytes_of_string "/tmp", tt);
  t_process_id _ := (4100, tt);
  t_exists _ _ := (true, tt);
  t_remove_file _ _ := (tt, tt);
  t_cargo _ _ _ _ := (Some (true, [], []), tt);
  t_whyslow _ _ := (Some (true, stdout, []), tt);
|}.

Definition test_root : list (list byte) := [bytes_of_string "src"].

Lemma test_components : Forall is_component (test_root ++ [bytes_of_string "whyslow-cli"]).
Proof.
  repeat apply Forall_cons_2; try apply Forall_nil_2; (split_and!; [|done..]);
    apply (bool_decide_unpack _); vm_compute; exact I.
Qed.

Lemma test_os_works stdout : works (test_os_printing stdout) test_root stdout [].
Proof. constructor; try done; [by eexists _, _|]. intros w. by apply ascii_utf8_valid; repeat constructor. Qed.

Lemma integration_test_passes_witness :
  let before := ["whyslow: tracing pid 4000"; ""] in
  exists m, srun exclusive (mkSmachine loaded_slots []) demo_session [] m /\
  let f := mkTraceFile 0 0
    (decode_all (event_bytes (fun _ => zero_byte) <$> ([] ++ readable (sl_items (EVENTS (s_kernel m)))))) in
  exists cs w', explain (fun _ (w : unit) => (None, w)) (fun _ => (0, 0, 0)) false f 5 tt = Some (cs, w') /\
    let stdout := bytes_of_string (unlines before) ++ bytes_of_string (done_line 4000 4001 4002) ++ newline ::
      bytes_of_string "" ++ bytes_of_string (unlines (print_chains false cs)) in
    exists w, run_reproduces_known_causal_chain (test_os_printing stdout)
        (absolute (test_root ++ [bytes_of_string "whyslow-cli"])) (mkSys tt [] None) =
      (Done tt, mkSys w [LEprint ("--- whyslow run stdout ---" +:+ nl +:+ string_of_bytes stdout);
         LEprint ("--- whyslow run stderr ---" +:+ nl +:+ "")] None).
Proof.
  intros before. destruct demo_session_run as (m & Hr & Hn). exists m. split; [exact Hr|]. intros f.
  destruct (integration_test_passes (fun _ (w : unit) => (None, w)) (fun _ => (0, 0, 0)) demo_cast demo_times
    (fun _ => zero_byte) 0 0 tt false before 4000 "" demo_session [] m demo_cast_ok demo_times_ok Hr
    (demo_session_settled m Hn) demo_session_wf (demo_session_fits m Hn) demo_session_happens
    demo_session_undisturbed) as (cs & w' & He & Hrun).
  - repeat constructor; try (by vm_compute); apply (bool_decide_unpack _); vm_compute; exact I.
  - repeat constructor; auto with text.
  - auto with text.
  - apply (Nat.le_trans _ 2); [|apply (bool_decide_unpack _); vm_compute; exact I].
    exact (Nat.eq_le_incl _ _ (demo_session_stalls m (fun _ => zero_byte) Hr Hn)).
  - exists cs, w'. split; [exact He|]. intros stdout.
    apply (Hrun unit (test_os_printing stdout) test_root (bytes_of_string "whyslow-cli") [] (mkSys tt [] None));
      [apply test_os_works|done|apply test_components|by apply ascii_utf8_valid; repeat constructor].
Defined.
